(** * Minesweeper with luck: the minefield consistency engine

    A shallow embedding of the grid model, the flood reveal, the
    partition of hidden cells, the constraint encoder, Floyd's
    combination sampler, the commit step of [alter_minefield] and the
    event handlers of [game_main] that change the grid, followed by the
    properties the specification states about them.

    Conventions.
    - C++ [int] values are carried as [Z].  Every [int] of the program is
      bounded by the grid area (at most 377 * 233 cells), so no [int]
      wraps; the [Uint8] adjacency field is reduced modulo 256 wherever
      the source stores into it.
    - [minefield] is a flat array addressed as [grid_width * y + x]; it is
      a [list cell] read with [!!!] and written with [alter].  Reading or
      writing outside the array is undefined in the source; the theorems
      are stated for coordinates inside the grid, where every index the
      code computes is inside the array.
    - An [assert] that fails aborts the run: functions that contain one
      return a [result].
    - The recursion of [bucket_reveal] is bounded by a [fuel] argument;
      running out of it is the fault [out_of_fuel], and the theorems show
      that a fuel above the number of hidden cells is never used up. *)

From stdpp Require Import base list list_numbers.
From Stdlib Require Import ZArith Lia Bool Factorial.

Open Scope Z_scope.

(** ** Outcomes *)

Inductive fault : Type :=
  | assert_k_nonneg      (* random_combination: assert(k >= 0) *)
  | assert_n_ge_k        (* random_combination: assert(n >= k) *)
  | assert_m_iff_n       (* alter_minefield: assert((m == 0) == (n == 0)) *)
  | assert_total         (* alter_minefield: assert(T == sh_mine_count + dh_mine_count) *)
  | assert_dh_j          (* alter_minefield: assert(dh_j < dh_cells) *)
  | assert_nrows         (* alter_minefield: assert(get_Nrows(lp) == ...) *)
  | out_of_fuel.         (* recursion bound of the model exhausted *)

Inductive result (A : Type) : Type :=
  | Ret (a : A)
  | Abort (f : fault).
Arguments Ret {A} a.
Arguments Abort {A} f.

Definition rbind {A B} (r : result A) (k : A → result B) : result B :=
  match r with
  | Ret a => k a
  | Abort f => Abort f
  end.

Notation "x ←r e ; k" := (rbind e (λ x, k))
  (at level 100, e at next level, k at level 200, right associativity,
   format "x  ←r  e ;  '/' k").
Notation "'ensure' b 'else' f ; k" := (if b then k else Abort f)
  (at level 100, b at next level, f at next level, k at level 200,
   right associativity).

(** A loop whose body may abort. *)
Fixpoint rfold {A B} (body : A → B → result A) (l : list B) (a : A) : result A :=
  match l with
  | [] => Ret a
  | b :: l' => a' ←r body a b; rfold body l' a'
  end.

(** ** Data model *)

Record cell : Type := mkCell {
  mine : bool;
  exploded : bool;
  flag : bool;
  qmark : bool;
  visible : bool;
  mistake : bool;
  adj : Z   (* Uint8: number of adjacent mines *)
}.

(** [cell virgin{}] : every field zero. *)
Definition virgin : cell := mkCell false false false false false false 0.

#[global] Instance cell_inhabited : Inhabited cell := populate virgin.

Definition set_mine (b : bool) (c : cell) : cell :=
  mkCell b (exploded c) (flag c) (qmark c) (visible c) (mistake c) (adj c).
Definition set_exploded (b : bool) (c : cell) : cell :=
  mkCell (mine c) b (flag c) (qmark c) (visible c) (mistake c) (adj c).
Definition set_flag (b : bool) (c : cell) : cell :=
  mkCell (mine c) (exploded c) b (qmark c) (visible c) (mistake c) (adj c).
Definition set_qmark (b : bool) (c : cell) : cell :=
  mkCell (mine c) (exploded c) (flag c) b (visible c) (mistake c) (adj c).
Definition set_visible (b : bool) (c : cell) : cell :=
  mkCell (mine c) (exploded c) (flag c) (qmark c) b (mistake c) (adj c).
Definition set_mistake (b : bool) (c : cell) : cell :=
  mkCell (mine c) (exploded c) (flag c) (qmark c) (visible c) b (adj c).

(** A store into the [Uint8] field keeps the low eight bits. *)
Definition uint8 (v : Z) : Z := v mod 256.
Definition set_adj (v : Z) (c : cell) : cell :=
  mkCell (mine c) (exploded c) (flag c) (qmark c) (visible c) (mistake c) (uint8 v).

Inductive luck : Type := neutral | great | good | bad.
Inductive game_status : Type := game_active | game_won | game_lost.

(** The globals of the program that the engine reads or writes. *)
Record game : Type := mkGame {
  grid_width : Z;
  grid_height : Z;
  minefield : list cell;
  visible_cell_count : Z;
  status : game_status;
  first_move : bool;
  config_luck : luck;
  config_qmarks : bool
}.

Definition with_minefield (g : game) (mf : list cell) : game :=
  mkGame (grid_width g) (grid_height g) mf (visible_cell_count g)
         (status g) (first_move g) (config_luck g) (config_qmarks g).
Definition with_visible_cell_count (g : game) (n : Z) : game :=
  mkGame (grid_width g) (grid_height g) (minefield g) n
         (status g) (first_move g) (config_luck g) (config_qmarks g).
Definition with_status (g : game) (s : game_status) : game :=
  mkGame (grid_width g) (grid_height g) (minefield g) (visible_cell_count g)
         s (first_move g) (config_luck g) (config_qmarks g).
Definition with_first_move (g : game) (b : bool) : game :=
  mkGame (grid_width g) (grid_height g) (minefield g) (visible_cell_count g)
         (status g) b (config_luck g) (config_qmarks g).

(** [grid_width*y + x] as an array index. *)
Definition idx (g : game) (x y : Z) : nat := Z.to_nat (grid_width g * y + x).

(** [minefield[grid_width*y + x]] *)
Definition cell_at (g : game) (x y : Z) : cell := minefield g !!! idx g x y.

(** [minefield[grid_width*y + x].field = ...] *)
Definition set_cell (g : game) (x y : Z) (f : cell → cell) : game :=
  with_minefield g (alter f (idx g x y) (minefield g)).

(** [for (k = lo; k <= hi; ++k)] *)
Definition range_incl (lo hi : Z) : list Z := seqZ lo (hi - lo + 1).

(** The loop nest over the neighbourhood of [(x, y)], clamped to the grid,
    with the [continue] on the centre:
    [for j in max(y-1,0) .. min(y+1,grid_height-1)],
    [for i in max(x-1,0) .. min(x+1,grid_width-1)]. *)
Definition around (g : game) (x y : Z) : list (Z * Z) :=
  j ← range_incl (Z.max (y - 1) 0) (Z.min (y + 1) (grid_height g - 1));
  i ← range_incl (Z.max (x - 1) 0) (Z.min (x + 1) (grid_width g - 1));
  if (i =? x) && (j =? y) then [] else [(i, j)].

(** The loop nest over the whole grid, rows outermost:
    [for y in 0 .. grid_height-1], [for x in 0 .. grid_width-1]. *)
Definition scan (g : game) : list (Z * Z) :=
  y ← seqZ 0 (grid_height g);
  x ← seqZ 0 (grid_width g);
  [(x, y)].

(** ** Region reveal *)

(** The straight-line head of [bucket_reveal]: mark visible (counting the
    cell when it was hidden), clear flag and question mark. *)
Definition reveal_cell (g : game) (x y : Z) : game :=
  let g1 :=
    if visible (cell_at g x y) then g
    else with_visible_cell_count (set_cell g x y (set_visible true))
                                 (visible_cell_count g + 1) in
  let g2 := set_cell g1 x y (set_flag false) in
  set_cell g2 x y (set_qmark false).

(** [bucket_reveal].  Besides the new state the model returns the list of
    cells on which the function was entered, in call order. *)
Fixpoint bucket_reveal (fuel : nat) (g : game) (x y : Z)
  : result (game * list (Z * Z)) :=
  match fuel with
  | O => Abort out_of_fuel
  | S fuel' =>
    let g1 := reveal_cell g x y in
    if adj (cell_at g1 x y) =? 0 then
      rfold (λ (st : game * list (Z * Z)) (ij : Z * Z),
               if visible (cell_at st.1 ij.1 ij.2) then Ret st
               else r ←r bucket_reveal fuel' st.1 ij.1 ij.2;
                    Ret (r.1, st.2 ++ r.2))
            (around g1 x y) (g1, [(x, y)])
    else Ret (g1, [(x, y)])
  end.

(** ** Grid model *)

(** [++minefield[..].adj] and [--minefield[..].adj] on a [Uint8]. *)
Definition incr_adj (c : cell) : cell := set_adj (adj c + 1) c.
Definition decr_adj (c : cell) : cell := set_adj (adj c - 1) c.

Definition spawn_mine (g : game) (x y : Z) : bool * game :=
  if mine (cell_at g x y) then (false, g)
  else
    let g1 := set_cell g x y (set_mine true) in
    (true, foldl (λ g' ij, set_cell g' ij.1 ij.2 incr_adj) g1 (around g1 x y)).

Definition remove_mine (fuel : nat) (g : game) (x y : Z) : result (bool * game) :=
  if negb (mine (cell_at g x y)) then Ret (false, g)
  else
    let g1 := set_cell g x y (set_mine false) in
    let g2 := foldl (λ g' ij, set_cell g' ij.1 ij.2 decr_adj) g1 (around g1 x y) in
    g3 ←r rfold (λ g' (ij : Z * Z),
                   if visible (cell_at g' ij.1 ij.2)
                   then r ←r bucket_reveal fuel g' ij.1 ij.2; Ret r.1
                   else Ret g')
                (around g2 x y) g2;
    Ret (true, g3).

Definition check_for_flag_mistakes (g : game) : game :=
  with_minefield g
    (foldl (λ mf i,
              if flag (mf !!! i) && negb (mine (mf !!! i))
              then alter (set_mistake true) i mf else mf)
           (minefield g)
           (seq 0 (Z.to_nat (grid_width g * grid_height g)))).

(** [new_game]: a fresh array of virgin cells, then one Bernoulli trial per
    cell in scan order; [trial x y] is the outcome of the trial made for
    cell [(x, y)].  The dimensions are those set by [recompute_dimensions]
    before the call. *)
Definition new_game (g : game) (trial : Z → Z → bool) : game :=
  let g0 := with_visible_cell_count
              (with_minefield g
                 (replicate (Z.to_nat (grid_width g * grid_height g)) virgin)) 0 in
  let g1 := foldl (λ g' xy, if trial xy.1 xy.2 then (spawn_mine g' xy.1 xy.2).2 else g')
                  g0 (scan g0) in
  with_first_move (with_status g1 game_active) true.

Definition mines_total (g : game) : Z :=
  foldl (λ count i, if mine (minefield g !!! i) then count + 1 else count)
        0 (seq 0 (Z.to_nat (grid_width g * grid_height g))).

Definition mines_remaining (g : game) : Z :=
  foldl (λ count i,
           let count1 := if mine (minefield g !!! i) then count + 1 else count in
           if flag (minefield g !!! i) && negb (mistake (minefield g !!! i))
           then count1 - 1 else count1)
        0 (seq 0 (Z.to_nat (grid_width g * grid_height g))).

Definition count_adjacent_mines (g : game) (x y : Z) : Z :=
  foldl (λ count ij, if mine (cell_at g ij.1 ij.2) then count + 1 else count)
        0 (around g x y).

Definition count_adjacent_revealed_cells (g : game) (x y : Z) : Z :=
  foldl (λ count ij, if visible (cell_at g ij.1 ij.2) then count + 1 else count)
        0 (around g x y).

Definition recompute_minefield_adj (g : game) : game :=
  foldl (λ g' xy, set_cell g' xy.1 xy.2 (set_adj (count_adjacent_mines g' xy.1 xy.2)))
        g (scan g).

(** ** Uniform combination sampler *)

(** One iteration of Floyd's loop: [r] is the value drawn from
    [uniform_int_distribution(1, j)]. *)
Definition floyd_step (combination : list bool) (j r : Z) : list bool :=
  if (combination !!! Z.to_nat (r - 1) : bool)
  then <[Z.to_nat (j - 1) := true]> combination
  else <[Z.to_nat (r - 1) := true]> combination.

(** [random_combination(n, k, combination)].  The loop visits every [j]
    of [n-k+1 .. n] once; [rnd j] is the value the generator yields in the
    iteration for [j].  The array is the caller's [new bool[n]]. *)
Definition random_combination (rnd : Z → Z) (n k : Z) : result (list bool) :=
  ensure (0 <=? k) else assert_k_nonneg;
  ensure (k <=? n) else assert_n_ge_k;
  Ret (foldl (λ combination j, floyd_step combination j (rnd j))
             (replicate (Z.to_nat n) false)
             (range_incl (n - k + 1) n)).

(** ** Constraint encoder *)

Inductive constr_type : Type := LE | GE | EQ.

(** A constraint row: the (column, coefficient) pairs handed to the solver,
    the relation and the right-hand side. *)
Record lp_row : Type := mkRow {
  row_terms : list (Z * Z);
  row_type : constr_type;
  row_rhs : Z
}.

(** The part of an [lprec] that [alter_minefield] builds. *)
Record lprec : Type := mkLp {
  lp_columns : Z;
  lp_binary : list Z;        (* columns declared with set_binary *)
  lp_break_at_first : bool;
  lp_rows : list lp_row
}.

Definition make_lp (rows columns : Z) : lprec := mkLp columns [] false [].
Definition set_binary (lp : lprec) (column : Z) : lprec :=
  mkLp (lp_columns lp) (lp_binary lp ++ [column]) (lp_break_at_first lp) (lp_rows lp).
Definition set_break_at_first (lp : lprec) (b : bool) : lprec :=
  mkLp (lp_columns lp) (lp_binary lp) b (lp_rows lp).
Definition add_row (lp : lprec) (r : lp_row) : lprec :=
  mkLp (lp_columns lp) (lp_binary lp) (lp_break_at_first lp) (lp_rows lp ++ [r]).

(** [add_constraintex(lp, count, row, colno, type, rhs)]: a sparse row, the
    first [count] entries of [colno] paired with those of [row]. *)
Definition add_constraintex (lp : lprec) (count : Z) (row : list Z) (colno : list Z)
    (ty : constr_type) (rhs : Z) : lprec :=
  add_row lp (mkRow (zip (take (Z.to_nat count) colno) (take (Z.to_nat count) row)) ty rhs).

(** [add_constraint(lp, row, type, rhs)]: a dense row; [row[0]] is ignored
    and [row[j]] is the coefficient of column [j]. *)
Definition add_constraint (lp : lprec) (row : list Z) (ty : constr_type) (rhs : Z) : lprec :=
  add_row lp (mkRow ((λ j, (j, row !!! Z.to_nat j)) <$> range_incl 1 (lp_columns lp)) ty rhs).

Definition get_Nrows (lp : lprec) : Z := Z.of_nat (length (lp_rows lp)).

(** What a row demands of a vector of variable values ([x !!! (j-1)] is
    the value of column [j], as [get_variables] returns them). *)
Definition row_value (x : list Z) (r : lp_row) : Z :=
  foldr (λ (t : Z * Z) acc, t.2 * x !!! Z.to_nat (t.1 - 1) + acc) 0 (row_terms r).
Definition row_holds (x : list Z) (r : lp_row) : Prop :=
  match row_type r with
  | LE => row_value x r <= row_rhs r
  | GE => row_rhs r <= row_value x r
  | EQ => row_value x r = row_rhs r
  end.

(** Modelled from the spec: the solver library (its header [lp_lib.h] is
    not among the sources).  A solve ends as feasible, infeasible, timed
    out through the abort callback, or with a solver-internal error;
    [OPTIMAL] and [SUBOPTIMAL] are the two codes [alter_minefield] accepts
    as feasible. *)
Inductive solve_code : Type :=
  | OPTIMAL | SUBOPTIMAL | INFEASIBLE | USERABORT | SOLVER_ERROR (code : Z).

(** Modelled from the spec: the solver as an external collaborator.
    [lp_alloc] tells whether [make_lp] returned a model; [lp_solve] gives
    the code returned by [solve] together with the variable values read by
    [get_variables] (the columns are integer, so the values are carried as
    integers and [std::lround] is the identity on them). *)
Record solver : Type := mkSolver {
  lp_alloc : bool;
  lp_solve : lprec → solve_code * list Z
}.

(** ** Partitioner *)

(** The counters of the pre-processing pass of [alter_minefield]. *)
Record partition : Type := mkPartition {
  p_dh_cells : Z;
  p_m : Z;
  p_n : Z;
  p_dh_mine_count : Z;
  p_sh_mine_count : Z;
  p_column_lookup : list Z
}.

Definition partition_step (g : game) (p : partition) (xy : Z * Z) : partition :=
  let c := cell_at g xy.1 xy.2 in
  if visible c then
    if negb (adj c =? 0)
    then mkPartition (p_dh_cells p) (p_m p + 1) (p_n p) (p_dh_mine_count p)
                     (p_sh_mine_count p) (p_column_lookup p)
    else p
  else if count_adjacent_revealed_cells g xy.1 xy.2 =? 0 then
    mkPartition (p_dh_cells p + 1) (p_m p) (p_n p)
                (if mine c then p_dh_mine_count p + 1 else p_dh_mine_count p)
                (p_sh_mine_count p) (p_column_lookup p)
  else
    mkPartition (p_dh_cells p) (p_m p) (p_n p + 1) (p_dh_mine_count p)
                (if mine c then p_sh_mine_count p + 1 else p_sh_mine_count p)
                (<[idx g xy.1 xy.2 := p_n p + 1]> (p_column_lookup p)).

Definition partition_pass (g : game) : partition :=
  foldl (partition_step g)
        (mkPartition 0 0 0 0 0
           (replicate (Z.to_nat (grid_width g * grid_height g)) 0))
        (scan g).

(** The row added for the revealed number at [(x, y)]: the inner loop fills
    [colno] with the columns of the hidden neighbours. *)
Definition number_row (g : game) (column_lookup : list Z) (lp : lprec) (x y : Z) : lprec :=
  let sparserow := replicate 8 1 in
  let '(colno, neighbors) :=
    foldl (λ (st : list Z * Z) (ij : Z * Z),
             if negb (visible (cell_at g ij.1 ij.2))
             then (<[Z.to_nat st.2 := column_lookup !!! idx g ij.1 ij.2]> st.1, st.2 + 1)
             else st)
          (replicate 8 0, 0) (around g x y) in
  add_constraintex lp neighbors sparserow colno EQ (adj (cell_at g x y)).

(** The model handed to [solve]: [T] and [dh_cells] are the values of the
    locals at that point, after the adjustment for a deeply hidden
    requested cell. *)
Definition build_lp (g : game) (p : partition) (T dh_cells : Z)
    (gridx gridy : Z) (mine_present requested_cell_is_deeply_hidden : bool) : lprec :=
  let n := p_n p in
  let lp0 := make_lp 0 n in
  let lp1 := foldl set_binary lp0 (range_incl 1 n) in
  let lp2 := set_break_at_first lp1 true in
  let lp3 :=
    foldl (λ lp xy,
             if visible (cell_at g xy.1 xy.2) && negb (adj (cell_at g xy.1 xy.2) =? 0)
             then number_row g (p_column_lookup p) lp xy.1 xy.2
             else lp)
          lp2 (scan g) in
  let min_shallow_mines := T - dh_cells in
  let max_shallow_mines := T in
  let ones := foldl (λ ones j, <[Z.to_nat j := 1]> ones)
                    (replicate (Z.to_nat (1 + n)) 0) (range_incl 1 n) in
  let lp4 := add_constraint lp3 ones GE min_shallow_mines in
  let lp5 := add_constraint lp4 ones LE max_shallow_mines in
  if negb requested_cell_is_deeply_hidden then
    let colno := [p_column_lookup p !!! idx g gridx gridy] in
    add_constraintex lp5 1 (replicate 8 1) colno EQ (if mine_present then 1 else 0)
  else lp5.

(** ** Completion and commit *)

(** One iteration of the write-back loop; the state is the grid with the
    two cursors [sh_j] and [dh_j]. *)
Definition commit_step (ran_lp : bool) (solution : list Z) (dh_mines : list bool)
    (dh_cells gridx gridy : Z) (st : game * Z * Z) (xy : Z * Z) : result (game * Z * Z) :=
  let '(g, sh_j, dh_j) := st in
  if negb (visible (cell_at g xy.1 xy.2)) then
    if negb (count_adjacent_revealed_cells g xy.1 xy.2 =? 0) then
      if ran_lp
      then Ret (set_cell g xy.1 xy.2 (set_mine (solution !!! Z.to_nat sh_j =? 1)),
                sh_j + 1, dh_j)
      else Ret st
    else if negb ((xy.1 =? gridx) && (xy.2 =? gridy)) then
      ensure (dh_j <? dh_cells) else assert_dh_j;
      Ret (set_cell g xy.1 xy.2 (set_mine (dh_mines !!! Z.to_nat dh_j)), sh_j, dh_j + 1)
    else Ret st
  else Ret st.

(** The [if (success)] branch of [alter_minefield]. *)
Definition commit (rnd : Z → Z) (g : game) (p : partition) (T dh_cells : Z)
    (gridx gridy : Z) (mine_present requested_cell_is_deeply_hidden : bool)
    (ran_lp : bool) (solution : list Z) : result game :=
  let n := p_n p in
  let S := if ran_lp
           then foldl (λ S j, S + solution !!! j) 0 (seq 0 (Z.to_nat n))
           else p_sh_mine_count p in
  dh_mines ←r random_combination rnd dh_cells (T - S);
  st ←r rfold (commit_step ran_lp solution dh_mines dh_cells gridx gridy)
              (scan g) (g, 0, 0);
  let g1 := st.1.1 in
  let g2 := if requested_cell_is_deeply_hidden
            then set_cell g1 gridx gridy (set_mine mine_present) else g1 in
  Ret (recompute_minefield_adj g2).

(** ** The consistency engine *)

Definition alter_minefield (sv : solver) (rnd : Z → Z) (g : game)
    (gridx gridy : Z) (mine_present : bool) : result (bool * game) :=
  if eqb mine_present (mine (cell_at g gridx gridy)) then Ret (true, g)
  else if visible (cell_at g gridx gridy) then Ret (eqb mine_present false, g)
  else
    let T := mines_total g in
    if T =? 0 then Ret (false, g)
    else if (T =? grid_width g * grid_height g) && negb mine_present then Ret (false, g)
    else
      let requested_cell_is_deeply_hidden :=
        count_adjacent_revealed_cells g gridx gridy =? 0 in
      let p := partition_pass g in
      let m := p_m p in
      let n := p_n p in
      let dh_mine_count := p_dh_mine_count p in
      ensure eqb (m =? 0) (n =? 0) else assert_m_iff_n;
      ensure T =? p_sh_mine_count p + dh_mine_count else assert_total;
      let dh_cells := if requested_cell_is_deeply_hidden
                      then p_dh_cells p - 1 else p_dh_cells p in
      let T := if requested_cell_is_deeply_hidden && mine_present then T - 1 else T in
      let done (ran_lp : bool) (solution : list Z) :=
        g' ←r commit rnd g p T dh_cells gridx gridy mine_present
                     requested_cell_is_deeply_hidden ran_lp solution;
        Ret (true, g') in
      if m =? 0 then done false []
      else if requested_cell_is_deeply_hidden && mine_present && (0 <? dh_mine_count)
      then done false []
      else if requested_cell_is_deeply_hidden && negb mine_present
              && (dh_mine_count <? dh_cells)
      then done false []
      else if negb (lp_alloc sv) then Ret (false, g)
      else
        let lp := build_lp g p T dh_cells gridx gridy mine_present
                           requested_cell_is_deeply_hidden in
        ensure get_Nrows lp =? m + 2 + (if requested_cell_is_deeply_hidden then 0 else 1)
          else assert_nrows;
        let '(solver_outcome, variables) := lp_solve sv lp in
        match solver_outcome with
        | OPTIMAL | SUBOPTIMAL => done true variables
        | _ => Ret (false, g)
        end.

(** ** Chording *)

(** [end_game(won)]; stopping the clock is not modelled. *)
Definition end_game (g : game) (won : bool) : game :=
  check_for_flag_mistakes (with_status g (if won then game_won else game_lost)).

(** The counting loop of [chord_reveal]; [None] stands for the [return]
    taken when a neighbour carries a question mark. *)
Definition chord_flag_count (g : game) (x y : Z) : option Z :=
  foldl (λ (acc : option Z) (ij : Z * Z),
           match acc with
           | None => None
           | Some flag_count =>
             let c := cell_at g ij.1 ij.2 in
             if qmark c then None
             else if negb (visible c) && flag c then Some (flag_count + 1)
             else Some flag_count
           end)
        (Some 0) (around g x y).

(** The body of the revealing loop of [chord_reveal]. *)
Definition chord_step (fuel : nat) (g : game) (ij : Z * Z) : result game :=
  let c := cell_at g ij.1 ij.2 in
  if negb (visible c) && negb (flag c) && negb (qmark c) then
    if mine c
    then Ret (end_game (set_cell g ij.1 ij.2 (set_exploded true)) false)
    else r ←r bucket_reveal fuel g ij.1 ij.2; Ret r.1
  else Ret g.

Definition chord_reveal (fuel : nat) (g : game) (x y : Z) : result game :=
  match chord_flag_count g x y with
  | None => Ret g
  | Some flag_count =>
    if adj (cell_at g x y) =? flag_count
    then rfold (chord_step fuel) (around g x y) g
    else Ret g
  end.

(** ** The event handlers of [game_main] *)

Definition with_config_luck (g : game) (l : luck) : game :=
  mkGame (grid_width g) (grid_height g) (minefield g) (visible_cell_count g)
         (status g) (first_move g) l (config_qmarks g).
Definition with_config_qmarks (g : game) (b : bool) : game :=
  mkGame (grid_width g) (grid_height g) (minefield g) (visible_cell_count g)
         (status g) (first_move g) (config_luck g) b.

Definition GRID_WIDTH : list Z := [5; 8; 13; 21; 34; 55; 89; 144; 233; 377].
Definition GRID_HEIGHT : list Z := [3; 5; 8; 13; 21; 34; 55; 89; 144; 233].

(** [recompute_dimensions] for the value [config_gridsize] of the size
    setting; the window geometry is not modelled. *)
Definition recompute_dimensions (g : game) (config_gridsize : nat) : game :=
  mkGame (GRID_WIDTH !!! config_gridsize) (GRID_HEIGHT !!! config_gridsize)
         (minefield g) (visible_cell_count g)
         (status g) (first_move g) (config_luck g) (config_qmarks g).

Definition is_active (g : game) : bool :=
  match status g with game_active => true | _ => false end.
Definition is_bad (l : luck) : bool := match l with bad => true | _ => false end.
Definition is_great (l : luck) : bool := match l with great => true | _ => false end.
Definition is_good (l : luck) : bool := match l with good => true | _ => false end.

(** Right button pressed on [(x, y)]: a hidden cell goes from flag to
    question mark (when question marks are enabled) to unmarked. *)
Definition toggle_flag (g : game) (x y : Z) : game :=
  if negb (visible (cell_at g x y)) then
    if flag (cell_at g x y) then
      let g1 := set_cell g x y (set_flag false) in
      if config_qmarks g then set_cell g1 x y (set_qmark true) else g1
    else if qmark (cell_at g x y) then set_cell g x y (set_qmark false)
    else set_cell g x y (set_flag true)
  else g.

(** The test made after a reveal: all cells without a mine are revealed. *)
Definition check_won (g : game) : game :=
  if visible_cell_count g + mines_total g =? grid_width g * grid_height g
  then with_status g game_won else g.

(** Middle button released on [(x, y)]. *)
Definition middle_up (fuel : nat) (g : game) (x y : Z) : result game :=
  g1 ←r (if visible (cell_at g x y) then chord_reveal fuel g x y else Ret g);
  Ret (check_won g1).

(** Left button released on [(x, y)].  [alter_minefield] is called only
    when the luck setting forces the outcome ([&&] short-circuits). *)
Definition left_up (sv : solver) (rnd : Z → Z) (fuel : nat) (g : game) (x y : Z)
  : result game :=
  if negb (flag (cell_at g x y)) && negb (qmark (cell_at g x y)) then
    let luck_now :=
      if first_move g && negb (is_bad (config_luck g)) then great else config_luck g in
    let force_mine := is_bad luck_now in
    let force_nomine :=
      is_great luck_now
      || (is_good luck_now && (0 <? count_adjacent_revealed_cells g x y)) in
    let explode (g1 : game) : game :=
      end_game (set_cell g1 x y (set_exploded true)) false in
    st ←r (if mine (cell_at g x y) then
             r ←r (if force_nomine then alter_minefield sv rnd g x y false
                   else Ret (false, g));
             if r.1 then Ret (true, r.2) else Ret (false, explode r.2)
           else
             r ←r (if force_mine then alter_minefield sv rnd g x y true
                   else Ret (false, g));
             if r.1 then Ret (false, explode r.2) else Ret (true, r.2));
    g2 ←r (if (st.1 : bool)
           then r ←r bucket_reveal fuel st.2 x y; Ret (check_won r.1)
           else Ret st.2);
    Ret (with_first_move g2 false)
  else Ret g.

(** The face button: while a game is active it ends the game (as won when
    the flags are exactly on the mines), otherwise it starts a new one. *)
Definition click_face (g : game) (trial : Z → Z → bool) : game :=
  if is_active g && (mines_remaining g =? 0) then
    let won :=
      forallb (λ i, eqb (flag (minefield g !!! i)) (mine (minefield g !!! i)))
              (seq 0 (Z.to_nat (grid_width g * grid_height g))) in
    end_game g won
  else if is_active g then end_game g false
  else new_game g trial.

Definition click_luck (g : game) : game :=
  with_config_luck g
    match config_luck g with
    | neutral => great
    | great => good
    | good => bad
    | bad => neutral
    end.

Definition click_qmark_toggle (g : game) : game :=
  let g1 := with_config_qmarks g (negb (config_qmarks g)) in
  if negb (config_qmarks g1) then
    with_minefield g1
      (foldl (λ mf i, alter (set_qmark false) i mf) (minefield g1)
             (seq 0 (Z.to_nat (grid_width g1 * grid_height g1))))
  else g1.

(** ** Small helpers of the grid model *)

(** [cells_are_adjacent]: Chebyshev distance 1. *)
Definition cells_are_adjacent (cell1_x cell1_y cell2_x cell2_y : Z) : bool :=
  Z.max (Z.abs (cell1_x - cell2_x)) (Z.abs (cell1_y - cell2_y)) =? 1.

(** [mines_displayed]: the number on the mine counter. *)
Definition mines_displayed (g : game) : Z :=
  if is_active g then mines_remaining g else mines_total g.

(** ** Window geometry *)

Definition MAX_WINDOW_WIDTH : Z := 4000.
Definition MAX_WINDOW_HEIGHT : Z := 3000.
Definition BORDER_WIDTH : Z := 5.
Definition TOOLBAR_HEIGHT : Z := 40.
Definition DISPLAY1_WIDTH : Z := 25.
Definition DISPLAY3_WIDTH : Z := 67.
Definition CELL_DIM : list Z := [10; 15; 20; 25; 30; 35; 40; 50; 60; 80].

(** The globals [cell_dim], [window_width], [window_height] and
    [grid_side_padding]. *)
Record layout : Type := mkLayout {
  cell_dim : Z;
  window_width : Z;
  window_height : Z;
  grid_side_padding : Z
}.

(** The window part of [recompute_dimensions]; [/] on [int] truncates. *)
Definition recompute_layout (config_zoom config_gridsize : nat) : layout :=
  let cell_dim := CELL_DIM !!! config_zoom in
  let grid_width := GRID_WIDTH !!! config_gridsize in
  let grid_height := GRID_HEIGHT !!! config_gridsize in
  let minimum_toolbar_width :=
    2 * (DISPLAY3_WIDTH + 3 * DISPLAY1_WIDTH + 4 * TOOLBAR_HEIGHT) in
  let want_window_width := grid_width * cell_dim + 2 * BORDER_WIDTH in
  let min_window_width := minimum_toolbar_width + 2 * BORDER_WIDTH in
  mkLayout cell_dim
           (Z.max want_window_width min_window_width)
           (grid_height * cell_dim + TOOLBAR_HEIGHT + 3 * BORDER_WIDTH)
           (Z.max 0 (min_window_width - want_window_width) ÷ 2).

Record SDL_Rect : Type := mkRect { rect_x : Z; rect_y : Z; rect_w : Z; rect_h : Z }.

Definition window_coords_in_grid (ly : layout) (wx wy : Z) : bool :=
  (BORDER_WIDTH <=? wx) && (wx <? window_width ly - BORDER_WIDTH) &&
  (BORDER_WIDTH * 2 + TOOLBAR_HEIGHT <=? wy) && (wy <? window_height ly - BORDER_WIDTH).

Definition window_coords_in_rect (wx wy : Z) (rect : SDL_Rect) : bool :=
  (rect_x rect <=? wx) && (wx <? rect_x rect + rect_w rect) &&
  (rect_y rect <=? wy) && (wy <? rect_y rect + rect_h rect).

Definition coords_window_to_grid (ly : layout) (g : game) (wx wy : Z) : Z * Z :=
  let x := (wx - BORDER_WIDTH - grid_side_padding ly) ÷ cell_dim ly in
  let y := (wy - BORDER_WIDTH * 2 - TOOLBAR_HEIGHT) ÷ cell_dim ly in
  (Z.min (Z.max 0 x) (grid_width g - 1), Z.min (Z.max 0 y) (grid_height g - 1)).

(** The rectangle [render_cell] and [render_grid] draw cell [(x, y)] into. *)
Definition cell_rect (ly : layout) (x y : Z) : SDL_Rect :=
  mkRect (cell_dim ly * x + BORDER_WIDTH + grid_side_padding ly)
         (cell_dim ly * y + BORDER_WIDTH * 2 + TOOLBAR_HEIGHT)
         (cell_dim ly) (cell_dim ly).

(** [cursor_grid_location::update]: the fields [in_grid], [x], [y]. *)
Definition cursor_grid_location_update (ly : layout) (g : game) (wx wy : Z)
  : bool * Z * Z :=
  if window_coords_in_grid ly wx wy
  then let '(x, y) := coords_window_to_grid ly g wx wy in (true, x, y)
  else (false, 0, 0).

(** ** The settings behind the toolbar buttons *)

Record config : Type := mkConfig {
  config_density : Z;
  config_gridsize : Z;
  config_zoom : Z
}.

(** The values the program starts with. *)
Definition initial_config : config := mkConfig 5 4 3.

Definition layout_of (c : config) : layout :=
  recompute_layout (Z.to_nat (config_zoom c)) (Z.to_nat (config_gridsize c)).

Definition too_large (ly : layout) : bool :=
  (MAX_WINDOW_WIDTH <=? window_width ly) || (MAX_WINDOW_HEIGHT <=? window_height ly).

(** The six callbacks, as far as they change the settings; resizing the
    window and starting a new game are what follows a change. *)
Definition decrement_density (c : config) : config :=
  if config_density c =? 0 then c
  else mkConfig (config_density c - 1) (config_gridsize c) (config_zoom c).
Definition increment_density (c : config) : config :=
  if config_density c =? 9 then c
  else mkConfig (config_density c + 1) (config_gridsize c) (config_zoom c).
Definition decrement_gridsize (c : config) : config :=
  if config_gridsize c =? 0 then c
  else mkConfig (config_density c) (config_gridsize c - 1) (config_zoom c).
Definition increment_gridsize (c : config) : config :=
  if config_gridsize c =? 9 then c
  else
    let c' := mkConfig (config_density c) (config_gridsize c + 1) (config_zoom c) in
    if too_large (layout_of c') then c (* rollback *) else c'.
Definition decrement_zoom (c : config) : config :=
  if config_zoom c =? 0 then c
  else mkConfig (config_density c) (config_gridsize c) (config_zoom c - 1).
Definition increment_zoom (c : config) : config :=
  if config_zoom c =? 9 then c
  else
    let c' := mkConfig (config_density c) (config_gridsize c) (config_zoom c + 1) in
    if too_large (layout_of c') then c (* rollback *) else c'.

(** ** The seven-segment displays *)

Inductive glyph : Type :=
  | seg (d : Z)     (* seg[d] *)
  | seg_off | seg_minus | seg_E | seg_r.

(** [render_widget_display1]: the digit drawn for [value]. *)
Definition display1 (value : Z) : glyph :=
  if (0 <=? value) && (value <=? 9) then seg value else seg_E.

(** [render_widget_display3]: the array [digit] as [(digit[2], digit[1],
    digit[0])], left to right on the screen. *)
Definition display3 (value : Z) : glyph * glyph * glyph :=
  if (0 <=? value) && (value <=? 999) then
    let digit2 := seg ((value ÷ 100) `rem` 10) in
    let digit1 := seg ((value ÷ 10) `rem` 10) in
    let digit0 := seg (value `rem` 10) in
    let digit2 := if value <=? 99 then seg_off else digit2 in
    let digit1 := if value <=? 9 then seg_off else digit1 in
    (digit2, digit1, digit0)
  else if (-9 <=? value) && (value <=? -1) then
    (seg_off, seg_minus, seg (- value))
  else if (-99 <=? value) && (value <=? -10) then
    (seg_minus, seg (((- value) ÷ 10) `rem` 10), seg ((- value) `rem` 10))
  else (seg_E, seg_r, seg_r).

(** ** Drawing the grid *)

Inductive texture : Type :=
  | tex_empty | tex_hidden | tex_mine | tex_adj (n : Z) | tex_boom
  | tex_flag | tex_mistake | tex_qmark.

(** The body of the loop nest of [render_grid]: the textures copied onto
    the cell [(x, y)], bottom first; [None] when the assertion on the
    count fails. *)
Definition render_grid_cell (g : game) (x y : Z) : option (list texture) :=
  let c := cell_at g x y in
  let background := [if visible c then tex_empty else tex_hidden] in
  let revealed :=
    if visible c then
      if mine c then Some [tex_mine]
      else if (0 <=? adj c) && (adj c <=? 8) then Some [tex_adj (adj c)] else None
    else Some [] in
  match revealed with
  | None => None
  | Some revealed =>
    let boom := if exploded c then [tex_boom] else [] in
    let mines := if negb (is_active g) && mine c && negb (flag c) then [tex_mine] else [] in
    let flags := if flag c
                 then tex_flag :: (if mistake c then [tex_mistake] else [])
                 else [] in
    let qmarks := if is_active g && qmark c then [tex_qmark] else [] in
    Some (background ++ revealed ++ boom ++ mines ++ flags ++ qmarks)
  end.

(** ** Well-formed grids and coordinates *)

(** The array holds one cell per grid position. *)
Definition wf (g : game) : Prop :=
  0 <= grid_width g ∧ 0 <= grid_height g ∧
  length (minefield g) = Z.to_nat (grid_width g * grid_height g).

(** [(x, y)] is a position of the grid. *)
Definition inb (g : game) (x y : Z) : Prop :=
  0 <= x < grid_width g ∧ 0 <= y < grid_height g.

(** Same dimensions and array size. *)
Definition same_dims (g g' : game) : Prop :=
  grid_width g' = grid_width g ∧ grid_height g' = grid_height g ∧
  length (minefield g') = length (minefield g).

(** Number of elements of a list that pass a test. *)
Definition countZ {A} (P : A → bool) (l : list A) : Z :=
  Z.of_nat (length (filter (λ a, P a = true) l)).

(** ** The sample space of the sampler *)

#[global] Instance fault_eq_dec : EqDecision fault.
Proof. solve_decision. Defined.
#[global] Instance result_eq_dec {A} `{EqDecision A} : EqDecision (result A).
Proof. solve_decision. Defined.

(** Number of [true] entries of a mask. *)
Definition count_true (mask : list bool) : Z := countZ (λ b, b) mask.

(** The loop of [random_combination] over the iterations [lo, lo + k). *)
Definition floyd_loop (rnd : Z → Z) (lo : Z) (k : nat) (c : list bool) : list bool :=
  foldl (λ combination j, floyd_step combination j (rnd j)) c (seqZ lo (Z.of_nat k)).

(** Every vector of draws one call can see in the iterations [lo, lo + k):
    the entry for iteration [j] ranges over [1 .. j]. *)
Fixpoint draws (lo : Z) (k : nat) : list (list Z) :=
  match k with
  | O => [[]]
  | S k' => r ← seqZ 1 (lo + Z.of_nat k'); (λ ds, ds ++ [r]) <$> draws lo k'
  end.

(** A vector of draws read as the generator: entry [j - lo] is the draw of
    iteration [j]. *)
Definition rnd_of (lo : Z) (ds : list Z) : Z → Z :=
  λ j, ds !!! Z.to_nat (j - lo).

(** Binomial coefficients by Pascal's rule. *)
Fixpoint choose (n k : nat) : nat :=
  match n, k with
  | _, O => 1%nat
  | O, S _ => 0%nat
  | S n', S k' => (choose n' k' + choose n' k)%nat
  end.

(** ** Small grids used as concrete inputs *)

Definition grid_of (w h : Z) (cells : list cell) : game :=
  mkGame w h cells 0 game_active false neutral false.

Definition blank (w h : Z) : game :=
  grid_of w h (replicate (Z.to_nat (w * h)) virgin).

(** A row of four cells: cell 0 revealed and showing 1, a mine under
    cell 1, cells 2 and 3 hidden and deep. *)
Definition row4 : game :=
  set_cell (spawn_mine (blank 4 1) 1 0).2 0 0 (set_visible true).

(** A solver that finds nothing. *)
Definition refusing (code : solve_code) : solver := mkSolver true (λ _, (code, [])).

(** ** Vocabulary for the reveal and for the invariants *)

(** A cell after [bucket_reveal] has been entered on it. *)
Definition revealed (c : cell) : cell :=
  mkCell (mine c) (exploded c) false false true (mistake c) (adj c).

(** The heads of [bucket_reveal] run on a list of cells, one after another. *)
Definition reveal_all (g : game) (l : list (Z * Z)) : game :=
  foldl (λ g' c, reveal_cell g' c.1 c.2) g l.

(** Number of hidden cells of the grid. *)
Definition hidden_count (g : game) : Z :=
  countZ (λ c, negb (visible (cell_at g c.1 c.2))) (scan g).

(** The adjacency invariant: every cell's count field is the number of
    mines among its neighbours inside the grid. *)
Definition adj_ok (g : game) : Prop :=
  ∀ x y, inb g x y → adj (cell_at g x y) = count_adjacent_mines g x y.

(** No revealed cell holds a mine. *)
Definition vis_safe (g : game) : Prop :=
  ∀ x y, inb g x y → visible (cell_at g x y) = true → mine (cell_at g x y) = false.

(** Every revealed cell that shows no number has all its neighbours
    revealed. *)
Definition zero_closed (g : game) : Prop :=
  ∀ x y, inb g x y → visible (cell_at g x y) = true → adj (cell_at g x y) = 0 →
  ∀ d, d ∈ around g x y → visible (cell_at g d.1 d.2) = true.

(** The cells the flood started at [(x, y)] walks over: the start, and
    every hidden neighbour of a walked-over cell whose count is zero. *)
Inductive flood (g : game) (x y : Z) : Z * Z → Prop :=
  | flood_root : flood g x y (x, y)
  | flood_step c d :
      flood g x y c → adj (cell_at g c.1 c.2) = 0 →
      d ∈ around g c.1 c.2 → visible (cell_at g d.1 d.2) = false →
      flood g x y d.

(** The 8-connected region of zero-count cells that contains [(x, y)]. *)
Inductive zero_region (g : game) (x y : Z) : Z * Z → Prop :=
  | zero_region_root : adj (cell_at g x y) = 0 → zero_region g x y (x, y)
  | zero_region_step c d :
      zero_region g x y c → d ∈ around g c.1 c.2 → adj (cell_at g d.1 d.2) = 0 →
      zero_region g x y d.

(** The region together with the numbered cells on its border. *)
Definition region_with_border (g : game) (x y : Z) (d : Z * Z) : Prop :=
  zero_region g x y d ∨
  (adj (cell_at g d.1 d.2) ≠ 0 ∧ ∃ c, zero_region g x y c ∧ d ∈ around g c.1 c.2).

(** What one call of [bucket_reveal] from [(x, y)] achieves: the new state
    is the old one with the entered cells revealed; apart from the start
    the entered cells were hidden; no cell is entered twice; every entered
    cell lies on the flood; and around every entered cell with count zero
    everything is revealed afterwards. *)
Definition reveal_spec (g : game) (x y : Z) (g' : game) (log : list (Z * Z)) : Prop :=
  g' = reveal_all g log ∧
  (∃ tl, log = (x, y) :: tl ∧
         Forall (λ c, inb g c.1 c.2 ∧ c ≠ (x, y) ∧ visible (cell_at g c.1 c.2) = false) tl) ∧
  NoDup log ∧
  (∀ c, c ∈ log → flood g x y c) ∧
  (∀ c, c ∈ log → adj (cell_at g c.1 c.2) = 0 →
        ∀ d, d ∈ around g c.1 c.2 → visible (cell_at g' d.1 d.2) = true).

(** The invariant of the neighbour loop of [bucket_reveal] at [(x, y)];
    [rest] are the neighbours still to be visited. *)
Definition flood_inv (g : game) (x y : Z) (rest : list (Z * Z))
    (st : game * list (Z * Z)) : Prop :=
  st.1 = reveal_all g st.2 ∧
  (∃ tl, st.2 = (x, y) :: tl ∧
         Forall (λ c, inb g c.1 c.2 ∧ c ≠ (x, y) ∧ visible (cell_at g c.1 c.2) = false) tl) ∧
  NoDup st.2 ∧
  (∀ c, c ∈ st.2 → flood g x y c) ∧
  (∀ c, c ∈ st.2 → c ≠ (x, y) → adj (cell_at g c.1 c.2) = 0 →
        ∀ d, d ∈ around g c.1 c.2 → visible (cell_at st.1 d.1 d.2) = true) ∧
  (∀ d, d ∈ around g x y → d ∉ rest → visible (cell_at st.1 d.1 d.2) = true).

(** A row of five empty cells with the middle one revealed. *)
Definition row5 : game := set_cell (blank 5 1) 2 0 (set_visible true).

(** [g'] is a later state of the same game board as [g]: mines and
    counts are the same, revealed cells stay revealed, exploded cells stay
    exploded, flags and question marks are at most cleared, and a lost
    game stays lost. *)
Definition advances (g g' : game) : Prop :=
  same_dims g g' ∧
  (status g = game_lost → status g' = game_lost) ∧
  ∀ i j, inb g i j →
    mine (cell_at g' i j) = mine (cell_at g i j) ∧
    adj (cell_at g' i j) = adj (cell_at g i j) ∧
    (visible (cell_at g i j) = true → visible (cell_at g' i j) = true) ∧
    (exploded (cell_at g i j) = true → exploded (cell_at g' i j) = true) ∧
    (flag (cell_at g' i j) = true → flag (cell_at g i j) = true) ∧
    (qmark (cell_at g' i j) = true → qmark (cell_at g i j) = true).

(** The test [chord_reveal] makes before it reveals anything: no
    neighbour carries a question mark, and the hidden flagged neighbours
    are as many as the cell's count. *)
Definition chord_ready (g : game) (x y : Z) : Prop :=
  Forall (λ d, qmark (cell_at g d.1 d.2) = false) (around g x y) ∧
  adj (cell_at g x y) =
  countZ (λ d, negb (visible (cell_at g d.1 d.2)) && flag (cell_at g d.1 d.2))
         (around g x y).

(** What [check_for_flag_mistakes] does to one cell. *)
Definition mark_mistake (c : cell) : cell :=
  if flag c && negb (mine c) then set_mistake true c else c.

(** A 3 x 2 grid: a flagged mine at (0,0), the number 1 revealed at (1,0),
    a question mark on (2,0), the second row hidden and unmarked. *)
Definition chord_blocked : game :=
  let g1 := (spawn_mine (blank 3 2) 0 0).2 in
  let g2 := set_cell g1 0 0 (set_flag true) in
  let g3 := set_cell g2 2 0 (set_qmark true) in
  set_cell g3 1 0 (set_visible true).

(** The same grid without the question mark. *)
Definition chord_open : game :=
  let g1 := (spawn_mine (blank 3 2) 0 0).2 in
  let g2 := set_cell g1 0 0 (set_flag true) in
  set_cell g2 1 0 (set_visible true).

(** ** States the grid model can be in *)

(** The grids obtained from a new game by placing and removing mines, by
    successful calls of [alter_minefield] with any solver and any draws,
    and by what the player does in between: reveals, chords, flags and
    question marks, and the end of a game with its explosion and mistake
    marks.  Fuel is arbitrary: a step is any call that returned. *)
Inductive grid_reachable : game → Prop :=
  | reach_new_game g trial :
      0 <= grid_width g → 0 <= grid_height g →
      grid_reachable (new_game g trial)
  | reach_spawn_mine g x y :
      grid_reachable g → inb g x y → grid_reachable (spawn_mine g x y).2
  | reach_remove_mine g x y fuel b g' :
      grid_reachable g → inb g x y →
      remove_mine fuel g x y = Ret (b, g') → grid_reachable g'
  | reach_alter_minefield g x y sv rnd mine_present g' :
      grid_reachable g → inb g x y →
      alter_minefield sv rnd g x y mine_present = Ret (true, g') →
      grid_reachable g'
  | reach_bucket_reveal g x y fuel g' log :
      grid_reachable g → inb g x y →
      bucket_reveal fuel g x y = Ret (g', log) → grid_reachable g'
  | reach_chord_reveal g x y fuel g' :
      grid_reachable g → inb g x y →
      chord_reveal fuel g x y = Ret g' → grid_reachable g'
  | reach_toggle_flag g x y :
      grid_reachable g → inb g x y → grid_reachable (toggle_flag g x y)
  | reach_exploded g x y :
      grid_reachable g → inb g x y →
      grid_reachable (end_game (set_cell g x y (set_exploded true)) false)
  | reach_end_game g won :
      grid_reachable g → grid_reachable (end_game g won).

(** ** Vocabulary for the partition and the constraint system *)

(** A revealed cell that shows a number: a constraint source. *)
Definition is_number (g : game) (d : Z * Z) : bool :=
  visible (cell_at g d.1 d.2) && negb (adj (cell_at g d.1 d.2) =? 0).

(** A hidden cell next to a revealed one. *)
Definition is_shallow (g : game) (d : Z * Z) : bool :=
  negb (visible (cell_at g d.1 d.2)) &&
  negb (count_adjacent_revealed_cells g d.1 d.2 =? 0).

(** A hidden cell with no revealed neighbour. *)
Definition is_deep (g : game) (d : Z * Z) : bool :=
  negb (visible (cell_at g d.1 d.2)) &&
  (count_adjacent_revealed_cells g d.1 d.2 =? 0).

Definition has_mine (g : game) (d : Z * Z) : bool := mine (cell_at g d.1 d.2).
Definition is_hidden (g : game) (d : Z * Z) : bool := negb (visible (cell_at g d.1 d.2)).

(** The solver column assigned to a cell by the partition pass. *)
Definition column (g : game) (d : Z * Z) : Z :=
  p_column_lookup (partition_pass g) !!! idx g d.1 d.2.

(** Sum of a function over a list. *)
Definition sumZ {A} (f : A → Z) (l : list A) : Z :=
  foldr (λ a acc, f a + acc) 0 l.

(** The value a vector of variables gives to the column of a cell. *)
Definition var_of (g : game) (x : list Z) (d : Z * Z) : Z :=
  x !!! Z.to_nat (column g d - 1).

(** The row the encoder emits for the revealed number at [v]. *)
Definition number_row_of (g : game) (v : Z * Z) : lp_row :=
  mkRow ((λ c, (column g c, 1)) <$> filter (λ c, is_hidden g c = true) (around g v.1 v.2))
        EQ (adj (cell_at g v.1 v.2)).

(** The two rows that bound the number of shallow mines, and the row that
    pins the requested cell. *)
Definition bound_row (n : Z) (ty : constr_type) (rhs : Z) : lp_row :=
  mkRow ((λ j, (j, 1)) <$> range_incl 1 n) ty rhs.
Definition pin_row (g : game) (gridx gridy : Z) (mine_present : bool) : lp_row :=
  mkRow [(column g (gridx, gridy), 1)] EQ (if mine_present then 1 else 0).

(** The values of the locals [T] and [dh_cells] of [alter_minefield] when
    the constraint system is built: a deeply hidden requested cell is left
    out of the deep cells, and a mine wanted on it is left out of the total. *)
Definition adjusted_T (g : game) (gridx gridy : Z) (mine_present : bool) : Z :=
  if (count_adjacent_revealed_cells g gridx gridy =? 0) && mine_present
  then mines_total g - 1 else mines_total g.
Definition adjusted_dh_cells (g : game) (gridx gridy : Z) : Z :=
  if count_adjacent_revealed_cells g gridx gridy =? 0
  then p_dh_cells (partition_pass g) - 1 else p_dh_cells (partition_pass g).

(** The constraint system [alter_minefield] hands to the solver. *)
Definition the_lp (g : game) (gridx gridy : Z) (mine_present : bool) : lprec :=
  build_lp g (partition_pass g) (adjusted_T g gridx gridy mine_present)
           (adjusted_dh_cells g gridx gridy) gridx gridy mine_present
           (count_adjacent_revealed_cells g gridx gridy =? 0).

(** The shallow cells in the order the scan meets them: the [k]-th of them
    is the cell of column [k + 1]. *)
Definition shallows (g : game) : list (Z * Z) :=
  filter (λ d, is_shallow g d = true) (scan g).

(** The deep cells other than the requested one, in scan order: the cells
    that receive the sampled mask. *)
Definition deeps_but (g : game) (gridx gridy : Z) : list (Z * Z) :=
  filter (λ d, (is_deep g d && negb ((d.1 =? gridx) && (d.2 =? gridy))) = true) (scan g).


(** A solver that reports infeasible exactly on a system whose right-hand
    sides are [rhs], and otherwise claims a solution. *)
Definition probing (rhs : list Z) : solver :=
  mkSolver true (λ lp, if bool_decide (row_rhs <$> lp_rows lp = rhs)
                       then (INFEASIBLE, []) else (OPTIMAL, [1])).

(** [g'] differs from [g] at most in where the mines are. *)
Definition same_but_mines (g g' : game) : Prop :=
  same_dims g g' ∧
  ∀ i j, inb g i j → cell_at g' i j = set_mine (mine (cell_at g' i j)) (cell_at g i j).

(** A deep cell other than the requested one. *)
Definition deep_but (g : game) (gridx gridy : Z) (c : Z * Z) : bool :=
  is_deep g c && negb ((c.1 =? gridx) && (c.2 =? gridy)).

(** The value of the local [S] of [alter_minefield]: the number of mines
    the shallow cells hold after the write-back. *)
Definition shallow_mines_after (g : game) (ran_lp : bool) (solution : list Z) : Z :=
  if ran_lp
  then foldl (λ S j, S + solution !!! j) 0 (seq 0 (Z.to_nat (p_n (partition_pass g))))
  else p_sh_mine_count (partition_pass g).

(** ** What the engine expects of its collaborators *)

(** The generator honours the bounds of [uniform_int_distribution(1, j)]. *)
Definition valid_draws (rnd : Z → Z) : Prop := ∀ j, 1 <= j → 1 <= rnd j <= j.

(** A vector with one value, 0 or 1, for each of [n] binary columns. *)
Definition binary_solution (n : Z) (x : list Z) : Prop :=
  length x = Z.to_nat n ∧ Forall (λ v, v = 0 ∨ v = 1) x.

Definition feasible_code (code : solve_code) : bool :=
  match code with OPTIMAL | SUBOPTIMAL => true | _ => false end.

(** The solver keeps the columns binary. *)
Definition binary_solver (sv : solver) : Prop :=
  ∀ lp code x, lp_solve sv lp = (code, x) → feasible_code code = true →
               binary_solution (lp_columns lp) x.

(** The solver is sound: what it reports as feasible is binary and
    satisfies every row of the system it was given. *)
Definition sound_solver (sv : solver) : Prop :=
  ∀ lp code x, lp_solve sv lp = (code, x) → feasible_code code = true →
               binary_solution (lp_columns lp) x ∧ Forall (row_holds x) (lp_rows lp).

(** A solver that sets every column to 1. *)
Definition agreeing : solver :=
  mkSolver true (λ lp, (OPTIMAL, replicate (Z.to_nat (lp_columns lp)) 1)).

(** [row4] with a second mine, under the deep cell 3. *)
Definition row4_two : game := (spawn_mine row4 3 0).2.

(** ** States of a game in play *)

(** What the engine relies on between two events: the array matches the
    dimensions, the counts are right, no revealed cell holds a mine, and
    around a revealed cell without a number everything is revealed. *)
Definition playable (g : game) : Prop :=
  wf g ∧ adj_ok g ∧ vis_safe g ∧ zero_closed g.

(** [g'] shows the same board as [g]: only marks, status and settings
    may differ. *)
Definition same_board (g g' : game) : Prop :=
  same_dims g g' ∧
  ∀ i j, inb g i j →
    mine (cell_at g' i j) = mine (cell_at g i j) ∧
    adj (cell_at g' i j) = adj (cell_at g i j) ∧
    visible (cell_at g' i j) = visible (cell_at g i j).

(** The states the event loop of [game_main] passes through, with the
    solver [sv] and any random draws.  The program starts with
    [recompute_dimensions] and [new_game]; the size buttons do the same
    with another table entry, the density buttons call [new_game]; events
    on the grid are handled only while the game is active.  A handler that
    aborts ends the run and yields no state. *)
Inductive game_reachable (sv : solver) : game → Prop :=
  | play_start g0 config_gridsize trial :
      (config_gridsize < 10)%nat →
      game_reachable sv (new_game (recompute_dimensions g0 config_gridsize) trial)
  | play_gridsize g config_gridsize trial :
      game_reachable sv g → (config_gridsize < 10)%nat →
      game_reachable sv (new_game (recompute_dimensions g config_gridsize) trial)
  | play_density g trial :
      game_reachable sv g → game_reachable sv (new_game g trial)
  | play_face g trial :
      game_reachable sv g → game_reachable sv (click_face g trial)
  | play_luck g :
      game_reachable sv g → game_reachable sv (click_luck g)
  | play_qmark_toggle g :
      game_reachable sv g → game_reachable sv (click_qmark_toggle g)
  | play_flag g x y :
      game_reachable sv g → is_active g = true → inb g x y →
      game_reachable sv (toggle_flag g x y)
  | play_left g x y rnd fuel g' :
      game_reachable sv g → is_active g = true → inb g x y →
      left_up sv rnd fuel g x y = Ret g' → game_reachable sv g'
  | play_middle g x y fuel g' :
      game_reachable sv g → is_active g = true → inb g x y →
      middle_up fuel g x y = Ret g' → game_reachable sv g'.

(** The smallest board (5 x 3) with mines on the diagonal, as the program
    starts it. *)
Definition diagonal_start : game :=
  new_game (recompute_dimensions (blank 0 0) 0) (λ x y, x =? y).

(** ** A solver by enumeration, for running the engine on small boards *)

Definition row_holdsb (x : list Z) (r : lp_row) : bool :=
  match row_type r with
  | LE => row_value x r <=? row_rhs r
  | GE => row_rhs r <=? row_value x r
  | EQ => row_value x r =? row_rhs r
  end.

(** All 0/1 vectors of length [n]. *)
Fixpoint vectors (n : nat) : list (list Z) :=
  match n with
  | O => [[]]
  | S n' => v ← vectors n'; [0 :: v; 1 :: v]
  end.

(** The first 0/1 vector that satisfies every row, if there is one. *)
Definition enumerating : solver :=
  mkSolver true
    (λ lp, match List.find (λ x, forallb (row_holdsb x) (lp_rows lp))
                           (vectors (Z.to_nat (lp_columns lp))) with
           | Some x => (OPTIMAL, x)
           | None => (INFEASIBLE, [])
           end).

(** The board [diagonal_start] after a first click on its top right
    corner: the three right-hand columns are revealed except the mine at
    (2,2); four hidden cells are shallow and three are deep. *)
Definition diagonal_opened : game :=
  match left_up enumerating (λ j, j) 16 diagonal_start 4 0 with
  | Ret g => g
  | Abort _ => diagonal_start
  end.

(** [diagonal_start] with its top right corner revealed by the flood,
    then with the mine under (1,1) taken away by the engine (the solver
    places the mines of the shallow cells anew), then with the mine under
    (2,2) removed, which makes the revealed cells (3,1) and (3,2) show 0
    and reveals the cells around them. *)
Definition diagonal_revealed : game :=
  match bucket_reveal 16 diagonal_start 4 0 with
  | Ret r => r.1
  | Abort _ => diagonal_start
  end.
Definition diagonal_moved : game :=
  match alter_minefield enumerating (λ j, j) diagonal_revealed 1 1 false with
  | Ret r => r.2
  | Abort _ => diagonal_revealed
  end.
Definition diagonal_cleared : game :=
  match remove_mine 16 diagonal_moved 2 2 with
  | Ret r => r.2
  | Abort _ => diagonal_moved
  end.

(** ** Vocabulary for the bookkeeping of a game *)

(** [g'] has the counters, status and settings of [g]. *)
Definition same_settings (g g' : game) : Prop :=
  visible_cell_count g' = visible_cell_count g ∧ status g' = status g ∧
  first_move g' = first_move g ∧ config_luck g' = config_luck g ∧
  config_qmarks g' = config_qmarks g.

(** The marks of a cell that the engine never writes. *)
Definition same_marks (c c' : cell) : Prop :=
  exploded c' = exploded c ∧ flag c' = flag c ∧ qmark c' = qmark c ∧
  visible c' = visible c ∧ mistake c' = mistake c.

(** [visible_cell_count] is the number of revealed cells. *)
Definition count_ok (g : game) : Prop :=
  visible_cell_count g = countZ (λ c, visible (cell_at g c.1 c.2)) (scan g).

(** Every cell without a mine is revealed. *)
Definition cleared (g : game) : Prop :=
  ∀ x y, inb g x y → mine (cell_at g x y) = false → visible (cell_at g x y) = true.

(** What the left button does to the cell it is released on. *)
Definition explode (g : game) (x y : Z) : game :=
  end_game (set_cell g x y (set_exploded true)) false.

(** The bookkeeping the event loop keeps besides the board itself: the
    counter of revealed cells is exact; with question marks switched off
    no cell carries one; while the game is active no cell is exploded or
    marked as a mistaken flag. *)
Definition tidy (g : game) : Prop :=
  count_ok g ∧
  (config_qmarks g = false → ∀ x y, inb g x y → qmark (cell_at g x y) = false) ∧
  (is_active g = true →
   ∀ x y, inb g x y → exploded (cell_at g x y) = false ∧ mistake (cell_at g x y) = false).

(** [g'] holds the mines of [g]. *)
Definition mines_kept (g g' : game) : Prop :=
  same_dims g g' ∧ ∀ i j, inb g i j → mine (cell_at g' i j) = mine (cell_at g i j).

(** ** Vocabulary for the window and the displays *)

(** The settings are indices into the tables and the window is below the
    maximal size. *)
Definition config_ok (c : config) : Prop :=
  0 <= config_density c <= 9 ∧ 0 <= config_gridsize c <= 9 ∧ 0 <= config_zoom c <= 9 ∧
  too_large (layout_of c) = false.

(** The settings reached from the initial ones by pressing buttons. *)
Inductive config_reachable : config → Prop :=
  | config_start : config_reachable initial_config
  | config_density_less c : config_reachable c → config_reachable (decrement_density c)
  | config_density_more c : config_reachable c → config_reachable (increment_density c)
  | config_gridsize_less c : config_reachable c → config_reachable (decrement_gridsize c)
  | config_gridsize_more c : config_reachable c → config_reachable (increment_gridsize c)
  | config_zoom_less c : config_reachable c → config_reachable (decrement_zoom c)
  | config_zoom_more c : config_reachable c → config_reachable (increment_zoom c).

(** The number a row of three glyphs spells, read as on the screen: a
    blank is no digit, a minus sign negates what follows. *)
Definition glyph_digit (gl : glyph) : option Z :=
  match gl with
  | seg d => if (0 <=? d) && (d <=? 9) then Some d else None
  | seg_off => Some 0
  | _ => None
  end.
Definition spelled (gs : glyph * glyph * glyph) : option Z :=
  match gs with
  | (seg_off, seg_minus, d0) => d ← glyph_digit d0; Some (- d)
  | (seg_minus, d1, d0) => a ← glyph_digit d1; b ← glyph_digit d0; Some (- (10 * a + b))
  | (d2, d1, d0) =>
      a ← glyph_digit d2; b ← glyph_digit d1; c ← glyph_digit d0;
      Some (100 * a + 10 * b + c)
  end.

(** * Properties *)

(** ** Indices and cell access *)

Lemma idx_lt g x y :
  wf g → inb g x y → (idx g x y < length (minefield g))%nat.
Proof.
  intros (Hw & Hh & Hl) [Hx Hy]. rewrite Hl. unfold idx.
  apply Z2Nat.inj_lt; nia.
Qed.

Lemma idx_inj g x y x' y' :
  inb g x y → inb g x' y' → idx g x y = idx g x' y' → x = x' ∧ y = y'.
Proof.
  intros [Hx Hy] [Hx' Hy'] H. unfold idx in H.
  apply Z2Nat.inj in H; [|nia..].
  assert (y = y') by nia. subst. lia.
Qed.

Lemma same_dims_refl g : same_dims g g.
Proof. by repeat split. Qed.

Lemma same_dims_trans g1 g2 g3 : same_dims g1 g2 → same_dims g2 g3 → same_dims g1 g3.
Proof. intros (?&?&?) (?&?&?). repeat split; congruence. Qed.

Lemma same_dims_wf g g' : same_dims g g' → wf g → wf g'.
Proof. intros (Hw&Hh&Hl) (?&?&?). unfold wf. rewrite Hw, Hh, Hl. done. Qed.

Lemma same_dims_inb g g' x y : same_dims g g' → inb g x y → inb g' x y.
Proof. intros (Hw&Hh&_) ?. unfold inb. by rewrite Hw, Hh. Qed.

Lemma same_dims_inb_rev g g' x y : same_dims g g' → inb g' x y → inb g x y.
Proof. intros (Hw&Hh&_). unfold inb. by rewrite Hw, Hh. Qed.

Lemma same_dims_idx g g' x y : same_dims g g' → idx g' x y = idx g x y.
Proof. intros (Hw&_). unfold idx. by rewrite Hw. Qed.

Lemma same_dims_around g g' x y : same_dims g g' → around g' x y = around g x y.
Proof. intros (Hw&Hh&_). unfold around. by rewrite Hw, Hh. Qed.

Lemma same_dims_scan g g' : same_dims g g' → scan g' = scan g.
Proof. intros (Hw&Hh&_). unfold scan. by rewrite Hw, Hh. Qed.

Lemma set_cell_same_dims g x y f : same_dims g (set_cell g x y f).
Proof. repeat split. simpl. apply length_alter. Qed.

Lemma cell_at_set_cell_eq g x y f :
  wf g → inb g x y → cell_at (set_cell g x y f) x y = f (cell_at g x y).
Proof.
  intros Hwf Hin. unfold cell_at, set_cell. simpl.
  change (idx (with_minefield g _) x y) with (idx g x y).
  apply list_lookup_total_alter_eq. by apply idx_lt.
Qed.

Lemma cell_at_set_cell_ne g x y x' y' f :
  inb g x y → inb g x' y' → (x, y) ≠ (x', y') →
  cell_at (set_cell g x y f) x' y' = cell_at g x' y'.
Proof.
  intros Hin Hin' Hne. unfold cell_at, set_cell. simpl.
  change (idx (with_minefield g _) x' y') with (idx g x' y').
  apply list_lookup_total_alter_ne. intros Heq.
  apply idx_inj in Heq as [-> ->]; done.
Qed.

Lemma cell_at_set_cell g x y x' y' f :
  wf g → inb g x y → inb g x' y' →
  cell_at (set_cell g x y f) x' y' =
  if decide ((x, y) = (x', y')) then f (cell_at g x y) else cell_at g x' y'.
Proof.
  intros Hwf Hin Hin'. case_decide as Heq.
  - inversion Heq; subst. by apply cell_at_set_cell_eq.
  - by apply cell_at_set_cell_ne.
Qed.

(** ** The two loop nests *)

Lemma elem_of_range_incl lo hi k : k ∈ range_incl lo hi ↔ lo <= k <= hi.
Proof. unfold range_incl. rewrite elem_of_seqZ. lia. Qed.

Lemma elem_of_around g x y i j :
  (i, j) ∈ around g x y ↔
  Z.max (y - 1) 0 <= j <= Z.min (y + 1) (grid_height g - 1) ∧
  Z.max (x - 1) 0 <= i <= Z.min (x + 1) (grid_width g - 1) ∧
  ¬ (i = x ∧ j = y).
Proof.
  unfold around. rewrite list_elem_of_bind. split.
  - intros (j' & Hi & Hj). apply list_elem_of_bind in Hi as (i' & Hi & Hi').
    apply elem_of_range_incl in Hj, Hi'.
    destruct ((i' =? x) && (j' =? y)) eqn:E; [by apply elem_of_nil in Hi|].
    apply list_elem_of_singleton in Hi. inversion Hi; subst.
    split; [lia|]. split; [lia|]. intros [-> ->]. rewrite !Z.eqb_refl in E. done.
  - intros (Hj & Hi & Hne). exists j. split; [|by apply elem_of_range_incl].
    apply list_elem_of_bind. exists i. split; [|by apply elem_of_range_incl].
    destruct ((i =? x) && (j =? y)) eqn:E; [|by apply list_elem_of_singleton].
    apply andb_true_iff in E as [?%Z.eqb_eq ?%Z.eqb_eq]. tauto.
Qed.

Lemma around_inb g x y i j : (i, j) ∈ around g x y → inb g i j.
Proof. rewrite elem_of_around. unfold inb. lia. Qed.

Lemma around_ne g x y i j : (i, j) ∈ around g x y → (i, j) ≠ (x, y).
Proof. rewrite elem_of_around. intros (_&_&H) [= -> ->]. tauto. Qed.

(** The neighbourhood relation is symmetric inside the grid. *)
Lemma around_sym g x y i j :
  inb g x y → (i, j) ∈ around g x y → (x, y) ∈ around g i j.
Proof. rewrite !elem_of_around. unfold inb. lia. Qed.

Lemma NoDup_around g x y : NoDup (around g x y).
Proof.
  unfold around, range_incl. apply NoDup_bind; [| |apply NoDup_seqZ].
  - intros j1 j2 [i j] _ _ H1 H2.
    apply list_elem_of_bind in H1 as (i1 & H1 & _), H2 as (i2 & H2 & _).
    destruct ((i1 =? x) && (j1 =? y)); [by apply elem_of_nil in H1|].
    destruct ((i2 =? x) && (j2 =? y)); [by apply elem_of_nil in H2|].
    apply list_elem_of_singleton in H1, H2. congruence.
  - intros j _. apply NoDup_bind; [| |apply NoDup_seqZ].
    + intros i1 i2 [i j'] _ _ H1 H2.
      destruct ((i1 =? x) && (j =? y)); [by apply elem_of_nil in H1|].
      destruct ((i2 =? x) && (j =? y)); [by apply elem_of_nil in H2|].
      apply list_elem_of_singleton in H1, H2. congruence.
    + intros i _. destruct ((i =? x) && (j =? y)); [constructor|apply NoDup_singleton].
Qed.

Lemma elem_of_scan g x y : (x, y) ∈ scan g ↔ inb g x y.
Proof.
  unfold scan, inb. rewrite list_elem_of_bind. split.
  - intros (y' & Hx & Hy). apply list_elem_of_bind in Hx as (x' & Hx & Hx').
    apply list_elem_of_singleton in Hx. inversion Hx; subst.
    apply elem_of_seqZ in Hy, Hx'. lia.
  - intros [Hx Hy]. exists y. split; [|apply elem_of_seqZ; lia].
    apply list_elem_of_bind. exists x. split; [by apply list_elem_of_singleton|].
    apply elem_of_seqZ; lia.
Qed.

Lemma NoDup_scan g : NoDup (scan g).
Proof.
  unfold scan. apply NoDup_bind; [| |apply NoDup_seqZ].
  - intros y1 y2 [x y] _ _ H1 H2.
    apply list_elem_of_bind in H1 as (x1 & H1 & _), H2 as (x2 & H2 & _).
    apply list_elem_of_singleton in H1, H2. congruence.
  - intros y _. apply NoDup_bind; [| |apply NoDup_seqZ].
    + intros x1 x2 [x y'] _ _ H1 H2.
      apply list_elem_of_singleton in H1, H2. congruence.
    + intros x _. apply NoDup_singleton.
Qed.

(** Counting loops. *)
Lemma foldl_count {A} (P : A → bool) (l : list A) (c : Z) :
  foldl (λ count a, if P a then count + 1 else count) c l = c + countZ P l.
Proof.
  unfold countZ. revert c. induction l as [|a l IH]; intros c; simpl; [lia|].
  rewrite IH, filter_cons. destruct (P a); simpl; lia.
Qed.

Lemma countZ_nonneg {A} (P : A → bool) l : 0 <= countZ P l.
Proof. unfold countZ. lia. Qed.

Lemma countZ_nil {A} (P : A → bool) : countZ P [] = 0.
Proof. done. Qed.

Lemma countZ_cons {A} (P : A → bool) a l :
  countZ P (a :: l) = (if P a then 1 else 0) + countZ P l.
Proof.
  unfold countZ. rewrite filter_cons. destruct (P a); simpl; lia.
Qed.

Lemma countZ_app {A} (P : A → bool) l1 l2 :
  countZ P (l1 ++ l2) = countZ P l1 + countZ P l2.
Proof. unfold countZ. rewrite filter_app, length_app. lia. Qed.

Lemma countZ_ext {A} (P Q : A → bool) l :
  (∀ a, a ∈ l → P a = Q a) → countZ P l = countZ Q l.
Proof.
  induction l as [|a l IH]; intros H; [done|].
  rewrite !countZ_cons, IH, (H a); [done|by left|].
  intros b Hb. apply H. by right.
Qed.

Lemma countZ_zero {A} (P : A → bool) l :
  countZ P l = 0 ↔ ∀ a, a ∈ l → P a = false.
Proof.
  induction l as [|a l IH].
  - split; [intros _ a Ha; by apply elem_of_nil in Ha|done].
  - rewrite countZ_cons. pose proof (countZ_nonneg P l). split.
    + intros H0 b Hb. destruct (P a) eqn:E; [lia|].
      apply elem_of_cons in Hb as [->|Hb]; [done|]. apply IH; [lia|done].
    + intros Hall. rewrite (Hall a) by (by left).
      rewrite (proj2 IH); [done|]. intros b Hb. apply Hall. by right.
Qed.

Lemma countZ_le_length {A} (P : A → bool) l : countZ P l <= Z.of_nat (length l).
Proof. unfold countZ. pose proof (length_filter (λ a, P a = true) l). lia. Qed.

(** ** Early exits and failure paths of [alter_minefield] *)

Lemma commit_then_true_not_false (r : result game) (g : game) :
  (g' ←r r; Ret (true, g')) ≠ Ret (false, g).
Proof. by destruct r. Qed.

Ltac split_engine H :=
  repeat match type of H with
         | (if ?b then _ else _) = _ => destruct b eqn:?
         | (let '(_, _) := ?p in _) = _ => destruct p eqn:?
         | match ?c with _ => _ end = _ => destruct c eqn:?
         end.

(** C1. Whenever [alter_minefield] returns failure, whatever the reason
    (no mines at all, a full grid, a revealed cell, the model could not be
    allocated, or the solver reported infeasible, timed out or failed), the
    state it returns is the state it was given: no field of any cell has
    changed. *)
Theorem alter_minefield_failure_keeps_grid sv rnd g gridx gridy mine_present g' :
  alter_minefield sv rnd g gridx gridy mine_present = Ret (false, g') → g' = g.
Proof.
  intros H. unfold alter_minefield in H.
  split_engine H; try congruence;
    try (exfalso; eapply commit_then_true_not_false; exact H).
Qed.

(** C5. When the cell already has the requested mine status the call
    succeeds and returns the state unchanged. *)
Theorem alter_minefield_noop sv rnd g gridx gridy mine_present :
  mine (cell_at g gridx gridy) = mine_present →
  alter_minefield sv rnd g gridx gridy mine_present = Ret (true, g).
Proof.
  intros <-. unfold alter_minefield. by rewrite eqb_reflx.
Qed.

(** C10. On a revealed cell whose mine status differs from the request the
    state is returned unchanged and the answer is [true] exactly when the
    request was for no mine. *)
Theorem alter_minefield_revealed sv rnd g gridx gridy mine_present :
  visible (cell_at g gridx gridy) = true →
  mine (cell_at g gridx gridy) ≠ mine_present →
  alter_minefield sv rnd g gridx gridy mine_present = Ret (negb mine_present, g) ∧
  (negb mine_present = true ↔ mine_present = false).
Proof.
  intros Hv Hm. unfold alter_minefield. rewrite Hv.
  destruct (eqb mine_present (mine (cell_at g gridx gridy))) eqn:E.
  - apply eqb_prop in E. congruence.
  - split; by destruct mine_present.
Qed.

Lemma alter_minefield_failure_keeps_grid_witness :
  alter_minefield (refusing INFEASIBLE) (λ j, j) row4 3 0 true = Ret (false, row4) ∧
  row4 = row4.
Proof.
  split; [vm_compute; reflexivity|].
  apply (alter_minefield_failure_keeps_grid (refusing INFEASIBLE) (λ j, j) row4 3 0 true).
  vm_compute. reflexivity.
Defined.

Lemma alter_minefield_noop_witness :
  mine (cell_at row4 1 0) = true ∧
  alter_minefield (refusing USERABORT) (λ j, j) row4 1 0 true = Ret (true, row4).
Proof.
  split; [reflexivity|].
  apply (alter_minefield_noop (refusing USERABORT) (λ j, j) row4 1 0 true). reflexivity.
Defined.

Lemma alter_minefield_revealed_witness :
  visible (cell_at row4 0 0) = true ∧ mine (cell_at row4 0 0) ≠ true ∧
  alter_minefield (refusing OPTIMAL) (λ j, j) row4 0 0 true = Ret (negb true, row4).
Proof.
  split; [reflexivity|]. split; [discriminate|].
  apply (alter_minefield_revealed (refusing OPTIMAL) (λ j, j) row4 0 0 true);
    [reflexivity|discriminate].
Defined.

(** ** The combination sampler *)

Lemma floyd_loop_S rnd lo k c :
  floyd_loop rnd lo (S k) c =
  floyd_step (floyd_loop rnd lo k c) (lo + Z.of_nat k) (rnd (lo + Z.of_nat k)).
Proof. unfold floyd_loop. by rewrite seqZ_S, foldl_app. Qed.

Lemma floyd_loop_ext rnd rnd' lo k c :
  (∀ j, lo <= j < lo + Z.of_nat k → rnd j = rnd' j) →
  floyd_loop rnd lo k c = floyd_loop rnd' lo k c.
Proof.
  induction k as [|k IH]; intros H; [done|].
  rewrite !floyd_loop_S, IH, H; [done|lia|]. intros j Hj. apply H. lia.
Qed.

Lemma count_true_insert_true (c : list bool) i :
  (i < length c)%nat → c !!! i = false →
  count_true (<[i:=true]> c) = count_true c + 1.
Proof.
  unfold count_true. revert i. induction c as [|b c IH]; intros i Hi Hc.
  - simpl in Hi. lia.
  - destruct i as [|i]; simpl in *.
    + subst b. rewrite !countZ_cons. lia.
    + rewrite !countZ_cons, IH; [lia|lia|done].
Qed.

Lemma count_true_insert_false (c : list bool) i :
  (i < length c)%nat → c !!! i = true →
  count_true (<[i:=false]> c) = count_true c - 1.
Proof.
  unfold count_true. revert i. induction c as [|b c IH]; intros i Hi Hc.
  - simpl in Hi. lia.
  - destruct i as [|i]; simpl in *.
    + subst b. rewrite !countZ_cons. lia.
    + rewrite !countZ_cons, IH; [lia|lia|done].
Qed.

Lemma count_true_replicate_false n : count_true (replicate n false) = 0.
Proof. unfold count_true. induction n; simpl; [done|]. by rewrite countZ_cons. Qed.

Lemma floyd_step_length c j r : length (floyd_step c j r) = length c.
Proof. unfold floyd_step. destruct (c !!! _); apply length_insert. Qed.

(** After the iterations [lo, lo + k) the mask has [k] entries set, all
    below position [lo + k - 1]. *)
Lemma floyd_loop_inv rnd lo k N :
  1 <= lo → lo + Z.of_nat k - 1 <= Z.of_nat N →
  (∀ j, lo <= j < lo + Z.of_nat k → 1 <= rnd j <= j) →
  let R := floyd_loop rnd lo k (replicate N false) in
  length R = N ∧ count_true R = Z.of_nat k ∧
  ∀ i : nat, lo + Z.of_nat k - 1 <= Z.of_nat i → (i < N)%nat → R !!! i = false.
Proof.
  intros Hlo. induction k as [|k IH]; intros HN Hrnd; simpl.
  - unfold floyd_loop. simpl. rewrite length_replicate, count_true_replicate_false.
    repeat split; try done. intros i _ ?. by apply lookup_total_replicate_2.
  - destruct IH as (HL & HC & HF); [lia|intros; apply Hrnd; lia|].
    rewrite floyd_loop_S. set (R := floyd_loop rnd lo k (replicate N false)) in *.
    specialize (Hrnd (lo + Z.of_nat k) ltac:(lia)).
    set (r := rnd (lo + Z.of_nat k)) in *.
    assert (HRj : R !!! Z.to_nat (lo + Z.of_nat k - 1) = false) by (apply HF; lia).
    assert (Hjn : (Z.to_nat (lo + Z.of_nat k - 1) < length R)%nat) by lia.
    assert (Hp : (Z.to_nat (r - 1) < length R)%nat) by lia.
    rewrite floyd_step_length. split; [done|]. unfold floyd_step.
    destruct (R !!! Z.to_nat (r - 1)) eqn:Er.
    + split.
      * rewrite count_true_insert_true; [lia|lia|done].
      * intros i Hi Hi'. rewrite list_lookup_total_insert_ne by lia. apply HF; lia.
    + split.
      * rewrite count_true_insert_true; [lia|lia|done].
      * intros i Hi Hi'. rewrite list_lookup_total_insert_ne by lia. apply HF; lia.
Qed.

Lemma insert_total_id (l : list bool) i b :
  (i < length l)%nat → l !!! i = b → <[i:=b]> l = l.
Proof.
  intros Hi Hb. apply list_insert_id. rewrite <- Hb.
  by apply list_lookup_lookup_total_lt.
Qed.

(** The last iteration, read backwards: which predecessor masks and draws
    lead to a given mask [M]. *)
Lemma floyd_step_eq_iff (C M : list bool) (j r : Z) :
  let jn := Z.to_nat (j - 1) in
  let p := Z.to_nat (r - 1) in
  length C = length M → (jn < length M)%nat → (p < length M)%nat →
  C !!! jn = false →
  floyd_step C j r = M ↔
  M !!! p = true ∧ C = <[(if (M !!! jn : bool) then jn else p) := false]> M.
Proof.
  intros jn p HL Hjn Hp HCj. unfold floyd_step. fold p. fold jn. split.
  - destruct (C !!! p) eqn:Ep; intros <-.
    + assert (p ≠ jn) by congruence.
      rewrite list_lookup_total_insert_eq by lia.
      rewrite list_lookup_total_insert_ne by done. split; [done|].
      rewrite list_insert_insert_eq. symmetry. apply insert_total_id; [lia|done].
    + rewrite list_lookup_total_insert_eq by lia. split; [done|].
      destruct (decide (p = jn)) as [->|Hne].
      * rewrite list_lookup_total_insert_eq by lia.
        rewrite list_insert_insert_eq. symmetry. apply insert_total_id; [lia|done].
      * rewrite list_lookup_total_insert_ne by done. rewrite HCj.
        rewrite list_insert_insert_eq. symmetry. apply insert_total_id; [lia|done].
  - intros [HMp ->]. destruct (M !!! jn) eqn:Ej.
    + destruct (decide (p = jn)) as [->|Hne].
      * rewrite list_lookup_total_insert_eq by lia.
        rewrite list_insert_insert_eq. apply insert_total_id; [lia|done].
      * rewrite list_lookup_total_insert_ne by done. rewrite HMp.
        rewrite list_insert_insert_eq. apply insert_total_id; [lia|done].
    + rewrite list_lookup_total_insert_eq by lia.
      rewrite list_insert_insert_eq. apply insert_total_id; [lia|done].
Qed.

(** *** The sample space *)

Lemma elem_of_draws lo k ds :
  ds ∈ draws lo k ↔
  length ds = k ∧ ∀ (i : nat) r, ds !! i = Some r → 1 <= r <= lo + Z.of_nat i.
Proof.
  revert ds. induction k as [|k IH]; intros ds; simpl.
  - rewrite list_elem_of_singleton. split.
    + intros ->. split; [done|]. intros i r Hi. by rewrite lookup_nil in Hi.
    + intros [H%nil_length_inv _]. done.
  - rewrite list_elem_of_bind. split.
    + intros (r & Hds & Hr). apply list_elem_of_fmap in Hds as (ds' & -> & Hds').
      apply IH in Hds' as [HL Hv]. apply elem_of_seqZ in Hr.
      split; [rewrite length_app; simpl; lia|].
      intros i r' Hi. apply lookup_app_Some in Hi as [Hi|[Hge Hi]]; [by apply Hv|].
      apply list_lookup_singleton_Some in Hi as [Hi ->]. lia.
    + intros [HL Hv]. destruct (decide (ds = [])) as [->|Hne]; [done|].
      apply exists_last in Hne as (ds' & r & ->).
      rewrite length_app in HL. simpl in HL.
      exists r. split.
      * apply list_elem_of_fmap. exists ds'. split; [done|]. apply IH.
        split; [lia|]. intros i r' Hi. apply (Hv i). by apply lookup_app_l_Some.
      * apply elem_of_seqZ. specialize (Hv (length ds') r).
        rewrite lookup_app_r, Nat.sub_diag in Hv by done. specialize (Hv eq_refl). lia.
Qed.

Lemma NoDup_draws lo k : NoDup (draws lo k).
Proof.
  induction k as [|k IH]; simpl; [apply NoDup_singleton|].
  apply NoDup_bind; [| |apply NoDup_seqZ].
  - intros r1 r2 ds _ _ (d1 & -> & _)%list_elem_of_fmap (d2 & H & _)%list_elem_of_fmap.
    by apply app_inj_tail in H as [_ ?].
  - intros r _. apply NoDup_fmap_2; [|done]. intros d1 d2 H.
    by apply app_inj_tail in H as [? _].
Qed.

Lemma length_draws lo k :
  0 <= lo →
  length (draws lo (S k)) = (Z.to_nat (lo + Z.of_nat k) * length (draws lo k))%nat.
Proof.
  intros Hlo. simpl. generalize (draws lo k). intros l.
  unfold seqZ. generalize (Z.to_nat (lo + Z.of_nat k)). intros n.
  generalize 0%nat. induction n as [|n IH]; intros s; simpl; [done|].
  rewrite length_app, length_fmap, IH. lia.
Qed.

(** *** Counting *)

Lemma length_filter_bind {A B} (P : B → Prop) `{!∀ b, Decision (P b)}
    (f : A → list B) (l : list A) :
  length (filter P (l ≫= f)) = sum_list_with (λ a, length (filter P (f a))) l.
Proof.
  induction l as [|a l IH]; [done|]. csimpl.
  by rewrite filter_app, length_app, IH.
Qed.

Lemma length_filter_fmap {A B} (P : B → Prop) `{!∀ b, Decision (P b)}
    (f : A → B) (l : list A) :
  length (filter P (f <$> l)) = length (filter (λ a, P (f a)) l).
Proof.
  induction l as [|a l IH]; [done|]. csimpl. rewrite !filter_cons.
  destruct (decide (P (f a))); simpl; by rewrite IH.
Qed.

Lemma length_filter_ext {A} (P Q : A → Prop) `{!∀ a, Decision (P a)}
    `{!∀ a, Decision (Q a)} (l : list A) :
  (∀ a, a ∈ l → P a ↔ Q a) → length (filter P l) = length (filter Q l).
Proof.
  induction l as [|a l IH]; intros Hall; [done|]. rewrite !filter_cons.
  assert (HPQ : P a ↔ Q a) by (apply Hall; by left).
  assert (IH' : length (filter P l) = length (filter Q l))
    by (apply IH; intros b Hb; apply Hall; by right).
  destruct (decide (P a)), (decide (Q a)); simpl; try tauto; by rewrite IH'.
Qed.

Lemma length_filter_none {A} (P : A → Prop) `{!∀ a, Decision (P a)} (l : list A) :
  (∀ a, a ∈ l → ¬ P a) → length (filter P l) = 0%nat.
Proof.
  induction l as [|a l IH]; intros Hall; [done|]. rewrite filter_cons.
  destruct (decide (P a)) as [HP|_]; [by apply (Hall a) in HP; [|left]|].
  apply IH. intros b Hb. apply Hall. by right.
Qed.

Lemma sum_list_with_ext {A} (f g : A → nat) (l : list A) :
  (∀ a, a ∈ l → f a = g a) → sum_list_with f l = sum_list_with g l.
Proof.
  induction l as [|a l IH]; intros H; [done|]. simpl.
  rewrite (H a) by (by left). rewrite IH; [done|]. intros b Hb. apply H. by right.
Qed.

(** Summing a constant over the draws that hit a set entry counts the set
    entries among the first [n]. *)
Lemma sum_over_set_entries (M : list bool) (c n : nat) :
  (n ≤ length M)%nat →
  sum_list_with (λ r, if (M !!! Z.to_nat (r - 1) : bool) then c else 0%nat)
                (seqZ 1 (Z.of_nat n))
  = (c * Z.to_nat (count_true (take n M)))%nat.
Proof.
  induction n as [|n IH]; intros Hn.
  - simpl. rewrite take_0. unfold count_true. rewrite countZ_nil. simpl. lia.
  - rewrite seqZ_S, sum_list_with_app, IH by lia. simpl.
    replace (Z.to_nat (1 + Z.of_nat n - 1)) with n by lia.
    destruct (lookup_lt_is_Some_2 M n) as [b Hb]; [lia|].
    rewrite (take_S_r _ _ _ Hb). unfold count_true. rewrite countZ_app, countZ_cons, countZ_nil.
    rewrite (list_lookup_total_correct _ _ _ Hb).
    pose proof (countZ_nonneg (λ b, b) (take n M)).
    destruct b; nia.
Qed.

Lemma count_true_all_below (M : list bool) (n : nat) :
  (∀ i, (n ≤ i)%nat → (i < length M)%nat → M !!! i = false) →
  count_true (take n M) = count_true M.
Proof.
  intros H. rewrite <- (take_drop n M) at 2. unfold count_true.
  rewrite countZ_app. enough (countZ (λ b, b) (drop n M) = 0) by lia.
  apply countZ_zero. intros b Hb. apply list_elem_of_lookup in Hb as [i Hi].
  rewrite lookup_drop in Hi. pose proof (lookup_lt_Some _ _ _ Hi).
  rewrite <- (list_lookup_total_correct _ _ _ Hi). apply H; lia.
Qed.

Lemma rnd_of_snoc_last lo ds r :
  0 <= lo → rnd_of lo (ds ++ [r]) (lo + Z.of_nat (length ds)) = r.
Proof.
  intros. unfold rnd_of. replace (Z.to_nat _) with (length ds) by lia.
  by rewrite list_lookup_total_middle.
Qed.

Lemma rnd_of_snoc_before lo ds r j :
  lo <= j < lo + Z.of_nat (length ds) →
  rnd_of lo (ds ++ [r]) j = rnd_of lo ds j.
Proof.
  intros. unfold rnd_of. rewrite !list_lookup_total_alt, lookup_app_l; [done|lia].
Qed.

Lemma rnd_of_valid lo k ds :
  ds ∈ draws lo k →
  ∀ j, lo <= j < lo + Z.of_nat k → 1 <= rnd_of lo ds j <= j.
Proof.
  intros [HL Hv]%elem_of_draws j Hj. unfold rnd_of.
  destruct (lookup_lt_is_Some_2 ds (Z.to_nat (j - lo))) as [r Hr]; [lia|].
  rewrite (list_lookup_total_correct _ _ _ Hr). apply Hv in Hr. lia.
Qed.

Lemma count_true_zero_replicate (M : list bool) :
  count_true M = 0 → M = replicate (length M) false.
Proof.
  unfold count_true. induction M as [|b M IH]; [done|].
  rewrite countZ_cons. pose proof (countZ_nonneg (λ b, b) M).
  destruct b; [lia|]. intros H0. simpl. f_equal. apply IH. lia.
Qed.

(** Every mask with [k] set entries below position [lo + k - 1] is produced
    by exactly [k!] of the draw vectors. *)
Lemma floyd_hits lo N :
  1 <= lo →
  ∀ k M,
    lo + Z.of_nat k - 1 <= Z.of_nat N → length M = N →
    count_true M = Z.of_nat k →
    (∀ i : nat, lo + Z.of_nat k - 1 <= Z.of_nat i → (i < N)%nat → M !!! i = false) →
    length (filter (λ ds, floyd_loop (rnd_of lo ds) lo k (replicate N false) = M)
                   (draws lo k)) = fact k.
Proof.
  intros Hlo. induction k as [|k IH]; intros M HN HL HC HF.
  - simpl. rewrite filter_cons. unfold floyd_loop at 1. simpl.
    apply count_true_zero_replicate in HC. rewrite HL in HC.
    rewrite decide_True by done. done.
  - cbn [draws]. rewrite length_filter_bind.
    set (n := Z.to_nat (lo + Z.of_nat k)).
    assert (Hn : lo + Z.of_nat k = Z.of_nat n) by lia.
    rewrite (sum_list_with_ext _
               (λ r, if (M !!! Z.to_nat (r - 1) : bool) then fact k else 0%nat)).
    + rewrite Hn, sum_over_set_entries by lia.
      rewrite count_true_all_below, HC.
      * rewrite Nat2Z.id. simpl. lia.
      * intros i Hi Hi'. apply HF; lia.
    + intros r Hr%elem_of_seqZ. rewrite length_filter_fmap.
      set (jn := Z.to_nat (lo + Z.of_nat k - 1)).
      set (p := Z.to_nat (r - 1)).
      set (M' := <[(if (M !!! jn : bool) then jn else p) := false]> M).
      assert (Hstep : ∀ ds, ds ∈ draws lo k →
                floyd_loop (rnd_of lo (ds ++ [r])) lo (S k) (replicate N false) = M ↔
                M !!! p = true ∧ floyd_loop (rnd_of lo ds) lo k (replicate N false) = M').
      { intros ds Hds. pose proof (rnd_of_valid _ _ _ Hds) as Hv.
        apply elem_of_draws in Hds as [Hlen _].
        rewrite floyd_loop_S.
        replace (rnd_of lo (ds ++ [r]) (lo + Z.of_nat k)) with r
          by (rewrite <- Hlen, rnd_of_snoc_last; [done|lia]).
        rewrite (floyd_loop_ext _ (rnd_of lo ds))
          by (intros j Hj; apply rnd_of_snoc_before; lia).
        destruct (floyd_loop_inv (rnd_of lo ds) lo k N) as (HL' & _ & HF');
          [done|lia|done|].
        apply floyd_step_eq_iff; [congruence|lia|lia|apply HF'; lia]. }
      destruct (M !!! p) eqn:Ep.
      * rewrite (length_filter_ext _
          (λ ds, floyd_loop (rnd_of lo ds) lo k (replicate N false) = M')).
        2:{ intros ds Hds. rewrite (Hstep ds Hds). tauto. }
        assert (HMq : M !!! (if (M !!! jn : bool) then jn else p) = true)
          by (destruct (M !!! jn) eqn:Ej; done).
        assert (Hq : ((if (M !!! jn : bool) then jn else p) < length M)%nat)
          by (destruct (M !!! jn); lia).
        apply IH.
        -- lia.
        -- unfold M'. by rewrite length_insert.
        -- unfold M'. rewrite count_true_insert_false; [lia|done|done].
        -- intros i Hi Hi'. unfold M'.
           destruct (decide (i = (if (M !!! jn : bool) then jn else p))) as [->|Hne].
           ++ by rewrite list_lookup_total_insert_eq.
           ++ rewrite list_lookup_total_insert_ne by done.
              destruct (decide (i = jn)) as [->|Hne'].
              ** destruct (M !!! jn) eqn:Ej; done.
              ** apply HF; lia.
      * apply length_filter_none. intros ds Hds. rewrite (Hstep ds Hds). intros [? _]. done.
Qed.

Lemma count_true_full_replicate (M : list bool) :
  count_true M = Z.of_nat (length M) → M = replicate (length M) true.
Proof.
  unfold count_true. induction M as [|b M IH]; [done|].
  rewrite countZ_cons. pose proof (countZ_le_length (λ b, b) M).
  simpl length. destruct b; [|lia]. intros H0. simpl. f_equal. apply IH. lia.
Qed.

Lemma choose_gt n k : (n < k)%nat → choose n k = 0%nat.
Proof.
  revert k. induction n as [|n IH]; intros [|k] H; simpl; try lia.
  rewrite !IH; lia.
Qed.

Lemma choose_fact n k :
  (k ≤ n)%nat → (choose n k * fact k * fact (n - k) = fact n)%nat.
Proof.
  revert k. induction n as [|n IH]; intros [|k] H; try (simpl; lia).
  cbn [choose]. destruct (decide (k = n)) as [->|Hne].
  - rewrite (choose_gt n (S n)) by lia. rewrite Nat.sub_diag.
    pose proof (IH n (le_n n)) as IHn. rewrite Nat.sub_diag in IHn.
    change (fact (S n)) with (S n * fact n)%nat. change (fact 0) with 1%nat in *. nia.
  - pose proof (IH k ltac:(lia)) as IH1. pose proof (IH (S k) ltac:(lia)) as IH2.
    replace (S n - S k)%nat with (n - k)%nat by lia.
    replace (n - k)%nat with (S (n - S k)) in * by lia.
    change (fact (S n)) with (S n * fact n)%nat.
    change (fact (S k)) with (S k * fact k)%nat in *.
    change (fact (S (n - S k))) with (S (n - S k) * fact (n - S k))%nat in *.
    nia.
Qed.

Lemma length_draws_fact (d k : nat) :
  (length (draws (Z.of_nat d + 1) k) * fact d = fact (d + k))%nat.
Proof.
  induction k as [|k IH].
  - cbn [draws length]. replace (d + 0)%nat with d by lia. lia.
  - rewrite length_draws by lia.
    replace (Z.to_nat (Z.of_nat d + 1 + Z.of_nat k)) with (S (d + k)) by lia.
    replace (d + S k)%nat with (S (d + k)) by lia.
    change (fact (S (d + k))) with (S (d + k) * fact (d + k))%nat. nia.
Qed.

Lemma random_combination_loop rnd n k :
  0 <= k <= n →
  random_combination rnd n k =
  Ret (floyd_loop rnd (n - k + 1) (Z.to_nat k) (replicate (Z.to_nat n) false)).
Proof.
  intros H. unfold random_combination, floyd_loop, range_incl.
  destruct (Z.leb_spec 0 k); [|lia]. destruct (Z.leb_spec k n); [|lia].
  do 3 f_equal. lia.
Qed.

(** C7. For [0 <= k <= n]: every run of [random_combination] returns a
    mask of length [n] with exactly [k] entries set; each such mask is the
    outcome of exactly [k!] of the [C(n,k) * k!] equally likely vectors of
    draws, so each of the [C(n,k)] masks has the same probability; for
    [k = 0] the mask is all [false] and for [k = n] it is all [true]. *)
Theorem random_combination_uniform (n k : Z) :
  0 <= k <= n →
  (∀ rnd, (∀ j, n - k + 1 <= j <= n → 1 <= rnd j <= j) →
     ∃ mask, random_combination rnd n k = Ret mask ∧
             length mask = Z.to_nat n ∧ count_true mask = k) ∧
  (∀ mask, length mask = Z.to_nat n → count_true mask = k →
     length (filter (λ ds, random_combination (rnd_of (n - k + 1) ds) n k = Ret mask)
                    (draws (n - k + 1) (Z.to_nat k))) = fact (Z.to_nat k)) ∧
  length (draws (n - k + 1) (Z.to_nat k)) =
    (choose (Z.to_nat n) (Z.to_nat k) * fact (Z.to_nat k))%nat ∧
  (k = 0 → ∀ rnd, random_combination rnd n k = Ret (replicate (Z.to_nat n) false)) ∧
  (k = n → ∀ rnd, (∀ j, 1 <= j <= n → 1 <= rnd j <= j) →
     random_combination rnd n k = Ret (replicate (Z.to_nat n) true)).
Proof.
  intros Hk.
  assert (Hinv : ∀ rnd, (∀ j, n - k + 1 <= j <= n → 1 <= rnd j <= j) →
            let R := floyd_loop rnd (n - k + 1) (Z.to_nat k) (replicate (Z.to_nat n) false) in
            length R = Z.to_nat n ∧ count_true R = k).
  { intros rnd Hrnd.
    destruct (floyd_loop_inv rnd (n - k + 1) (Z.to_nat k) (Z.to_nat n)) as (HL & HC & _);
      [lia|lia|intros; apply Hrnd; lia|].
    split; [done|]. rewrite HC. lia. }
  split; [|split; [|split; [|split]]].
  - intros rnd Hrnd. eexists. split; [by apply random_combination_loop|].
    by apply Hinv.
  - intros mask HL HC.
    rewrite (length_filter_ext _
      (λ ds, floyd_loop (rnd_of (n - k + 1) ds) (n - k + 1) (Z.to_nat k)
                        (replicate (Z.to_nat n) false) = mask)).
    + apply floyd_hits; [lia|lia|done|lia|]. intros i Hi Hi'. lia.
    + intros ds _. rewrite random_combination_loop by done. split; congruence.
  - pose proof (length_draws_fact (Z.to_nat (n - k)) (Z.to_nat k)) as Hd.
    replace (Z.of_nat (Z.to_nat (n - k)) + 1) with (n - k + 1) in Hd by lia.
    replace (Z.to_nat (n - k) + Z.to_nat k)%nat with (Z.to_nat n) in Hd by lia.
    pose proof (choose_fact (Z.to_nat n) (Z.to_nat k) ltac:(lia)) as Hc.
    replace (Z.to_nat n - Z.to_nat k)%nat with (Z.to_nat (n - k)) in Hc by lia.
    pose proof (lt_O_fact (Z.to_nat (n - k))). nia.
  - intros -> rnd. rewrite random_combination_loop by done. done.
  - intros -> rnd Hrnd. rewrite random_combination_loop by done. f_equal.
    destruct (Hinv rnd) as [HL HC]; [intros; apply Hrnd; lia|].
    cbv zeta in HL, HC.
    set (R := floyd_loop rnd (n - n + 1) (Z.to_nat n) (replicate (Z.to_nat n) false)) in *.
    rewrite <- HL. apply count_true_full_replicate. lia.
Qed.

Lemma random_combination_uniform_witness :
  0 <= 2 <= 5 ∧
  length (draws (5 - 2 + 1) (Z.to_nat 2)) = (choose (Z.to_nat 5) (Z.to_nat 2) * fact (Z.to_nat 2))%nat.
Proof.
  split; [lia|]. exact (proj1 (proj2 (proj2 (random_combination_uniform 5 2 ltac:(lia))))).
Defined.

(** ** The flood reveal *)

Lemma revealed_idemp c : revealed (revealed c) = revealed c.
Proof. done. Qed.

(** The head of [bucket_reveal] is one write to the cell and, for a hidden
    cell, one increment of the counter. *)
Lemma reveal_cell_alt g x y :
  reveal_cell g x y =
  with_visible_cell_count (set_cell g x y revealed)
    (visible_cell_count g + (if visible (cell_at g x y) then 0 else 1)).
Proof.
  unfold reveal_cell, set_cell, cell_at, with_visible_cell_count, with_minefield.
  destruct (visible (minefield g !!! idx g x y)) eqn:Ev; simpl.
  - rewrite Z.add_0_r. f_equal. rewrite list_alter_alter_eq.
    apply list_alter_ext; [|done]. intros c Hc.
    apply list_lookup_total_correct in Hc. rewrite Hc in Ev.
    destruct c; simpl in *; by subst.
  - f_equal. change (idx _ x y) with (idx g x y).
    rewrite !list_alter_alter_eq. apply list_alter_ext; [|done]. by intros [].
Qed.

Lemma reveal_cell_same_dims g x y : same_dims g (reveal_cell g x y).
Proof. rewrite reveal_cell_alt. repeat split. simpl. apply length_alter. Qed.

Lemma cell_at_reveal_cell g x y x' y' :
  wf g → inb g x y → inb g x' y' →
  cell_at (reveal_cell g x y) x' y' =
  if decide ((x, y) = (x', y')) then revealed (cell_at g x y) else cell_at g x' y'.
Proof.
  intros Hwf Hin Hin'. rewrite reveal_cell_alt.
  change (cell_at (with_visible_cell_count ?h _) x' y') with (cell_at h x' y').
  by apply cell_at_set_cell.
Qed.

Lemma reveal_cell_status g x y : status (reveal_cell g x y) = status g.
Proof. by rewrite reveal_cell_alt. Qed.

Lemma reveal_all_app g l1 l2 :
  reveal_all g (l1 ++ l2) = reveal_all (reveal_all g l1) l2.
Proof. apply foldl_app. Qed.

Lemma reveal_all_same_dims g l : same_dims g (reveal_all g l).
Proof.
  revert g. induction l as [|c l IH]; intros g; [apply same_dims_refl|].
  eapply same_dims_trans; [apply reveal_cell_same_dims|apply IH].
Qed.

Lemma reveal_all_status g l : status (reveal_all g l) = status g.
Proof.
  revert g. induction l as [|c l IH]; intros g; [done|].
  simpl. unfold reveal_all in IH. by rewrite IH, reveal_cell_status.
Qed.

Lemma cell_at_reveal_all g l x y :
  wf g → Forall (λ c, inb g c.1 c.2) l → inb g x y →
  cell_at (reveal_all g l) x y =
  if decide ((x, y) ∈ l) then revealed (cell_at g x y) else cell_at g x y.
Proof.
  revert g. induction l as [|[cx cy] l IH]; intros g Hwf Hl Hin.
  - destruct (decide ((x, y) ∈ [])) as [Hel|_]; [by apply elem_of_nil in Hel|done].
  - apply Forall_cons in Hl as [Hc Hl]. simpl in Hc.
    change (reveal_all g ((cx, cy) :: l)) with (reveal_all (reveal_cell g cx cy) l).
    pose proof (reveal_cell_same_dims g cx cy) as Hsd.
    rewrite IH; [|by eapply same_dims_wf| |by eapply same_dims_inb].
    2:{ eapply Forall_impl; [exact Hl|]. intros c ?. by eapply same_dims_inb. }
    rewrite cell_at_reveal_cell by done.
    destruct (decide ((cx, cy) = (x, y))) as [[= -> ->]|Hne].
    + rewrite (decide_True (P := (x, y) ∈ (x, y) :: l)) by (by left).
      by destruct (decide ((x, y) ∈ l)).
    + destruct (decide ((x, y) ∈ l)) as [Hel|Hel].
      * rewrite decide_True; [done|by right].
      * rewrite decide_False; [done|]. intros [?|?]%elem_of_cons; congruence.
Qed.

Lemma reveal_all_visible_mono g l x y :
  wf g → Forall (λ c, inb g c.1 c.2) l → inb g x y →
  visible (cell_at g x y) = true → visible (cell_at (reveal_all g l) x y) = true.
Proof.
  intros Hwf Hl Hin Hv. rewrite cell_at_reveal_all by done. by case_decide.
Qed.

Lemma reveal_all_adj g l x y :
  wf g → Forall (λ c, inb g c.1 c.2) l → inb g x y →
  adj (cell_at (reveal_all g l) x y) = adj (cell_at g x y).
Proof. intros. rewrite cell_at_reveal_all by done. by case_decide. Qed.

Lemma reveal_all_mine g l x y :
  wf g → Forall (λ c, inb g c.1 c.2) l → inb g x y →
  mine (cell_at (reveal_all g l) x y) = mine (cell_at g x y).
Proof. intros. rewrite cell_at_reveal_all by done. by case_decide. Qed.

Lemma visible_reveal_all g l x y :
  wf g → Forall (λ c, inb g c.1 c.2) l → inb g x y →
  visible (cell_at (reveal_all g l) x y) = true ↔
  (x, y) ∈ l ∨ visible (cell_at g x y) = true.
Proof.
  intros Hwf Hl Hin. rewrite cell_at_reveal_all by done.
  destruct (decide ((x, y) ∈ l)) as [Hel|Hel]; simpl.
  - split; [by left|done].
  - split; [by right|]. by intros [?|?].
Qed.

Lemma flood_inb g x y c : inb g x y → flood g x y c → inb g c.1 c.2.
Proof.
  intros Hin Hfl. destruct Hfl as [|c [i j] Hc Hz Hd Hv]; [done|].
  by apply around_inb in Hd.
Qed.

(** A flood started on a hidden neighbour, in a later state, stays inside
    the flood of the caller. *)
Lemma flood_nested g gs x y d c :
  same_dims g gs →
  (∀ i j, inb g i j → adj (cell_at gs i j) = adj (cell_at g i j)) →
  (∀ i j, inb g i j → visible (cell_at gs i j) = false → visible (cell_at g i j) = false) →
  inb g x y → flood g x y d → flood gs d.1 d.2 c → flood g x y c.
Proof.
  intros Hsd Hadj Hvis Hin Hd. induction 1 as [|c e Hc IH Hz He Hv].
  - by destruct d.
  - assert (inb g c.1 c.2) by (by apply (flood_inb g x y)).
    rewrite (same_dims_around g gs) in He by done.
    destruct e as [i j]. pose proof (around_inb _ _ _ _ _ He).
    eapply flood_step; [exact IH| |exact He|].
    + by rewrite <- Hadj.
    + by apply Hvis.
Qed.

Lemma reveal_spec_inb g x y g' log :
  inb g x y → reveal_spec g x y g' log → Forall (λ c, inb g c.1 c.2) log.
Proof.
  intros Hin (_ & (tl & -> & Htl) & _). apply Forall_cons. split; [done|].
  eapply Forall_impl; [exact Htl|]. by intros c (? & _).
Qed.

Lemma bucket_reveal_spec fuel :
  ∀ g x y g' log,
    wf g → inb g x y →
    bucket_reveal fuel g x y = Ret (g', log) → reveal_spec g x y g' log.
Proof.
  induction fuel as [|fuel IH]; intros g x y g' log Hwf Hin Hrun; [done|].
  simpl in Hrun.
  assert (Hadj1 : adj (cell_at (reveal_cell g x y) x y) = adj (cell_at g x y)).
  { rewrite cell_at_reveal_cell by done. by rewrite decide_True. }
  rewrite Hadj1 in Hrun.
  destruct (adj (cell_at g x y) =? 0) eqn:Ez.
  - apply Z.eqb_eq in Ez.
    set (body := λ (st : game * list (Z * Z)) (ij : Z * Z),
                   if visible (cell_at st.1 ij.1 ij.2) then Ret st
                   else r ←r bucket_reveal fuel st.1 ij.1 ij.2; Ret (r.1, st.2 ++ r.2)) in Hrun.
    assert (Hloop : ∀ l st st',
               (∀ d, d ∈ l → d ∈ around g x y) →
               flood_inv g x y l st → rfold body l st = Ret st' → flood_inv g x y [] st').
    { induction l as [|d l IHl]; intros st st' Hsub Hinv Hr.
      - simpl in Hr. by inversion Hr; subst.
      - simpl in Hr. destruct (body st d) as [st1|] eqn:Eb; [|done]. simpl in Hr.
        apply (IHl st1 st'); [intros e He; apply Hsub; by right| |exact Hr].
        clear Hr IHl.
        destruct st as [gs logs].
          destruct Hinv as (Hgs & (tl & Hlogs & Htl) & Hnd & Hfl & Hcl & Hdone).
          simpl in Hgs, Hlogs, Hnd, Hfl, Hcl, Hdone.
          assert (Hd : d ∈ around g x y) by (apply Hsub; by left).
          destruct d as [i j]. pose proof (around_inb _ _ _ _ _ Hd) as Hdin.
          assert (Hlin : Forall (λ c, inb g c.1 c.2) logs).
          { rewrite Hlogs. apply Forall_cons. split; [done|].
            eapply Forall_impl; [exact Htl|]. by intros c (? & _). }
          pose proof (reveal_all_same_dims g logs) as Hsd. rewrite <- Hgs in Hsd.
          assert (Hwfs : wf gs) by (by eapply same_dims_wf).
          unfold body in Eb. simpl in Eb.
          destruct (visible (cell_at gs i j)) eqn:Ev.
          * (* already revealed: skipped *)
            inversion Eb; subst st1. clear Eb.
            split; [done|]. split; [by exists tl|]. split; [done|]. split; [done|].
            split; [done|]. simpl. intros e He Hne.
            destruct (decide (e = (i, j))) as [->|Hne']; [done|].
            apply Hdone; [done|]. intros [?|?]%elem_of_cons; done.
          * (* hidden: the recursive call *)
            destruct (bucket_reveal fuel gs i j) as [[g2 log2]|] eqn:Ecall; [|done].
            simpl in Eb. inversion Eb; subst st1. clear Eb.
            apply IH in Ecall; [|done|by eapply same_dims_inb].
            pose proof (reveal_spec_inb _ _ _ _ _ (same_dims_inb _ _ _ _ Hsd Hdin) Ecall) as Hlin2.
            destruct Ecall as (Hg2 & (tl2 & Hlog2 & Htl2) & Hnd2 & Hfl2 & Hcl2).
            assert (Hlin2' : Forall (λ c, inb g c.1 c.2) log2).
            { eapply Forall_impl; [exact Hlin2|]. intros c ?. by eapply same_dims_inb_rev. }
            assert (Hhid2 : ∀ c, c ∈ log2 → visible (cell_at gs c.1 c.2) = false).
            { intros c Hc. rewrite Hlog2 in Hc. apply elem_of_cons in Hc as [->|Hc]; [done|].
              rewrite Forall_forall in Htl2. by apply Htl2 in Hc as (_ & _ & ?). }
            assert (Hvis1 : ∀ c, c ∈ logs → visible (cell_at gs c.1 c.2) = true).
            { intros [cx cy] Hc. rewrite Hgs. apply visible_reveal_all; [done|done| |by left].
              rewrite Forall_forall in Hlin. by apply (Hlin _ Hc). }
            assert (Hmono : ∀ e, inb g e.1 e.2 → visible (cell_at gs e.1 e.2) = true →
                                 visible (cell_at g2 e.1 e.2) = true).
            { intros [ex ey] He Hv. rewrite Hg2.
              apply reveal_all_visible_mono; [done|done|by eapply same_dims_inb|done]. }
            split; [|split; [|split; [|split; [|split]]]]; simpl.
            -- by rewrite reveal_all_app, <- Hgs.
            -- exists (tl ++ log2). split; [by rewrite Hlogs|].
               apply Forall_app. split; [done|]. apply Forall_forall. intros c Hc.
               rewrite Forall_forall in Hlin2'. split; [by apply Hlin2'|]. split.
               ++ intros ->. specialize (Hhid2 _ Hc).
                  rewrite (Hvis1 (x, y)) in Hhid2; [done|]. rewrite Hlogs. by left.
               ++ destruct (visible (cell_at g c.1 c.2)) eqn:Evc; [|done].
                  specialize (Hhid2 _ Hc). rewrite Hgs in Hhid2.
                  destruct c as [cx cy]. simpl in *.
                  rewrite reveal_all_visible_mono in Hhid2; [done|done|done| |done].
                  by apply (Hlin2' (cx, cy)).
            -- apply NoDup_app. split; [done|]. split; [|done].
               intros c Hc1 Hc2. specialize (Hvis1 _ Hc1). specialize (Hhid2 _ Hc2). congruence.
            -- intros c [Hc|Hc]%elem_of_app; [by apply Hfl|].
               eapply (flood_nested g gs x y (i, j)); [done| | | | |by apply Hfl2].
               ++ intros a b Hab. rewrite Hgs. by apply reveal_all_adj.
               ++ intros a b Hab Hv. destruct (visible (cell_at g a b)) eqn:Eg; [|done].
                  rewrite Hgs in Hv. rewrite reveal_all_visible_mono in Hv; done.
               ++ done.
               ++ eapply flood_step; [apply flood_root|done|done|].
                  simpl. destruct (visible (cell_at g i j)) eqn:Eg; [|done].
                  rewrite Hgs in Ev. rewrite reveal_all_visible_mono in Ev; done.
            -- intros c [Hc|Hc]%elem_of_app Hne Hz e He.
               ++ destruct e as [ex ey]. apply Hmono.
                  ** rewrite Forall_forall in Hlin. eapply around_inb. exact He.
                  ** by apply (Hcl c).
               ++ assert (Hcin : inb g c.1 c.2)
                    by (rewrite Forall_forall in Hlin2'; by apply Hlin2').
                  apply (Hcl2 c Hc).
                  ** rewrite Hgs. by rewrite reveal_all_adj.
                  ** by rewrite (same_dims_around g gs).
            -- intros e He Hne. destruct (decide (e = (i, j))) as [->|Hne'].
               ++ simpl. rewrite Hg2. apply visible_reveal_all;
                    [done|done|by eapply same_dims_inb|]. left. rewrite Hlog2. by left.
               ++ destruct e as [ex ey]. apply Hmono; [eapply around_inb; exact He|].
                  apply Hdone; [done|]. intros [?|?]%elem_of_cons; done.
    }
    assert (Hsame : around (reveal_cell g x y) x y = around g x y)
      by (apply same_dims_around, reveal_cell_same_dims).
    rewrite Hsame in Hrun.
    apply (Hloop _ _ _ (λ d Hd, Hd)) in Hrun.
    + destruct Hrun as (Hg & Htl & Hnd & Hfl & Hcl & Hdone). simpl in *.
      repeat split; try done.
      intros c Hc Hz d Hd. destruct (decide (c = (x, y))) as [->|Hne].
      * apply Hdone; [done|apply not_elem_of_nil].
      * by apply (Hcl c).
    + (* the invariant holds on entry to the loop *)
      split; [done|]. split; [by exists []|]. split; [apply NoDup_singleton|].
      simpl. split; [|split].
      * intros c ->%list_elem_of_singleton. apply flood_root.
      * intros c ->%list_elem_of_singleton Hne. done.
      * intros d Hd Hnd. done.
  - inversion Hrun; subst. split; [done|]. split; [by exists []|].
    split; [apply NoDup_singleton|]. split.
    + intros c ->%list_elem_of_singleton. apply flood_root.
    + intros c ->%list_elem_of_singleton Hz. simpl in Hz. apply Z.eqb_neq in Ez. done.
Qed.

(** *** Termination *)

Lemma countZ_mono {A} (P Q : A → bool) l :
  (∀ a, a ∈ l → Q a = true → P a = true) → countZ Q l <= countZ P l.
Proof.
  induction l as [|a l IH]; intros Hall; [done|]. rewrite !countZ_cons.
  assert (countZ Q l <= countZ P l) by (apply IH; intros b Hb; apply Hall; by right).
  specialize (Hall a ltac:(by left)). destruct (Q a), (P a); lia.
Qed.

Lemma countZ_remove_one {A} (P Q : A → bool) l a :
  NoDup l → a ∈ l → P a = true → Q a = false →
  (∀ b, b ∈ l → b ≠ a → Q b = P b) →
  countZ Q l = countZ P l - 1.
Proof.
  induction l as [|b l IH]; intros Hnd Ha HP HQ Hrest; [by apply elem_of_nil in Ha|].
  apply NoDup_cons in Hnd as [Hb Hnd]. rewrite !countZ_cons.
  apply elem_of_cons in Ha as [<-|Ha].
  - rewrite HP, HQ. rewrite (countZ_ext Q P); [lia|].
    intros c Hc. apply Hrest; [by right|]. intros ->. done.
  - rewrite IH; [|done|done|done|done|intros c Hc; apply Hrest; by right].
    rewrite Hrest; [lia|by left|]. intros ->. done.
Qed.

Lemma hidden_count_nonneg g : 0 <= hidden_count g.
Proof. apply countZ_nonneg. Qed.

Lemma hidden_count_reveal_all g l :
  wf g → Forall (λ c, inb g c.1 c.2) l →
  hidden_count (reveal_all g l) <= hidden_count g.
Proof.
  intros Hwf Hl. unfold hidden_count.
  rewrite (same_dims_scan g) by apply reveal_all_same_dims.
  apply countZ_mono. intros [i j] Hc%elem_of_scan. simpl.
  destruct (visible (cell_at g i j)) eqn:Ev; [|done].
  by rewrite reveal_all_visible_mono.
Qed.

Lemma hidden_count_reveal_cell g x y :
  wf g → inb g x y → visible (cell_at g x y) = false →
  hidden_count (reveal_cell g x y) = hidden_count g - 1.
Proof.
  intros Hwf Hin Hv. unfold hidden_count.
  rewrite (same_dims_scan g) by apply reveal_cell_same_dims.
  apply (countZ_remove_one _ _ _ (x, y)).
  - apply NoDup_scan.
  - by apply elem_of_scan.
  - simpl. by rewrite Hv.
  - simpl. rewrite cell_at_reveal_cell by done. by rewrite decide_True.
  - intros [i j] Hc%elem_of_scan Hne. simpl.
    rewrite cell_at_reveal_cell by done. rewrite decide_False; [done|congruence].
Qed.

Lemma bucket_reveal_terminates fuel :
  ∀ g x y,
    wf g → inb g x y →
    hidden_count g + (if visible (cell_at g x y) then 1 else 0) < Z.of_nat fuel →
    ∃ r, bucket_reveal fuel g x y = Ret r.
Proof.
  induction fuel as [|fuel IH]; intros g x y Hwf Hin Hfuel.
  { pose proof (hidden_count_nonneg g). destruct (visible (cell_at g x y)); lia. }
  simpl. set (g1 := reveal_cell g x y).
  pose proof (reveal_cell_same_dims g x y) as Hsd1. fold g1 in Hsd1.
  assert (Hh1 : hidden_count g1 < Z.of_nat fuel).
  { destruct (visible (cell_at g x y)) eqn:Ev.
    - pose proof (hidden_count_reveal_all g [(x, y)] Hwf) as Hle.
      change (reveal_all g [(x, y)]) with g1 in Hle.
      specialize (Hle ltac:(by apply Forall_singleton)). lia.
    - unfold g1. rewrite hidden_count_reveal_cell by done. lia. }
  destruct (adj (cell_at g1 x y) =? 0); [|by eexists].
  rewrite (same_dims_around g g1) by done.
  assert (Hloop : ∀ l (st : game * list (Z * Z)),
             (∀ d, d ∈ l → inb g d.1 d.2) →
             same_dims g st.1 → hidden_count st.1 < Z.of_nat fuel →
             ∃ st', rfold (λ (st : game * list (Z * Z)) (ij : Z * Z),
                             if visible (cell_at st.1 ij.1 ij.2) then Ret st
                             else r ←r bucket_reveal fuel st.1 ij.1 ij.2;
                                  Ret (r.1, st.2 ++ r.2)) l st = Ret st').
  { induction l as [|[i j] l IHl]; intros [gs logs] Hl Hsd Hh; [by eexists|].
    simpl in *. assert (Hd : inb g i j) by (apply (Hl (i, j)); by left).
    assert (Hwfs : wf gs) by (by eapply same_dims_wf).
    assert (Hl' : ∀ d, d ∈ l → inb g d.1 d.2) by (intros d ?; apply Hl; by right).
    destruct (visible (cell_at gs i j)) eqn:Ev; simpl; [by apply IHl|].
    destruct (IH gs i j) as [[g2 log2] Hcall];
      [done|by eapply same_dims_inb|rewrite Ev; lia|].
    rewrite Hcall. simpl.
    pose proof (bucket_reveal_spec _ _ _ _ _ _ Hwfs (same_dims_inb _ _ _ _ Hsd Hd) Hcall)
      as Hspec.
    pose proof (reveal_spec_inb _ _ _ _ _ (same_dims_inb _ _ _ _ Hsd Hd) Hspec) as Hin2.
    destruct Hspec as (Hg2 & _).
    apply IHl; [done| |].
    - simpl. rewrite Hg2. eapply same_dims_trans; [exact Hsd|apply reveal_all_same_dims].
    - simpl. rewrite Hg2. pose proof (hidden_count_reveal_all gs log2 Hwfs Hin2). lia. }
  apply Hloop; [|done|done].
  intros [i j] Hd. by apply around_inb in Hd.
Qed.

(** *** What the flood covers *)

Lemma zero_region_inb g x y c : inb g x y → zero_region g x y c → inb g c.1 c.2.
Proof.
  intros Hin Hr. destruct Hr as [|c [i j] _ Hd _]; [done|]. by apply around_inb in Hd.
Qed.

Lemma zero_region_adj g x y c : zero_region g x y c → adj (cell_at g c.1 c.2) = 0.
Proof. destruct 1; done. Qed.

Lemma zero_closed_reveal g x y g' log :
  wf g → inb g x y → zero_closed g → reveal_spec g x y g' log → zero_closed g'.
Proof.
  intros Hwf Hin Hzc Hspec. pose proof (reveal_spec_inb _ _ _ _ _ Hin Hspec) as Hlin.
  destruct Hspec as (Hg' & _ & _ & _ & Hcl).
  pose proof (reveal_all_same_dims g log) as Hsd. rewrite <- Hg' in Hsd.
  intros i j Hij Hv Hz d Hd.
  apply (same_dims_inb_rev g g') in Hij; [|done].
  rewrite (same_dims_around g g') in Hd by done.
  rewrite Hg' in Hv, Hz. rewrite reveal_all_adj in Hz by done.
  apply visible_reveal_all in Hv; [|done..]. destruct Hv as [Hlog|Hv].
  - by apply (Hcl (i, j)).
  - destruct d as [dx dy]. pose proof (around_inb _ _ _ _ _ Hd).
    rewrite Hg'. apply reveal_all_visible_mono; [done|done|done|].
    by apply (Hzc i j Hij Hv Hz (dx, dy)).
Qed.

Lemma flood_only_root g x y c :
  zero_closed g → inb g x y → visible (cell_at g x y) = true →
  flood g x y c → c = (x, y).
Proof.
  intros Hzc Hin Hv. induction 1 as [|c d _ IH Hz Hd Hh]; [done|]. subst c.
  simpl in *. rewrite (Hzc x y Hin Hv Hz d Hd) in Hh. done.
Qed.

Lemma flood_region g x y c :
  adj (cell_at g x y) = 0 → flood g x y c → region_with_border g x y c.
Proof.
  intros Hz0. induction 1 as [|c d _ IH Hz Hd Hh].
  - left. by constructor.
  - assert (Hc : zero_region g x y c) by (destruct IH as [?|[? _]]; done).
    destruct (decide (adj (cell_at g d.1 d.2) = 0)) as [Hzd|Hzd].
    + left. by eapply zero_region_step.
    + right. split; [done|]. by exists c.
Qed.

Lemma region_revealed g g' x y d :
  same_dims g g' → (∀ i j, inb g i j → adj (cell_at g' i j) = adj (cell_at g i j)) →
  inb g x y → zero_closed g' → visible (cell_at g' x y) = true →
  region_with_border g x y d → visible (cell_at g' d.1 d.2) = true.
Proof.
  intros Hsd Hadj Hin Hzc Hv Hd.
  assert (Hzr : ∀ c, zero_region g x y c → visible (cell_at g' c.1 c.2) = true).
  { induction 1 as [|c e Hc IH He Hz]; [done|].
    pose proof (zero_region_inb _ _ _ _ Hin Hc) as Hcin.
    apply (Hzc c.1 c.2); [by eapply same_dims_inb|done| |].
    - rewrite Hadj by done. by eapply zero_region_adj.
    - by rewrite (same_dims_around g g'). }
  destruct Hd as [Hd|(_ & c & Hc & Hd)]; [by apply Hzr|].
  pose proof (zero_region_inb _ _ _ _ Hin Hc) as Hcin.
  apply (Hzc c.1 c.2); [by eapply same_dims_inb|by apply Hzr| |].
  - rewrite Hadj by done. by eapply zero_region_adj.
  - by rewrite (same_dims_around g g').
Qed.

(** C6, as amended.  On a grid where every revealed zero-count cell has
    all its neighbours revealed, [bucket_reveal] on a cell of the grid
    returns (a fuel of two more than the number of hidden cells is
    enough); it enters no cell twice and, apart from the clicked cell,
    only cells that were hidden; if the clicked cell's count is zero, the
    cells visible afterwards are exactly those visible before together
    with the zero-count region of the clicked cell and its numbered
    border, and otherwise those visible before together with the clicked
    cell; on an already revealed cell no cell's visibility changes; the
    clicked cell's flag and question mark are cleared, and no cell's mine,
    exploded, mistake or count field changes.  Every cell it enters
    loses its flag and question mark, and a cell it does not enter is
    left as it was; on an already revealed cell it enters that cell only,
    so every other cell and the counter of revealed cells are left as
    they were. *)
Theorem bucket_reveal_flood g x y fuel :
  wf g → inb g x y → zero_closed g →
  hidden_count g + 2 <= Z.of_nat fuel →
  ∃ g' log,
    bucket_reveal fuel g x y = Ret (g', log) ∧
    NoDup log ∧
    (∀ c, c ∈ log → c = (x, y) ∨ visible (cell_at g c.1 c.2) = false) ∧
    (adj (cell_at g x y) = 0 →
     ∀ i j, inb g i j →
       visible (cell_at g' i j) = true ↔
       visible (cell_at g i j) = true ∨ region_with_border g x y (i, j)) ∧
    (adj (cell_at g x y) ≠ 0 →
     ∀ i j, inb g i j →
       visible (cell_at g' i j) = true ↔
       visible (cell_at g i j) = true ∨ (i, j) = (x, y)) ∧
    (visible (cell_at g x y) = true →
     ∀ i j, inb g i j → visible (cell_at g' i j) = visible (cell_at g i j)) ∧
    flag (cell_at g' x y) = false ∧ qmark (cell_at g' x y) = false ∧
    (∀ i j, inb g i j →
       mine (cell_at g' i j) = mine (cell_at g i j) ∧
       exploded (cell_at g' i j) = exploded (cell_at g i j) ∧
       mistake (cell_at g' i j) = mistake (cell_at g i j) ∧
       adj (cell_at g' i j) = adj (cell_at g i j)) ∧
    (∀ i j, inb g i j → (i, j) ∈ log →
       flag (cell_at g' i j) = false ∧ qmark (cell_at g' i j) = false) ∧
    (∀ i j, inb g i j → (i, j) ∉ log → cell_at g' i j = cell_at g i j) ∧
    (visible (cell_at g x y) = true →
     log = [(x, y)] ∧ visible_cell_count g' = visible_cell_count g ∧
     ∀ i j, inb g i j → (i, j) ≠ (x, y) → cell_at g' i j = cell_at g i j).
Proof.
  intros Hwf Hin Hzc Hfuel.
  destruct (bucket_reveal_terminates fuel g x y Hwf Hin) as [[g' log] Hrun].
  { destruct (visible (cell_at g x y)); lia. }
  exists g', log. split; [done|].
  pose proof (bucket_reveal_spec _ _ _ _ _ _ Hwf Hin Hrun) as Hspec.
  pose proof (reveal_spec_inb _ _ _ _ _ Hin Hspec) as Hlin.
  pose proof (zero_closed_reveal _ _ _ _ _ Hwf Hin Hzc Hspec) as Hzc'.
  destruct Hspec as (Hg' & (tl & Hlog & Htl) & Hnd & Hfl & Hcl).
  pose proof (reveal_all_same_dims g log) as Hsd. rewrite <- Hg' in Hsd.
  assert (Hroot : (x, y) ∈ log) by (rewrite Hlog; by left).
  assert (Hvis : ∀ i j, inb g i j →
            visible (cell_at g' i j) = true ↔ (i, j) ∈ log ∨ visible (cell_at g i j) = true).
  { intros i j Hij. rewrite Hg'. by apply visible_reveal_all. }
  assert (Hadj : ∀ i j, inb g i j → adj (cell_at g' i j) = adj (cell_at g i j)).
  { intros i j Hij. rewrite Hg'. by apply reveal_all_adj. }
  split; [done|]. split.
  { intros c Hc. rewrite Hlog in Hc. apply elem_of_cons in Hc as [->|Hc]; [by left|].
    right. rewrite Forall_forall in Htl. by apply Htl in Hc as (_ & _ & ?). }
  split.
  { intros Hz i j Hij. rewrite Hvis by done. split.
    - intros [Hc|Hv]; [right|by left]. apply flood_region; [done|by apply Hfl].
    - intros [Hv|Hr]; [by right|]. apply Hvis; [done|].
      apply (region_revealed g g' x y (i, j)); try done. apply Hvis; [done|by left]. }
  split.
  { intros Hnz i j Hij. rewrite Hvis by done. split.
    - intros [Hc|Hv]; [right|by left]. apply Hfl in Hc.
      destruct Hc as [|c d Hc Hz' Hd Hh]; [done|].
      exfalso. clear Hd Hh. induction Hc as [|c e Hc IH Hz Hd Hh]; [done|]. by apply IH.
    - intros [Hv|[= -> ->]]; [by right|by left]. }
  split.
  { intros Hv i j Hij. destruct (visible (cell_at g i j)) eqn:Evij.
    - apply Hvis; [done|by right].
    - destruct (visible (cell_at g' i j)) eqn:Ev'; [|done].
      apply Hvis in Ev'; [|done]. destruct Ev' as [Hc|?]; [|congruence].
      apply Hfl, flood_only_root in Hc; [|done..]. inversion Hc; subst. congruence. }
  assert (Hcell : cell_at g' x y = revealed (cell_at g x y)).
  { rewrite Hg', cell_at_reveal_all by done. by rewrite decide_True. }
  split; [by rewrite Hcell|]. split; [by rewrite Hcell|].
  split.
  { intros i j Hij. rewrite Hg', cell_at_reveal_all by done.
    by destruct (decide ((i, j) ∈ log)). }
  split.
  { intros i j Hij Hc. rewrite Hg', cell_at_reveal_all by done.
    by rewrite decide_True. }
  split.
  { intros i j Hij Hc. rewrite Hg', cell_at_reveal_all by done.
    by rewrite decide_False. }
  intros Hv.
  assert (Hone : log = [(x, y)]).
  { rewrite Hlog. destruct tl as [|c tl]; [done|]. exfalso.
    apply Forall_cons in Htl as [(_ & Hne & _) _]. apply Hne.
    apply (flood_only_root g x y c Hzc Hin Hv), Hfl. rewrite Hlog. right. by left. }
  split; [exact Hone|]. split.
  - rewrite Hg', Hone. change (reveal_all g [(x, y)]) with (reveal_cell g x y).
    rewrite reveal_cell_alt. simpl. rewrite Hv. lia.
  - intros i j Hij Hne. rewrite Hg', cell_at_reveal_all by done.
    rewrite decide_False; [done|]. rewrite Hone. intros Hc.
    apply list_elem_of_singleton in Hc. done.
Qed.

Lemma bucket_reveal_flood_witness :
  (∃ g' log, bucket_reveal 11 (blank 3 3) 0 0 = Ret (g', log) ∧ NoDup log) ∧
  (∃ g' log, bucket_reveal 8 chord_open 1 0 = Ret (g', log) ∧
             visible (cell_at chord_open 1 0) = true ∧ log = [(1, 0)] ∧
             cell_at g' 0 0 = cell_at chord_open 0 0).
Proof.
  split.
  - assert (Hwf : wf (blank 3 3)) by (repeat split; try done; vm_compute; lia).
    assert (Hin : inb (blank 3 3) 0 0) by (vm_compute; repeat split; congruence).
    assert (Hzc : zero_closed (blank 3 3)).
    { intros x y [Hx Hy] Hv. exfalso. change (grid_width (blank 3 3)) with 3 in Hx.
      change (grid_height (blank 3 3)) with 3 in Hy.
      assert (Hxs : x = 0 ∨ x = 1 ∨ x = 2) by lia.
      assert (Hys : y = 0 ∨ y = 1 ∨ y = 2) by lia.
      destruct Hxs as [->|[->| ->]], Hys as [->|[->| ->]]; vm_compute in Hv; congruence. }
    assert (Hfuel : hidden_count (blank 3 3) + 2 <= Z.of_nat 11)
      by (vm_compute; congruence).
    destruct (bucket_reveal_flood (blank 3 3) 0 0 11 Hwf Hin Hzc Hfuel)
      as (g' & log & Hrun & Hnd & _).
    exists g', log. split; assumption.
  - assert (Hwf : wf chord_open) by (repeat split; try done; vm_compute; lia).
    assert (Hin : inb chord_open 1 0) by (vm_compute; repeat split; congruence).
    assert (Hzc : zero_closed chord_open).
    { intros x y [Hx Hy] Hv Hz. exfalso. change (grid_width chord_open) with 3 in Hx.
      change (grid_height chord_open) with 2 in Hy.
      assert (Hxs : x = 0 ∨ x = 1 ∨ x = 2) by lia.
      assert (Hys : y = 0 ∨ y = 1) by lia.
      destruct Hxs as [->|[->| ->]], Hys as [->| ->];
        vm_compute in Hv; vm_compute in Hz; congruence. }
    assert (Hfuel : hidden_count chord_open + 2 <= Z.of_nat 8) by (vm_compute; congruence).
    assert (Hv : visible (cell_at chord_open 1 0) = true) by reflexivity.
    destruct (bucket_reveal_flood chord_open 1 0 8 Hwf Hin Hzc Hfuel)
      as (g' & log & Hrun & _ & _ & _ & _ & _ & _ & _ & _ & _ & _ & Hvis).
    destruct (Hvis Hv) as (Hone & _ & Hrest).
    exists g', log. split; [exact Hrun|]. split; [exact Hv|]. split; [exact Hone|].
    apply Hrest; [vm_compute; repeat split; congruence|congruence].
Defined.

Lemma row5_adj_ok : adj_ok row5.
Proof.
  intros x y [Hx Hy]. change (grid_width row5) with 5 in Hx.
  change (grid_height row5) with 1 in Hy.
  assert (y = 0) as -> by lia.
  assert (Hxs : x = 0 ∨ x = 1 ∨ x = 2 ∨ x = 3 ∨ x = 4) by lia.
  destruct Hxs as [->|[->|[->|[->| ->]]]]; reflexivity.
Qed.

(** C6 as stated fails on grids that satisfy the adjacency invariant only.
    In a row of five empty cells whose middle cell is revealed, the reveal
    of cell 0 stops at the revealed cell: cell 4 belongs to the zero-count
    region of cell 0 and stays hidden.  And the reveal of the already
    revealed middle cell makes cell 1 visible. *)
Lemma bucket_reveal_needs_closed_zeros :
  adj_ok row5 ∧
  (∃ g' log, bucket_reveal 7 row5 0 0 = Ret (g', log) ∧
             adj (cell_at row5 0 0) = 0 ∧ region_with_border row5 0 0 (4, 0) ∧
             visible (cell_at g' 4 0) = false) ∧
  (∃ g' log, bucket_reveal 7 row5 2 0 = Ret (g', log) ∧
             visible (cell_at row5 2 0) = true ∧
             visible (cell_at row5 1 0) = false ∧ visible (cell_at g' 1 0) = true).
Proof.
  split; [apply row5_adj_ok|]. split.
  - eexists _, _. split; [vm_compute; reflexivity|]. split; [reflexivity|].
    split; [|reflexivity]. left.
    assert (Hstep : ∀ i, 0 <= i < 4 → zero_region row5 0 0 (i, 0) →
                         zero_region row5 0 0 (i + 1, 0)).
    { intros i Hi Hr. apply (zero_region_step _ _ _ (i, 0)); [done| |].
      - apply elem_of_around. simpl. lia.
      - assert (His : i = 0 ∨ i = 1 ∨ i = 2 ∨ i = 3) by lia.
        destruct His as [->|[->|[->| ->]]]; reflexivity. }
    apply (Hstep 3); [lia|]. apply (Hstep 2); [lia|].
    apply (Hstep 1); [lia|]. apply (Hstep 0); [lia|].
    constructor. reflexivity.
  - eexists _, _. split; [vm_compute; reflexivity|]. repeat split.
Qed.

(** ** Chording *)

Lemma check_for_flag_mistakes_lookup g i :
  (i < length (minefield g))%nat →
  length (minefield g) = Z.to_nat (grid_width g * grid_height g) →
  minefield (check_for_flag_mistakes g) !!! i = mark_mistake (minefield g !!! i).
Proof.
  intros Hi Hlen. unfold check_for_flag_mistakes. simpl. rewrite <- Hlen.
  set (step := λ (mf : list cell) (i : nat),
         if flag (mf !!! i) && negb (mine (mf !!! i))
         then alter (set_mistake true) i mf else mf).
  assert (Hinv : ∀ k, (k ≤ length (minefield g))%nat →
            let mf := foldl step (minefield g) (seq 0 k) in
            length mf = length (minefield g) ∧
            ∀ j, (j < length (minefield g))%nat →
                 mf !!! j = if decide (j < k)%nat then mark_mistake (minefield g !!! j)
                            else minefield g !!! j).
  { induction k as [|k IH]; intros Hk.
    - split; [done|]. intros j Hj. destruct (decide (j < 0)%nat); [lia|done].
    - cbv zeta. rewrite seq_S, foldl_app. cbn [foldl Nat.add].
      destruct IH as [HL Hlk]; [lia|].
      set (mf := foldl step (minefield g) (seq 0 k)) in *.
      assert (Hk' : mf !!! k = minefield g !!! k)
        by (rewrite Hlk by lia; destruct (decide (k < k)%nat); [lia|done]).
      assert (Hs : step mf k =
                   if flag (minefield g !!! k) && negb (mine (minefield g !!! k))
                   then alter (set_mistake true) k mf else mf)
        by (unfold step; by rewrite Hk').
      rewrite Hs. clear Hs. split.
      + destruct (flag _ && negb _); [rewrite length_alter|]; exact HL.
      + intros j Hj. destruct (decide (j = k)) as [->|Hne].
        * destruct (decide (k < S k)%nat); [|lia]. unfold mark_mistake.
          destruct (flag _ && negb _); [|exact Hk'].
          rewrite list_lookup_total_alter_eq by lia. by rewrite Hk'.
        * assert (Hj' : mf !!! j = foldl step (minefield g) (seq 0 k) !!! j) by done.
          transitivity (mf !!! j).
          { destruct (flag _ && negb _); [|done].
            by rewrite list_lookup_total_alter_ne. }
          rewrite Hlk by done.
          destruct (decide (j < k)%nat), (decide (j < S k)%nat); try done; lia. }
  destruct (Hinv (length (minefield g))) as [_ Hall]; [lia|].
  rewrite Hall by done. destruct (decide (i < length (minefield g))%nat); [done|lia].
Qed.

Lemma check_for_flag_mistakes_same_dims g :
  length (minefield g) = Z.to_nat (grid_width g * grid_height g) →
  same_dims g (check_for_flag_mistakes g).
Proof.
  intros Hlen. repeat split. simpl. rewrite <- Hlen.
  generalize (seq 0 (length (minefield g))). intros l.
  generalize (minefield g). induction l as [|k l IH]; intros mf; [done|].
  simpl. rewrite IH. destruct (flag _ && negb _); [apply length_alter|done].
Qed.

Lemma cell_at_end_game g won x y :
  wf g → inb g x y →
  cell_at (end_game g won) x y = mark_mistake (cell_at g x y).
Proof.
  intros Hwf Hin. unfold end_game, cell_at.
  change (idx (check_for_flag_mistakes _) x y) with (idx g x y).
  rewrite check_for_flag_mistakes_lookup; [done| |by destruct Hwf as (_ & _ & ?)].
  simpl. by apply idx_lt.
Qed.

Lemma end_game_same_dims g won : wf g → same_dims g (end_game g won).
Proof.
  intros (_ & _ & Hlen). unfold end_game.
  by apply (check_for_flag_mistakes_same_dims
              (with_status g (if won then game_won else game_lost))).
Qed.

Lemma end_game_status g won :
  status (end_game g won) = if won then game_won else game_lost.
Proof. done. Qed.

(** *** The relation between a state and a later one *)

Lemma advances_refl g : advances g g.
Proof. split; [apply same_dims_refl|]. split; [done|]. intros i j _. by repeat split. Qed.

Lemma advances_trans g1 g2 g3 : advances g1 g2 → advances g2 g3 → advances g1 g3.
Proof.
  intros (Hsd1 & Hst1 & H1) (Hsd2 & Hst2 & H2).
  split; [by eapply same_dims_trans|]. split; [auto|].
  intros i j Hij. destruct (H1 i j Hij) as (Hm1 & Ha1 & Hv1 & He1 & Hf1 & Hq1).
  destruct (H2 i j (same_dims_inb _ _ _ _ Hsd1 Hij)) as (Hm2 & Ha2 & Hv2 & He2 & Hf2 & Hq2).
  repeat split; [congruence|congruence|auto..].
Qed.

Lemma advances_reveal_all g l :
  wf g → Forall (λ c, inb g c.1 c.2) l → advances g (reveal_all g l).
Proof.
  intros Hwf Hl. split; [apply reveal_all_same_dims|].
  split; [by rewrite reveal_all_status|].
  intros i j Hij. rewrite cell_at_reveal_all by done.
  destruct (decide ((i, j) ∈ l)); by repeat split.
Qed.

Lemma advances_explode g x y :
  wf g → inb g x y → advances g (end_game (set_cell g x y (set_exploded true)) false).
Proof.
  intros Hwf Hin. pose proof (set_cell_same_dims g x y (set_exploded true)) as Hsd.
  assert (Hwf' : wf (set_cell g x y (set_exploded true))) by (by eapply same_dims_wf).
  split; [eapply same_dims_trans; [exact Hsd|by apply end_game_same_dims]|].
  split; [done|]. intros i j Hij.
  rewrite cell_at_end_game; [|done|by eapply same_dims_inb].
  rewrite cell_at_set_cell by done. unfold mark_mistake.
  destruct (decide ((x, y) = (i, j))) as [[= -> ->]|Hne].
  - destruct (cell_at g i j) as [[] ? [] ? ? ? ?]; by repeat split.
  - destruct (cell_at g i j) as [[] ? [] ? ? ? ?]; by repeat split.
Qed.

Lemma advances_hidden_count g g' : advances g g' → hidden_count g' <= hidden_count g.
Proof.
  intros (Hsd & _ & H). unfold hidden_count. rewrite (same_dims_scan g g') by done.
  apply countZ_mono. intros [i j] Hij%elem_of_scan. simpl.
  destruct (H i j Hij) as (_ & _ & Hv & _).
  destruct (visible (cell_at g i j)); [|done]. by rewrite Hv.
Qed.

Lemma count_adjacent_mines_count g x y :
  count_adjacent_mines g x y = countZ (λ d, mine (cell_at g d.1 d.2)) (around g x y).
Proof. unfold count_adjacent_mines. by rewrite foldl_count. Qed.

Lemma count_adjacent_revealed_cells_count g x y :
  count_adjacent_revealed_cells g x y =
  countZ (λ d, visible (cell_at g d.1 d.2)) (around g x y).
Proof. unfold count_adjacent_revealed_cells. by rewrite foldl_count. Qed.

Lemma advances_adj_ok g g' : advances g g' → adj_ok g → adj_ok g'.
Proof.
  intros (Hsd & _ & H) Hok x y Hxy. apply (same_dims_inb_rev g g') in Hxy; [|done].
  destruct (H x y Hxy) as (_ & -> & _). rewrite (Hok x y Hxy).
  rewrite !count_adjacent_mines_count, (same_dims_around g g') by done.
  apply countZ_ext. intros [i j] Hd. apply around_inb in Hd. simpl.
  by destruct (H i j Hd) as (-> & _).
Qed.

(** In a grid with correct counts the flood walks over no mine, except
    possibly the cell it starts on. *)
Lemma flood_no_mine g x y c :
  adj_ok g → inb g x y → flood g x y c →
  c = (x, y) ∨ mine (cell_at g c.1 c.2) = false.
Proof.
  intros Hok Hin Hfl. destruct Hfl as [|c d Hc Hz Hd Hv]; [by left|]. right.
  pose proof (flood_inb _ _ _ _ Hin Hc) as Hcin.
  rewrite (Hok _ _ Hcin), count_adjacent_mines_count in Hz.
  by apply (proj1 (countZ_zero _ _) Hz d).
Qed.

Lemma chord_flag_count_some g x y :
  Forall (λ d, qmark (cell_at g d.1 d.2) = false) (around g x y) →
  chord_flag_count g x y =
  Some (countZ (λ d, negb (visible (cell_at g d.1 d.2)) && flag (cell_at g d.1 d.2))
               (around g x y)).
Proof.
  unfold chord_flag_count. generalize (around g x y). intros l.
  rewrite <- (Z.add_0_l (countZ _ l)). generalize 0.
  induction l as [|d l IH]; intros n Hq.
  - simpl. by rewrite countZ_nil, Z.add_0_r.
  - apply Forall_cons in Hq as [Hd Hq]. cbn [foldl]. rewrite Hd, countZ_cons.
    destruct (negb (visible (cell_at g d.1 d.2)) && flag (cell_at g d.1 d.2));
      rewrite IH by done; f_equal; lia.
Qed.

Lemma chord_flag_count_none g x y :
  ¬ Forall (λ d, qmark (cell_at g d.1 d.2) = false) (around g x y) →
  chord_flag_count g x y = None.
Proof.
  unfold chord_flag_count. generalize (around g x y). intros l.
  set (f := λ (acc : option Z) (ij : Z * Z), _).
  assert (Hnone : ∀ l', foldl f None l' = None)
    by (intros l'; induction l' as [|? ? IH']; [done|exact IH']).
  generalize 0. induction l as [|d l IH]; intros n Hq.
  - destruct Hq. constructor.
  - cbn [foldl]. unfold f at 2. destruct (qmark (cell_at g d.1 d.2)) eqn:Eq; [apply Hnone|].
    destruct (negb (visible (cell_at g d.1 d.2)) && flag (cell_at g d.1 d.2));
      apply IH; intros Hl; apply Hq; by constructor.
Qed.

(** One neighbour handled by the revealing loop. *)
Lemma chord_step_spec fuel g i j :
  wf g → inb g i j → hidden_count g + 2 <= Z.of_nat fuel →
  ∃ g1, chord_step fuel g (i, j) = Ret g1 ∧ advances g g1 ∧
    (adj_ok g → ∀ a b, inb g a b → mine (cell_at g a b) = true →
                visible (cell_at g1 a b) = visible (cell_at g a b)) ∧
    (flag (cell_at g i j) = false → qmark (cell_at g i j) = false →
     (mine (cell_at g i j) = false → visible (cell_at g1 i j) = true) ∧
     (mine (cell_at g i j) = true → visible (cell_at g i j) = false →
      visible (cell_at g1 i j) = false ∧ exploded (cell_at g1 i j) = true ∧
      status g1 = game_lost)).
Proof.
  intros Hwf Hin Hfuel. unfold chord_step. simpl.
  destruct (visible (cell_at g i j)) eqn:Ev; simpl.
  { exists g. split; [done|]. split; [apply advances_refl|]. split; [done|].
    intros _ _. split; [done|]. intros _ ?. done. }
  destruct (flag (cell_at g i j)) eqn:Ef; simpl.
  { exists g. split; [done|]. split; [apply advances_refl|]. split; [done|]. done. }
  destruct (qmark (cell_at g i j)) eqn:Eq; simpl.
  { exists g. split; [done|]. split; [apply advances_refl|]. split; [done|]. done. }
  destruct (mine (cell_at g i j)) eqn:Em.
  - (* a mine: it explodes and the game is lost *)
    eexists. split; [done|]. split; [by apply advances_explode|].
    pose proof (set_cell_same_dims g i j (set_exploded true)) as Hsd.
    assert (Hwf' : wf (set_cell g i j (set_exploded true))) by (by eapply same_dims_wf).
    assert (Hvis : ∀ a b, inb g a b →
              visible (cell_at (end_game (set_cell g i j (set_exploded true)) false) a b)
              = visible (cell_at g a b)).
    { intros a b Hab. rewrite cell_at_end_game; [|done|by eapply same_dims_inb].
      rewrite cell_at_set_cell by done. unfold mark_mistake.
      destruct (decide ((i, j) = (a, b))) as [[= -> ->]|Hne].
      - by destruct (cell_at g a b) as [[] ? [] ? ? ? ?].
      - by destruct (cell_at g a b) as [[] ? [] ? ? ? ?]. }
    split; [intros _ a b Hab _; by apply Hvis|].
    intros _ _. split; [done|]. intros _ _. split; [by rewrite Hvis|]. split; [|done].
    rewrite cell_at_end_game; [|done|by eapply same_dims_inb].
    rewrite cell_at_set_cell_eq by done. unfold mark_mistake.
    by destruct (cell_at g i j) as [[] ? [] ? ? ? ?].
  - (* no mine: the flood *)
    destruct (bucket_reveal_terminates fuel g i j Hwf Hin) as [[g2 log] Hrun];
      [rewrite Ev; lia|].
    rewrite Hrun. simpl. exists g2. split; [done|].
    pose proof (bucket_reveal_spec _ _ _ _ _ _ Hwf Hin Hrun) as Hspec.
    pose proof (reveal_spec_inb _ _ _ _ _ Hin Hspec) as Hlin.
    destruct Hspec as (Hg2 & (tl & Hlog & _) & _ & Hfl & _).
    split; [rewrite Hg2; by apply advances_reveal_all|]. split.
    + intros Hok a b Hab Hm. rewrite Hg2, cell_at_reveal_all by done.
      destruct (decide ((a, b) ∈ log)) as [Hel|]; [|done].
      apply Hfl, (flood_no_mine _ _ _ _ Hok Hin) in Hel as [[= -> ->]|Hnm]; simpl in *; congruence.
    + intros _ _. split; [|done]. intros _. rewrite Hg2.
      apply visible_reveal_all; [done..|]. left. rewrite Hlog. by left.
Qed.

Lemma chord_loop fuel :
  ∀ l g,
    wf g → Forall (λ d, inb g d.1 d.2) l → hidden_count g + 2 <= Z.of_nat fuel →
    ∃ g', rfold (chord_step fuel) l g = Ret g' ∧ advances g g' ∧
      (adj_ok g → ∀ a b, inb g a b → mine (cell_at g a b) = true →
                  visible (cell_at g' a b) = visible (cell_at g a b)) ∧
      ∀ d, d ∈ l →
        flag (cell_at g d.1 d.2) = false → qmark (cell_at g d.1 d.2) = false →
        (mine (cell_at g d.1 d.2) = false → visible (cell_at g' d.1 d.2) = true) ∧
        (mine (cell_at g d.1 d.2) = true → visible (cell_at g d.1 d.2) = false →
         (visible (cell_at g' d.1 d.2) = true ∨
          (exploded (cell_at g' d.1 d.2) = true ∧ status g' = game_lost)) ∧
         (adj_ok g → visible (cell_at g' d.1 d.2) = false ∧
                     exploded (cell_at g' d.1 d.2) = true ∧ status g' = game_lost)).
Proof.
  induction l as [|[i j] l IH]; intros g Hwf Hl Hfuel.
  { exists g. split; [done|]. split; [apply advances_refl|]. split; [done|].
    intros d Hd. by apply elem_of_nil in Hd. }
  apply Forall_cons in Hl as [Hij Hl]. simpl in Hij.
  destruct (chord_step_spec fuel g i j Hwf Hij Hfuel) as (g1 & Hstep & Hadv1 & Hm1 & Hhead).
  assert (Hsd1 : same_dims g g1) by apply Hadv1.
  assert (Hwf1 : wf g1) by (by eapply same_dims_wf).
  destruct (IH g1) as (g' & Hrun & Hadv & Hm & Htail); [done| | |].
  { eapply Forall_impl; [exact Hl|]. intros d ?. by eapply same_dims_inb. }
  { pose proof (advances_hidden_count _ _ Hadv1). lia. }
  exists g'. cbn [rfold]. rewrite Hstep. simpl. split; [done|].
  split; [by eapply advances_trans|].
  assert (Hmines : adj_ok g → ∀ a b, inb g a b → mine (cell_at g a b) = true →
                   visible (cell_at g' a b) = visible (cell_at g a b)).
  { intros Hok a b Hab Hmab. rewrite <- (Hm1 Hok a b Hab Hmab).
    apply Hm; [by eapply advances_adj_ok|by eapply same_dims_inb|].
    destruct Hadv1 as (_ & _ & H1). by destruct (H1 a b Hab) as (-> & _). }
  split; [done|].
  destruct Hadv as (Hsd & Hst & Hcells). destruct Hadv1 as (_ & Hst1 & Hcells1).
  intros [a b] Hd Hf Hq. simpl in *.
  assert (Hab : inb g a b).
  { apply elem_of_cons in Hd as [[= -> ->]|Hd]; [done|].
    rewrite Forall_forall in Hl. by apply (Hl (a, b)). }
  destruct (Hcells1 a b Hab) as (Hmi1 & _ & Hv1 & He1 & Hf1 & Hq1).
  destruct (Hcells a b (same_dims_inb _ _ _ _ Hsd1 Hab)) as (Hmi & _ & Hv & He & _).
  assert (Hf' : flag (cell_at g1 a b) = false)
    by (destruct (flag (cell_at g1 a b)); [by rewrite Hf1 in Hf|done]).
  assert (Hq' : qmark (cell_at g1 a b) = false)
    by (destruct (qmark (cell_at g1 a b)); [by rewrite Hq1 in Hq|done]).
  apply elem_of_cons in Hd as [[= -> ->]|Hd].
  - (* the neighbour handled first *)
    destruct (Hhead Hf Hq) as [Hnm Hmine]. split.
    + intros Hmab. apply Hv. by apply Hnm.
    + intros Hmab Hvab. destruct (Hmine Hmab Hvab) as (Hvis1 & Hex1 & Hlost1).
      split; [right; split; [by apply He|by apply Hst]|].
      intros Hok. split; [by rewrite Hmines|]. split; [by apply He|by apply Hst].
  - (* a neighbour handled later *)
    destruct (Htail (a, b) Hd Hf' Hq') as [Hnm Hmine]. simpl in *. split.
    + intros Hmab. apply Hnm. congruence.
    + intros Hmab Hvab. split.
      * destruct (visible (cell_at g1 a b)) eqn:Ev1; [left; by apply Hv|].
        apply Hmine; [congruence|done].
      * intros Hok. apply Hmine; [congruence| |by eapply advances_adj_ok].
        rewrite (Hm1 Hok a b Hab Hmab). done.
Qed.

(** C9, as amended.  [chord_reveal] on a cell of the grid leaves the state
    as it is unless no neighbour carries a question mark and the hidden
    flagged neighbours are as many as the cell's count.  In that case it
    returns a later state of the same board in which every neighbour that
    was hidden, unflagged and without a mine is revealed, and every
    neighbour that was hidden, unflagged and mined is marked exploded with
    the game lost; the mined neighbour stays hidden when the counts of
    the grid are correct, and on a grid with wrong counts the flood from a
    sibling may have revealed it instead. *)
Theorem chord_reveal_spec g x y fuel :
  wf g → inb g x y → hidden_count g + 2 <= Z.of_nat fuel →
  (¬ chord_ready g x y → chord_reveal fuel g x y = Ret g) ∧
  (chord_ready g x y →
   ∃ g', chord_reveal fuel g x y = Ret g' ∧ advances g g' ∧
     ∀ d, d ∈ around g x y →
       visible (cell_at g d.1 d.2) = false → flag (cell_at g d.1 d.2) = false →
       (mine (cell_at g d.1 d.2) = false → visible (cell_at g' d.1 d.2) = true) ∧
       (mine (cell_at g d.1 d.2) = true →
        (visible (cell_at g' d.1 d.2) = true ∨
         (exploded (cell_at g' d.1 d.2) = true ∧ status g' = game_lost)) ∧
        (adj_ok g → visible (cell_at g' d.1 d.2) = false ∧
                    exploded (cell_at g' d.1 d.2) = true ∧ status g' = game_lost))).
Proof.
  intros Hwf Hin Hfuel. unfold chord_reveal. split.
  - intros Hnot.
    destruct (decide (Forall (λ d, qmark (cell_at g d.1 d.2) = false) (around g x y)))
      as [Hq|Hq].
    + rewrite chord_flag_count_some by done.
      destruct (Z.eqb_spec (adj (cell_at g x y))
                  (countZ (λ d, negb (visible (cell_at g d.1 d.2)) && flag (cell_at g d.1 d.2))
                          (around g x y))) as [Heq|Hne]; [|done].
      destruct Hnot. by split.
    + by rewrite chord_flag_count_none.
  - intros [Hq Hcount]. rewrite chord_flag_count_some by done.
    rewrite <- Hcount, Z.eqb_refl.
    destruct (chord_loop fuel (around g x y) g Hwf) as (g' & Hrun & Hadv & _ & Hpost);
      [|done|].
    { apply Forall_forall. intros [i j] Hd. by apply around_inb in Hd. }
    exists g'. split; [done|]. split; [done|]. intros d Hd Hv Hf.
    rewrite Forall_forall in Hq.
    destruct (Hpost d Hd Hf (Hq d Hd)) as [Hnm Hm]. split; [done|].
    intros Hmine. by apply Hm.
Qed.

Ltac in_concrete_list :=
  apply list_elem_of_In; vm_compute; repeat (first [left; reflexivity | right]).

Lemma chord_open_wf : wf chord_open.
Proof. repeat split; try done; vm_compute; lia. Qed.

Lemma chord_reveal_spec_witness :
  ∃ g', chord_reveal 8 chord_open 1 0 = Ret g' ∧ visible (cell_at g' 1 1) = true.
Proof.
  assert (Hin : inb chord_open 1 0) by (vm_compute; repeat split; congruence).
  assert (Hfuel : hidden_count chord_open + 2 <= Z.of_nat 8) by (vm_compute; congruence).
  assert (Hready : chord_ready chord_open 1 0).
  { split; [|reflexivity]. vm_compute. repeat constructor. }
  destruct (proj2 (chord_reveal_spec chord_open 1 0 8 chord_open_wf Hin Hfuel) Hready)
    as (g' & Hrun & _ & Hpost).
  exists g'. split; [exact Hrun|].
  apply (Hpost (1, 1)); [|reflexivity..].
  in_concrete_list.
Defined.

(** C9 as stated fails when a neighbour carries a question mark: in
    [chord_blocked] the revealed 1 at (1,0) has exactly one flagged hidden
    neighbour, yet the chord reveals nothing; the unmarked hidden cell
    (1,1) stays hidden. *)
Lemma chord_reveal_question_mark_blocks :
  visible (cell_at chord_blocked 1 0) = true ∧
  adj (cell_at chord_blocked 1 0) = 1 ∧
  countZ (λ d, negb (visible (cell_at chord_blocked d.1 d.2))
               && flag (cell_at chord_blocked d.1 d.2))
         (around chord_blocked 1 0) = 1 ∧
  (1, 1) ∈ around chord_blocked 1 0 ∧
  visible (cell_at chord_blocked 1 1) = false ∧
  flag (cell_at chord_blocked 1 1) = false ∧
  chord_reveal 8 chord_blocked 1 0 = Ret chord_blocked.
Proof.
  repeat split; try reflexivity. in_concrete_list.
Qed.

(** ** The adjacency invariant *)

Lemma uint8_small v : 0 <= v < 256 → uint8 v = v.
Proof. intros. unfold uint8. by apply Z.mod_small. Qed.

Lemma length_range_incl lo hi : length (range_incl lo hi) = Z.to_nat (hi - lo + 1).
Proof. unfold range_incl. apply length_seqZ. Qed.

Lemma length_bind_le {A B} (f : A → list B) (l : list A) (k : nat) :
  (∀ a, a ∈ l → (length (f a) ≤ k)%nat) → (length (l ≫= f) ≤ length l * k)%nat.
Proof.
  induction l as [|a l IH]; intros Hk; [done|]. csimpl. rewrite length_app.
  pose proof (Hk a ltac:(by left)). pose proof (IH (λ b Hb, Hk b ltac:(by right))). lia.
Qed.

Lemma length_around g x y : (length (around g x y) ≤ 9)%nat.
Proof.
  unfold around.
  etransitivity; [apply (length_bind_le _ _ 3)|].
  - intros j _. etransitivity; [apply (length_bind_le _ _ 1)|].
    + intros i _. destruct ((i =? x) && (j =? y)); simpl; lia.
    + rewrite length_range_incl. lia.
  - rewrite length_range_incl. lia.
Qed.

Lemma count_adjacent_mines_bound g x y : 0 <= count_adjacent_mines g x y <= 9.
Proof.
  rewrite count_adjacent_mines_count.
  pose proof (countZ_nonneg (λ d, mine (cell_at g d.1 d.2)) (around g x y)).
  pose proof (countZ_le_length (λ d, mine (cell_at g d.1 d.2)) (around g x y)).
  pose proof (length_around g x y). lia.
Qed.

Lemma countZ_add_one {A} `{EqDecision A} (P Q : A → bool) l a :
  NoDup l → P a = false → Q a = true →
  (∀ b, b ∈ l → b ≠ a → Q b = P b) →
  countZ Q l = countZ P l + (if decide (a ∈ l) then 1 else 0).
Proof.
  intros Hnd HP HQ Hrest. destruct (decide (a ∈ l)) as [Hel|Hel].
  - rewrite (countZ_remove_one Q P l a); [lia|done..|].
    intros b Hb Hne. symmetry. by apply Hrest.
  - rewrite Z.add_0_r. apply countZ_ext. intros b Hb. apply Hrest; [done|].
    intros ->. done.
Qed.

(** A loop of single-cell writes over distinct cells, where what is
    written to a cell does not depend on the writes made before. *)
Lemma foldl_set_cell_same_dims (F : game → Z * Z → cell → cell) l g :
  same_dims g (foldl (λ g' d, set_cell g' d.1 d.2 (F g' d)) g l).
Proof.
  revert g. induction l as [|d l IH]; intros g; [apply same_dims_refl|].
  simpl. eapply same_dims_trans; [apply set_cell_same_dims|apply IH].
Qed.

Lemma cell_at_foldl_set_cell (F : game → Z * Z → cell → cell) :
  (∀ g d e, wf g → inb g d.1 d.2 → F (set_cell g d.1 d.2 (F g d)) e = F g e) →
  ∀ l g x y,
    wf g → Forall (λ d, inb g d.1 d.2) l → NoDup l → inb g x y →
    cell_at (foldl (λ g' d, set_cell g' d.1 d.2 (F g' d)) g l) x y =
    if decide ((x, y) ∈ l) then F g (x, y) (cell_at g x y) else cell_at g x y.
Proof.
  intros HF. induction l as [|[i j] l IH]; intros g x y Hwf Hl Hnd Hxy.
  - simpl. destruct (decide ((x, y) ∈ [])) as [Hel|_]; [by apply elem_of_nil in Hel|done].
  - apply Forall_cons in Hl as [Hij Hl]. apply NoDup_cons in Hnd as [Hnot Hnd].
    simpl in Hij. cbn [foldl]. simpl.
    pose proof (set_cell_same_dims g i j (F g (i, j))) as Hsd.
    rewrite IH; [|by eapply same_dims_wf| |done|by eapply same_dims_inb].
    2:{ eapply Forall_impl; [exact Hl|]. intros d ?. by eapply same_dims_inb. }
    rewrite (HF g (i, j)) by done. rewrite cell_at_set_cell by done.
    destruct (decide ((i, j) = (x, y))) as [[= -> ->]|Hne].
    + rewrite (decide_False (P := (x, y) ∈ l)) by done.
      rewrite decide_True; [done|by left].
    + destruct (decide ((x, y) ∈ l)) as [Hel|Hel].
      * rewrite decide_True; [done|by right].
      * rewrite decide_False; [done|]. intros [?|?]%elem_of_cons; congruence.
Qed.

Lemma around_Forall_inb g x y : Forall (λ d, inb g d.1 d.2) (around g x y).
Proof. apply Forall_forall. intros [i j] Hd. by apply around_inb in Hd. Qed.

Lemma scan_Forall_inb g : Forall (λ d, inb g d.1 d.2) (scan g).
Proof. apply Forall_forall. intros [i j] Hd. by apply elem_of_scan. Qed.

Lemma around_sym_iff g x y i j :
  inb g x y → inb g i j → (i, j) ∈ around g x y ↔ (x, y) ∈ around g i j.
Proof. intros. split; by apply around_sym. Qed.

(** *** [spawn_mine] *)

Lemma spawn_mine_same_dims g x y : same_dims g (spawn_mine g x y).2.
Proof.
  unfold spawn_mine. destruct (mine (cell_at g x y)); [apply same_dims_refl|]. simpl.
  eapply same_dims_trans; [apply set_cell_same_dims|].
  apply (foldl_set_cell_same_dims (λ _ _, incr_adj)).
Qed.

Lemma cell_at_spawn_mine g x y i j :
  wf g → inb g x y → inb g i j → mine (cell_at g x y) = false →
  cell_at (spawn_mine g x y).2 i j =
  if decide ((i, j) = (x, y)) then set_mine true (cell_at g x y)
  else if decide ((i, j) ∈ around g x y) then incr_adj (cell_at g i j)
  else cell_at g i j.
Proof.
  intros Hwf Hxy Hij Hm. unfold spawn_mine. rewrite Hm. simpl.
  pose proof (set_cell_same_dims g x y (set_mine true)) as Hsd.
  rewrite (cell_at_foldl_set_cell (λ _ _, incr_adj));
    [|done|by eapply same_dims_wf|apply around_Forall_inb|apply NoDup_around
     |by eapply same_dims_inb].
  rewrite (same_dims_around g) by done. rewrite cell_at_set_cell by done.
  destruct (decide ((i, j) = (x, y))) as [[= -> ->]|Hne].
  - rewrite decide_False; [by rewrite decide_True|]. intros Hel. by apply around_ne in Hel.
  - rewrite (decide_False (P := (x, y) = (i, j))) by congruence. done.
Qed.

Lemma spawn_mine_adj_ok g x y :
  wf g → inb g x y → adj_ok g → adj_ok (spawn_mine g x y).2.
Proof.
  intros Hwf Hxy Hok. destruct (mine (cell_at g x y)) eqn:Em.
  { unfold spawn_mine. by rewrite Em. }
  pose proof (spawn_mine_same_dims g x y) as Hsd.
  intros i j Hij. apply (same_dims_inb_rev g) in Hij; [|done].
  rewrite count_adjacent_mines_count, (same_dims_around g) by done.
  rewrite (countZ_add_one (λ d, mine (cell_at g d.1 d.2)) _ _ (x, y));
    [|apply NoDup_around|done| |].
  - rewrite <- count_adjacent_mines_count, <- (Hok i j Hij).
    rewrite cell_at_spawn_mine by done.
    destruct (decide ((i, j) = (x, y))) as [[= -> ->]|Hne].
    + rewrite decide_False; [simpl; lia|]. intros Hel. by apply around_ne in Hel.
    + destruct (decide ((i, j) ∈ around g x y)) as [Hel|Hel].
      * rewrite decide_True by (by apply around_sym).
        unfold incr_adj. simpl. rewrite uint8_small; [done|].
        rewrite (Hok i j Hij). pose proof (count_adjacent_mines_bound g i j). lia.
      * rewrite decide_False; [lia|]. intros Hel'. apply Hel. by apply around_sym.
  - simpl. rewrite cell_at_spawn_mine by done. by rewrite decide_True.
  - intros [a b] Hd Hne. simpl. pose proof (around_inb _ _ _ _ _ Hd) as Hab.
    rewrite cell_at_spawn_mine by done. rewrite decide_False by done.
    by destruct (decide ((a, b) ∈ around g x y)).
Qed.

(** *** [remove_mine] *)

Lemma reveal_loop_advances fuel :
  ∀ l g g',
    wf g → Forall (λ d, inb g d.1 d.2) l →
    rfold (λ g' (ij : Z * Z),
             if visible (cell_at g' ij.1 ij.2)
             then r ←r bucket_reveal fuel g' ij.1 ij.2; Ret r.1
             else Ret g') l g = Ret g' →
    advances g g'.
Proof.
  induction l as [|[i j] l IH]; intros g g' Hwf Hl Hrun.
  - inversion Hrun. apply advances_refl.
  - apply Forall_cons in Hl as [Hij Hl]. simpl in Hij. cbn [rfold] in Hrun. simpl in Hrun.
    destruct (visible (cell_at g i j)).
    + destruct (bucket_reveal fuel g i j) as [[g1 log]|] eqn:Ecall; [|done].
      simpl in Hrun.
      pose proof (bucket_reveal_spec _ _ _ _ _ _ Hwf Hij Ecall) as Hspec.
      pose proof (reveal_spec_inb _ _ _ _ _ Hij Hspec) as Hlin.
      destruct Hspec as (Hg1 & _).
      assert (Hadv : advances g g1) by (rewrite Hg1; by apply advances_reveal_all).
      eapply advances_trans; [exact Hadv|]. apply IH; [| |done].
      * eapply same_dims_wf; [apply Hadv|done].
      * eapply Forall_impl; [exact Hl|]. intros d ?. eapply same_dims_inb; [apply Hadv|done].
    + simpl in Hrun. by apply IH.
Qed.

Lemma cell_at_decr_around g x y i j :
  wf g → inb g x y → inb g i j →
  cell_at (foldl (λ g' ij, set_cell g' ij.1 ij.2 decr_adj)
                 (set_cell g x y (set_mine false))
                 (around (set_cell g x y (set_mine false)) x y)) i j =
  if decide ((i, j) = (x, y)) then set_mine false (cell_at g x y)
  else if decide ((i, j) ∈ around g x y) then decr_adj (cell_at g i j)
  else cell_at g i j.
Proof.
  intros Hwf Hxy Hij.
  pose proof (set_cell_same_dims g x y (set_mine false)) as Hsd.
  rewrite (cell_at_foldl_set_cell (λ _ _, decr_adj));
    [|done|by eapply same_dims_wf|apply around_Forall_inb|apply NoDup_around
     |by eapply same_dims_inb].
  rewrite (same_dims_around g) by done. rewrite cell_at_set_cell by done.
  destruct (decide ((i, j) = (x, y))) as [[= -> ->]|Hne].
  - rewrite decide_False; [by rewrite decide_True|]. intros Hel. by apply around_ne in Hel.
  - rewrite (decide_False (P := (x, y) = (i, j))) by congruence. done.
Qed.

Lemma remove_mine_inv fuel g x y b g' :
  wf g → inb g x y → adj_ok g →
  remove_mine fuel g x y = Ret (b, g') → wf g' ∧ adj_ok g'.
Proof.
  intros Hwf Hxy Hok Hrun. unfold remove_mine in Hrun.
  destruct (mine (cell_at g x y)) eqn:Em; simpl in Hrun; [|by inversion Hrun; subst].
  set (g1 := set_cell g x y (set_mine false)) in *.
  set (g2 := foldl (λ g' ij, set_cell g' ij.1 ij.2 decr_adj) g1 (around g1 x y)) in *.
  assert (Hsd2 : same_dims g g2).
  { eapply same_dims_trans; [apply (set_cell_same_dims g x y (set_mine false))|].
    apply (foldl_set_cell_same_dims (λ _ _, decr_adj)). }
  assert (Hwf2 : wf g2) by (by eapply same_dims_wf).
  assert (Hok2 : adj_ok g2).
  { intros i j Hij. apply (same_dims_inb_rev g) in Hij; [|done].
    rewrite count_adjacent_mines_count, (same_dims_around g) by done.
    assert (Hcount : countZ (λ d, mine (cell_at g d.1 d.2)) (around g i j) =
                     countZ (λ d, mine (cell_at g2 d.1 d.2)) (around g i j) +
                     (if decide ((x, y) ∈ around g i j) then 1 else 0)).
    { apply countZ_add_one; [apply NoDup_around| |done|].
      - simpl. unfold g2, g1. rewrite cell_at_decr_around by done. by rewrite decide_True.
      - intros [a c] Hd Hne. simpl. pose proof (around_inb _ _ _ _ _ Hd) as Hac.
        unfold g2, g1. rewrite cell_at_decr_around by done. rewrite decide_False by done.
        by destruct (decide ((a, c) ∈ around g x y)). }
    rewrite <- count_adjacent_mines_count, <- (Hok i j Hij) in Hcount.
    unfold g2, g1. rewrite cell_at_decr_around by done. fold g1. fold g2.
    destruct (decide ((i, j) = (x, y))) as [[= -> ->]|Hne].
    - rewrite decide_False in Hcount; [simpl; lia|]. intros Hel. by apply around_ne in Hel.
    - destruct (decide ((i, j) ∈ around g x y)) as [Hel|Hel].
      + rewrite decide_True in Hcount by (by apply around_sym).
        unfold decr_adj. simpl.
        pose proof (countZ_nonneg (λ d, mine (cell_at g2 d.1 d.2)) (around g i j)).
        pose proof (count_adjacent_mines_bound g i j). rewrite <- (Hok i j Hij) in *.
        rewrite uint8_small; lia.
      + rewrite decide_False in Hcount; [lia|]. intros Hel'. apply Hel. by apply around_sym. }
  destruct (rfold _ (around g2 x y) g2) as [g3|] eqn:Eloop; [|done].
  simpl in Hrun. inversion Hrun; subst b g'.
  apply reveal_loop_advances in Eloop; [|done|apply around_Forall_inb].
  split; [eapply same_dims_wf; [apply Eloop|done]|by eapply advances_adj_ok].
Qed.

(** *** [recompute_minefield_adj] *)

Lemma count_adjacent_mines_set_adj g d v x y :
  wf g → inb g d.1 d.2 →
  count_adjacent_mines (set_cell g d.1 d.2 (set_adj v)) x y = count_adjacent_mines g x y.
Proof.
  intros Hwf Hd. rewrite !count_adjacent_mines_count.
  rewrite (same_dims_around g) by apply set_cell_same_dims.
  apply countZ_ext. intros [a b] Hab. apply around_inb in Hab. simpl.
  rewrite cell_at_set_cell by done.
  destruct (decide ((d.1, d.2) = (a, b))) as [[= <- <-]|]; done.
Qed.

Lemma recompute_same_dims g : same_dims g (recompute_minefield_adj g).
Proof.
  apply (foldl_set_cell_same_dims (λ g' d, set_adj (count_adjacent_mines g' d.1 d.2))).
Qed.

Lemma cell_at_recompute g i j :
  wf g → inb g i j →
  cell_at (recompute_minefield_adj g) i j =
  set_adj (count_adjacent_mines g i j) (cell_at g i j).
Proof.
  intros Hwf Hij. unfold recompute_minefield_adj.
  rewrite (cell_at_foldl_set_cell (λ g' d, set_adj (count_adjacent_mines g' d.1 d.2)));
    [|..|done|apply scan_Forall_inb|apply NoDup_scan|done].
  - rewrite decide_True; [done|by apply elem_of_scan].
  - intros g0 d e Hwf0 Hd. simpl. by rewrite count_adjacent_mines_set_adj.
Qed.

Lemma recompute_adj_ok g : wf g → adj_ok (recompute_minefield_adj g).
Proof.
  intros Hwf i j Hij. pose proof (recompute_same_dims g) as Hsd.
  apply (same_dims_inb_rev g) in Hij; [|done].
  rewrite cell_at_recompute by done. simpl.
  pose proof (count_adjacent_mines_bound g i j). rewrite uint8_small by lia.
  rewrite !count_adjacent_mines_count.
  rewrite (same_dims_around g (recompute_minefield_adj g)) by done.
  apply countZ_ext. intros [a b] Hab. apply around_inb in Hab. simpl.
  by rewrite cell_at_recompute.
Qed.

(** *** [new_game] *)

Lemma new_game_inv g trial :
  0 <= grid_width g → 0 <= grid_height g →
  wf (new_game g trial) ∧ adj_ok (new_game g trial).
Proof.
  intros Hw Hh. unfold new_game.
  set (g0 := with_visible_cell_count _ 0).
  assert (Hwf0 : wf g0).
  { split; [done|]. split; [done|]. simpl. apply length_replicate. }
  assert (Hcell0 : ∀ i j, inb g0 i j → cell_at g0 i j = virgin).
  { intros i j Hij. unfold cell_at. simpl. apply lookup_total_replicate_2.
    pose proof (idx_lt g0 i j Hwf0 Hij) as Hlt. simpl in Hlt.
    by rewrite length_replicate in Hlt. }
  assert (Hok0 : adj_ok g0).
  { intros i j Hij. rewrite Hcell0 by done. simpl. rewrite count_adjacent_mines_count.
    symmetry. apply countZ_zero. intros [a b] Hab. apply around_inb in Hab. simpl.
    by rewrite Hcell0. }
  assert (Hloop : ∀ l g1, wf g1 → adj_ok g1 → Forall (λ d, inb g1 d.1 d.2) l →
            let g2 := foldl (λ g' xy, if trial xy.1 xy.2
                                      then (spawn_mine g' xy.1 xy.2).2 else g') g1 l in
            wf g2 ∧ adj_ok g2).
  { induction l as [|[i j] l IH]; intros g1 Hwf1 Hok1 Hl; [done|].
    apply Forall_cons in Hl as [Hij Hl]. simpl in *.
    destruct (trial i j); [|by apply IH].
    pose proof (spawn_mine_same_dims g1 i j) as Hsd.
    apply IH; [by eapply same_dims_wf|by apply spawn_mine_adj_ok|].
    eapply Forall_impl; [exact Hl|]. intros d ?. by eapply same_dims_inb. }
  destruct (Hloop (scan g0) g0 Hwf0 Hok0 (scan_Forall_inb g0)) as [Hwf2 Hok2].
  split; [exact Hwf2|]. intros i j Hij. exact (Hok2 i j Hij).
Qed.

(** *** Commits of [alter_minefield] *)

Lemma commit_step_same_dims ran_lp solution dh_mines dh_cells gridx gridy st xy st' :
  commit_step ran_lp solution dh_mines dh_cells gridx gridy st xy = Ret st' →
  same_dims st.1.1 st'.1.1.
Proof.
  destruct st as [[g sh_j] dh_j]. unfold commit_step. simpl.
  destruct (negb (visible (cell_at g xy.1 xy.2)));
    [|intros [= <-]; apply same_dims_refl].
  destruct (negb (count_adjacent_revealed_cells g xy.1 xy.2 =? 0)).
  - destruct ran_lp; intros [= <-]; [apply set_cell_same_dims|apply same_dims_refl].
  - destruct (negb ((xy.1 =? gridx) && (xy.2 =? gridy)));
      [|intros [= <-]; apply same_dims_refl].
    destruct (dh_j <? dh_cells); [|done]. intros [= <-]. apply set_cell_same_dims.
Qed.

Lemma commit_loop_same_dims ran_lp solution dh_mines dh_cells gridx gridy l st st' :
  rfold (commit_step ran_lp solution dh_mines dh_cells gridx gridy) l st = Ret st' →
  same_dims st.1.1 st'.1.1.
Proof.
  revert st. induction l as [|xy l IH]; intros st Hrun.
  - inversion Hrun. apply same_dims_refl.
  - cbn [rfold] in Hrun.
    destruct (commit_step ran_lp solution dh_mines dh_cells gridx gridy st xy)
      as [st1|] eqn:Estep; [|done].
    simpl in Hrun. eapply same_dims_trans; [by eapply commit_step_same_dims|by apply IH].
Qed.

Lemma commit_inv rnd g p T dh_cells gridx gridy mine_present deep ran_lp solution g' :
  wf g →
  commit rnd g p T dh_cells gridx gridy mine_present deep ran_lp solution = Ret g' →
  same_dims g g' ∧ adj_ok g'.
Proof.
  intros Hwf Hrun. unfold commit in Hrun.
  destruct (random_combination rnd dh_cells _) as [dh_mines|]; [|done]. simpl in Hrun.
  destruct (rfold _ (scan g) (g, 0, 0)) as [st|] eqn:Eloop; [|done]. simpl in Hrun.
  apply commit_loop_same_dims in Eloop. simpl in Eloop.
  set (g2 := if deep then set_cell st.1.1 gridx gridy (set_mine mine_present) else st.1.1) in *.
  assert (Hsd2 : same_dims g g2).
  { unfold g2. destruct deep; [|done].
    eapply same_dims_trans; [exact Eloop|apply set_cell_same_dims]. }
  inversion Hrun; subst g'. split.
  - eapply same_dims_trans; [exact Hsd2|apply recompute_same_dims].
  - apply recompute_adj_ok. by eapply same_dims_wf.
Qed.

Lemma alter_minefield_success sv rnd g gridx gridy mine_present g' :
  alter_minefield sv rnd g gridx gridy mine_present = Ret (true, g') →
  g' = g ∨
  ∃ p T dh_cells deep ran_lp solution,
    commit rnd g p T dh_cells gridx gridy mine_present deep ran_lp solution = Ret g'.
Proof.
  intros H. unfold alter_minefield in H.
  split_engine H; try congruence; try (left; congruence);
    match type of H with
    | rbind (commit ?rnd ?g ?p ?T ?dh ?x ?y ?mp ?deep ?ran ?sol) _ = _ =>
        destruct (commit rnd g p T dh x y mp deep ran sol) as [g0|] eqn:Ec; [|done];
        simpl in H; inversion H; subst; right; by repeat eexists
    end.
Qed.

(** *** What the player does *)

Lemma adj_ok_frame g g' :
  same_dims g g' →
  (∀ i j, inb g i j →
     mine (cell_at g' i j) = mine (cell_at g i j) ∧
     adj (cell_at g' i j) = adj (cell_at g i j)) →
  adj_ok g → adj_ok g'.
Proof.
  intros Hsd H Hok x y Hxy. apply (same_dims_inb_rev g g') in Hxy; [|done].
  destruct (H x y Hxy) as (_ & ->). rewrite (Hok x y Hxy).
  rewrite !count_adjacent_mines_count, (same_dims_around g g') by done.
  apply countZ_ext. intros [i j] Hd. apply around_inb in Hd. simpl.
  by destruct (H i j Hd) as (-> & _).
Qed.

Lemma set_cell_inv g x y f :
  (∀ c, mine (f c) = mine c ∧ adj (f c) = adj c) →
  wf g → inb g x y → adj_ok g →
  wf (set_cell g x y f) ∧ adj_ok (set_cell g x y f).
Proof.
  intros Hf Hwf Hxy Hok. pose proof (set_cell_same_dims g x y f) as Hsd.
  split; [by eapply same_dims_wf|]. apply (adj_ok_frame g); [done| |done].
  intros i j Hij. rewrite cell_at_set_cell by done.
  destruct (decide ((x, y) = (i, j))) as [[= <- <-]|]; [apply Hf|done].
Qed.

Lemma end_game_inv g won : wf g → adj_ok g → wf (end_game g won) ∧ adj_ok (end_game g won).
Proof.
  intros Hwf Hok. pose proof (end_game_same_dims g won Hwf) as Hsd.
  split; [by eapply same_dims_wf|]. apply (adj_ok_frame g); [done| |done].
  intros i j Hij. rewrite cell_at_end_game by done. unfold mark_mistake.
  by destruct (flag (cell_at g i j) && negb (mine (cell_at g i j))).
Qed.

Lemma bucket_reveal_inv fuel g x y g' log :
  wf g → inb g x y → adj_ok g →
  bucket_reveal fuel g x y = Ret (g', log) → wf g' ∧ adj_ok g'.
Proof.
  intros Hwf Hxy Hok Hrun.
  pose proof (bucket_reveal_spec fuel g x y g' log Hwf Hxy Hrun) as Hspec.
  pose proof (reveal_spec_inb g x y g' log Hxy Hspec) as Hlog.
  destruct Hspec as (-> & _).
  pose proof (advances_reveal_all g log Hwf Hlog) as Hadv.
  split; [eapply same_dims_wf; [apply Hadv|done]|by eapply advances_adj_ok].
Qed.

Lemma toggle_flag_inv g x y :
  wf g → inb g x y → adj_ok g → wf (toggle_flag g x y) ∧ adj_ok (toggle_flag g x y).
Proof.
  intros Hwf Hxy Hok. unfold toggle_flag.
  destruct (negb (visible (cell_at g x y))); [|done].
  destruct (flag (cell_at g x y)).
  - destruct (set_cell_inv g x y (set_flag false)) as [Hwf1 Hok1]; [done..|].
    destruct (config_qmarks g); [|done].
    apply set_cell_inv; [done|done| |done].
    eapply same_dims_inb; [apply set_cell_same_dims|done].
  - destruct (qmark (cell_at g x y)); by apply set_cell_inv.
Qed.

Lemma chord_step_inv fuel g d g1 :
  wf g → inb g d.1 d.2 → adj_ok g →
  chord_step fuel g d = Ret g1 → same_dims g g1 ∧ adj_ok g1.
Proof.
  intros Hwf Hd Hok. unfold chord_step.
  destruct (negb _ && negb _ && negb _); [|intros [= <-]; split; [apply same_dims_refl|done]].
  destruct (mine (cell_at g d.1 d.2)).
  - intros [= <-]. pose proof (advances_explode g d.1 d.2 Hwf Hd) as Hadv.
    split; [apply Hadv|by eapply advances_adj_ok].
  - destruct (bucket_reveal fuel g d.1 d.2) as [[g2 log]|] eqn:Er; [|done].
    simpl. intros [= <-].
    pose proof (bucket_reveal_spec fuel g d.1 d.2 g2 log Hwf Hd Er) as Hspec.
    pose proof (reveal_spec_inb g d.1 d.2 g2 log Hd Hspec) as Hlog.
    destruct Hspec as (-> & _).
    pose proof (advances_reveal_all g log Hwf Hlog) as Hadv.
    split; [apply Hadv|by eapply advances_adj_ok].
Qed.

Lemma chord_reveal_inv fuel g x y g' :
  wf g → inb g x y → adj_ok g →
  chord_reveal fuel g x y = Ret g' → wf g' ∧ adj_ok g'.
Proof.
  intros Hwf Hxy Hok. unfold chord_reveal.
  destruct (chord_flag_count g x y); [|by intros [= <-]].
  destruct (_ =? _); [|by intros [= <-]].
  pose proof (around_Forall_inb g x y) as Hl. revert Hwf Hok Hl.
  generalize (around g x y). intros l. clear Hxy. revert g.
  induction l as [|d l IH]; intros g Hwf Hok Hl; [by intros [= <-]|].
  apply Forall_cons in Hl as [Hd Hl]. cbn [rfold].
  destruct (chord_step fuel g d) as [g1|] eqn:Es; [|done]. cbn [rbind]. intros Hrun.
  destruct (chord_step_inv fuel g d g1 Hwf Hd Hok Es) as [Hsd Hok1].
  apply (IH g1); [by eapply same_dims_wf|done| |done].
  eapply Forall_impl; [exact Hl|]. intros c Hc. by eapply same_dims_inb.
Qed.

(** C4. In every state reachable from a new game through [spawn_mine],
    [remove_mine] (with its cascade of reveals) and successful calls of
    [alter_minefield], with reveals, chords, flag toggles and the end of
    a game in between, the array matches the grid dimensions and every
    cell's adjacency count equals the number of mines among its
    neighbours inside the grid. *)
Theorem grid_reachable_adj_ok g :
  grid_reachable g → wf g ∧ adj_ok g.
Proof.
  induction 1 as [g trial Hw Hh|g x y Hr [Hwf Hok] Hxy
                 |g x y fuel b g' Hr [Hwf Hok] Hxy Hrun
                 |g x y sv rnd mp g' Hr [Hwf Hok] Hxy Hrun
                 |g x y fuel g' log Hr [Hwf Hok] Hxy Hrun
                 |g x y fuel g' Hr [Hwf Hok] Hxy Hrun
                 |g x y Hr [Hwf Hok] Hxy
                 |g x y Hr [Hwf Hok] Hxy
                 |g won Hr [Hwf Hok]].
  - by apply new_game_inv.
  - split; [eapply same_dims_wf; [apply spawn_mine_same_dims|done]
           |by apply spawn_mine_adj_ok].
  - by eapply remove_mine_inv.
  - apply alter_minefield_success in Hrun as [->|(p & T & dh & deep & ran & sol & Hc)];
      [done|].
    apply commit_inv in Hc as [Hsd Hok']; [|done].
    split; [by eapply same_dims_wf|done].
  - by eapply bucket_reveal_inv.
  - by eapply chord_reveal_inv.
  - by apply toggle_flag_inv.
  - destruct (set_cell_inv g x y (set_exploded true)) as [Hwf1 Hok1]; [done..|].
    by apply end_game_inv.
  - by apply end_game_inv.
Qed.

Lemma grid_reachable_adj_ok_witness :
  alter_minefield enumerating (λ j, j) diagonal_revealed 1 1 false
  = Ret (true, diagonal_moved) ∧
  remove_mine 16 diagonal_moved 2 2 = Ret (true, diagonal_cleared) ∧
  visible (cell_at diagonal_moved 1 1) = false ∧
  visible (cell_at diagonal_cleared 1 1) = true ∧
  adj_ok diagonal_cleared.
Proof.
  assert (H1 : ∃ log, bucket_reveal 16 diagonal_start 4 0 = Ret (diagonal_revealed, log))
    by (eexists; vm_compute; reflexivity).
  assert (H2 : alter_minefield enumerating (λ j, j) diagonal_revealed 1 1 false
               = Ret (true, diagonal_moved)) by (vm_compute; reflexivity).
  assert (H3 : remove_mine 16 diagonal_moved 2 2 = Ret (true, diagonal_cleared))
    by (vm_compute; reflexivity).
  split; [exact H2|]. split; [exact H3|]. split; [vm_compute; reflexivity|].
  split; [vm_compute; reflexivity|].
  destruct H1 as [log H1].
  refine (proj2 (grid_reachable_adj_ok diagonal_cleared _)).
  refine (reach_remove_mine diagonal_moved 2 2 16 true _ _ _ H3);
    [|vm_compute; repeat split; discriminate].
  refine (reach_alter_minefield diagonal_revealed 1 1 enumerating (λ j, j) false _ _ _ H2);
    [|vm_compute; repeat split; discriminate].
  refine (reach_bucket_reveal diagonal_start 4 0 16 _ log _ _ H1);
    [|vm_compute; repeat split; discriminate].
  apply reach_new_game; vm_compute; discriminate.
Defined.

(** ** The partition pass *)

Lemma countZ_filter_length {A} (P : A → bool) l :
  countZ P l = Z.of_nat (length (filter (λ a, P a = true) l)).
Proof. done. Qed.

Lemma filter_lookup_split {A} (P : A → Prop) `{!∀ a, Decision (P a)} (l : list A) k c :
  filter P l !! k = Some c →
  ∃ l1 l2, l = l1 ++ c :: l2 ∧ length (filter P l1) = k ∧ P c.
Proof.
  revert k. induction l as [|a l IH]; intros k Hk; [by rewrite filter_nil in Hk|].
  rewrite filter_cons in Hk. destruct (decide (P a)) as [Ha|Ha].
  - destruct k as [|k]; simpl in Hk.
    + inversion Hk; subst. by exists [], l.
    + apply IH in Hk as (l1 & l2 & -> & Hlen & Hc).
      exists (a :: l1), l2. split; [done|]. split; [|done].
      rewrite filter_cons, decide_True by done. simpl. by rewrite Hlen.
  - apply IH in Hk as (l1 & l2 & -> & Hlen & Hc).
    exists (a :: l1), l2. split; [done|]. split; [|done].
    by rewrite filter_cons, decide_False.
Qed.

Lemma filter_split_lookup {A} (P : A → Prop) `{!∀ a, Decision (P a)} (l1 l2 : list A) c :
  P c → filter P (l1 ++ c :: l2) !! length (filter P l1) = Some c.
Proof.
  intros Hc. rewrite filter_app, filter_cons, decide_True by done.
  by rewrite list_lookup_middle.
Qed.

Lemma partition_fold g l p0 :
  let p := foldl (partition_step g) p0 l in
  p_m p = p_m p0 + countZ (is_number g) l ∧
  p_n p = p_n p0 + countZ (is_shallow g) l ∧
  p_dh_cells p = p_dh_cells p0 + countZ (is_deep g) l ∧
  p_sh_mine_count p = p_sh_mine_count p0 + countZ (λ d, is_shallow g d && has_mine g d) l ∧
  p_dh_mine_count p = p_dh_mine_count p0 + countZ (λ d, is_deep g d && has_mine g d) l ∧
  length (p_column_lookup p) = length (p_column_lookup p0).
Proof.
  revert p0. induction l as [|d l IH]; intros p0.
  - simpl. rewrite !countZ_nil. repeat split; lia.
  - cbn [foldl]. cbv zeta in IH |- *.
    destruct (IH (partition_step g p0 d)) as (Hm & Hn & Hdh & Hsh & Hdm & Hlen).
    rewrite Hm, Hn, Hdh, Hsh, Hdm, Hlen, !countZ_cons.
    unfold partition_step, is_number, is_shallow, is_deep, has_mine.
    destruct (visible (cell_at g d.1 d.2)); simpl.
    + destruct (adj (cell_at g d.1 d.2) =? 0); simpl; repeat split; lia.
    + destruct (count_adjacent_revealed_cells g d.1 d.2 =? 0); simpl;
        destruct (mine (cell_at g d.1 d.2)); simpl;
        rewrite ?length_insert; repeat split; lia.
Qed.

Lemma partition_pass_counts g :
  let p := partition_pass g in
  p_m p = countZ (is_number g) (scan g) ∧
  p_n p = countZ (is_shallow g) (scan g) ∧
  p_dh_cells p = countZ (is_deep g) (scan g) ∧
  p_sh_mine_count p = countZ (λ d, is_shallow g d && has_mine g d) (scan g) ∧
  p_dh_mine_count p = countZ (λ d, is_deep g d && has_mine g d) (scan g) ∧
  length (p_column_lookup p) = Z.to_nat (grid_width g * grid_height g).
Proof.
  unfold partition_pass.
  destruct (partition_fold g (scan g)
              (mkPartition 0 0 0 0 0 (replicate (Z.to_nat (grid_width g * grid_height g)) 0)))
    as (Hm & Hn & Hdh & Hsh & Hdm & Hlen).
  simpl in *. rewrite length_replicate in Hlen. repeat split; done.
Qed.

Lemma partition_fold_lookup_other g l p0 k :
  (∀ d, d ∈ l → idx g d.1 d.2 ≠ k) →
  p_column_lookup (foldl (partition_step g) p0 l) !!! k = p_column_lookup p0 !!! k.
Proof.
  revert p0. induction l as [|d l IH]; intros p0 Hl; [done|].
  cbn [foldl]. rewrite IH by (intros e He; apply Hl; by right).
  assert (Hd : idx g d.1 d.2 ≠ k) by (apply Hl; by left).
  unfold partition_step.
  destruct (visible (cell_at g d.1 d.2)).
  - by destruct (negb (adj (cell_at g d.1 d.2) =? 0)).
  - destruct (count_adjacent_revealed_cells g d.1 d.2 =? 0); [done|].
    simpl. by rewrite list_lookup_total_insert_ne.
Qed.

(** The column of a cell, from its place in the scan. *)
Lemma column_split g l1 d l2 :
  wf g → scan g = l1 ++ d :: l2 →
  column g d = if is_shallow g d then countZ (is_shallow g) l1 + 1 else 0.
Proof.
  intros Hwf Hscan. unfold column, partition_pass. rewrite Hscan, foldl_app. cbn [foldl].
  pose proof (NoDup_scan g) as Hnd. rewrite Hscan in Hnd.
  apply NoDup_app in Hnd as (_ & Hdisj & Hnd2). apply NoDup_cons in Hnd2 as [Hd2 _].
  assert (Hin : ∀ e, e ∈ l1 ++ d :: l2 → inb g e.1 e.2).
  { intros [a b] He. rewrite <- Hscan in He. by apply elem_of_scan. }
  assert (Hd : inb g d.1 d.2) by (apply Hin, elem_of_app; right; by left).
  set (p0 := mkPartition 0 0 0 0 0 _).
  set (p1 := foldl (partition_step g) p0 l1).
  destruct (partition_fold g l1 p0) as (_ & Hn1 & _ & _ & _ & Hlen1).
  fold p1 in Hn1, Hlen1. unfold p0 in Hn1, Hlen1. simpl in Hn1, Hlen1.
  rewrite length_replicate in Hlen1.
  rewrite partition_fold_lookup_other.
  2:{ intros e He Heq. assert (e = d); [|by subst].
      destruct e as [a b], d as [i j]. simpl in *.
      apply idx_inj in Heq as [-> ->]; [done| |done].
      apply (Hin (a, b)), elem_of_app. right. by right. }
  assert (Hold : p_column_lookup p1 !!! idx g d.1 d.2 = 0).
  { unfold p1. rewrite partition_fold_lookup_other.
    - simpl. apply lookup_total_replicate_2.
      pose proof (idx_lt g d.1 d.2 Hwf Hd) as Hlt. destruct Hwf as (_ & _ & Hl). lia.
    - intros e He Heq. assert (e = d); [|subst; apply (Hdisj d He); by left].
      destruct e as [a b], d as [i j]. simpl in *.
      apply idx_inj in Heq as [-> ->]; [done| |done].
      apply (Hin (a, b)), elem_of_app. by left. }
  remember (countZ (is_shallow g) l1) as cnt eqn:Hcnt. clear Hcnt.
  unfold partition_step, is_shallow.
  destruct (visible (cell_at g d.1 d.2)); simpl.
  - by destruct (negb (adj (cell_at g d.1 d.2) =? 0)).
  - destruct (count_adjacent_revealed_cells g d.1 d.2 =? 0); simpl; [done|].
    rewrite list_lookup_total_insert_eq; [lia|].
    pose proof (idx_lt g d.1 d.2 Hwf Hd) as Hlt. destruct Hwf as (_ & _ & Hl). lia.
Qed.

Lemma column_shallows g k c :
  wf g → shallows g !! k = Some c → column g c = Z.of_nat k + 1.
Proof.
  intros Hwf Hk. apply filter_lookup_split in Hk as (l1 & l2 & Hscan & Hlen & Hc).
  rewrite (column_split g l1 c l2) by done. rewrite Hc, countZ_filter_length. lia.
Qed.

Lemma column_not_shallow g d :
  wf g → inb g d.1 d.2 → is_shallow g d = false → column g d = 0.
Proof.
  intros Hwf Hd Hs. destruct d as [i j].
  destruct (list_elem_of_split (scan g) (i, j)) as (l1 & l2 & Hscan);
    [by apply elem_of_scan|].
  rewrite (column_split g l1 (i, j) l2) by done. by rewrite Hs.
Qed.

Lemma length_shallows g : Z.of_nat (length (shallows g)) = p_n (partition_pass g).
Proof. destruct (partition_pass_counts g) as (_ & -> & _). done. Qed.

Lemma shallows_lookup_column g c :
  wf g → inb g c.1 c.2 → is_shallow g c = true →
  1 <= column g c <= p_n (partition_pass g) ∧
  shallows g !! Z.to_nat (column g c - 1) = Some c.
Proof.
  intros Hwf Hc Hs. destruct c as [i j].
  destruct (list_elem_of_split (scan g) (i, j)) as (l1 & l2 & Hscan);
    [by apply elem_of_scan|].
  rewrite (column_split g l1 (i, j) l2) by done. rewrite Hs.
  rewrite countZ_filter_length.
  replace (Z.to_nat (Z.of_nat (length (filter (λ a, is_shallow g a = true) l1)) + 1 - 1))
    with (length (filter (λ a, is_shallow g a = true) l1)) by lia.
  assert (Hlk : shallows g !! length (filter (λ a, is_shallow g a = true) l1) = Some (i, j)).
  { unfold shallows. rewrite Hscan. by apply filter_split_lookup. }
  split; [|done]. apply lookup_lt_Some in Hlk. rewrite <- length_shallows. lia.
Qed.

(** ** The constraint encoder *)

Lemma length_around_8 g x y : (length (around g x y) ≤ 8)%nat.
Proof.
  set (box := [(x - 1, y - 1); (x, y - 1); (x + 1, y - 1);
               (x - 1, y); (x + 1, y);
               (x - 1, y + 1); (x, y + 1); (x + 1, y + 1)]).
  change 8%nat with (length box). apply submseteq_length.
  apply NoDup_submseteq; [apply NoDup_around|].
  intros [i j] Hd. apply elem_of_around in Hd as (Hj & Hi & Hne).
  assert (Hi' : i = x - 1 ∨ i = x ∨ i = x + 1) by lia.
  assert (Hj' : j = y - 1 ∨ j = y ∨ j = y + 1) by lia.
  unfold box. rewrite !elem_of_cons.
  destruct Hi' as [->|[->| ->]], Hj' as [->|[->| ->]]; tauto.
Qed.

(** The inner loop of the encoder writes the columns of the hidden
    neighbours into the front of [colno]. *)
Lemma colno_loop g (col : list Z) (l : list (Z * Z)) (colno : list Z) (k : nat) :
  length colno = 8%nat →
  (k + length (filter (λ c, is_hidden g c = true) l) ≤ 8)%nat →
  let st := foldl (λ (st : list Z * Z) (ij : Z * Z),
                     if negb (visible (cell_at g ij.1 ij.2))
                     then (<[Z.to_nat st.2 := col !!! idx g ij.1 ij.2]> st.1, st.2 + 1)
                     else st)
                  (colno, Z.of_nat k) l in
  st.2 = Z.of_nat (k + length (filter (λ c, is_hidden g c = true) l)) ∧
  length st.1 = 8%nat ∧
  take (Z.to_nat st.2) st.1 =
  take k colno ++ ((λ c, col !!! idx g c.1 c.2) <$> filter (λ c, is_hidden g c = true) l).
Proof.
  revert colno k. induction l as [|d l IH]; intros colno k Hlen Hk.
  - simpl. by rewrite Nat.add_0_r, Nat2Z.id, app_nil_r.
  - cbn [foldl]. rewrite filter_cons in Hk |- *. cbn [fst snd].
    change (negb (visible (cell_at g d.1 d.2))) with (is_hidden g d).
    destruct (decide (is_hidden g d = true)) as [Eh|Eh].
    + rewrite Eh. simpl in Hk.
      replace (Z.of_nat k + 1) with (Z.of_nat (S k)) by lia. rewrite Nat2Z.id.
      destruct (IH (<[k := col !!! idx g d.1 d.2]> colno) (S k)) as (H2 & HL & Htake);
        [by rewrite length_insert|lia|].
      cbv zeta in H2, HL, Htake. rewrite Htake, H2, HL.
      split; [simpl; f_equal; lia|]. split; [done|].
      rewrite (take_S_r _ _ (col !!! idx g d.1 d.2)).
      * rewrite take_insert_ge by lia. by rewrite <- app_assoc.
      * apply list_lookup_insert_eq. lia.
    + apply not_true_is_false in Eh. rewrite Eh. by apply IH.
Qed.

Lemma number_row_alt g col lp x y :
  number_row g col lp x y =
  add_row lp (mkRow ((λ c, (col !!! idx g c.1 c.2, 1))
                       <$> filter (λ c, is_hidden g c = true) (around g x y))
                    EQ (adj (cell_at g x y))).
Proof.
  unfold number_row.
  pose proof (length_around_8 g x y) as H8.
  pose proof (length_filter (λ c, is_hidden g c = true) (around g x y)) as Hf.
  destruct (colno_loop g col (around g x y) (replicate 8 0) 0) as (H2 & HL & Htake);
    [done|simpl; lia|].
  cbv zeta in H2, HL, Htake. change (Z.of_nat 0) with 0 in *.
  destruct (foldl _ (replicate 8 0, 0) (around g x y)) as [colno neighbors].
  simpl in H2, HL, Htake. unfold add_constraintex. do 2 f_equal.
  rewrite Htake. rewrite H2, Nat2Z.id.
  set (cells := filter (λ c, is_hidden g c = true) (around g x y)) in *.
  assert (Hlen : (length cells ≤ 8)%nat) by lia.
  rewrite take_replicate. rewrite Nat.min_l by done.
  clear. induction cells as [|c cells IH]; [done|]. simpl. f_equal. apply IH.
Qed.

Lemma lp_rows_number_loop g col l lp :
  let lp' := foldl (λ lp xy,
                      if visible (cell_at g xy.1 xy.2) && negb (adj (cell_at g xy.1 xy.2) =? 0)
                      then number_row g col lp xy.1 xy.2 else lp) lp l in
  lp_columns lp' = lp_columns lp ∧ lp_binary lp' = lp_binary lp ∧
  lp_break_at_first lp' = lp_break_at_first lp ∧
  lp_rows lp' =
  lp_rows lp ++
  ((λ v, mkRow ((λ c, (col !!! idx g c.1 c.2, 1))
                  <$> filter (λ c, is_hidden g c = true) (around g v.1 v.2))
               EQ (adj (cell_at g v.1 v.2)))
     <$> filter (λ v, is_number g v = true) l).
Proof.
  revert lp. induction l as [|v l IH]; intros lp.
  - simpl. by rewrite app_nil_r.
  - cbn [foldl]. rewrite filter_cons.
    change (visible (cell_at g v.1 v.2) && negb (adj (cell_at g v.1 v.2) =? 0))
      with (is_number g v).
    destruct (decide (is_number g v = true)) as [E|E].
    + rewrite E.
      destruct (IH (number_row g col lp v.1 v.2)) as (Hc & Hb & Hf & Hr).
      cbv zeta in *. rewrite Hc, Hb, Hf, Hr, number_row_alt. simpl.
      by rewrite <- app_assoc.
    + apply not_true_is_false in E. rewrite E. apply IH.
Qed.

Lemma lp_binary_loop lp l :
  let lp' := foldl set_binary lp l in
  lp_columns lp' = lp_columns lp ∧ lp_binary lp' = lp_binary lp ++ l ∧
  lp_break_at_first lp' = lp_break_at_first lp ∧ lp_rows lp' = lp_rows lp.
Proof.
  revert lp. induction l as [|j l IH]; intros lp.
  - simpl. by rewrite app_nil_r.
  - cbn [foldl]. destruct (IH (set_binary lp j)) as (Hc & Hb & Hf & Hr).
    cbv zeta in *. rewrite Hc, Hb, Hf, Hr. simpl. by rewrite <- app_assoc.
Qed.

Lemma ones_preserved (l : list Z) (ones : list Z) (k : nat) :
  (k < length ones)%nat → ones !!! k = 1 →
  foldl (λ ones j, <[Z.to_nat j := 1]> ones) ones l !!! k = 1.
Proof.
  revert ones. induction l as [|a l IH]; intros ones Hk H1; [done|].
  cbn [foldl]. apply IH; [by rewrite length_insert|].
  destruct (decide (Z.to_nat a = k)) as [->|Hne].
  - by apply list_lookup_total_insert_eq.
  - by rewrite list_lookup_total_insert_ne.
Qed.

Lemma ones_set (l : list Z) (ones : list Z) (j : Z) :
  j ∈ l → (Z.to_nat j < length ones)%nat →
  foldl (λ ones j, <[Z.to_nat j := 1]> ones) ones l !!! Z.to_nat j = 1.
Proof.
  revert ones. induction l as [|a l IH]; intros ones Hj Hlen; [by apply elem_of_nil in Hj|].
  cbn [foldl]. apply elem_of_cons in Hj as [->|Hj].
  - apply ones_preserved; [by rewrite length_insert|].
    by apply list_lookup_total_insert_eq.
  - apply IH; [done|by rewrite length_insert].
Qed.

Lemma ones_loop (n : Z) (j : Z) :
  1 <= j <= n →
  foldl (λ ones j, <[Z.to_nat j := 1]> ones) (replicate (Z.to_nat (1 + n)) 0)
        (range_incl 1 n) !!! Z.to_nat j = 1.
Proof.
  intros Hj. apply ones_set; [by apply elem_of_range_incl|].
  rewrite length_replicate. lia.
Qed.

(** The constraint system in closed form. *)
Lemma build_lp_alt g T dh_cells gridx gridy mine_present deep :
  let n := p_n (partition_pass g) in
  build_lp g (partition_pass g) T dh_cells gridx gridy mine_present deep =
  mkLp n (range_incl 1 n) true
       ((number_row_of g <$> filter (λ v, is_number g v = true) (scan g)) ++
        [bound_row n GE (T - dh_cells); bound_row n LE T] ++
        (if deep then [] else [pin_row g gridx gridy mine_present])).
Proof.
  intros n. unfold build_lp. fold n.
  destruct (lp_binary_loop (make_lp 0 n) (range_incl 1 n)) as (Hc1 & Hb1 & Hf1 & Hr1).
  cbv zeta in Hc1, Hb1, Hf1, Hr1.
  set (lp1 := foldl set_binary (make_lp 0 n) (range_incl 1 n)) in *.
  destruct (lp_rows_number_loop g (p_column_lookup (partition_pass g)) (scan g)
              (set_break_at_first lp1 true)) as (Hc3 & Hb3 & Hf3 & Hr3).
  cbv zeta in Hc3, Hb3, Hf3, Hr3.
  set (lp3 := foldl _ (set_break_at_first lp1 true) (scan g)) in *.
  simpl in Hc3, Hb3, Hf3, Hr3. rewrite Hc1 in Hc3. rewrite Hb1 in Hb3. rewrite Hr1 in Hr3.
  simpl in Hc3, Hb3, Hr3.
  set (ones := foldl (λ ones j, <[Z.to_nat j := 1]> ones) _ (range_incl 1 n)).
  assert (Hdense : (λ j, (j, ones !!! Z.to_nat j)) <$> range_incl 1 n
                   = (λ j : Z, (j, 1)) <$> range_incl 1 n).
  { apply list_fmap_ext. intros i j Hj.
    apply list_elem_of_lookup_2, elem_of_range_incl in Hj.
    f_equal. by apply ones_loop. }
  unfold add_constraint, add_constraintex, add_row. simpl.
  rewrite Hc3, Hb3, Hf3, Hr3, Hdense.
  destruct deep; simpl; unfold bound_row, pin_row, column; rewrite <- ?app_assoc; done.
Qed.

Lemma sumZ_app {A} (f : A → Z) l1 l2 : sumZ f (l1 ++ l2) = sumZ f l1 + sumZ f l2.
Proof. unfold sumZ. induction l1 as [|a l1 IH]; simpl; [done|]. rewrite IH. lia. Qed.

Lemma sumZ_ext {A} (f h : A → Z) l : (∀ a, a ∈ l → f a = h a) → sumZ f l = sumZ h l.
Proof.
  unfold sumZ. induction l as [|a l IH]; intros Hl; simpl; [done|].
  rewrite (Hl a) by (by left). rewrite IH; [done|]. intros b Hb. apply Hl. by right.
Qed.

Lemma sumZ_fmap {A B} (f : B → Z) (h : A → B) l : sumZ f (h <$> l) = sumZ (λ a, f (h a)) l.
Proof. unfold sumZ. induction l as [|a l IH]; simpl; [done|]. f_equal. apply IH. Qed.

Lemma row_value_sumZ x r :
  row_value x r = sumZ (λ t, t.2 * x !!! Z.to_nat (t.1 - 1)) (row_terms r).
Proof. done. Qed.

Lemma row_value_number g x v :
  row_value x (number_row_of g v) =
  sumZ (var_of g x) (filter (λ c, is_hidden g c = true) (around g v.1 v.2)).
Proof.
  rewrite row_value_sumZ. unfold number_row_of. cbn [row_terms].
  rewrite sumZ_fmap. apply sumZ_ext. intros c _. unfold var_of. simpl.
  apply Z.mul_1_l.
Qed.

Lemma row_value_bound x n ty rhs :
  row_value x (bound_row n ty rhs) = sumZ (λ j, x !!! Z.to_nat (j - 1)) (range_incl 1 n).
Proof.
  rewrite row_value_sumZ. unfold bound_row. cbn [row_terms].
  rewrite sumZ_fmap. apply sumZ_ext. intros c _. simpl. apply Z.mul_1_l.
Qed.

Lemma row_value_pin g x gridx gridy mine_present :
  row_value x (pin_row g gridx gridy mine_present) = var_of g x (gridx, gridy).
Proof.
  rewrite row_value_sumZ. unfold pin_row, sumZ, var_of. simpl.
  rewrite Z.add_0_r. apply Z.mul_1_l.
Qed.

Lemma countZ_pos {A} (P : A → bool) l a : a ∈ l → P a = true → 1 <= countZ P l.
Proof.
  intros Ha HP. destruct (decide (countZ P l = 0)) as [H0|H0].
  - rewrite (proj1 (countZ_zero P l) H0 a Ha) in HP. done.
  - pose proof (countZ_nonneg P l). lia.
Qed.

(** A hidden neighbour of a revealed cell is shallow. *)
Lemma hidden_neighbour_shallow g v c :
  inb g v.1 v.2 → visible (cell_at g v.1 v.2) = true →
  c ∈ around g v.1 v.2 → is_hidden g c = true → is_shallow g c = true.
Proof.
  intros Hv Hvis Hc Hh. unfold is_shallow. unfold is_hidden in Hh. rewrite Hh. simpl.
  apply negb_true_iff, Z.eqb_neq. rewrite count_adjacent_revealed_cells_count.
  destruct c as [i j], v as [a b]. simpl in *.
  pose proof (countZ_pos (λ d, visible (cell_at g d.1 d.2)) (around g i j) (a, b)) as Hpos.
  specialize (Hpos (around_sym _ _ _ _ _ Hv Hc) Hvis). lia.
Qed.

Lemma alter_minefield_asks_the_lp sv sv' rnd g gridx gridy mine_present :
  lp_alloc sv = lp_alloc sv' →
  lp_solve sv (the_lp g gridx gridy mine_present)
  = lp_solve sv' (the_lp g gridx gridy mine_present) →
  alter_minefield sv rnd g gridx gridy mine_present
  = alter_minefield sv' rnd g gridx gridy mine_present.
Proof.
  intros Halloc Hsolve. unfold alter_minefield.
  change (build_lp g (partition_pass g) _ _ gridx gridy mine_present _)
    with (the_lp g gridx gridy mine_present).
  by rewrite Halloc, Hsolve.
Qed.

(** C3, as amended.  The only system [alter_minefield] ever hands to the
    solver is [the_lp]: one binary column per shallow cell; one equality
    row per revealed numbered cell, over the columns of its hidden
    neighbours, with the displayed count as right-hand side; two rows
    bounding the sum of all columns from below by [T - dh_cells] and from
    above by [T]; and, exactly when the requested cell is not deeply
    hidden, one equality pinning its column to the request.  [T] and
    [dh_cells] are the adjusted values: a deeply hidden requested cell is
    left out of the deep cells, and a mine requested on it is left out of
    the total.  The row count is [m + 2] or [m + 3] accordingly. *)
Theorem the_lp_spec g gridx gridy mine_present :
  wf g →
  let deep := count_adjacent_revealed_cells g gridx gridy =? 0 in
  let m := countZ (is_number g) (scan g) in
  let n := countZ (is_shallow g) (scan g) in
  let T := adjusted_T g gridx gridy mine_present in
  let dh_cells := adjusted_dh_cells g gridx gridy in
  let lp := the_lp g gridx gridy mine_present in
  (∀ sv sv' rnd,
     lp_alloc sv = lp_alloc sv' → lp_solve sv lp = lp_solve sv' lp →
     alter_minefield sv rnd g gridx gridy mine_present
     = alter_minefield sv' rnd g gridx gridy mine_present) ∧
  T = mines_total g - (if deep && mine_present then 1 else 0) ∧
  dh_cells = countZ (is_deep g) (scan g) - (if deep then 1 else 0) ∧
  lp_columns lp = n ∧ lp_binary lp = range_incl 1 n ∧
  lp_rows lp =
    (number_row_of g <$> filter (λ v, is_number g v = true) (scan g)) ++
    [bound_row n GE (T - dh_cells); bound_row n LE T] ++
    (if deep then [] else [pin_row g gridx gridy mine_present]) ∧
  get_Nrows lp = m + 2 + (if deep then 0 else 1) ∧
  (∀ x v, row_holds x (number_row_of g v) ↔
          sumZ (var_of g x) (filter (λ c, is_hidden g c = true) (around g v.1 v.2))
          = adj (cell_at g v.1 v.2)) ∧
  (∀ x r, row_holds x (bound_row n GE r) ↔
          r <= sumZ (λ j, x !!! Z.to_nat (j - 1)) (range_incl 1 n)) ∧
  (∀ x r, row_holds x (bound_row n LE r) ↔
          sumZ (λ j, x !!! Z.to_nat (j - 1)) (range_incl 1 n) <= r) ∧
  (∀ x, row_holds x (pin_row g gridx gridy mine_present) ↔
        var_of g x (gridx, gridy) = if mine_present then 1 else 0) ∧
  (∀ v c, inb g v.1 v.2 → is_number g v = true →
          c ∈ around g v.1 v.2 → is_hidden g c = true → 1 <= column g c <= n) ∧
  (inb g gridx gridy → is_shallow g (gridx, gridy) = true →
   1 <= column g (gridx, gridy) <= n) ∧
  (∀ c c', inb g c.1 c.2 → inb g c'.1 c'.2 →
           is_shallow g c = true → is_shallow g c' = true →
           column g c = column g c' → c = c').
Proof.
  intros Hwf deep m n T dh_cells lp.
  destruct (partition_pass_counts g) as (Hm & Hn & Hdh & _).
  cbv zeta in Hm, Hn, Hdh. fold m in Hm. fold n in Hn.
  assert (Hlp : lp = mkLp n (range_incl 1 n) true
            ((number_row_of g <$> filter (λ v, is_number g v = true) (scan g)) ++
             [bound_row n GE (T - dh_cells); bound_row n LE T] ++
             (if deep then [] else [pin_row g gridx gridy mine_present]))).
  { unfold lp, the_lp. rewrite build_lp_alt. cbv zeta. by rewrite Hn. }
  split; [intros sv sv' rnd; apply alter_minefield_asks_the_lp|].
  split; [unfold T, adjusted_T; fold deep; destruct (deep && mine_present); lia|].
  split; [unfold dh_cells, adjusted_dh_cells; fold deep; rewrite Hdh; destruct deep; lia|].
  rewrite Hlp. cbn [lp_columns lp_binary lp_rows].
  split; [done|]. split; [done|]. split; [done|]. split.
  { unfold get_Nrows. cbn [lp_rows]. rewrite !length_app, length_fmap.
    unfold m. rewrite countZ_filter_length. destruct deep; simpl; lia. }
  split; [intros x v; unfold row_holds; by rewrite row_value_number|].
  split; [intros x r; unfold row_holds; rewrite row_value_bound; simpl; lia|].
  split; [intros x r; unfold row_holds; by rewrite row_value_bound|].
  split; [intros x; unfold row_holds; by rewrite row_value_pin|].
  assert (Hcol : ∀ c, inb g c.1 c.2 → is_shallow g c = true → 1 <= column g c <= n).
  { intros c Hc Hs. rewrite <- Hn. by apply shallows_lookup_column. }
  split.
  { intros v c Hv Hnum Hc Hh. apply Hcol.
    - destruct c as [i j]. by apply around_inb in Hc.
    - apply (hidden_neighbour_shallow g v); try done.
      unfold is_number in Hnum. by apply andb_true_iff in Hnum as [? _]. }
  split; [intros Hin Hs; by apply Hcol|].
  intros c c' Hc Hc' Hs Hs' Heq.
  destruct (shallows_lookup_column g c Hwf Hc Hs) as [_ H1].
  destruct (shallows_lookup_column g c' Hwf Hc' Hs') as [_ H2].
  rewrite Heq in H1. congruence.
Qed.

Lemma row4_wf : wf row4.
Proof. repeat split; try done; vm_compute; lia. Qed.

Lemma the_lp_spec_witness :
  get_Nrows (the_lp row4 1 0 false) = countZ (is_number row4) (scan row4) + 2 + 1.
Proof.
  exact (proj1 (proj2 (proj2 (proj2 (proj2 (proj2 (proj2
           (the_lp_spec row4 1 0 false row4_wf)))))))).
Defined.

(** C3 as stated fails when the requested cell is deeply hidden.  In
    [row4] (one mine, two deep cells) a mine is requested on the deep cell
    3: the solver is asked, and the upper bound row it receives has
    right-hand side 0, one less than the total number of mines. *)
Lemma the_lp_deep_request_adjusts_bounds :
  count_adjacent_revealed_cells row4 3 0 = 0 ∧
  mines_total row4 = 1 ∧ countZ (is_deep row4) (scan row4) = 2 ∧
  alter_minefield (probing [1; -1; 0]) (λ j, j) row4 3 0 true = Ret (false, row4) ∧
  lp_rows (the_lp row4 3 0 true) =
    [number_row_of row4 (0, 0); bound_row 1 GE (-1); bound_row 1 LE 0] ∧
  bound_row 1 LE 0 ≠ bound_row 1 LE (mines_total row4).
Proof.
  repeat split; try reflexivity. vm_compute. discriminate.
Qed.

(** ** Counting mines *)

Lemma countZ_fmap {A B} (P : B → bool) (f : A → B) l :
  countZ P (f <$> l) = countZ (λ a, P (f a)) l.
Proof.
  induction l as [|a l IH]; [done|]. rewrite fmap_cons, !countZ_cons. by rewrite IH.
Qed.

Lemma countZ_split {A} (P Q : A → bool) l :
  countZ P l = countZ (λ a, Q a && P a) l + countZ (λ a, negb (Q a) && P a) l.
Proof.
  induction l as [|a l IH]; [done|]. rewrite !countZ_cons, IH.
  destruct (Q a), (P a); simpl; lia.
Qed.

Lemma countZ_filter {A} (P Q : A → bool) l :
  countZ P (filter (λ a, Q a = true) l) = countZ (λ a, Q a && P a) l.
Proof.
  induction l as [|a l IH]; [done|]. rewrite filter_cons, countZ_cons.
  destruct (decide (Q a = true)) as [EQ|EQ].
  - rewrite EQ. simpl. by rewrite countZ_cons, IH.
  - apply not_true_is_false in EQ. rewrite EQ. simpl. by rewrite IH.
Qed.

Lemma countZ_by_index {A} (P : A → bool) (Q : nat → bool) (l : list A) :
  (∀ k c, l !! k = Some c → P c = Q k) →
  countZ P l = countZ Q (seq 0 (length l)).
Proof.
  induction l as [|c l IH] using rev_ind; intros H; [done|].
  rewrite length_app. simpl. rewrite Nat.add_1_r, seq_S, !countZ_app, !countZ_cons, !countZ_nil.
  simpl. rewrite IH.
  - rewrite (H (length l) c); [done|]. by rewrite list_lookup_middle.
  - intros k c' Hk. apply H. by apply lookup_app_l_Some.
Qed.

Lemma idx_row g (y : Z) (k : nat) :
  0 <= grid_width g → 0 <= y →
  (λ d, idx g d.1 d.2) <$> (x ← seqZ 0 (Z.of_nat k); [(x, y)])
  = seq (Z.to_nat (grid_width g * y)) k.
Proof.
  intros Hw Hy. induction k as [|k IH]; [done|].
  rewrite seqZ_S, bind_app, fmap_app, IH, seq_S. f_equal.
  csimpl. unfold idx. simpl. f_equal. lia.
Qed.

Lemma idx_scan g :
  0 <= grid_width g → 0 <= grid_height g →
  (λ d, idx g d.1 d.2) <$> scan g = seq 0 (Z.to_nat (grid_width g * grid_height g)).
Proof.
  intros Hw Hh. unfold scan.
  rewrite <- (Z2Nat.id (grid_height g)) at 1 2 by done.
  generalize (Z.to_nat (grid_height g)). intros h.
  induction h as [|h IH].
  - simpl. by rewrite Z.mul_0_r.
  - rewrite seqZ_S, bind_app, fmap_app, IH. csimpl. rewrite app_nil_r.
    rewrite <- (Z2Nat.id (grid_width g)) at 2 by done.
    rewrite idx_row by lia.
    replace (Z.to_nat (grid_width g * Z.of_nat (S h)))
      with (Z.to_nat (grid_width g * Z.of_nat h) + Z.to_nat (grid_width g))%nat by nia.
    rewrite seq_app. repeat f_equal; lia.
Qed.

Lemma mines_total_scan g : wf g → mines_total g = countZ (has_mine g) (scan g).
Proof.
  intros (Hw & Hh & _). unfold mines_total. rewrite foldl_count, Z.add_0_l.
  by rewrite <- idx_scan, countZ_fmap.
Qed.

(** The four classes of cells the write-back loop distinguishes. *)
Lemma countZ_classes g gridx gridy (P : Z * Z → bool) l :
  countZ P l =
  countZ (λ c, negb (is_hidden g c) && P c) l +
  countZ (λ c, is_shallow g c && P c) l +
  countZ (λ c, (is_deep g c && negb ((c.1 =? gridx) && (c.2 =? gridy))) && P c) l +
  countZ (λ c, (is_deep g c && ((c.1 =? gridx) && (c.2 =? gridy))) && P c) l.
Proof.
  induction l as [|c l IH]; [done|]. rewrite !countZ_cons, IH.
  unfold is_hidden, is_shallow, is_deep.
  destruct (visible (cell_at g c.1 c.2)), (count_adjacent_revealed_cells g c.1 c.2 =? 0),
    ((c.1 =? gridx) && (c.2 =? gridy)), (P c); simpl; lia.
Qed.

Lemma foldl_sum (f : nat → Z) (l : list nat) (s : Z) :
  foldl (λ S j, S + f j) s l = s + sumZ f l.
Proof.
  revert s. unfold sumZ. induction l as [|a l IH]; intros s; simpl; [lia|].
  rewrite IH. lia.
Qed.

Lemma sumZ_binary {A} (f : A → Z) (l : list A) :
  (∀ a, a ∈ l → f a = 0 ∨ f a = 1) → sumZ f l = countZ (λ a, f a =? 1) l.
Proof.
  unfold sumZ. induction l as [|a l IH]; intros H; [done|]. simpl. rewrite countZ_cons.
  rewrite IH by (intros b Hb; apply H; by right).
  destruct (H a ltac:(by left)) as [-> | ->]; simpl; lia.
Qed.

(** ** The write-back loop *)

Lemma same_but_mines_refl g : same_but_mines g g.
Proof. split; [apply same_dims_refl|]. intros i j _. by destruct (cell_at g i j). Qed.

Lemma same_but_mines_visible g g' i j :
  same_but_mines g g' → inb g i j → visible (cell_at g' i j) = visible (cell_at g i j).
Proof. intros [_ H] Hij. by rewrite (H i j Hij). Qed.

Lemma same_but_mines_revealed_count g g' x y :
  same_but_mines g g' →
  count_adjacent_revealed_cells g' x y = count_adjacent_revealed_cells g x y.
Proof.
  intros Hs. rewrite !count_adjacent_revealed_cells_count.
  rewrite (same_dims_around g g') by apply Hs.
  apply countZ_ext. intros [i j] Hd. apply around_inb in Hd. simpl.
  by apply same_but_mines_visible.
Qed.

Lemma same_but_mines_set_mine g g' x y b :
  wf g → same_but_mines g g' → inb g x y →
  same_but_mines g (set_cell g' x y (set_mine b)).
Proof.
  intros Hwf [Hsd H] Hxy.
  split; [eapply same_dims_trans; [exact Hsd|apply set_cell_same_dims]|].
  intros i j Hij.
  rewrite cell_at_set_cell; [|by eapply same_dims_wf|by eapply same_dims_inb..].
  destruct (decide ((x, y) = (i, j))) as [[= -> ->]|Hne].
  - rewrite (H i j Hij). done.
  - apply H. done.
Qed.

Lemma mine_set_cell_set_mine g x y b i j :
  wf g → inb g x y → inb g i j →
  mine (cell_at (set_cell g x y (set_mine b)) i j) =
  if decide ((x, y) = (i, j)) then b else mine (cell_at g i j).
Proof.
  intros. rewrite cell_at_set_cell by done. by destruct (decide (_ = _)).
Qed.

(** One iteration of the loop, in terms of the classes of the grid the
    call started with. *)
Lemma commit_step_spec ran_lp solution dh_mines dh_cells gridx gridy g gs sh_j dh_j d st' :
  wf g → same_but_mines g gs → inb g d.1 d.2 →
  commit_step ran_lp solution dh_mines dh_cells gridx gridy (gs, sh_j, dh_j) d = Ret st' →
  same_but_mines g st'.1.1 ∧
  (∀ i j, inb g i j → (i, j) ≠ d →
          mine (cell_at st'.1.1 i j) = mine (cell_at gs i j)) ∧
  mine (cell_at st'.1.1 d.1 d.2) =
    (if is_shallow g d
     then if ran_lp then solution !!! Z.to_nat sh_j =? 1 else mine (cell_at gs d.1 d.2)
     else if deep_but g gridx gridy d then dh_mines !!! Z.to_nat dh_j
     else mine (cell_at gs d.1 d.2)) ∧
  st'.1.2 = sh_j + (if ran_lp && is_shallow g d then 1 else 0) ∧
  st'.2 = dh_j + (if deep_but g gridx gridy d then 1 else 0) ∧
  (deep_but g gridx gridy d = true → dh_j < dh_cells).
Proof.
  intros Hwf Hs Hd. unfold commit_step, is_shallow, deep_but, is_deep.
  pose proof (proj1 Hs) as Hsd.
  assert (Hwfs : wf gs) by (by eapply same_dims_wf).
  assert (Hds : inb gs d.1 d.2) by (by eapply same_dims_inb).
  rewrite (same_but_mines_visible g gs) by done.
  rewrite (same_but_mines_revealed_count g gs) by done.
  destruct (visible (cell_at g d.1 d.2)); simpl.
  { intros [= <-]. simpl. rewrite ?andb_false_r, ?Z.add_0_r. by split_and!. }
  destruct (count_adjacent_revealed_cells g d.1 d.2 =? 0); simpl.
  - destruct ((d.1 =? gridx) && (d.2 =? gridy)); simpl.
    + intros [= <-]. simpl. rewrite ?andb_false_r, ?Z.add_0_r. by split_and!.
    + destruct (Z.ltb_spec dh_j dh_cells); [|done]. intros [= <-]. simpl.
      rewrite ?andb_false_r, ?Z.add_0_r.
      split; [by apply same_but_mines_set_mine|]. split.
      * intros i j Hij Hne. rewrite mine_set_cell_set_mine;
          [|done|done|by eapply same_dims_inb].
        rewrite decide_False; [done|]. destruct d. simpl. congruence.
      * rewrite mine_set_cell_set_mine by done. rewrite decide_True by (by destruct d).
        by split_and!.
  - destruct ran_lp; intros [= <-]; simpl.
    + rewrite Z.add_0_r. split; [by apply same_but_mines_set_mine|]. split.
      * intros i j Hij Hne. rewrite mine_set_cell_set_mine;
          [|done|done|by eapply same_dims_inb].
        rewrite decide_False; [done|]. destruct d. simpl. congruence.
      * rewrite mine_set_cell_set_mine by done. rewrite decide_True by (by destruct d).
        by split_and!.
    + rewrite !Z.add_0_r. by split_and!.
Qed.

Lemma commit_loop_spec ran_lp solution dh_mines dh_cells gridx gridy g :
  wf g →
  ∀ l gs sh_j dh_j st',
    same_but_mines g gs → Forall (λ d, inb g d.1 d.2) l → NoDup l →
    rfold (commit_step ran_lp solution dh_mines dh_cells gridx gridy) l (gs, sh_j, dh_j)
      = Ret st' →
    same_but_mines g st'.1.1 ∧
    (∀ i j, inb g i j → (i, j) ∉ l →
            mine (cell_at st'.1.1 i j) = mine (cell_at gs i j)) ∧
    (∀ l1 c l2, l = l1 ++ c :: l2 →
       mine (cell_at st'.1.1 c.1 c.2) =
       if is_shallow g c
       then if ran_lp
            then solution !!! Z.to_nat (sh_j + countZ (is_shallow g) l1) =? 1
            else mine (cell_at gs c.1 c.2)
       else if deep_but g gridx gridy c
            then dh_mines !!! Z.to_nat (dh_j + countZ (deep_but g gridx gridy) l1)
            else mine (cell_at gs c.1 c.2)) ∧
    st'.2 = dh_j + countZ (deep_but g gridx gridy) l ∧
    st'.2 <= Z.max dh_j dh_cells.
Proof.
  intros Hwf. induction l as [|d l IH]; intros gs sh_j dh_j st' Hs Hl Hnd Hrun.
  - inversion Hrun; subst st'. simpl. split; [done|]. split; [done|]. split.
    + intros l1 c l2 Habs. by apply app_cons_not_nil in Habs.
    + rewrite countZ_nil. lia.
  - apply Forall_cons in Hl as [Hd Hl]. apply NoDup_cons in Hnd as [Hnot Hnd].
    cbn [rfold] in Hrun.
    destruct (commit_step ran_lp solution dh_mines dh_cells gridx gridy (gs, sh_j, dh_j) d)
      as [[[gs1 sj1] dj1]|] eqn:Estep; [|done].
    simpl in Hrun.
    destruct (commit_step_spec _ _ _ _ _ _ _ _ _ _ _ _ Hwf Hs Hd Estep)
      as (Hs1 & Hother & Hhere & Hsj & Hdj & Hlt).
    simpl in Hs1, Hother, Hhere, Hsj, Hdj.
    destruct (IH gs1 sj1 dj1 st' Hs1 Hl Hnd Hrun) as (Hs' & Hout & Hat & Hdj' & Hmax).
    split; [done|]. split; [|split; [|split]].
    + intros i j Hij Hel. rewrite Hout; [|done|intros ?; apply Hel; by right].
      apply Hother; [done|]. intros <-. apply Hel. by left.
    + intros l1 c l2 Heq. destruct l1 as [|d' l1]; simpl in Heq.
      * inversion Heq; subst c l2. rewrite countZ_nil, !Z.add_0_r.
        rewrite Hout; [done|done|by destruct d].
      * inversion Heq; subst d' l. rewrite (Hat l1 c l2 eq_refl).
        assert (Hc : mine (cell_at gs1 c.1 c.2) = mine (cell_at gs c.1 c.2)).
        { apply Hother.
          - rewrite Forall_forall in Hl. apply (Hl c). apply elem_of_app. right. by left.
          - intros Heq'. apply Hnot. rewrite <- Heq'. destruct c.
            apply elem_of_app. right. by left. }
        rewrite Hc, Hsj, Hdj, !countZ_cons.
        destruct ran_lp; simpl; rewrite <- ?Z.add_assoc; done.
    + rewrite Hdj', Hdj, countZ_cons. lia.
    + destruct (deep_but g gridx gridy d) eqn:Edb.
      * specialize (Hlt eq_refl). lia.
      * lia.
Qed.

Lemma is_shallow_not_deep_but g gridx gridy c :
  is_shallow g c = true → deep_but g gridx gridy c = false.
Proof.
  unfold is_shallow, deep_but, is_deep.
  destruct (visible (cell_at g c.1 c.2)), (count_adjacent_revealed_cells g c.1 c.2 =? 0);
    simpl; done.
Qed.

Lemma deep_but_not_shallow g gridx gridy c :
  deep_but g gridx gridy c = true →
  is_shallow g c = false ∧ is_hidden g c = true ∧ c ≠ (gridx, gridy).
Proof.
  unfold is_shallow, deep_but, is_deep, is_hidden.
  destruct (visible (cell_at g c.1 c.2)), (count_adjacent_revealed_cells g c.1 c.2 =? 0);
    simpl; try done.
  intros Hne. split; [done|]. split; [done|]. intros ->. simpl in Hne.
  by rewrite !Z.eqb_refl in Hne.
Qed.

Lemma count_adjacent_mines_recompute g x y :
  wf g →
  count_adjacent_mines (recompute_minefield_adj g) x y = count_adjacent_mines g x y.
Proof.
  intros Hwf. rewrite !count_adjacent_mines_count.
  rewrite (same_dims_around g (recompute_minefield_adj g)) by apply recompute_same_dims.
  apply countZ_ext. intros [a b] Hab. apply around_inb in Hab. simpl.
  by rewrite cell_at_recompute.
Qed.

(** What a commit does to the mines, cell by cell. *)
Lemma commit_mines rnd g T dh_cells gridx gridy mine_present ran_lp solution g' :
  wf g → inb g gridx gridy → visible (cell_at g gridx gridy) = false →
  commit rnd g (partition_pass g) T dh_cells gridx gridy mine_present
         (count_adjacent_revealed_cells g gridx gridy =? 0) ran_lp solution = Ret g' →
  ∃ dh_mines,
    random_combination rnd dh_cells (T - shallow_mines_after g ran_lp solution)
      = Ret dh_mines ∧
    same_dims g g' ∧ adj_ok g' ∧
    Z.of_nat (length (deeps_but g gridx gridy)) <= Z.max 0 dh_cells ∧
    (∀ i j, inb g i j →
       cell_at g' i j =
       set_adj (count_adjacent_mines g' i j) (set_mine (mine (cell_at g' i j)) (cell_at g i j))) ∧
    (∀ c, inb g c.1 c.2 → is_hidden g c = false →
          mine (cell_at g' c.1 c.2) = mine (cell_at g c.1 c.2)) ∧
    (∀ k c, shallows g !! k = Some c →
            mine (cell_at g' c.1 c.2) =
            if ran_lp then solution !!! k =? 1 else mine (cell_at g c.1 c.2)) ∧
    (∀ k c, deeps_but g gridx gridy !! k = Some c →
            mine (cell_at g' c.1 c.2) = dh_mines !!! k) ∧
    (is_deep g (gridx, gridy) = true → mine (cell_at g' gridx gridy) = mine_present).
Proof.
  intros Hwf Hxy Hhid Hrun.
  pose proof (commit_inv _ _ _ _ _ _ _ _ _ _ _ _ Hwf Hrun) as [Hsd Hok].
  unfold commit in Hrun. fold (shallow_mines_after g ran_lp solution) in Hrun.
  destruct (random_combination rnd dh_cells _) as [dh_mines|] eqn:Ecomb; [|done].
  simpl in Hrun. exists dh_mines. split; [done|]. split; [done|]. split; [done|].
  destruct (rfold _ (scan g) (g, 0, 0)) as [st|] eqn:Eloop; [|done]. simpl in Hrun.
  destruct (commit_loop_spec _ _ _ _ _ _ g Hwf (scan g) g 0 0 st
              (same_but_mines_refl g) (scan_Forall_inb g) (NoDup_scan g) Eloop)
    as (Hs1 & _ & Hat & Hdj & Hmax).
  set (g1 := st.1.1) in *.
  set (deep := count_adjacent_revealed_cells g gridx gridy =? 0) in *.
  set (g2 := if deep then set_cell g1 gridx gridy (set_mine mine_present) else g1) in *.
  assert (Hdeep : is_deep g (gridx, gridy) = deep).
  { unfold is_deep. simpl. by rewrite Hhid. }
  assert (Hs2 : same_but_mines g g2).
  { unfold g2. destruct deep; [by apply same_but_mines_set_mine|done]. }
  assert (Hwf2 : wf g2) by (eapply same_dims_wf; [apply Hs2|done]).
  assert (Hmine' : ∀ i j, inb g i j → mine (cell_at g' i j) = mine (cell_at g2 i j)).
  { intros i j Hij. inversion Hrun; subst g'.
    rewrite cell_at_recompute; [done|done|]. eapply same_dims_inb; [apply Hs2|done]. }
  assert (Hmine2 : ∀ i j, inb g i j →
            mine (cell_at g2 i j) =
            if deep && bool_decide ((i, j) = (gridx, gridy)) then mine_present
            else mine (cell_at g1 i j)).
  { intros i j Hij. unfold g2. destruct deep; simpl; [|done].
    rewrite mine_set_cell_set_mine;
      [|eapply same_dims_wf; [apply Hs1|done]|eapply same_dims_inb; [apply Hs1|done]..].
    destruct (decide ((gridx, gridy) = (i, j))) as [Heq|Hne].
    - by rewrite bool_decide_eq_true_2.
    - rewrite bool_decide_eq_false_2; [done|congruence]. }
  assert (Hmine1 : ∀ c, c ∈ scan g → ∃ l1 l2, scan g = l1 ++ c :: l2 ∧
            mine (cell_at g1 c.1 c.2) =
            if is_shallow g c
            then if ran_lp then solution !!! Z.to_nat (countZ (is_shallow g) l1) =? 1
                 else mine (cell_at g c.1 c.2)
            else if deep_but g gridx gridy c
                 then dh_mines !!! Z.to_nat (countZ (deep_but g gridx gridy) l1)
                 else mine (cell_at g c.1 c.2)).
  { intros c Hc. destruct (list_elem_of_split _ _ Hc) as (l1 & l2 & Hscan).
    exists l1, l2. split; [done|]. rewrite (Hat l1 c l2 Hscan). by rewrite !Z.add_0_l. }
  split.
  { rewrite Z.add_0_l in Hdj.
    change (Z.of_nat (length (deeps_but g gridx gridy)))
      with (countZ (deep_but g gridx gridy) (scan g)). lia. }
  split.
  { intros i j Hij. inversion Hrun; subst g'.
    rewrite cell_at_recompute; [|done|eapply same_dims_inb; [apply Hs2|done]].
    rewrite count_adjacent_mines_recompute by done.
    cbn [mine set_adj]. by rewrite <- (proj2 Hs2 i j Hij). }
  split.
  { intros [i j] Hc Hvis. simpl in *. rewrite Hmine', Hmine2 by done.
    assert (Hne : (i, j) ≠ (gridx, gridy)).
    { intros [= -> ->]. unfold is_hidden in Hvis. simpl in Hvis. by rewrite Hhid in Hvis. }
    rewrite bool_decide_eq_false_2 by done. rewrite andb_false_r.
    destruct (Hmine1 (i, j)) as (l1 & l2 & _ & Heq); [by apply elem_of_scan|].
    simpl in Heq. rewrite Heq.
    unfold is_shallow, deep_but, is_deep. unfold is_hidden in Hvis. simpl in *.
    by rewrite Hvis. }
  split.
  { intros k [i j] Hk. apply filter_lookup_split in Hk as (l1 & l2 & Hscan & Hlen & Hsh).
    assert (Hij : inb g i j) by (apply elem_of_scan; rewrite Hscan, elem_of_app; right; by left).
    simpl. rewrite Hmine', Hmine2 by done.
    assert (Hne : (i, j) ≠ (gridx, gridy) ∨ deep = false).
    { destruct deep eqn:Ed; [left|by right]. intros [= -> ->].
      unfold is_shallow, is_deep in *. simpl in *. rewrite Hhid in *. simpl in *.
      fold deep in Hsh. by rewrite Ed in Hsh. }
    assert (Hif : deep && bool_decide ((i, j) = (gridx, gridy)) = false).
    { destruct Hne as [Hne| ->]; [|done].
      rewrite bool_decide_eq_false_2 by done. by rewrite andb_false_r. }
    rewrite Hif. pose proof (Hat l1 (i, j) l2 Hscan) as Heq. simpl in Heq.
    rewrite Heq, Hsh.
    rewrite Z.add_0_l, countZ_filter_length, Hlen, Nat2Z.id. done. }
  split.
  { intros k [i j] Hk. apply filter_lookup_split in Hk as (l1 & l2 & Hscan & Hlen & Hdb).
    change (deep_but g gridx gridy (i, j) = true) in Hdb.
    assert (Hij : inb g i j) by (apply elem_of_scan; rewrite Hscan, elem_of_app; right; by left).
    destruct (deep_but_not_shallow _ _ _ _ Hdb) as (Hns & _ & Hne).
    simpl. rewrite Hmine', Hmine2 by done.
    rewrite bool_decide_eq_false_2 by done. rewrite andb_false_r.
    pose proof (Hat l1 (i, j) l2 Hscan) as Heq. simpl in Heq.
    rewrite Heq, Hns, Hdb.
    rewrite Z.add_0_l.
    change (countZ (deep_but g gridx gridy) l1)
      with (Z.of_nat (length (filter (λ d, (is_deep g d && negb ((d.1 =? gridx) && (d.2 =? gridy))) = true) l1))).
    rewrite Hlen, Nat2Z.id. done. }
  intros Hd. rewrite Hdeep in Hd. rewrite Hmine', Hmine2 by done. rewrite Hd.
  by rewrite bool_decide_eq_true_2.
Qed.

(** ** Mine conservation *)

Lemma random_combination_mask rnd n k mask :
  valid_draws rnd → random_combination rnd n k = Ret mask →
  0 <= k <= n ∧ length mask = Z.to_nat n ∧ count_true mask = k.
Proof.
  intros Hv Hrun. unfold random_combination in Hrun.
  destruct (Z.leb_spec 0 k); [|done]. destruct (Z.leb_spec k n); [|done].
  assert (Hk : 0 <= k <= n) by lia. split; [done|].
  pose proof (random_combination_loop rnd n k Hk) as Hloop.
  unfold random_combination in Hloop.
  destruct (Z.leb_spec 0 k); [|lia]. destruct (Z.leb_spec k n); [|lia].
  rewrite Hloop in Hrun. inversion Hrun; subst mask.
  destruct (floyd_loop_inv rnd (n - k + 1) (Z.to_nat k) (Z.to_nat n)) as (HL & HC & _);
    [lia|lia|intros; apply Hv; lia|].
  split; [done|]. rewrite HC. lia.
Qed.

Lemma countZ_single `{EqDecision A} (P : A → bool) (l : list A) (a : A) :
  NoDup l → a ∈ l → (∀ b, b ∈ l → b ≠ a → P b = false) →
  countZ P l = if P a then 1 else 0.
Proof.
  intros Hnd Ha Hrest. destruct (P a) eqn:EP.
  - pose proof (countZ_remove_one P (λ _, false) l a Hnd Ha EP eq_refl) as H1.
    assert (H0 : countZ (λ _ : A, false) l = 0) by (by apply countZ_zero).
    rewrite H0 in H1. enough (0 = countZ P l - 1) by lia. apply H1.
    intros b Hb Hne. symmetry. by apply Hrest.
  - apply countZ_zero. intros b Hb. destruct (decide (b = a)) as [->|Hne]; [done|].
    by apply Hrest.
Qed.

Lemma count_true_by_index (mask : list bool) :
  countZ (λ k, mask !!! k) (seq 0 (length mask)) = count_true mask.
Proof.
  unfold count_true. symmetry. apply countZ_by_index.
  intros k c Hk. by rewrite (list_lookup_total_correct _ _ _ Hk).
Qed.

Lemma length_deeps_but g gridx gridy :
  inb g gridx gridy →
  Z.of_nat (length (deeps_but g gridx gridy)) =
  countZ (is_deep g) (scan g) - (if is_deep g (gridx, gridy) then 1 else 0).
Proof.
  intros Hxy.
  change (Z.of_nat (length (deeps_but g gridx gridy)))
    with (countZ (deep_but g gridx gridy) (scan g)).
  rewrite (countZ_split (is_deep g) (λ c, negb ((c.1 =? gridx) && (c.2 =? gridy)))).
  rewrite (countZ_ext (deep_but g gridx gridy)
             (λ a, negb ((a.1 =? gridx) && (a.2 =? gridy)) && is_deep g a)).
  2:{ intros c _. unfold deep_but. apply andb_comm. }
  rewrite (countZ_single
             (λ a, negb (negb ((a.1 =? gridx) && (a.2 =? gridy))) && is_deep g a)
             (scan g) (gridx, gridy));
    [|apply NoDup_scan|by apply elem_of_scan|].
  - simpl. rewrite !Z.eqb_refl. simpl. lia.
  - intros [i j] _ Hne. simpl.
    destruct (Z.eqb_spec i gridx), (Z.eqb_spec j gridy); simpl; try done.
    subst. done.
Qed.

Lemma shallow_mines_after_binary g solution :
  binary_solution (p_n (partition_pass g)) solution →
  shallow_mines_after g true solution =
  countZ (λ k, solution !!! k =? 1) (seq 0 (length (shallows g))).
Proof.
  intros [Hlen Hbin]. unfold shallow_mines_after.
  rewrite foldl_sum, Z.add_0_l. rewrite <- length_shallows, Nat2Z.id.
  apply sumZ_binary. intros k Hk. apply elem_of_seq in Hk.
  rewrite Forall_forall in Hbin. apply Hbin.
  apply list_elem_of_lookup. exists k. apply list_lookup_lookup_total_lt.
  rewrite Hlen, <- length_shallows. lia.
Qed.

(** The number of mines after a commit: the mines under revealed cells,
    the [T] mines the commit distributes, and the requested cell's own
    mine when it was set apart. *)
Lemma commit_total rnd g T dh_cells gridx gridy mine_present ran_lp solution g' :
  wf g → inb g gridx gridy → visible (cell_at g gridx gridy) = false →
  valid_draws rnd →
  (ran_lp = true → binary_solution (p_n (partition_pass g)) solution) →
  dh_cells = Z.of_nat (length (deeps_but g gridx gridy)) →
  commit rnd g (partition_pass g) T dh_cells gridx gridy mine_present
         (count_adjacent_revealed_cells g gridx gridy =? 0) ran_lp solution = Ret g' →
  mines_total g' =
  countZ (λ c, negb (is_hidden g c) && has_mine g c) (scan g) + T +
  (if (count_adjacent_revealed_cells g gridx gridy =? 0) && mine_present then 1 else 0).
Proof.
  intros Hwf Hxy Hhid Hv Hbin Hdh Hrun.
  destruct (commit_mines _ _ _ _ _ _ _ _ _ _ Hwf Hxy Hhid Hrun)
    as (dh_mines & Hcomb & Hsd & _ & _ & _ & Hvis & Hsh & Hdp & Hck).
  apply (random_combination_mask _ _ _ _ Hv) in Hcomb as (Hk & Hlen & Hcount).
  assert (Hdeep : is_deep g (gridx, gridy) = (count_adjacent_revealed_cells g gridx gridy =? 0)).
  { unfold is_deep. simpl. by rewrite Hhid. }
  rewrite mines_total_scan by (by eapply same_dims_wf).
  rewrite (same_dims_scan g g') by done.
  rewrite (countZ_classes g gridx gridy (has_mine g')).
  assert (H1 : countZ (λ c, negb (is_hidden g c) && has_mine g' c) (scan g)
               = countZ (λ c, negb (is_hidden g c) && has_mine g c) (scan g)).
  { apply countZ_ext. intros c Hc. destruct (is_hidden g c) eqn:Eh; [done|]. simpl.
    unfold has_mine. apply Hvis; [|done]. destruct c. by apply elem_of_scan. }
  assert (H2 : countZ (λ c, is_shallow g c && has_mine g' c) (scan g)
               = shallow_mines_after g ran_lp solution).
  { rewrite <- countZ_filter. fold (shallows g). destruct ran_lp.
    - rewrite shallow_mines_after_binary by auto.
      apply countZ_by_index. intros k c Hkc. unfold has_mine. by rewrite (Hsh k c Hkc).
    - unfold shallow_mines_after. destruct (partition_pass_counts g) as (_ & _ & _ & -> & _).
      unfold shallows. rewrite countZ_filter. apply countZ_ext. intros c Hc.
      destruct (is_shallow g c) eqn:Es; [|done]. simpl. unfold has_mine.
      destruct (shallows_lookup_column g c Hwf) as [_ Hlk]; [|done|].
      { destruct c. by apply elem_of_scan. }
      by rewrite (Hsh _ _ Hlk). }
  assert (H3 : countZ (λ c, (is_deep g c && negb ((c.1 =? gridx) && (c.2 =? gridy)))
                            && has_mine g' c) (scan g)
               = T - shallow_mines_after g ran_lp solution).
  { rewrite <- (countZ_filter (has_mine g')
                  (λ c, is_deep g c && negb ((c.1 =? gridx) && (c.2 =? gridy)))).
    fold (deeps_but g gridx gridy).
    rewrite (countZ_by_index _ (λ k, dh_mines !!! k)).
    - replace (length (deeps_but g gridx gridy)) with (length dh_mines) by lia.
      by rewrite count_true_by_index.
    - intros k c Hkc. unfold has_mine. by apply Hdp. }
  assert (H4 : countZ (λ c, (is_deep g c && ((c.1 =? gridx) && (c.2 =? gridy)))
                            && has_mine g' c) (scan g)
               = if (count_adjacent_revealed_cells g gridx gridy =? 0) && mine_present
                 then 1 else 0).
  { rewrite (countZ_single _ (scan g) (gridx, gridy));
      [|apply NoDup_scan|by apply elem_of_scan|].
    - simpl. rewrite !Z.eqb_refl, Hdeep. simpl. rewrite andb_true_r.
      destruct (count_adjacent_revealed_cells g gridx gridy =? 0) eqn:Ed; [|done].
      simpl. unfold has_mine. simpl. rewrite Hck by (by rewrite Hdeep). done.
    - intros [i j] _ Hne. simpl.
      destruct (Z.eqb_spec i gridx), (Z.eqb_spec j gridy); simpl;
        rewrite ?andb_false_r; try done.
      subst. done. }
  rewrite H1, H2, H3, H4. lia.
Qed.

(** A successful call either returns the state as it is (the cell has the
    requested status already, or it is revealed and no mine is wanted) or
    commits, on a hidden cell and after both assertions of the partition
    pass have held, a solution of [the_lp] or, without running the solver,
    the untouched shallow cells. *)
Lemma alter_minefield_commits sv rnd g gridx gridy mine_present g' :
  alter_minefield sv rnd g gridx gridy mine_present = Ret (true, g') →
  (g' = g ∧ (mine (cell_at g gridx gridy) = mine_present ∨
             (visible (cell_at g gridx gridy) = true ∧ mine_present = false))) ∨
  (visible (cell_at g gridx gridy) = false ∧
   mines_total g = p_sh_mine_count (partition_pass g) + p_dh_mine_count (partition_pass g) ∧
   ∃ ran_lp solution,
     (ran_lp = true →
      ∃ code, lp_solve sv (the_lp g gridx gridy mine_present) = (code, solution) ∧
              feasible_code code = true) ∧
     (ran_lp = false →
      p_m (partition_pass g) = 0 ∨ count_adjacent_revealed_cells g gridx gridy = 0) ∧
     commit rnd g (partition_pass g) (adjusted_T g gridx gridy mine_present)
            (adjusted_dh_cells g gridx gridy) gridx gridy mine_present
            (count_adjacent_revealed_cells g gridx gridy =? 0) ran_lp solution = Ret g').
Proof.
  intros H. unfold alter_minefield in H.
  destruct (eqb mine_present (mine (cell_at g gridx gridy))) eqn:Esame.
  { left. split; [congruence|]. left. symmetry. by apply eqb_prop. }
  destruct (visible (cell_at g gridx gridy)) eqn:Hvis.
  { left. split; [congruence|]. right. split; [done|].
    destruct mine_present; simpl in H; congruence. }
  destruct (mines_total g =? 0); [congruence|].
  destruct ((mines_total g =? grid_width g * grid_height g) && negb mine_present);
    [congruence|].
  cbv zeta in H.
  destruct (eqb (p_m (partition_pass g) =? 0) (p_n (partition_pass g) =? 0)); [|done].
  destruct (Z.eqb_spec (mines_total g)
              (p_sh_mine_count (partition_pass g) + p_dh_mine_count (partition_pass g)))
    as [HT|]; [|done].
  change (build_lp g (partition_pass g) _ _ gridx gridy mine_present _)
    with (the_lp g gridx gridy mine_present) in H.
  change (if (count_adjacent_revealed_cells g gridx gridy =? 0) && mine_present
          then mines_total g - 1 else mines_total g)
    with (adjusted_T g gridx gridy mine_present) in H.
  change (if count_adjacent_revealed_cells g gridx gridy =? 0
          then p_dh_cells (partition_pass g) - 1 else p_dh_cells (partition_pass g))
    with (adjusted_dh_cells g gridx gridy) in H.
  right. split; [done|]. split; [done|].
  assert (Hdone : ∀ ran_lp solution,
    (g0 ←r commit rnd g (partition_pass g) (adjusted_T g gridx gridy mine_present)
             (adjusted_dh_cells g gridx gridy) gridx gridy mine_present
             (count_adjacent_revealed_cells g gridx gridy =? 0) ran_lp solution;
     Ret (true, g0)) = Ret (true, g') →
    commit rnd g (partition_pass g) (adjusted_T g gridx gridy mine_present)
           (adjusted_dh_cells g gridx gridy) gridx gridy mine_present
           (count_adjacent_revealed_cells g gridx gridy =? 0) ran_lp solution = Ret g').
  { clear H. intros ran sol Hc. destruct (commit _ _ _ _ _ _ _ _ _ _ _) as [g0|];
      simpl in Hc; congruence. }
  destruct (Z.eqb_spec (p_m (partition_pass g)) 0) as [Hm|_].
  { exists false, []. split; [done|]. split; [by left|by apply Hdone]. }
  destruct (Z.eqb_spec (count_adjacent_revealed_cells g gridx gridy) 0) as [Hdeep|_].
  2:{ simpl in H. destruct (negb (lp_alloc sv)); [congruence|].
      match type of H with (if ?b then _ else _) = _ => destruct b end; [|done].
      destruct (lp_solve sv (the_lp g gridx gridy mine_present))
        as [code variables] eqn:Hsolve.
      destruct code; try congruence;
        (exists true, variables; split;
         [intros _; eexists; split; [reflexivity|done]|split; [done|by apply Hdone]]). }
  match type of H with (if ?b then _ else _) = _ => destruct b end;
    [exists false, []; split; [done|]; split; [by right|by apply Hdone]|].
  match type of H with (if ?b then _ else _) = _ => destruct b end;
    [exists false, []; split; [done|]; split; [by right|by apply Hdone]|].
  destruct (negb (lp_alloc sv)); [congruence|].
  match type of H with (if ?b then _ else _) = _ => destruct b end; [|done].
  destruct (lp_solve sv (the_lp g gridx gridy mine_present)) as [code variables] eqn:Hsolve.
  destruct code; try congruence;
    (exists true, variables; split;
     [intros _; eexists; split; [reflexivity|done]|split; [done|by apply Hdone]]).
Qed.

(** A failed call hands back the state it was given. *)
Lemma alter_minefield_fails_unchanged sv rnd g gridx gridy mine_present g' :
  alter_minefield sv rnd g gridx gridy mine_present = Ret (false, g') → g' = g.
Proof.
  intros H. unfold alter_minefield in H.
  split_engine H; try congruence;
    try (exfalso; eapply commit_then_true_not_false; exact H).
Qed.

(** A successful or failed call leaves the number of mines as it was. *)
Lemma alter_minefield_conserves_mines sv rnd g gridx gridy mine_present b g' :
  wf g → inb g gridx gridy → valid_draws rnd → binary_solver sv →
  alter_minefield sv rnd g gridx gridy mine_present = Ret (b, g') →
  mines_total g' = mines_total g.
Proof.
  intros Hwf Hxy Hv Hsv H. destruct b.
  2:{ by apply alter_minefield_fails_unchanged in H as ->. }
  apply alter_minefield_commits in H as [[-> _]|(Hvis & HT & ran & sol & Hran & _ & Hc)];
    [done|].
  assert (Hdeep : is_deep g (gridx, gridy) = (count_adjacent_revealed_cells g gridx gridy =? 0)).
  { unfold is_deep. simpl. by rewrite Hvis. }
  assert (Hbin : ran = true → binary_solution (p_n (partition_pass g)) sol).
  { intros Hr. destruct (Hran Hr) as (code & Hsolve & Hfeas).
    pose proof (Hsv _ _ _ Hsolve Hfeas) as Hb.
    unfold the_lp in Hb. rewrite build_lp_alt in Hb. exact Hb. }
  assert (Hdh : adjusted_dh_cells g gridx gridy
                = Z.of_nat (length (deeps_but g gridx gridy))).
  { rewrite length_deeps_but by done. unfold adjusted_dh_cells.
    destruct (partition_pass_counts g) as (_ & _ & -> & _).
    rewrite Hdeep. destruct (count_adjacent_revealed_cells g gridx gridy =? 0); lia. }
  rewrite (commit_total _ _ _ _ _ _ _ _ _ _ Hwf Hxy Hvis Hv Hbin Hdh Hc).
  (* the assertion leaves no mine under a revealed cell *)
  pose proof (mines_total_scan g Hwf) as Hscan.
  rewrite (countZ_classes g gridx gridy (has_mine g)) in Hscan.
  destruct (partition_pass_counts g) as (_ & _ & _ & Hsh & Hdm & _).
  rewrite (countZ_split (λ d, is_deep g d && has_mine g d)
             (λ c, negb ((c.1 =? gridx) && (c.2 =? gridy)))) in Hdm.
  assert (E1 : countZ (λ a, negb ((a.1 =? gridx) && (a.2 =? gridy))
                            && (is_deep g a && has_mine g a)) (scan g)
               = countZ (λ c, (is_deep g c && negb ((c.1 =? gridx) && (c.2 =? gridy)))
                              && has_mine g c) (scan g)).
  { apply countZ_ext. intros c _.
    destruct (is_deep g c), (has_mine g c), ((c.1 =? gridx) && (c.2 =? gridy)); done. }
  assert (E2 : countZ (λ a, negb (negb ((a.1 =? gridx) && (a.2 =? gridy)))
                            && (is_deep g a && has_mine g a)) (scan g)
               = countZ (λ c, (is_deep g c && ((c.1 =? gridx) && (c.2 =? gridy)))
                              && has_mine g c) (scan g)).
  { apply countZ_ext. intros c _.
    destruct (is_deep g c), (has_mine g c), ((c.1 =? gridx) && (c.2 =? gridy)); done. }
  rewrite E1, E2 in Hdm.
  unfold adjusted_T.
  destruct ((count_adjacent_revealed_cells g gridx gridy =? 0) && mine_present); lia.
Qed.

(** C2. For every grid state and every call of [alter_minefield] on a
    cell of the grid, with a generator that honours its bounds and a solver
    that keeps its columns binary: after a successful call [mines_total]
    differs from its value before by at most one (it is in fact the same:
    the mines are redistributed, none is created or lost), and after a
    failed call it is unchanged. *)
Theorem alter_minefield_mines_total sv rnd g gridx gridy mine_present b g' :
  wf g → inb g gridx gridy → valid_draws rnd → binary_solver sv →
  alter_minefield sv rnd g gridx gridy mine_present = Ret (b, g') →
  (b = true → Z.abs (mines_total g' - mines_total g) <= 1) ∧
  (b = false → mines_total g' = mines_total g).
Proof.
  intros Hwf Hxy Hv Hsv H.
  pose proof (alter_minefield_conserves_mines _ _ _ _ _ _ _ _ Hwf Hxy Hv Hsv H) as Heq.
  split; intros _; lia.
Qed.

Lemma row4_two_wf : wf row4_two.
Proof. repeat split; try done; vm_compute; lia. Qed.

Lemma agreeing_binary : binary_solver agreeing.
Proof.
  intros lp code x Hsolve _. simpl in Hsolve. inversion Hsolve; subst.
  split; [by rewrite length_replicate|]. apply Forall_replicate. by right.
Qed.

Lemma identity_draws : valid_draws (λ j, j).
Proof. intros j Hj. lia. Qed.

Lemma alter_minefield_mines_total_witness :
  ∃ g', alter_minefield agreeing (λ j, j) row4_two 3 0 false = Ret (true, g') ∧
        mine (cell_at g' 3 0) = false ∧ mine (cell_at g' 2 0) = true ∧
        Z.abs (mines_total g' - mines_total row4_two) <= 1.
Proof.
  eexists. split; [vm_compute; reflexivity|].
  split; [reflexivity|]. split; [reflexivity|].
  apply (alter_minefield_mines_total agreeing (λ j, j) row4_two 3 0 false true).
  - exact row4_two_wf.
  - vm_compute. repeat split; discriminate.
  - exact identity_draws.
  - exact agreeing_binary.
  - vm_compute. reflexivity.
  - reflexivity.
Defined.

(** ** The invariant of a game in play *)

Lemma countZ_exists {A} (P : A → bool) l :
  countZ P l ≠ 0 → ∃ a, a ∈ l ∧ P a = true.
Proof.
  induction l as [|a l IH]; intros H; [done|]. rewrite countZ_cons in H.
  destruct (P a) eqn:E.
  - exists a. split; [by left|done].
  - destruct IH as (b & Hb & HP); [lia|]. exists b. split; [by right|done].
Qed.

Lemma same_board_refl g : same_board g g.
Proof. split; [apply same_dims_refl|done]. Qed.

Lemma same_board_trans g1 g2 g3 : same_board g1 g2 → same_board g2 g3 → same_board g1 g3.
Proof.
  intros [Hd1 H1] [Hd2 H2]. split; [by eapply same_dims_trans|].
  intros i j Hij. destruct (H1 i j Hij) as (?&?&?).
  destruct (H2 i j) as (?&?&?); [by eapply same_dims_inb|].
  repeat split; congruence.
Qed.

Lemma same_board_count_adjacent_mines g g' x y :
  same_board g g' → count_adjacent_mines g' x y = count_adjacent_mines g x y.
Proof.
  intros [Hd H]. rewrite !count_adjacent_mines_count, (same_dims_around g g') by done.
  apply countZ_ext. intros [i j] Hin. simpl.
  apply around_inb in Hin. by destruct (H i j Hin) as (-> & _).
Qed.

Lemma same_board_playable g g' : same_board g g' → playable g → playable g'.
Proof.
  intros Hb (Hwf & Hadj & Hvis & Hzero). pose proof Hb as [Hd H].
  split; [by eapply same_dims_wf|]. split; [|split].
  - intros x y Hxy. apply (same_dims_inb_rev g g') in Hxy; [|done].
    destruct (H x y Hxy) as (_ & -> & _).
    rewrite (same_board_count_adjacent_mines g g') by done. by apply Hadj.
  - intros x y Hxy Hv. apply (same_dims_inb_rev g g') in Hxy; [|done].
    destruct (H x y Hxy) as (-> & _ & Hv'). apply Hvis; [done|]. by rewrite <- Hv'.
  - intros x y Hxy Hv Ha [i j] Hin. apply (same_dims_inb_rev g g') in Hxy; [|done].
    rewrite (same_dims_around g g') in Hin by done.
    destruct (H x y Hxy) as (_ & Ha' & Hv').
    pose proof (around_inb _ _ _ _ _ Hin) as Hij.
    destruct (H i j Hij) as (_ & _ & Hv''). simpl. rewrite Hv''.
    apply (Hzero x y Hxy ltac:(congruence) ltac:(congruence) (i, j) Hin).
Qed.

(** In a playable state there is a revealed number exactly when there is
    a shallow cell: the first assertion after the partition pass. *)
Lemma playable_m_iff_n g :
  playable g → p_m (partition_pass g) = 0 ↔ p_n (partition_pass g) = 0.
Proof.
  intros (Hwf & Hadj & Hvis & Hzero).
  destruct (partition_pass_counts g) as (-> & -> & _).
  rewrite !countZ_zero. split.
  - intros Hnum [i j] Hc. apply elem_of_scan in Hc.
    destruct (is_shallow g (i, j)) eqn:Es; [|done]. exfalso.
    unfold is_shallow in Es. simpl in Es. apply andb_true_iff in Es as [Hh Hn].
    apply negb_true_iff in Hh. apply negb_true_iff in Hn. apply Z.eqb_neq in Hn.
    rewrite count_adjacent_revealed_cells_count in Hn.
    apply countZ_exists in Hn as ([a b] & Hab & Hv). simpl in Hv.
    pose proof (around_inb _ _ _ _ _ Hab) as Hin.
    specialize (Hnum (a, b) ltac:(by apply elem_of_scan)).
    unfold is_number in Hnum. simpl in Hnum. rewrite Hv in Hnum. simpl in Hnum.
    apply negb_false_iff, Z.eqb_eq in Hnum.
    pose proof (Hzero a b Hin Hv Hnum (i, j) ltac:(by apply (around_sym g i j))) as Hv'.
    simpl in Hv'. congruence.
  - intros Hsh [a b] Hv. apply elem_of_scan in Hv.
    destruct (is_number g (a, b)) eqn:En; [|done]. exfalso.
    unfold is_number in En. simpl in En. apply andb_true_iff in En as [Hvv Hn].
    apply negb_true_iff, Z.eqb_neq in Hn.
    rewrite (Hadj a b Hv), count_adjacent_mines_count in Hn.
    apply countZ_exists in Hn as ([i j] & Hij & Hm). simpl in Hm.
    pose proof (around_inb _ _ _ _ _ Hij) as Hin.
    assert (Hh : is_hidden g (i, j) = true).
    { unfold is_hidden. simpl. destruct (visible (cell_at g i j)) eqn:E; [|done].
      rewrite (Hvis i j Hin E) in Hm. done. }
    pose proof (hidden_neighbour_shallow g (a, b) (i, j) Hv Hvv Hij Hh) as Hs.
    rewrite (Hsh (i, j)) in Hs; [done|by apply elem_of_scan].
Qed.

(** With no mine under a revealed cell, the mines are those of the
    shallow and of the deep cells: the second assertion. *)
Lemma playable_total g :
  wf g → vis_safe g →
  mines_total g = p_sh_mine_count (partition_pass g) + p_dh_mine_count (partition_pass g).
Proof.
  intros Hwf Hvis. rewrite mines_total_scan by done.
  destruct (partition_pass_counts g) as (_ & _ & _ & -> & -> & _).
  rewrite (countZ_split (has_mine g) (is_shallow g)). f_equal.
  apply countZ_ext. intros [i j] Hc. apply elem_of_scan in Hc.
  unfold is_shallow, is_deep, has_mine. simpl.
  destruct (visible (cell_at g i j)) eqn:E.
  - rewrite (Hvis i j Hc E). simpl. by rewrite ?andb_false_r.
  - simpl. by destruct (count_adjacent_revealed_cells g i j =? 0).
Qed.

(** The commit leaves the count of every revealed cell as it was: around
    a revealed cell only shallow cells can change, and they change only to
    a solution of the cell's own row. *)
Lemma commit_keeps_counts rnd g T dh_cells gridx gridy mine_present ran_lp solution g' :
  playable g → inb g gridx gridy → visible (cell_at g gridx gridy) = false →
  (ran_lp = true →
   binary_solution (p_n (partition_pass g)) solution ∧
   ∀ v, inb g v.1 v.2 → is_number g v = true → row_holds solution (number_row_of g v)) →
  commit rnd g (partition_pass g) T dh_cells gridx gridy mine_present
         (count_adjacent_revealed_cells g gridx gridy =? 0) ran_lp solution = Ret g' →
  ∀ a b, inb g a b → visible (cell_at g a b) = true →
         count_adjacent_mines g' a b = count_adjacent_mines g a b.
Proof.
  intros (Hwf & Hadj & Hvis & Hzero) Hxy Hhid Hsol Hrun a b Hab Hv.
  destruct (commit_mines _ _ _ _ _ _ _ _ _ _ Hwf Hxy Hhid Hrun)
    as (dh_mines & _ & Hsd & _ & _ & _ & Hkeep & Hsh & _ & _).
  rewrite !count_adjacent_mines_count, (same_dims_around g g') by done.
  assert (Hshallow : ∀ c, c ∈ around g a b → is_hidden g c = true →
            inb g c.1 c.2 ∧ shallows g !! Z.to_nat (column g c - 1) = Some c ∧
            1 <= column g c <= p_n (partition_pass g)).
  { intros [i j] Hc Hh. pose proof (around_inb _ _ _ _ _ Hc) as Hin.
    pose proof (hidden_neighbour_shallow g (a, b) (i, j) Hab Hv Hc Hh) as Hs.
    destruct (shallows_lookup_column g (i, j) Hwf Hin Hs) as [Hcol Hlk]. done. }
  destruct ran_lp.
  2:{ apply countZ_ext. intros [i j] Hc. simpl.
      destruct (is_hidden g (i, j)) eqn:Hh.
      - destruct (Hshallow (i, j) Hc Hh) as (_ & Hlk & _).
        apply (Hsh _ (i, j) Hlk).
      - apply (Hkeep (i, j)); [by apply around_inb in Hc|done]. }
  destruct (Hsol eq_refl) as [[Hlen Hbin] Hrows].
  destruct (Z.eq_dec (adj (cell_at g a b)) 0) as [Hz|Hnz].
  { apply countZ_ext. intros [i j] Hc. simpl.
    apply (Hkeep (i, j)); [by apply around_inb in Hc|].
    unfold is_hidden. simpl. pose proof (Hzero a b Hab Hv Hz (i, j) Hc) as E.
    simpl in E. by rewrite E. }
  assert (Hnum : is_number g (a, b) = true).
  { unfold is_number. simpl. rewrite Hv. simpl. apply negb_true_iff. by apply Z.eqb_neq. }
  pose proof (Hrows (a, b) Hab Hnum) as Hrow.
  unfold row_holds in Hrow. simpl in Hrow. rewrite row_value_number in Hrow. simpl in Hrow.
  rewrite <- count_adjacent_mines_count, <- (Hadj a b Hab), <- Hrow.
  rewrite (countZ_split _ (is_hidden g)).
  assert (H0 : countZ (λ c, negb (is_hidden g c) && mine (cell_at g' c.1 c.2))
                      (around g a b) = 0).
  { apply countZ_zero. intros [i j] Hc. simpl.
    destruct (is_hidden g (i, j)) eqn:Hh; [done|]. simpl.
    pose proof (around_inb _ _ _ _ _ Hc) as Hin.
    pose proof (Hkeep (i, j) Hin Hh) as E. simpl in E. rewrite E. apply Hvis; [done|].
    unfold is_hidden in Hh. simpl in Hh. by apply negb_false_iff in Hh. }
  rewrite H0, Z.add_0_r, <- countZ_filter.
  rewrite sumZ_binary.
  - apply countZ_ext. intros c Hc. apply list_elem_of_filter in Hc as [Hh Hc].
    destruct (Hshallow c Hc Hh) as (_ & Hlk & _). apply (Hsh _ c Hlk).
  - intros c Hc. apply list_elem_of_filter in Hc as [Hh Hc].
    destruct (Hshallow c Hc Hh) as (_ & _ & Hcol).
    rewrite Forall_forall in Hbin. apply Hbin. unfold var_of.
    apply list_elem_of_lookup. exists (Z.to_nat (column g c - 1)).
    apply list_lookup_lookup_total_lt. lia.
Qed.

(** The commit of a sound solution keeps the state playable and reveals
    or hides nothing. *)
Lemma commit_playable rnd g T dh_cells gridx gridy mine_present ran_lp solution g' :
  playable g → inb g gridx gridy → visible (cell_at g gridx gridy) = false →
  (ran_lp = true →
   binary_solution (p_n (partition_pass g)) solution ∧
   ∀ v, inb g v.1 v.2 → is_number g v = true → row_holds solution (number_row_of g v)) →
  commit rnd g (partition_pass g) T dh_cells gridx gridy mine_present
         (count_adjacent_revealed_cells g gridx gridy =? 0) ran_lp solution = Ret g' →
  playable g' ∧ ∀ i j, inb g i j → visible (cell_at g' i j) = visible (cell_at g i j).
Proof.
  intros Hp Hxy Hhid Hsol Hrun.
  pose proof (commit_keeps_counts _ _ _ _ _ _ _ _ _ _ Hp Hxy Hhid Hsol Hrun) as Hcount.
  destruct Hp as (Hwf & Hadj & Hvis & Hzero).
  destruct (commit_mines _ _ _ _ _ _ _ _ _ _ Hwf Hxy Hhid Hrun)
    as (dh_mines & _ & Hsd & Hadj' & _ & Hcell & Hkeep & _ & _ & _).
  assert (Hv : ∀ i j, inb g i j → visible (cell_at g' i j) = visible (cell_at g i j)).
  { intros i j Hij. by rewrite (Hcell i j Hij). }
  assert (Ha : ∀ i j, inb g i j → visible (cell_at g i j) = true →
                      adj (cell_at g' i j) = adj (cell_at g i j)).
  { intros i j Hij Hvv. rewrite (Hadj' i j), (Hadj i j Hij); [|by eapply same_dims_inb].
    by apply Hcount. }
  split; [split; [by eapply same_dims_wf|split; [done|split]]|done].
  - intros x y Hin Hvv. apply (same_dims_inb_rev g g') in Hin; [|done].
    rewrite Hv in Hvv by done.
    assert (E : is_hidden g (x, y) = false) by (unfold is_hidden; simpl; by rewrite Hvv).
    pose proof (Hkeep (x, y) Hin E) as E'. simpl in E'. rewrite E'. by apply Hvis.
  - intros x y Hin Hvv Hz [i j] Hc. apply (same_dims_inb_rev g g') in Hin; [|done].
    rewrite (same_dims_around g g') in Hc by done.
    rewrite Hv in Hvv by done. rewrite Ha in Hz by done.
    simpl. rewrite Hv by (by apply around_inb in Hc).
    apply (Hzero x y Hin Hvv Hz (i, j) Hc).
Qed.

(** What a sound solver's answer to [the_lp] satisfies. *)
Lemma sound_solver_rows sv g gridx gridy mine_present code solution :
  sound_solver sv →
  lp_solve sv (the_lp g gridx gridy mine_present) = (code, solution) →
  feasible_code code = true →
  binary_solution (p_n (partition_pass g)) solution ∧
  (∀ v, inb g v.1 v.2 → is_number g v = true → row_holds solution (number_row_of g v)) ∧
  ((count_adjacent_revealed_cells g gridx gridy =? 0) = false →
   row_holds solution (pin_row g gridx gridy mine_present)).
Proof.
  intros Hsv Hsolve Hfeas. destruct (Hsv _ _ _ Hsolve Hfeas) as [Hbin Hrows].
  unfold the_lp in Hbin, Hrows. rewrite build_lp_alt in Hbin, Hrows.
  cbv zeta in Hbin, Hrows. cbn [lp_columns lp_rows] in Hbin, Hrows.
  split; [done|]. rewrite Forall_forall in Hrows. split.
  - intros [a b] Hv Hnum. apply Hrows. apply elem_of_app. left.
    apply list_elem_of_fmap. exists (a, b). split; [done|].
    apply list_elem_of_filter. split; [done|]. by apply elem_of_scan.
  - intros Hnd. apply Hrows. rewrite Hnd. apply elem_of_app. right.
    apply elem_of_app. right. by apply list_elem_of_singleton.
Qed.

(** A successful call with a sound solver keeps the state playable,
    reveals nothing, and leaves the requested cell with the requested
    status. *)
Lemma alter_minefield_playable sv rnd g gridx gridy mine_present g' :
  sound_solver sv → playable g → inb g gridx gridy →
  alter_minefield sv rnd g gridx gridy mine_present = Ret (true, g') →
  playable g' ∧ mine (cell_at g' gridx gridy) = mine_present ∧
  same_dims g g' ∧
  ∀ i j, inb g i j → visible (cell_at g' i j) = visible (cell_at g i j).
Proof.
  intros Hsv Hp Hxy H.
  apply alter_minefield_commits in H
    as [[-> Hsame]|(Hhid & _ & ran & sol & Hran & Hnolp & Hc)].
  { split; [done|]. split; [|split; [apply same_dims_refl|done]].
    destruct Hsame as [Hm|[Hv ->]]; [done|].
    destruct Hp as (_ & _ & Hvis & _). by apply Hvis. }
  assert (Hsol : ran = true →
            binary_solution (p_n (partition_pass g)) sol ∧
            (∀ v, inb g v.1 v.2 → is_number g v = true →
                  row_holds sol (number_row_of g v)) ∧
            ((count_adjacent_revealed_cells g gridx gridy =? 0) = false →
             row_holds sol (pin_row g gridx gridy mine_present))).
  { intros Hr. destruct (Hran Hr) as (code & Hsolve & Hfeas).
    by eapply sound_solver_rows. }
  assert (Hsol' : ran = true →
            binary_solution (p_n (partition_pass g)) sol ∧
            ∀ v, inb g v.1 v.2 → is_number g v = true →
                 row_holds sol (number_row_of g v)).
  { intros Hr. destruct (Hsol Hr) as (? & ? & _). done. }
  destruct (commit_playable _ _ _ _ _ _ _ _ _ _ Hp Hxy Hhid Hsol' Hc) as [Hp' Hv'].
  split; [done|]. pose proof Hp as (Hwf & _).
  destruct (commit_mines _ _ _ _ _ _ _ _ _ _ Hwf Hxy Hhid Hc)
    as (_ & _ & Hsd & _ & _ & _ & _ & Hsh & _ & Hdeep).
  split; [|done].
  destruct (count_adjacent_revealed_cells g gridx gridy =? 0) eqn:Ed.
  { apply Hdeep. unfold is_deep. simpl. by rewrite Hhid, Ed. }
  assert (Hs : is_shallow g (gridx, gridy) = true).
  { unfold is_shallow. simpl. by rewrite Hhid, Ed. }
  destruct (shallows_lookup_column g (gridx, gridy) Hwf Hxy Hs) as [Hcol Hlk].
  pose proof (Hsh _ _ Hlk) as Hmine. simpl in Hmine. rewrite Hmine.
  destruct ran.
  - destruct (Hsol eq_refl) as (_ & _ & Hpin). specialize (Hpin eq_refl).
    unfold row_holds in Hpin. simpl in Hpin. rewrite row_value_pin in Hpin.
    unfold var_of in Hpin. rewrite Hpin. by destruct mine_present.
  - exfalso. destruct (Hnolp eq_refl) as [Hm|Hz].
    + apply (playable_m_iff_n g Hp) in Hm.
      destruct (partition_pass_counts g) as (_ & Hn & _). rewrite Hn in Hm.
      pose proof (countZ_pos (is_shallow g) (scan g) (gridx, gridy)
                    ltac:(by apply elem_of_scan) Hs). lia.
    + apply Z.eqb_neq in Ed. done.
Qed.

(** Revealing from a cell without a mine keeps the state playable. *)
Lemma bucket_reveal_playable fuel g x y g' log :
  playable g → inb g x y → mine (cell_at g x y) = false →
  bucket_reveal fuel g x y = Ret (g', log) → playable g'.
Proof.
  intros (Hwf & Hadj & Hvis & Hzero) Hxy Hm Hrun.
  pose proof (bucket_reveal_spec fuel g x y g' log Hwf Hxy Hrun) as Hspec.
  pose proof (reveal_spec_inb g x y g' log Hxy Hspec) as Hlog.
  pose proof (zero_closed_reveal g x y g' log Hwf Hxy Hzero Hspec) as Hzero'.
  destruct Hspec as (-> & _ & _ & Hflood & _).
  pose proof (advances_reveal_all g log Hwf Hlog) as Hadv.
  pose proof Hadv as (Hsd & _).
  split; [by eapply same_dims_wf|]. split; [by eapply advances_adj_ok|].
  split; [|done].
  intros i j Hij Hv. apply (same_dims_inb_rev g _) in Hij; [|done].
  rewrite reveal_all_mine by done.
  apply visible_reveal_all in Hv as [Hin|Hv]; [|by apply Hvis|done..].
  destruct (flood_no_mine g x y (i, j) Hadj Hxy (Hflood _ Hin)) as [[= -> ->]|Hno]; done.
Qed.

(** *** Handlers that change marks, status or settings *)

Lemma set_cell_same_board g x y f :
  wf g → inb g x y →
  (∀ c, mine (f c) = mine c ∧ adj (f c) = adj c ∧ visible (f c) = visible c) →
  same_board g (set_cell g x y f).
Proof.
  intros Hwf Hxy Hf. split; [apply set_cell_same_dims|].
  intros i j Hij. rewrite cell_at_set_cell by done.
  destruct (decide ((x, y) = (i, j))) as [[= -> ->]|_]; [apply Hf|done].
Qed.

Lemma same_board_wf g g' : same_board g g' → wf g → wf g'.
Proof. intros [Hd _]. by apply same_dims_wf. Qed.

Lemma same_board_inb g g' x y : same_board g g' → inb g x y → inb g' x y.
Proof. intros [Hd _]. by apply same_dims_inb. Qed.

Lemma end_game_same_board g won : wf g → same_board g (end_game g won).
Proof.
  intros Hwf. split; [by apply end_game_same_dims|].
  intros i j Hij. rewrite cell_at_end_game by done. unfold mark_mistake.
  by destruct (flag (cell_at g i j) && negb (mine (cell_at g i j))).
Qed.

Lemma toggle_flag_same_board g x y : wf g → inb g x y → same_board g (toggle_flag g x y).
Proof.
  intros Hwf Hxy. unfold toggle_flag.
  destruct (negb (visible (cell_at g x y))); [|apply same_board_refl].
  destruct (flag (cell_at g x y)).
  - assert (H1 : same_board g (set_cell g x y (set_flag false)))
      by (by apply set_cell_same_board).
    destruct (config_qmarks g); [|done].
    eapply same_board_trans; [exact H1|].
    apply set_cell_same_board; [by eapply same_board_wf|by eapply same_board_inb|done].
  - destruct (qmark (cell_at g x y)); by apply set_cell_same_board.
Qed.

Lemma check_won_same_board g : same_board g (check_won g).
Proof. unfold check_won. destruct (_ =? _); by split. Qed.

Lemma with_first_move_same_board g b : same_board g (with_first_move g b).
Proof. by split. Qed.

Lemma click_luck_same_board g : same_board g (click_luck g).
Proof. by split. Qed.

Lemma clear_qmarks_lookup (l : list nat) (mf : list cell) (k : nat) :
  length (foldl (λ mf i, alter (set_qmark false) i mf) mf l) = length mf ∧
  mine (foldl (λ mf i, alter (set_qmark false) i mf) mf l !!! k) = mine (mf !!! k) ∧
  adj (foldl (λ mf i, alter (set_qmark false) i mf) mf l !!! k) = adj (mf !!! k) ∧
  visible (foldl (λ mf i, alter (set_qmark false) i mf) mf l !!! k) = visible (mf !!! k).
Proof.
  revert mf. induction l as [|i l IH]; intros mf; [done|]. simpl.
  destruct (IH (alter (set_qmark false) i mf)) as (-> & -> & -> & ->).
  rewrite length_alter. split; [done|].
  rewrite list_lookup_total_alter. destruct (decide _) as [[-> _]|_]; by repeat split.
Qed.

Lemma click_qmark_toggle_same_board g : same_board g (click_qmark_toggle g).
Proof.
  unfold click_qmark_toggle. destruct (negb _); [|by split].
  split.
  - repeat split. simpl. apply clear_qmarks_lookup. exact O.
  - intros i j Hij. unfold cell_at. simpl.
    change (idx (with_minefield _ _) i j) with (idx g i j).
    apply clear_qmarks_lookup.
Qed.

(** *** A new game *)

Lemma new_game_hidden g trial i j :
  0 <= grid_width g → 0 <= grid_height g → inb g i j →
  visible (cell_at (new_game g trial) i j) = false.
Proof.
  intros Hw Hh Hij. unfold new_game.
  set (g0 := with_visible_cell_count _ 0).
  assert (Hwf0 : wf g0).
  { split; [done|]. split; [done|]. simpl. apply length_replicate. }
  assert (Hcell0 : ∀ i j, inb g0 i j → visible (cell_at g0 i j) = false).
  { intros a b Hab. unfold cell_at. simpl. rewrite lookup_total_replicate_2; [done|].
    pose proof (idx_lt g0 a b Hwf0 Hab) as Hlt. simpl in Hlt.
    by rewrite length_replicate in Hlt. }
  assert (Hloop : ∀ l g1, wf g1 → same_dims g0 g1 →
            (∀ a b, inb g0 a b → visible (cell_at g1 a b) = false) →
            Forall (λ d, inb g0 d.1 d.2) l →
            let g2 := foldl (λ g' xy, if trial xy.1 xy.2
                                      then (spawn_mine g' xy.1 xy.2).2 else g') g1 l in
            ∀ a b, inb g0 a b → visible (cell_at g2 a b) = false).
  { induction l as [|[a b] l IH]; intros g1 Hwf1 Hd1 Hv1 Hl; [done|].
    apply Forall_cons in Hl as [Hab Hl]. simpl in *.
    destruct (trial a b); [|by apply IH].
    pose proof (spawn_mine_same_dims g1 a b) as Hsd.
    apply IH; [by eapply same_dims_wf|by eapply same_dims_trans| |done].
    intros c d Hcd. destruct (mine (cell_at g1 a b)) eqn:Em.
    - unfold spawn_mine. rewrite Em. simpl. by apply Hv1.
    - rewrite cell_at_spawn_mine; [|done|by eapply same_dims_inb..|done].
      destruct (decide ((c, d) = (a, b))) as [[= -> ->]|_]; [simpl; by apply Hv1|].
      destruct (decide ((c, d) ∈ around g1 a b)); simpl; by apply Hv1. }
  change (cell_at (with_first_move (with_status ?g1 _) _) i j) with (cell_at g1 i j).
  apply (Hloop (scan g0) g0 Hwf0 (same_dims_refl g0) Hcell0 (scan_Forall_inb g0)). done.
Qed.

Lemma new_game_dims g trial :
  grid_width (new_game g trial) = grid_width g ∧
  grid_height (new_game g trial) = grid_height g.
Proof.
  unfold new_game. set (g0 := with_visible_cell_count _ 0).
  assert (Hloop : ∀ l g1,
            same_dims g1 (foldl (λ g' xy, if trial xy.1 xy.2
                                          then (spawn_mine g' xy.1 xy.2).2 else g') g1 l)).
  { induction l as [|[a b] l IH]; intros g1; [apply same_dims_refl|]. simpl.
    destruct (trial a b); [|apply IH].
    eapply same_dims_trans; [apply spawn_mine_same_dims|apply IH]. }
  destruct (Hloop (scan g0) g0) as (Hw & Hh & _). simpl. by rewrite Hw, Hh.
Qed.

Lemma new_game_playable g trial :
  0 <= grid_width g → 0 <= grid_height g → playable (new_game g trial).
Proof.
  intros Hw Hh. destruct (new_game_inv g trial Hw Hh) as [Hwf Hadj].
  destruct (new_game_dims g trial) as [Ew Eh].
  assert (Hin : ∀ i j, inb (new_game g trial) i j → inb g i j).
  { intros i j Hij. unfold inb in *. by rewrite Ew, Eh in Hij. }
  split; [done|]. split; [done|]. split.
  - intros x y Hxy Hv. rewrite new_game_hidden in Hv; [done..|by apply Hin].
  - intros x y Hxy Hv. rewrite new_game_hidden in Hv; [done..|by apply Hin].
Qed.

Lemma recompute_dimensions_nonneg g k :
  (k < 10)%nat →
  0 <= grid_width (recompute_dimensions g k) ∧ 0 <= grid_height (recompute_dimensions g k).
Proof.
  intros Hk. simpl.
  do 10 (destruct k as [|k]; [vm_compute; split; discriminate|]). lia.
Qed.

(** *** Handlers that reveal *)

Lemma explode_playable g x y :
  playable g → inb g x y → playable (end_game (set_cell g x y (set_exploded true)) false).
Proof.
  intros Hp Hxy. pose proof Hp as (Hwf & _).
  assert (H1 : same_board g (set_cell g x y (set_exploded true)))
    by (by apply set_cell_same_board).
  eapply same_board_playable; [|exact Hp].
  eapply same_board_trans; [exact H1|]. apply end_game_same_board.
  by eapply same_board_wf.
Qed.

Lemma bucket_reveal_same_dims fuel g x y g' log :
  wf g → inb g x y → bucket_reveal fuel g x y = Ret (g', log) → same_dims g g'.
Proof.
  intros Hwf Hxy Hrun.
  destruct (bucket_reveal_spec fuel g x y g' log Hwf Hxy Hrun) as (-> & _).
  apply reveal_all_same_dims.
Qed.

Lemma chord_step_playable fuel g d g1 :
  playable g → inb g d.1 d.2 → chord_step fuel g d = Ret g1 →
  playable g1 ∧ same_dims g g1.
Proof.
  intros Hp Hd. pose proof Hp as (Hwf & _). unfold chord_step.
  destruct (negb _ && negb _ && negb _); [|intros [= <-]; split; [done|apply same_dims_refl]].
  destruct (mine (cell_at g d.1 d.2)) eqn:Em.
  - intros [= <-]. split; [by apply explode_playable|].
    eapply same_dims_trans; [apply (set_cell_same_dims g d.1 d.2)|].
    apply end_game_same_dims. eapply same_dims_wf; [apply set_cell_same_dims|done].
  - destruct (bucket_reveal fuel g d.1 d.2) as [[g2 log]|] eqn:Er; [|done].
    simpl. intros [= <-]. split; [by eapply bucket_reveal_playable|].
    by eapply bucket_reveal_same_dims.
Qed.

Lemma chord_loop_playable fuel l :
  ∀ g g', playable g → Forall (λ d, inb g d.1 d.2) l →
          rfold (chord_step fuel) l g = Ret g' → playable g'.
Proof.
  induction l as [|d l IH]; intros g g' Hp Hl; [by intros [= <-]|].
  apply Forall_cons in Hl as [Hd Hl]. simpl.
  destruct (chord_step fuel g d) as [g1|] eqn:Es; [|done]. simpl.
  destruct (chord_step_playable fuel g d g1 Hp Hd Es) as [Hp1 Hsd].
  apply IH; [done|]. eapply Forall_impl; [exact Hl|].
  intros c Hc. by eapply same_dims_inb.
Qed.

Lemma chord_reveal_playable fuel g x y g' :
  playable g → chord_reveal fuel g x y = Ret g' → playable g'.
Proof.
  intros Hp. unfold chord_reveal.
  destruct (chord_flag_count g x y) as [flag_count|]; [|by intros [= <-]].
  destruct (_ =? _); [|by intros [= <-]].
  apply chord_loop_playable; [done|apply around_Forall_inb].
Qed.

Lemma middle_up_playable fuel g x y g' :
  playable g → middle_up fuel g x y = Ret g' → playable g'.
Proof.
  intros Hp. unfold middle_up.
  destruct (visible (cell_at g x y)).
  - destruct (chord_reveal fuel g x y) as [g1|] eqn:Ec; [|done]. simpl.
    intros [= <-]. eapply same_board_playable; [apply check_won_same_board|].
    by eapply chord_reveal_playable.
  - simpl. intros [= <-]. eapply same_board_playable; [apply check_won_same_board|done].
Qed.

Lemma reveal_and_check_playable fuel g x y g' :
  playable g → inb g x y → mine (cell_at g x y) = false →
  (r ←r bucket_reveal fuel g x y; Ret (check_won r.1)) = Ret g' → playable g'.
Proof.
  intros Hp Hxy Hm. destruct (bucket_reveal fuel g x y) as [[g1 log]|] eqn:Er; [|done].
  simpl. intros [= <-]. eapply same_board_playable; [apply check_won_same_board|].
  by eapply bucket_reveal_playable.
Qed.

Lemma left_up_playable sv rnd fuel g x y g' :
  sound_solver sv → playable g → inb g x y →
  left_up sv rnd fuel g x y = Ret g' → playable g'.
Proof.
  intros Hsv Hp Hxy. unfold left_up.
  destruct (negb _ && negb _); [|by intros [= <-]].
  cbv zeta.
  assert (Hreveal : ∀ g1,
            playable g1 → inb g1 x y → mine (cell_at g1 x y) = false →
            (g2 ←r (r ←r bucket_reveal fuel g1 x y; Ret (check_won r.1));
             Ret (with_first_move g2 false)) = Ret g' → playable g').
  { intros g1 Hp1 Hin1 Hm1.
    destruct (r ←r bucket_reveal fuel g1 x y; Ret (check_won r.1)) as [g2|] eqn:Er;
      [|done].
    cbn [rbind]. intros [= <-].
    eapply same_board_playable; [apply with_first_move_same_board|].
    by eapply reveal_and_check_playable. }
  assert (Hstop : ∀ g1,
            playable g1 → inb g1 x y →
            Ret (with_first_move (end_game (set_cell g1 x y (set_exploded true)) false)
                                 false) = Ret g' → playable g').
  { intros g1 Hp1 Hin1 [= <-].
    eapply same_board_playable; [apply with_first_move_same_board|].
    by apply explode_playable. }
  destruct (mine (cell_at g x y)) eqn:Em.
  - match goal with |- context [if ?b then alter_minefield _ _ _ _ _ _ else _] =>
      destruct b end.
    + destruct (alter_minefield sv rnd g x y false) as [[ok g1]|] eqn:Ea; [|done].
      destruct ok; cbn [rbind fst snd].
      * destruct (alter_minefield_playable _ _ _ _ _ _ _ Hsv Hp Hxy Ea)
          as (Hp1 & Hm1 & Hsd & _).
        apply Hreveal; [done|by eapply same_dims_inb|done].
      * apply alter_minefield_fails_unchanged in Ea as ->. by apply Hstop.
    + cbn [rbind fst snd]. by apply Hstop.
  - match goal with |- context [if ?b then alter_minefield _ _ _ _ _ _ else _] =>
      destruct b end.
    + destruct (alter_minefield sv rnd g x y true) as [[ok g1]|] eqn:Ea; [|done].
      destruct ok; cbn [rbind fst snd].
      * destruct (alter_minefield_playable _ _ _ _ _ _ _ Hsv Hp Hxy Ea)
          as (Hp1 & Hm1 & Hsd & _).
        apply Hstop; [done|by eapply same_dims_inb].
      * apply alter_minefield_fails_unchanged in Ea as ->. by apply Hreveal.
    + cbn [rbind fst snd]. by apply Hreveal.
Qed.

Lemma click_face_playable g trial : playable g → playable (click_face g trial).
Proof.
  intros Hp. pose proof Hp as (Hwf & _). unfold click_face.
  destruct (is_active g && _).
  - eapply same_board_playable; [by apply end_game_same_board|done].
  - destruct (is_active g).
    + eapply same_board_playable; [by apply end_game_same_board|done].
    + destruct Hwf as (? & ? & _). by apply new_game_playable.
Qed.

(** Every state of the event loop is playable. *)
Lemma game_reachable_playable sv g :
  sound_solver sv → game_reachable sv g → playable g.
Proof.
  intros Hsv. induction 1 as [g0 k trial Hk|g k trial _ _ Hk|g trial _ IH|g trial _ IH
                              |g _ IH|g _ IH|g x y _ IH _ Hxy
                              |g x y rnd fuel g' _ IH _ Hxy Hrun
                              |g x y fuel g' _ IH _ Hxy Hrun].
  - destruct (recompute_dimensions_nonneg g0 k Hk). by apply new_game_playable.
  - destruct (recompute_dimensions_nonneg g k Hk). by apply new_game_playable.
  - destruct IH as ((? & ? & _) & _). by apply new_game_playable.
  - by apply click_face_playable.
  - eapply same_board_playable; [apply click_luck_same_board|done].
  - eapply same_board_playable; [apply click_qmark_toggle_same_board|done].
  - eapply same_board_playable; [apply toggle_flag_same_board|done]; [apply IH|done].
  - by eapply left_up_playable.
  - by eapply middle_up_playable.
Qed.

(** *** The assertions of the partition pass *)

Lemma rfold_abort {A B} (body : A → B → result A) l a f :
  rfold body l a = Abort f → ∃ a' b, body a' b = Abort f.
Proof.
  revert a. induction l as [|b l IH]; intros a; [done|]. simpl.
  destruct (body a b) as [a1|f1] eqn:E; simpl.
  - apply IH.
  - intros [= <-]. by exists a, b.
Qed.

Lemma commit_abort rnd g p T dh_cells gridx gridy mine_present deep ran_lp solution f :
  commit rnd g p T dh_cells gridx gridy mine_present deep ran_lp solution = Abort f →
  f = assert_k_nonneg ∨ f = assert_n_ge_k ∨ f = assert_dh_j.
Proof.
  unfold commit. cbv zeta.
  destruct (random_combination rnd dh_cells _) as [dh_mines|f1] eqn:Ec; cbn [rbind].
  - destruct (rfold _ _ _) as [st|f2] eqn:Ef; cbn [rbind]; [done|].
    intros [= <-]. apply rfold_abort in Ef as ([[g1 sh_j] dh_j] & d & Hs).
    unfold commit_step in Hs.
    repeat match type of Hs with
           | (if ?b then _ else _) = _ => destruct b
           end; try done.
    right. right. congruence.
  - intros [= <-]. unfold random_combination in Ec.
    destruct (0 <=? _); [|left; congruence].
    destruct (_ <=? _); [done|right; left; congruence].
Qed.

Lemma refusing_sound code : feasible_code code = false → sound_solver (refusing code).
Proof. intros Hc lp code' x [= <- <-] Hf. congruence. Qed.

(** C8. In every state the event loop of [game_main] reaches with a
    sound solver, hence on every invocation of [alter_minefield] that gets
    to the partition pass, the counts it computes satisfy [m = 0] exactly
    when [n = 0], and the total number of mines is the number of shallow
    mines plus the number of deep mines: neither of the two assertions
    after the partition pass fires. *)
Theorem partition_assertions_hold sv g :
  sound_solver sv → game_reachable sv g →
  (p_m (partition_pass g) = 0 ↔ p_n (partition_pass g) = 0) ∧
  mines_total g = p_sh_mine_count (partition_pass g) + p_dh_mine_count (partition_pass g) ∧
  ∀ rnd gridx gridy mine_present,
    alter_minefield sv rnd g gridx gridy mine_present ≠ Abort assert_m_iff_n ∧
    alter_minefield sv rnd g gridx gridy mine_present ≠ Abort assert_total.
Proof.
  intros Hsv Hreach. pose proof (game_reachable_playable sv g Hsv Hreach) as Hp.
  pose proof (playable_m_iff_n g Hp) as Hmn.
  pose proof Hp as (Hwf & _ & Hvis & _).
  pose proof (playable_total g Hwf Hvis) as HT.
  split; [done|]. split; [done|].
  intros rnd gridx gridy mine_present.
  assert (Hany : ∀ f, alter_minefield sv rnd g gridx gridy mine_present = Abort f →
                      f = assert_k_nonneg ∨ f = assert_n_ge_k ∨ f = assert_dh_j ∨
                      f = assert_nrows).
  { intros f H. unfold alter_minefield in H.
    destruct (eqb mine_present _); [done|].
    destruct (visible _); [done|].
    destruct (mines_total g =? 0) eqn:E0; [done|].
    destruct (_ && negb mine_present); [done|].
    cbv zeta in H.
    assert (E1 : eqb (p_m (partition_pass g) =? 0) (p_n (partition_pass g) =? 0) = true).
    { destruct (Z.eqb_spec (p_m (partition_pass g)) 0) as [Hm|Hm],
               (Z.eqb_spec (p_n (partition_pass g)) 0) as [Hn|Hn]; try done.
      - by apply Hmn in Hm.
      - by apply Hmn in Hn. }
    rewrite E1 in H.
    assert (E2 : (mines_total g =? p_sh_mine_count (partition_pass g)
                                   + p_dh_mine_count (partition_pass g)) = true)
      by (by apply Z.eqb_eq).
    rewrite E2 in H.
    assert (Hdone : ∀ T dh deep ran sol,
              (g0 ←r commit rnd g (partition_pass g) T dh gridx gridy mine_present
                       deep ran sol; Ret (true, g0)) = Abort f →
              f = assert_k_nonneg ∨ f = assert_n_ge_k ∨ f = assert_dh_j ∨
              f = assert_nrows).
    { clear H. intros T dh deep ran sol Hc.
      destruct (commit _ _ _ _ _ _ _ _ _ _ _) as [g0|f0] eqn:Ec; [done|].
      cbn [rbind] in Hc. injection Hc as <-.
      apply commit_abort in Ec. tauto. }
    repeat match type of H with
           | (if ?b then _ else _) = _ => destruct b
           | (let '(_, _) := ?p in _) = _ => destruct p
           | match ?c with _ => _ end = _ => destruct c
           end; try done; try (by eapply Hdone).
    injection H as <-. tauto. }
  split; intros H; apply Hany in H; destruct H as [H|[H|[H|H]]]; discriminate.
Qed.

Lemma partition_assertions_hold_witness :
  ∃ g, left_up (refusing INFEASIBLE) (λ j, j) 16 diagonal_start 4 0 = Ret g ∧
       visible (cell_at g 2 1) = true ∧ adj (cell_at g 2 1) = 2 ∧
       mines_total g
       = p_sh_mine_count (partition_pass g) + p_dh_mine_count (partition_pass g).
Proof.
  eexists. split; [vm_compute; reflexivity|].
  split; [reflexivity|]. split; [reflexivity|].
  refine (proj1 (proj2 (partition_assertions_hold (refusing INFEASIBLE) _ _ _))).
  - by apply refusing_sound.
  - apply (play_left _ diagonal_start 4 0 (λ j, j) 16).
    + apply play_start. lia.
    + reflexivity.
    + vm_compute. repeat split; discriminate.
    + vm_compute. reflexivity.
Defined.

(** ** The engine never trips an assertion *)

(** Along a row of cells, a test that holds at one end and fails at the
    other changes between two consecutive cells. *)
Lemma flip_between (f : Z → bool) (n : nat) :
  ∀ a, f a = true → f (a + Z.of_nat n) = false →
       ∃ i, a <= i < a + Z.of_nat n ∧ f i = true ∧ f (i + 1) = false.
Proof.
  induction n as [|n IH]; intros a Ha Hb.
  - rewrite Z.add_0_r in Hb. congruence.
  - destruct (f (a + 1)) eqn:E.
    + destruct (IH (a + 1) E) as (i & Hi & H1 & H2).
      { by replace (a + 1 + Z.of_nat n) with (a + Z.of_nat (S n)) by lia. }
      exists i. split; [lia|done].
    + exists a. split; [lia|done].
Qed.

Lemma flip_on_segment (f : Z → bool) (a b : Z) :
  f a = true → f b = false →
  ∃ i i', Z.min a b <= i <= Z.max a b ∧ Z.min a b <= i' <= Z.max a b ∧
          Z.abs (i - i') = 1 ∧ f i = true ∧ f i' = false.
Proof.
  intros Ha Hb. destruct (Z.le_gt_cases a b) as [Hle|Hgt].
  - destruct (flip_between f (Z.to_nat (b - a)) a Ha) as (i & Hi & H1 & H2).
    { by replace (a + Z.of_nat (Z.to_nat (b - a))) with b by lia. }
    exists i, (i + 1). repeat split; try done; lia.
  - destruct (flip_between (λ k, f (- k)) (Z.to_nat (a - b)) (- a)) as (i & Hi & H1 & H2).
    { by rewrite Z.opp_involutive. }
    { by replace (- (- a + Z.of_nat (Z.to_nat (a - b)))) with b by lia. }
    exists (- i), (- (i + 1)). repeat split; try done; lia.
Qed.

(** The grid is connected: a test that holds on one cell and fails on
    another changes between two neighbouring cells. *)
Lemma grid_connected g (P : Z * Z → bool) a b x y :
  inb g a b → inb g x y → P (a, b) = true → P (x, y) = false →
  ∃ c d, inb g c.1 c.2 ∧ d ∈ around g c.1 c.2 ∧ P c = true ∧ P d = false.
Proof.
  intros Hab Hxy Ha Hx. unfold inb in *.
  destruct (P (x, b)) eqn:Emid.
  - destruct (flip_on_segment (λ j, P (x, j)) b y Emid Hx) as (j & j' & Hj & Hj' & Hd & H1 & H2).
    exists (x, j), (x, j'). simpl. split; [lia|]. split; [|done].
    apply elem_of_around. lia.
  - destruct (flip_on_segment (λ i, P (i, b)) a x Ha Emid) as (i & i' & Hi & Hi' & Hd & H1 & H2).
    exists (i, b), (i', b). simpl. split; [lia|]. split; [|done].
    apply elem_of_around. lia.
Qed.

Lemma length_scan g :
  0 <= grid_width g → 0 <= grid_height g →
  Z.of_nat (length (scan g)) = grid_width g * grid_height g.
Proof.
  intros Hw Hh. rewrite <- (length_fmap (λ d, idx g d.1 d.2)), idx_scan by done.
  rewrite length_seq. lia.
Qed.

(** With something revealed and something hidden there is a shallow cell. *)
Lemma shallow_exists g a b x y :
  inb g a b → inb g x y →
  visible (cell_at g a b) = true → visible (cell_at g x y) = false →
  ∃ d, inb g d.1 d.2 ∧ is_shallow g d = true.
Proof.
  intros Hab Hxy Ha Hx.
  destruct (grid_connected g (λ c, visible (cell_at g c.1 c.2)) a b x y Hab Hxy Ha Hx)
    as ([i j] & [i' j'] & Hc & Hd & Hvc & Hvd). simpl in *.
  exists (i', j'). split; [by apply around_inb in Hd|].
  apply (hidden_neighbour_shallow g (i, j) (i', j')); try done.
  unfold is_hidden. simpl. by rewrite Hvd.
Qed.

(** *** The write-back loop *)

Lemma commit_loop_returns ran_lp solution dh_mines dh_cells gridx gridy g :
  wf g →
  ∀ l gs sh_j dh_j,
    same_but_mines g gs → Forall (λ d, inb g d.1 d.2) l →
    dh_j + countZ (deep_but g gridx gridy) l <= dh_cells →
    ∃ st', rfold (commit_step ran_lp solution dh_mines dh_cells gridx gridy) l
                 (gs, sh_j, dh_j) = Ret st'.
Proof.
  intros Hwf. induction l as [|d l IH]; intros gs sh_j dh_j Hs Hl Hcount.
  - by eexists.
  - apply Forall_cons in Hl as [Hd Hl]. rewrite countZ_cons in Hcount.
    pose proof (countZ_nonneg (deep_but g gridx gridy) l) as Hnn.
    cbn [rfold].
    assert (Hstep : ∃ st1, commit_step ran_lp solution dh_mines dh_cells gridx gridy
                             (gs, sh_j, dh_j) d = Ret st1).
    { assert (Hlt : deep_but g gridx gridy d = true → dh_j < dh_cells).
      { intros E. rewrite E in Hcount. lia. }
      unfold commit_step. unfold deep_but, is_deep in Hlt.
      rewrite (same_but_mines_visible g gs) by done.
      rewrite (same_but_mines_revealed_count g gs) by done.
      destruct (visible (cell_at g d.1 d.2)); simpl; [by eexists|].
      destruct (count_adjacent_revealed_cells g d.1 d.2 =? 0); simpl.
      - destruct ((d.1 =? gridx) && (d.2 =? gridy)); simpl; [by eexists|].
        specialize (Hlt eq_refl).
        destruct (Z.ltb_spec dh_j dh_cells); [by eexists|lia].
      - destruct ran_lp; by eexists. }
    destruct Hstep as [[[gs1 sj1] dj1] Hstep]. rewrite Hstep. cbn [rbind].
    destruct (commit_step_spec _ _ _ _ _ _ _ _ _ _ _ _ Hwf Hs Hd Hstep)
      as (Hs1 & _ & _ & _ & Hdj & _). simpl in Hs1, Hdj.
    apply IH; [done|done|]. rewrite Hdj. lia.
Qed.

Lemma commit_returns rnd g p T dh_cells gridx gridy mine_present deep (ran_lp : bool)
    (solution : list Z) :
  wf g →
  0 <= T - (if ran_lp
            then foldl (λ (S : Z) (j : nat), S + solution !!! j) 0
                       (seq 0 (Z.to_nat (p_n p)))
            else p_sh_mine_count p) <= dh_cells →
  countZ (deep_but g gridx gridy) (scan g) <= dh_cells →
  ∃ g', commit rnd g p T dh_cells gridx gridy mine_present deep ran_lp solution = Ret g'.
Proof.
  intros Hwf HT Hdh. unfold commit. cbv zeta.
  rewrite random_combination_loop by lia. cbn [rbind].
  match goal with |- context [rfold (commit_step _ _ ?m _ _ _) _ _] =>
    destruct (commit_loop_returns ran_lp solution m dh_cells gridx gridy g Hwf
                (scan g) g 0 0 (same_but_mines_refl g) (scan_Forall_inb g))
      as [st' ->]; [lia|]
  end.
  cbn [rbind]. by eexists.
Qed.

Lemma sum_columns (x : list Z) (n : Z) :
  sumZ (λ j, x !!! Z.to_nat (j - 1)) (range_incl 1 n)
  = sumZ (λ k : nat, x !!! k) (seq 0 (Z.to_nat n)).
Proof.
  unfold range_incl, seqZ. rewrite sumZ_fmap.
  replace (Z.to_nat (n - 1 + 1)) with (Z.to_nat n) by lia.
  apply sumZ_ext. intros k _. f_equal. lia.
Qed.

Lemma countZ_all {A} (l : list A) : countZ (λ _, true) l = Z.of_nat (length l).
Proof.
  induction l as [|a l IH]; [done|]. rewrite countZ_cons, IH. simpl length. lia.
Qed.

(** The counts of the partition pass, in a playable state. *)
Lemma partition_bounds g :
  let p := partition_pass g in
  0 <= p_sh_mine_count p <= p_n p ∧ 0 <= p_dh_mine_count p <= p_dh_cells p.
Proof.
  destruct (partition_pass_counts g) as (_ & Hn & Hdh & Hsh & Hdm & _). cbv zeta.
  rewrite Hn, Hdh, Hsh, Hdm.
  split; (split; [apply countZ_nonneg|]); apply countZ_mono; intros c _ H;
    by apply andb_true_iff in H as [? _].
Qed.

(** With nothing revealed every cell is deep. *)
Lemma all_deep g x y :
  wf g → inb g x y → visible (cell_at g x y) = false →
  p_n (partition_pass g) = 0 →
  p_dh_cells (partition_pass g) = grid_width g * grid_height g.
Proof.
  intros Hwf Hxy Hhid Hn. pose proof Hwf as (Hw & Hh & _).
  destruct (partition_pass_counts g) as (_ & Hn' & -> & _).
  rewrite Hn' in Hn. rewrite <- length_scan, <- countZ_all by done.
  apply countZ_ext. intros [a b] Hc. apply elem_of_scan in Hc.
  assert (Hs : is_shallow g (a, b) = false).
  { rewrite countZ_zero in Hn. apply Hn. by apply elem_of_scan. }
  destruct (visible (cell_at g a b)) eqn:Ev.
  - destruct (shallow_exists g a b x y Hc Hxy Ev Hhid) as ([i j] & Hin & Hs').
    rewrite countZ_zero in Hn. rewrite Hn in Hs'; [done|by apply elem_of_scan].
  - unfold is_shallow in Hs. unfold is_deep. simpl in *. rewrite Ev in *. simpl in *.
    by apply negb_false_iff in Hs.
Qed.

(** The deep mines when the requested deep cell holds none. *)
Lemma deep_mines_but g gridx gridy :
  mine (cell_at g gridx gridy) = false →
  p_dh_mine_count (partition_pass g) <= countZ (deep_but g gridx gridy) (scan g).
Proof.
  intros Hm. destruct (partition_pass_counts g) as (_ & _ & _ & _ & -> & _).
  apply countZ_mono. intros [a b] _ H. apply andb_true_iff in H as [Hd Hmine].
  unfold deep_but. rewrite Hd. simpl. apply negb_true_iff.
  destruct (Z.eqb_spec a gridx) as [->|], (Z.eqb_spec b gridy) as [->|]; try done.
  unfold has_mine in Hmine. simpl in Hmine. congruence.
Qed.

Lemma countZ_deep_but g gridx gridy :
  inb g gridx gridy →
  countZ (deep_but g gridx gridy) (scan g) = adjusted_dh_cells g gridx gridy
  ∨ visible (cell_at g gridx gridy) = true.
Proof.
  intros Hxy. destruct (visible (cell_at g gridx gridy)) eqn:Ev; [by right|left].
  pose proof (length_deeps_but g gridx gridy Hxy) as H.
  change (Z.of_nat (length (deeps_but g gridx gridy)))
    with (countZ (deep_but g gridx gridy) (scan g)) in H.
  assert (Hd : is_deep g (gridx, gridy) = (count_adjacent_revealed_cells g gridx gridy =? 0)).
  { unfold is_deep. simpl. by rewrite Ev. }
  rewrite H, Hd. unfold adjusted_dh_cells.
  destruct (partition_pass_counts g) as (_ & _ & -> & _).
  destruct (count_adjacent_revealed_cells g gridx gridy =? 0); lia.
Qed.

Lemma get_Nrows_the_lp g gridx gridy mine_present :
  get_Nrows (the_lp g gridx gridy mine_present) =
  p_m (partition_pass g) + 2 +
  (if count_adjacent_revealed_cells g gridx gridy =? 0 then 0 else 1).
Proof.
  unfold the_lp. rewrite build_lp_alt. cbv zeta. unfold get_Nrows. cbn [lp_rows].
  rewrite !length_app, length_fmap.
  destruct (partition_pass_counts g) as (-> & _). rewrite countZ_filter_length.
  destruct (count_adjacent_revealed_cells g gridx gridy =? 0); simpl; lia.
Qed.

Lemma sound_solver_bounds sv g gridx gridy mine_present code solution :
  sound_solver sv →
  lp_solve sv (the_lp g gridx gridy mine_present) = (code, solution) →
  feasible_code code = true →
  adjusted_T g gridx gridy mine_present - adjusted_dh_cells g gridx gridy
  <= foldl (λ (S : Z) (j : nat), S + solution !!! j) 0
           (seq 0 (Z.to_nat (p_n (partition_pass g))))
  <= adjusted_T g gridx gridy mine_present.
Proof.
  intros Hsv Hsolve Hfeas. destruct (Hsv _ _ _ Hsolve Hfeas) as [_ Hrows].
  unfold the_lp in Hrows. rewrite build_lp_alt in Hrows.
  cbv zeta in Hrows. cbn [lp_rows] in Hrows. rewrite Forall_forall in Hrows.
  rewrite foldl_sum, Z.add_0_l, <- sum_columns.
  set (n := p_n (partition_pass g)) in *.
  set (T := adjusted_T g gridx gridy mine_present) in *.
  set (dh := adjusted_dh_cells g gridx gridy) in *.
  assert (H1 : row_holds solution (bound_row n GE (T - dh))).
  { apply Hrows. apply elem_of_app. right. apply elem_of_app. left. by left. }
  assert (H2 : row_holds solution (bound_row n LE T)).
  { apply Hrows. apply elem_of_app. right. apply elem_of_app. left. right. by left. }
  unfold row_holds in H1, H2. rewrite row_value_bound in H1, H2. simpl in H1, H2. lia.
Qed.

(** In a playable state, with a sound solver, a call on a cell of the
    grid returns: no assertion of the engine fires. *)
Lemma alter_minefield_returns sv rnd g gridx gridy mine_present :
  sound_solver sv → playable g → inb g gridx gridy →
  ∃ r, alter_minefield sv rnd g gridx gridy mine_present = Ret r.
Proof.
  intros Hsv Hp Hxy. pose proof Hp as (Hwf & _ & Hvis & _).
  pose proof (playable_m_iff_n g Hp) as Hmn.
  pose proof (playable_total g Hwf Hvis) as HT.
  pose proof (partition_bounds g) as [Hsh Hdm]. cbv zeta in Hsh, Hdm.
  unfold alter_minefield.
  destruct (eqb mine_present (mine (cell_at g gridx gridy))) eqn:Esame; [by eexists|].
  apply eqb_false_iff in Esame.
  destruct (visible (cell_at g gridx gridy)) eqn:Hhid; [by eexists|].
  destruct (Z.eqb_spec (mines_total g) 0) as [|HT0]; [by eexists|].
  destruct ((mines_total g =? grid_width g * grid_height g) && negb mine_present)
    eqn:Efull; [by eexists|].
  cbv zeta.
  assert (E1 : eqb (p_m (partition_pass g) =? 0) (p_n (partition_pass g) =? 0) = true).
  { destruct (Z.eqb_spec (p_m (partition_pass g)) 0) as [Hm|Hm],
             (Z.eqb_spec (p_n (partition_pass g)) 0) as [Hn|Hn]; try done.
    - by apply Hmn in Hm.
    - by apply Hmn in Hn. }
  rewrite E1.
  assert (E2 : (mines_total g =? p_sh_mine_count (partition_pass g)
                                 + p_dh_mine_count (partition_pass g)) = true)
    by (by apply Z.eqb_eq).
  rewrite E2.
  change (build_lp g (partition_pass g) _ _ gridx gridy mine_present _)
    with (the_lp g gridx gridy mine_present).
  change (if (count_adjacent_revealed_cells g gridx gridy =? 0) && mine_present
          then mines_total g - 1 else mines_total g)
    with (adjusted_T g gridx gridy mine_present).
  change (if count_adjacent_revealed_cells g gridx gridy =? 0
          then p_dh_cells (partition_pass g) - 1 else p_dh_cells (partition_pass g))
    with (adjusted_dh_cells g gridx gridy).
  destruct (countZ_deep_but g gridx gridy Hxy) as [Hdb|]; [|congruence].
  assert (Hdone : ∀ (ran_lp : bool) (solution : list Z),
    0 <= adjusted_T g gridx gridy mine_present
         - (if ran_lp
            then foldl (λ (S : Z) (j : nat), S + solution !!! j) 0
                       (seq 0 (Z.to_nat (p_n (partition_pass g))))
            else p_sh_mine_count (partition_pass g))
      <= adjusted_dh_cells g gridx gridy →
    ∃ r, (g0 ←r commit rnd g (partition_pass g) (adjusted_T g gridx gridy mine_present)
                   (adjusted_dh_cells g gridx gridy) gridx gridy mine_present
                   (count_adjacent_revealed_cells g gridx gridy =? 0) ran_lp solution;
          Ret (true, g0)) = Ret r).
  { intros ran sol Hb.
    destruct (commit_returns rnd g (partition_pass g) _ _ gridx gridy mine_present
                (count_adjacent_revealed_cells g gridx gridy =? 0) ran sol Hwf Hb)
      as [g' ->]; [lia|].
    by eexists. }
  assert (Hmines : 0 <= mines_total g) by lia.
  destruct (Z.eqb_spec (p_m (partition_pass g)) 0) as [Hm|Hm].
  { apply Hdone. apply Hmn in Hm.
    pose proof (all_deep g gridx gridy Hwf Hxy Hhid Hm) as Hall.
    assert (Hd : (count_adjacent_revealed_cells g gridx gridy =? 0) = true).
    { destruct (count_adjacent_revealed_cells g gridx gridy =? 0) eqn:Ed; [done|].
      exfalso. destruct (partition_pass_counts g) as (_ & Hn & _). rewrite Hn in Hm.
      rewrite countZ_zero in Hm.
      specialize (Hm (gridx, gridy) ltac:(by apply elem_of_scan)).
      unfold is_shallow in Hm. simpl in Hm. by rewrite Hhid, Ed in Hm. }
    unfold adjusted_T, adjusted_dh_cells. rewrite Hd. simpl.
    destruct mine_present; simpl in *; [lia|].
    rewrite andb_true_r in Efull. apply Z.eqb_neq in Efull. lia. }
  destruct (count_adjacent_revealed_cells g gridx gridy =? 0) eqn:Ed.
  - (* the requested cell is deep *)
    assert (Hadj : adjusted_dh_cells g gridx gridy = p_dh_cells (partition_pass g) - 1).
    { unfold adjusted_dh_cells. by rewrite Ed. }
    destruct mine_present; simpl.
    + assert (Hno : mine (cell_at g gridx gridy) = false).
      { destruct (mine (cell_at g gridx gridy)); [done|done]. }
      pose proof (deep_mines_but g gridx gridy Hno) as Hle. rewrite Hdb in Hle.
      assert (HT' : adjusted_T g gridx gridy true = mines_total g - 1).
      { unfold adjusted_T. by rewrite Ed. }
      destruct (Z.ltb_spec 0 (p_dh_mine_count (partition_pass g))).
      { apply Hdone. lia. }
      destruct (negb (lp_alloc sv)); [by eexists|].
      rewrite get_Nrows_the_lp, Ed, Z.eqb_refl.
      destruct (lp_solve sv (the_lp g gridx gridy true)) as [code sol] eqn:Hsolve.
      destruct code; try (by eexists);
        (apply Hdone; eapply sound_solver_bounds in Hsolve; [|done|done]; lia).
    + assert (HT' : adjusted_T g gridx gridy false = mines_total g).
      { unfold adjusted_T. by rewrite Ed. }
      destruct (Z.ltb_spec (p_dh_mine_count (partition_pass g))
                           (adjusted_dh_cells g gridx gridy)).
      { apply Hdone. lia. }
      destruct (negb (lp_alloc sv)); [by eexists|].
      rewrite get_Nrows_the_lp, Ed, Z.eqb_refl.
      destruct (lp_solve sv (the_lp g gridx gridy false)) as [code sol] eqn:Hsolve.
      destruct code; try (by eexists);
        (apply Hdone; eapply sound_solver_bounds in Hsolve; [|done|done]; lia).
  - simpl. destruct (negb (lp_alloc sv)); [by eexists|].
    rewrite get_Nrows_the_lp, Ed, Z.eqb_refl.
    destruct (lp_solve sv (the_lp g gridx gridy mine_present)) as [code sol] eqn:Hsolve.
    destruct code; try (by eexists);
      (apply Hdone; eapply sound_solver_bounds in Hsolve; [|done|done]; lia).
Qed.

(** ** Running the engine *)

Lemma row_holdsb_spec x r : row_holdsb x r = true ↔ row_holds x r.
Proof.
  unfold row_holdsb, row_holds. destruct (row_type r).
  - apply Z.leb_le.
  - apply Z.leb_le.
  - apply Z.eqb_eq.
Qed.

Lemma vectors_binary n x : x ∈ vectors n → binary_solution (Z.of_nat n) x.
Proof.
  revert x. induction n as [|n IH]; intros x Hx.
  - apply list_elem_of_singleton in Hx as ->. by split.
  - simpl in Hx. apply list_elem_of_bind in Hx as (v & Hx & Hv).
    destruct (IH v Hv) as [Hlen Hall]. rewrite Nat2Z.id in Hlen.
    unfold binary_solution. rewrite Nat2Z.id.
    apply elem_of_cons in Hx as [->|Hx].
    + split; [simpl; by rewrite Hlen|]. constructor; [by left|done].
    + apply list_elem_of_singleton in Hx as ->.
      split; [simpl; by rewrite Hlen|]. constructor; [by right|done].
Qed.

Lemma enumerating_sound : sound_solver enumerating.
Proof.
  intros lp code x Hsolve Hfeas. simpl in Hsolve.
  destruct (List.find _ _) as [x0|] eqn:Ef.
  - injection Hsolve as <- <-. apply List.find_some in Ef as [Hin Hrows].
    apply list_elem_of_In in Hin. apply vectors_binary in Hin.
    split.
    + destruct Hin as [Hlen Hall]. split; [|done]. by rewrite Hlen, Nat2Z.id.
    + apply Forall_forall. intros r Hr. apply row_holdsb_spec.
      rewrite forallb_forall in Hrows. apply Hrows. by apply list_elem_of_In.
  - injection Hsolve as <- <-. done.
Qed.

Lemma diagonal_opened_reachable : game_reachable enumerating diagonal_opened.
Proof.
  apply (play_left _ diagonal_start 4 0 (λ j, j) 16).
  - apply play_start. lia.
  - reflexivity.
  - vm_compute. repeat split; discriminate.
  - vm_compute. reflexivity.
Qed.

(** ** What the handlers do, step by step *)

Lemma same_settings_refl g : same_settings g g.
Proof. by repeat split. Qed.

Lemma same_settings_trans g1 g2 g3 :
  same_settings g1 g2 → same_settings g2 g3 → same_settings g1 g3.
Proof. intros (?&?&?&?&?) (?&?&?&?&?). repeat split; congruence. Qed.

Lemma set_cell_same_settings g x y f : same_settings g (set_cell g x y f).
Proof. by repeat split. Qed.

Lemma foldl_set_cell_same_settings (F : game → Z * Z → cell → cell) l g :
  same_settings g (foldl (λ g' d, set_cell g' d.1 d.2 (F g' d)) g l).
Proof.
  revert g. induction l as [|d l IH]; intros g; [apply same_settings_refl|]. simpl.
  eapply same_settings_trans; [apply (set_cell_same_settings g d.1 d.2)|apply IH].
Qed.

Lemma recompute_same_settings g : same_settings g (recompute_minefield_adj g).
Proof.
  unfold recompute_minefield_adj.
  apply (foldl_set_cell_same_settings (λ g' d, set_adj (count_adjacent_mines g' d.1 d.2))).
Qed.

Lemma commit_step_same_settings ran_lp solution dh_mines dh_cells gridx gridy st xy st' :
  commit_step ran_lp solution dh_mines dh_cells gridx gridy st xy = Ret st' →
  same_settings st.1.1 st'.1.1.
Proof.
  destruct st as [[g sh_j] dh_j]. unfold commit_step. simpl.
  destruct (negb (visible (cell_at g xy.1 xy.2)));
    [|intros [= <-]; apply same_settings_refl].
  destruct (negb (count_adjacent_revealed_cells g xy.1 xy.2 =? 0)).
  - destruct ran_lp; intros [= <-]; [apply set_cell_same_settings|apply same_settings_refl].
  - destruct (negb ((xy.1 =? gridx) && (xy.2 =? gridy)));
      [|intros [= <-]; apply same_settings_refl].
    destruct (dh_j <? dh_cells); [|done]. intros [= <-]. apply set_cell_same_settings.
Qed.

Lemma commit_loop_same_settings ran_lp solution dh_mines dh_cells gridx gridy l st st' :
  rfold (commit_step ran_lp solution dh_mines dh_cells gridx gridy) l st = Ret st' →
  same_settings st.1.1 st'.1.1.
Proof.
  revert st. induction l as [|d l IH]; intros st; [intros [= <-]; apply same_settings_refl|].
  cbn [rfold].
  destruct (commit_step ran_lp solution dh_mines dh_cells gridx gridy st d) as [st1|] eqn:E;
    [|done].
  cbn [rbind]. intros Hrun. eapply same_settings_trans; [|by apply IH].
  by eapply commit_step_same_settings.
Qed.

Lemma commit_same_settings rnd g p T dh_cells gridx gridy mine_present deep ran_lp
    solution g' :
  commit rnd g p T dh_cells gridx gridy mine_present deep ran_lp solution = Ret g' →
  same_settings g g'.
Proof.
  unfold commit. cbv zeta.
  destruct (random_combination rnd dh_cells _) as [dh_mines|]; [|done]. cbn [rbind].
  destruct (rfold _ _ _) as [st|] eqn:Eloop; [|done]. cbn [rbind].
  intros [= <-]. apply commit_loop_same_settings in Eloop. simpl in Eloop.
  eapply same_settings_trans; [exact Eloop|].
  eapply same_settings_trans; [|apply recompute_same_settings].
  destruct deep; [apply set_cell_same_settings|apply same_settings_refl].
Qed.

(** A successful call changes no counter, status or setting, and on the
    grid only mines and counts. *)
Lemma alter_minefield_cells sv rnd g gridx gridy mine_present g' :
  playable g → inb g gridx gridy →
  alter_minefield sv rnd g gridx gridy mine_present = Ret (true, g') →
  same_settings g g' ∧ same_dims g g' ∧
  ∀ i j, inb g i j →
    cell_at g' i j =
    set_adj (count_adjacent_mines g' i j) (set_mine (mine (cell_at g' i j)) (cell_at g i j)).
Proof.
  intros Hp Hxy H. pose proof Hp as (Hwf & Hadj & _).
  apply alter_minefield_commits in H
    as [[-> _]|(Hhid & _ & ran & sol & _ & _ & Hc)].
  - split; [apply same_settings_refl|]. split; [apply same_dims_refl|].
    intros i j Hij. rewrite <- (Hadj i j Hij).
    pose proof (count_adjacent_mines_bound g i j) as Hb. rewrite <- (Hadj i j Hij) in Hb.
    destruct (cell_at g i j) as [m e f q v mi a]. unfold set_adj, set_mine. simpl in *.
    f_equal. symmetry. apply uint8_small. lia.
  - split; [by eapply commit_same_settings|].
    destruct (commit_mines _ _ _ _ _ _ _ _ _ _ Hwf Hxy Hhid Hc)
      as (_ & _ & Hsd & _ & _ & Hcell & _). done.
Qed.

Lemma left_up_cases sv rnd fuel g x y g' :
  left_up sv rnd fuel g x y = Ret g' →
  g' = g ∨
  (∃ g1,
     (g1 = g ∨ alter_minefield sv rnd g x y true = Ret (true, g1)) ∧
     g' = with_first_move (explode g1 x y) false) ∨
  (∃ g1 g2 log,
     ((g1 = g ∧ mine (cell_at g x y) = false) ∨
      alter_minefield sv rnd g x y false = Ret (true, g1)) ∧
     bucket_reveal fuel g1 x y = Ret (g2, log) ∧
     g' = with_first_move (check_won g2) false).
Proof.
  unfold left_up.
  destruct (negb _ && negb _); [|intros [= <-]; by left].
  cbv zeta. fold (explode g x y).
  assert (Hreveal : ∀ g1,
            ((g1 = g ∧ mine (cell_at g x y) = false) ∨
             alter_minefield sv rnd g x y false = Ret (true, g1)) →
            (g2 ←r (r ←r bucket_reveal fuel g1 x y; Ret (check_won r.1));
             Ret (with_first_move g2 false)) = Ret g' →
            ∃ g1 g2 log,
              ((g1 = g ∧ mine (cell_at g x y) = false) ∨
               alter_minefield sv rnd g x y false = Ret (true, g1)) ∧
              bucket_reveal fuel g1 x y = Ret (g2, log) ∧
              g' = with_first_move (check_won g2) false).
  { intros g1 H1. destruct (bucket_reveal fuel g1 x y) as [[g2 log]|] eqn:Er; [|done].
    cbn [rbind fst]. intros [= <-]. by exists g1, g2, log. }
  destruct (mine (cell_at g x y)) eqn:Em.
  - match goal with |- context [if ?b then alter_minefield _ _ _ _ _ _ else _] =>
      destruct b end.
    + destruct (alter_minefield sv rnd g x y false) as [[ok g1]|] eqn:Ea; [|done].
      destruct ok; cbn [rbind fst snd].
      * intros Hrun. right. right. apply (Hreveal g1); [by right|done].
      * apply alter_minefield_fails_unchanged in Ea as ->.
        intros [= <-]. right. left. exists g. split; [by left|done].
    + cbn [rbind fst snd]. intros [= <-]. right. left. exists g. split; [by left|done].
  - match goal with |- context [if ?b then alter_minefield _ _ _ _ _ _ else _] =>
      destruct b end.
    + destruct (alter_minefield sv rnd g x y true) as [[ok g1]|] eqn:Ea; [|done].
      destruct ok; cbn [rbind fst snd].
      * intros [= <-]. right. left. exists g1. split; [by right|done].
      * apply alter_minefield_fails_unchanged in Ea as ->.
        intros Hrun. right. right. apply (Hreveal g); [by left|done].
    + cbn [rbind fst snd]. intros Hrun. right. right. apply (Hreveal g); [by left|done].
Qed.

Lemma alter_minefield_counts sv rnd g gridx gridy mine_present g' :
  sound_solver sv → playable g → inb g gridx gridy →
  alter_minefield sv rnd g gridx gridy mine_present = Ret (true, g') →
  ∀ a b, inb g a b → visible (cell_at g a b) = true →
         count_adjacent_mines g' a b = count_adjacent_mines g a b.
Proof.
  intros Hsv Hp Hxy H.
  apply alter_minefield_commits in H
    as [[-> _]|(Hhid & _ & ran & sol & Hran & _ & Hc)]; [done|].
  eapply commit_keeps_counts; [exact Hp|exact Hxy|exact Hhid| |exact Hc].
  intros Hr. destruct (Hran Hr) as (code & Hsolve & Hfeas).
  destruct (sound_solver_rows _ _ _ _ _ _ _ Hsv Hsolve Hfeas) as (? & ? & _). done.
Qed.

(** X1. In every state the event loop reaches with a sound solver, a call
    of [alter_minefield] on a cell of the grid runs to its [return]: none
    of its assertions fires, neither the two after the partition pass nor
    the row count of the model, the preconditions of
    [random_combination] ([0 <= k <= n]) or the bound on the cursor into
    the sampled mask. *)
Theorem alter_minefield_never_aborts sv rnd g gridx gridy mine_present :
  sound_solver sv → game_reachable sv g → inb g gridx gridy →
  ∃ b g', alter_minefield sv rnd g gridx gridy mine_present = Ret (b, g').
Proof.
  intros Hsv Hreach Hxy.
  pose proof (game_reachable_playable sv g Hsv Hreach) as Hp.
  destruct (alter_minefield_returns sv rnd g gridx gridy mine_present Hsv Hp Hxy)
    as [[b g'] Hr].
  by exists b, g'.
Qed.

Lemma alter_minefield_never_aborts_witness :
  ∃ b g', alter_minefield enumerating (λ j, j) diagonal_opened 2 2 false = Ret (b, g').
Proof.
  apply (alter_minefield_never_aborts enumerating (λ j, j) diagonal_opened 2 2 false).
  - exact enumerating_sound.
  - exact diagonal_opened_reachable.
  - vm_compute. repeat split; discriminate.
Defined.

(** X2. On a consistent board and with a sound solver, a successful call
    of [alter_minefield] leaves the requested cell with the requested
    mine status and the board consistent; it changes no counter, status
    or setting, no flag, question mark or visibility of any cell, and no
    revealed cell at all: every number the player sees stays what it
    was. *)
Theorem alter_minefield_success_effect sv rnd g gridx gridy mine_present g' :
  sound_solver sv → playable g → inb g gridx gridy →
  alter_minefield sv rnd g gridx gridy mine_present = Ret (true, g') →
  mine (cell_at g' gridx gridy) = mine_present ∧ playable g' ∧ same_settings g g' ∧
  ∀ i j, inb g i j →
    same_marks (cell_at g i j) (cell_at g' i j) ∧
    (visible (cell_at g i j) = true → cell_at g' i j = cell_at g i j).
Proof.
  intros Hsv Hp Hxy H.
  destruct (alter_minefield_playable _ _ _ _ _ _ _ Hsv Hp Hxy H) as (Hp' & Hm & Hsd & Hv).
  destruct (alter_minefield_cells _ _ _ _ _ _ _ Hp Hxy H) as (Hset & _ & Hcell).
  pose proof (alter_minefield_counts _ _ _ _ _ _ _ Hsv Hp Hxy H) as Hcount.
  split; [done|]. split; [done|]. split; [done|].
  intros i j Hij. split.
  - rewrite (Hcell i j Hij). by repeat split.
  - intros Hvis. destruct Hp as (_ & Hadj & Hsafe & _). destruct Hp' as (_ & _ & Hsafe' & _).
    rewrite (Hcell i j Hij), (Hcount i j Hij Hvis).
    rewrite (Hsafe' i j); [|by eapply same_dims_inb|by rewrite Hv].
    pose proof (count_adjacent_mines_bound g i j) as Hb.
    rewrite <- (Hadj i j Hij) in *. pose proof (Hsafe i j Hij Hvis) as Hno.
    destruct (cell_at g i j) as [m e f q v mi a]. unfold set_adj, set_mine. simpl in *.
    subst m. f_equal. apply uint8_small. lia.
Qed.

Lemma alter_minefield_success_effect_witness :
  ∃ g', alter_minefield enumerating (λ j, j) diagonal_opened 1 1 false = Ret (true, g') ∧
        mine (cell_at diagonal_opened 1 1) = true ∧ mine (cell_at g' 1 1) = false.
Proof.
  eexists. split; [vm_compute; reflexivity|]. split; [reflexivity|].
  refine (proj1 (alter_minefield_success_effect enumerating (λ j, j) diagonal_opened
                   1 1 false _ enumerating_sound _ _ _)).
  - exact (game_reachable_playable _ _ enumerating_sound diagonal_opened_reachable).
  - vm_compute. repeat split; discriminate.
  - vm_compute. reflexivity.
Defined.

(** ** A new game, cell by cell *)

Lemma spawn_mine_cell g x y i j :
  wf g → inb g x y → inb g i j →
  same_marks (cell_at g i j) (cell_at (spawn_mine g x y).2 i j) ∧
  mine (cell_at (spawn_mine g x y).2 i j)
  = mine (cell_at g i j) || bool_decide ((i, j) = (x, y)).
Proof.
  intros Hwf Hxy Hij. destruct (mine (cell_at g x y)) eqn:Em.
  - unfold spawn_mine. rewrite Em. simpl. split; [by repeat split|].
    destruct (decide ((i, j) = (x, y))) as [[= -> ->]|Hne].
    + rewrite Em. done.
    + rewrite bool_decide_eq_false_2 by done. by rewrite orb_false_r.
  - rewrite cell_at_spawn_mine by done.
    destruct (decide ((i, j) = (x, y))) as [[= -> ->]|Hne].
    + rewrite bool_decide_eq_true_2 by done. rewrite Em. by repeat split.
    + rewrite bool_decide_eq_false_2 by done. rewrite orb_false_r.
      destruct (decide ((i, j) ∈ around g x y)); by repeat split.
Qed.

Lemma same_marks_refl c : same_marks c c.
Proof. by repeat split. Qed.

Lemma same_marks_trans c1 c2 c3 : same_marks c1 c2 → same_marks c2 c3 → same_marks c1 c3.
Proof. intros (?&?&?&?&?) (?&?&?&?&?). repeat split; congruence. Qed.

Lemma scatter_cell (trial : Z → Z → bool) l :
  ∀ g1, wf g1 → Forall (λ d, inb g1 d.1 d.2) l →
    let g2 := foldl (λ g' xy, if trial xy.1 xy.2
                              then (spawn_mine g' xy.1 xy.2).2 else g') g1 l in
    same_dims g1 g2 ∧ same_settings g1 g2 ∧
    ∀ a b, inb g1 a b →
      same_marks (cell_at g1 a b) (cell_at g2 a b) ∧
      mine (cell_at g2 a b)
      = mine (cell_at g1 a b) || (bool_decide ((a, b) ∈ l) && trial a b).
Proof.
  induction l as [|[c d] l IH]; intros g1 Hwf1 Hl.
  - simpl. split; [apply same_dims_refl|]. split; [apply same_settings_refl|].
    intros a b _. split; [apply same_marks_refl|].
    by rewrite orb_false_r.
  - apply Forall_cons in Hl as [Hcd Hl]. simpl in Hcd. cbn [foldl]. cbv zeta.
    change ((c, d).1) with c. change ((c, d).2) with d.
    destruct (trial c d) eqn:Et.
    + pose proof (spawn_mine_same_dims g1 c d) as Hsd.
      destruct (IH (spawn_mine g1 c d).2) as (Hd2 & Hs2 & Hc2);
        [by eapply same_dims_wf|
         eapply Forall_impl; [exact Hl|]; intros e He; by eapply same_dims_inb|].
      split; [by eapply same_dims_trans|]. split.
      { eapply same_settings_trans; [|exact Hs2]. unfold spawn_mine.
        destruct (mine (cell_at g1 c d)); [apply same_settings_refl|]. simpl.
        eapply same_settings_trans; [apply (set_cell_same_settings g1 c d)|].
        apply (foldl_set_cell_same_settings (λ _ _, incr_adj)). }
      intros a b Hab.
      destruct (Hc2 a b) as [Hm2 Hmine2]; [by eapply same_dims_inb|].
      destruct (spawn_mine_cell g1 c d a b Hwf1 Hcd Hab) as [Hm1 Hmine1].
      split; [by eapply same_marks_trans|]. rewrite Hmine2, Hmine1.
      destruct (decide ((a, b) = (c, d))) as [[= -> ->]|Hne].
      * rewrite (bool_decide_eq_true_2 ((c, d) ∈ (c, d) :: l)) by (by left).
        rewrite bool_decide_eq_true_2 by done. rewrite Et.
        by destruct (mine (cell_at g1 c d)), (bool_decide ((c, d) ∈ l)).
      * rewrite (bool_decide_eq_false_2 ((a, b) = (c, d))) by done.
        rewrite orb_false_r. f_equal. f_equal. apply bool_decide_ext.
        rewrite elem_of_cons. tauto.
    + destruct (IH g1 Hwf1 Hl) as (Hd2 & Hs2 & Hc2).
      split; [done|]. split; [done|].
      intros a b Hab. destruct (Hc2 a b Hab) as [Hm2 Hmine2]. split; [done|].
      rewrite Hmine2. f_equal.
      destruct (decide ((a, b) = (c, d))) as [[= -> ->]|Hne].
      * rewrite Et, !andb_false_r. done.
      * f_equal. apply bool_decide_ext. rewrite elem_of_cons. tauto.
Qed.

(** A new game: every cell unmarked and hidden, a mine exactly where the
    trial came out true. *)
Lemma new_game_cell g trial i j :
  0 <= grid_width g → 0 <= grid_height g → inb g i j →
  mine (cell_at (new_game g trial) i j) = trial i j ∧
  same_marks virgin (cell_at (new_game g trial) i j).
Proof.
  intros Hw Hh Hij. unfold new_game.
  set (g0 := with_visible_cell_count _ 0).
  assert (Hwf0 : wf g0).
  { split; [done|]. split; [done|]. simpl. apply length_replicate. }
  assert (Hcell0 : cell_at g0 i j = virgin).
  { unfold cell_at. simpl. apply lookup_total_replicate_2.
    pose proof (idx_lt g0 i j Hwf0 Hij) as Hlt. simpl in Hlt.
    by rewrite length_replicate in Hlt. }
  destruct (scatter_cell trial (scan g0) g0 Hwf0 (scan_Forall_inb g0)) as (_ & _ & Hc).
  destruct (Hc i j Hij) as [Hm Hmine]. rewrite Hcell0 in Hm, Hmine.
  change (cell_at (with_first_move (with_status ?g1 _) _) i j) with (cell_at g1 i j).
  split; [|done]. rewrite Hmine. simpl.
  rewrite bool_decide_eq_true_2; [done|]. by apply elem_of_scan.
Qed.

Lemma new_game_settings g trial :
  visible_cell_count (new_game g trial) = 0 ∧ status (new_game g trial) = game_active ∧
  first_move (new_game g trial) = true ∧
  config_luck (new_game g trial) = config_luck g ∧
  config_qmarks (new_game g trial) = config_qmarks g.
Proof.
  unfold new_game. set (g0 := with_visible_cell_count _ 0).
  assert (Hloop : ∀ l g1,
            same_settings g1 (foldl (λ g' xy, if trial xy.1 xy.2
                                              then (spawn_mine g' xy.1 xy.2).2 else g') g1 l)).
  { induction l as [|[c d] l IH]; intros g1; [apply same_settings_refl|]. simpl.
    destruct (trial c d); [|apply IH].
    eapply same_settings_trans; [|apply IH]. unfold spawn_mine.
    destruct (mine (cell_at g1 c d)); [apply same_settings_refl|]. simpl.
    eapply same_settings_trans; [apply (set_cell_same_settings g1 c d)|].
    apply (foldl_set_cell_same_settings (λ _ _, incr_adj)). }
  destruct (Hloop (scan g0) g0) as (Hv & _ & _ & Hl & Hq). simpl.
  rewrite Hv, Hl, Hq. done.
Qed.

(** ** Bookkeeping *)

Lemma mines_kept_refl g : mines_kept g g.
Proof. split; [apply same_dims_refl|done]. Qed.

Lemma mines_kept_trans g1 g2 g3 : mines_kept g1 g2 → mines_kept g2 g3 → mines_kept g1 g3.
Proof.
  intros [Hd1 H1] [Hd2 H2]. split; [by eapply same_dims_trans|].
  intros i j Hij. rewrite H2 by (by eapply same_dims_inb). by apply H1.
Qed.

Lemma same_board_mines_kept g g' : same_board g g' → mines_kept g g'.
Proof. intros [Hd H]. split; [done|]. intros i j Hij. by destruct (H i j Hij). Qed.

Lemma mines_kept_total g g' : wf g → mines_kept g g' → mines_total g' = mines_total g.
Proof.
  intros Hwf [Hd H]. rewrite !mines_total_scan by (done || by eapply same_dims_wf).
  rewrite (same_dims_scan g g') by done. apply countZ_ext.
  intros [i j] Hc. apply elem_of_scan in Hc. unfold has_mine. simpl. by apply H.
Qed.

Lemma bucket_reveal_mines_kept fuel g x y g' log :
  wf g → inb g x y → bucket_reveal fuel g x y = Ret (g', log) → mines_kept g g'.
Proof.
  intros Hwf Hxy Hrun.
  pose proof (bucket_reveal_spec fuel g x y g' log Hwf Hxy Hrun) as Hspec.
  pose proof (reveal_spec_inb g x y g' log Hxy Hspec) as Hlog.
  destruct Hspec as (-> & _). split; [apply reveal_all_same_dims|].
  intros i j Hij. by apply reveal_all_mine.
Qed.

Lemma explode_same_board g x y : wf g → inb g x y → same_board g (explode g x y).
Proof.
  intros Hwf Hxy. unfold explode.
  eapply same_board_trans; [by apply (set_cell_same_board g x y (set_exploded true))|].
  apply end_game_same_board. eapply same_dims_wf; [apply set_cell_same_dims|done].
Qed.

Lemma count_ok_reveal_cell g x y :
  wf g → inb g x y → count_ok g → count_ok (reveal_cell g x y).
Proof.
  intros Hwf Hxy Hc. unfold count_ok in *.
  rewrite (same_dims_scan g (reveal_cell g x y)) by apply reveal_cell_same_dims.
  rewrite reveal_cell_alt at 1. simpl. rewrite Hc.
  destruct (visible (cell_at g x y)) eqn:Ev.
  - rewrite Z.add_0_r. apply countZ_ext. intros [i j] Hin. apply elem_of_scan in Hin.
    simpl. rewrite cell_at_reveal_cell by done.
    destruct (decide ((x, y) = (i, j))) as [[= <- <-]|]; [by rewrite Ev|done].
  - rewrite (countZ_add_one (λ c, visible (cell_at g c.1 c.2))
               (λ c, visible (cell_at (reveal_cell g x y) c.1 c.2)) (scan g) (x, y)).
    + rewrite decide_True by (by apply elem_of_scan). done.
    + apply NoDup_scan.
    + done.
    + simpl. rewrite cell_at_reveal_cell by done. by rewrite decide_True.
    + intros [i j] Hin Hne. apply elem_of_scan in Hin. simpl.
      rewrite cell_at_reveal_cell by done. rewrite decide_False; [done|congruence].
Qed.

Lemma count_ok_reveal_all g l :
  wf g → Forall (λ c, inb g c.1 c.2) l → count_ok g → count_ok (reveal_all g l).
Proof.
  revert g. induction l as [|[x y] l IH]; intros g Hwf Hl Hc; [done|].
  apply Forall_cons in Hl as [Hxy Hl].
  change (reveal_all g ((x, y) :: l)) with (reveal_all (reveal_cell g x y) l).
  apply IH.
  - eapply same_dims_wf; [apply reveal_cell_same_dims|done].
  - eapply Forall_impl; [exact Hl|]. intros c ?.
    eapply same_dims_inb; [apply reveal_cell_same_dims|done].
  - by apply count_ok_reveal_cell.
Qed.

Lemma cell_at_revealed_marks g l x y :
  wf g → Forall (λ c, inb g c.1 c.2) l → inb g x y →
  exploded (cell_at (reveal_all g l) x y) = exploded (cell_at g x y) ∧
  mistake (cell_at (reveal_all g l) x y) = mistake (cell_at g x y) ∧
  (qmark (cell_at g x y) = false → qmark (cell_at (reveal_all g l) x y) = false) ∧
  (flag (cell_at g x y) = false → flag (cell_at (reveal_all g l) x y) = false).
Proof.
  intros Hwf Hl Hxy. rewrite cell_at_reveal_all by done.
  destruct (decide ((x, y) ∈ l)); by repeat split.
Qed.

Lemma reveal_all_same_settings g l :
  status (reveal_all g l) = status g ∧ first_move (reveal_all g l) = first_move g ∧
  config_luck (reveal_all g l) = config_luck g ∧
  config_qmarks (reveal_all g l) = config_qmarks g.
Proof.
  revert g. induction l as [|[x y] l IH]; intros g; [done|].
  change (reveal_all g ((x, y) :: l)) with (reveal_all (reveal_cell g x y) l).
  destruct (IH (reveal_cell g x y)) as (-> & -> & -> & ->).
  unfold reveal_cell. by destruct (visible (cell_at g x y)).
Qed.

Lemma tidy_reveal fuel g x y g' log :
  wf g → inb g x y → tidy g → bucket_reveal fuel g x y = Ret (g', log) → tidy g'.
Proof.
  intros Hwf Hxy (Hc & Hq & Ha) Hrun.
  pose proof (bucket_reveal_spec fuel g x y g' log Hwf Hxy Hrun) as Hspec.
  pose proof (reveal_spec_inb g x y g' log Hxy Hspec) as Hlog.
  destruct Hspec as (-> & _).
  pose proof (reveal_all_same_dims g log) as Hsd.
  destruct (reveal_all_same_settings g log) as (Hst & _ & _ & Hcq).
  split; [by apply count_ok_reveal_all|]. split.
  - rewrite Hcq. intros Hoff i j Hij. apply (same_dims_inb_rev g _) in Hij; [|done].
    destruct (cell_at_revealed_marks g log i j Hwf Hlog Hij) as (_ & _ & Hqm & _).
    apply Hqm. by apply Hq.
  - unfold is_active. rewrite Hst. intros Hact i j Hij.
    apply (same_dims_inb_rev g _) in Hij; [|done].
    destruct (cell_at_revealed_marks g log i j Hwf Hlog Hij) as (-> & -> & _).
    by apply Ha.
Qed.

(** What does not touch visibility, question marks or the counter keeps
    the bookkeeping, provided the game is over afterwards or the
    explosion and mistake marks are as before. *)
Lemma tidy_same_board g g' :
  same_board g g' → visible_cell_count g' = visible_cell_count g →
  (config_qmarks g' = false → ∀ x y, inb g x y → qmark (cell_at g' x y) = false) →
  (is_active g' = true →
   ∀ x y, inb g x y → exploded (cell_at g' x y) = false ∧ mistake (cell_at g' x y) = false) →
  count_ok g → tidy g'.
Proof.
  intros [Hd Hb] Hv Hq Ha Hc. split; [|split].
  - unfold count_ok in *. rewrite Hv, Hc, (same_dims_scan g g') by done.
    apply countZ_ext. intros [i j] Hin. apply elem_of_scan in Hin. simpl.
    by destruct (Hb i j Hin) as (_ & _ & ->).
  - intros Hoff x y Hxy. apply Hq; [done|by eapply same_dims_inb_rev].
  - intros Hact x y Hxy. apply Ha; [done|by eapply same_dims_inb_rev].
Qed.

Lemma tidy_explode g x y : wf g → inb g x y → tidy g → tidy (explode g x y).
Proof.
  intros Hwf Hxy (Hc & Hq & _).
  apply (tidy_same_board g); [by apply explode_same_board|done| |done|done].
  intros Hoff i j Hij. unfold explode.
  rewrite cell_at_end_game;
    [|eapply same_dims_wf; [apply set_cell_same_dims|done]
     |eapply same_dims_inb; [apply set_cell_same_dims|done]].
  rewrite cell_at_set_cell by done. unfold mark_mistake.
  assert (Hqm : qmark (cell_at g i j) = false) by (by apply Hq).
  destruct (decide ((x, y) = (i, j))) as [[= <- <-]|_]; simpl;
    match goal with |- context [if ?b then _ else _] => destruct b end; simpl; done.
Qed.

Lemma tidy_check_won g : tidy g → tidy (check_won g).
Proof.
  intros (Hc & Hq & Ha). unfold check_won. destruct (_ =? _); [|done].
  split; [done|]. split; [done|]. done.
Qed.

Lemma tidy_with_first_move g b : tidy g → tidy (with_first_move g b).
Proof. intros (Hc & Hq & Ha). by split. Qed.

Lemma tidy_alter_minefield sv rnd g gridx gridy mine_present g' :
  playable g → inb g gridx gridy → tidy g →
  alter_minefield sv rnd g gridx gridy mine_present = Ret (true, g') → tidy g'.
Proof.
  intros Hp Hxy (Hc & Hq & Ha) H.
  destruct (alter_minefield_cells _ _ _ _ _ _ _ Hp Hxy H)
    as ((Hv & Hst & _ & _ & Hcq) & Hsd & Hcell).
  split; [|split].
  - unfold count_ok in *. rewrite Hv, Hc, (same_dims_scan g g') by done.
    apply countZ_ext. intros [i j] Hin. apply elem_of_scan in Hin. simpl.
    by rewrite (Hcell i j Hin).
  - rewrite Hcq. intros Hoff x y Hin. apply (same_dims_inb_rev g g') in Hin; [|done].
    rewrite (Hcell x y Hin). simpl. by apply Hq.
  - unfold is_active. rewrite Hst. intros Hact x y Hin.
    apply (same_dims_inb_rev g g') in Hin; [|done].
    rewrite (Hcell x y Hin). simpl. by apply Ha.
Qed.

Lemma new_game_inb g trial x y : inb (new_game g trial) x y ↔ inb g x y.
Proof. destruct (new_game_dims g trial) as [Ew Eh]. unfold inb. by rewrite Ew, Eh. Qed.

Lemma tidy_new_game g trial :
  0 <= grid_width g → 0 <= grid_height g → tidy (new_game g trial).
Proof.
  intros Hw Hh.
  assert (Hcell : ∀ x y, inb (new_game g trial) x y →
            same_marks virgin (cell_at (new_game g trial) x y)).
  { intros x y Hxy. pose proof (proj1 (new_game_inb g trial x y) Hxy) as Hin.
    by destruct (new_game_cell g trial x y Hw Hh Hin) as [_ ?]. }
  destruct (new_game_settings g trial) as (Hv & Hst & _).
  split; [|split].
  - unfold count_ok. rewrite Hv. symmetry. apply countZ_zero.
    intros [i j] Hin. apply elem_of_scan in Hin. simpl.
    by destruct (Hcell i j Hin) as (_ & _ & _ & -> & _).
  - intros _ x y Hxy. by destruct (Hcell x y Hxy) as (_ & _ & -> & _).
  - intros _ x y Hxy. by destruct (Hcell x y Hxy) as (-> & _ & _ & _ & ->).
Qed.

Lemma toggle_flag_cell g x y i j :
  wf g → inb g x y → inb g i j →
  visible_cell_count (toggle_flag g x y) = visible_cell_count g ∧
  status (toggle_flag g x y) = status g ∧
  config_qmarks (toggle_flag g x y) = config_qmarks g ∧
  exploded (cell_at (toggle_flag g x y) i j) = exploded (cell_at g i j) ∧
  mistake (cell_at (toggle_flag g x y) i j) = mistake (cell_at g i j) ∧
  (qmark (cell_at (toggle_flag g x y) i j) = true →
   qmark (cell_at g i j) = true ∨ config_qmarks g = true).
Proof.
  intros Hwf Hxy Hij. unfold toggle_flag.
  assert (Hwf1 : wf (set_cell g x y (set_flag false)))
    by (eapply same_dims_wf; [apply set_cell_same_dims|done]).
  assert (Hin1 : ∀ a b, inb g a b → inb (set_cell g x y (set_flag false)) a b)
    by (intros a b ?; eapply same_dims_inb; [apply set_cell_same_dims|done]).
  destruct (negb (visible (cell_at g x y))); [|by repeat split; auto].
  destruct (flag (cell_at g x y)); [destruct (config_qmarks g) eqn:Eq|
                                    destruct (qmark (cell_at g x y)) eqn:Eqm];
    rewrite !cell_at_set_cell by auto;
    repeat match goal with |- context [decide ?P] => destruct (decide P) end;
    simpl; repeat split; auto; try congruence.
  intros H. left. congruence.
Qed.

Lemma tidy_toggle_flag g x y : wf g → inb g x y → tidy g → tidy (toggle_flag g x y).
Proof.
  intros Hwf Hxy (Hc & Hq & Ha).
  destruct (toggle_flag_cell g x y x y Hwf Hxy Hxy) as (Hv & Hst & Hcq & _).
  apply (tidy_same_board g); [by apply toggle_flag_same_board|done| | |done].
  - rewrite Hcq. intros Hoff i j Hij.
    destruct (toggle_flag_cell g x y i j Hwf Hxy Hij) as (_ & _ & _ & _ & _ & Hqm).
    destruct (qmark (cell_at (toggle_flag g x y) i j)) eqn:E; [|done].
    destruct (Hqm eq_refl) as [Hold|Hon]; [|congruence].
    rewrite (Hq Hoff i j Hij) in Hold. done.
  - unfold is_active. rewrite Hst. intros Hact i j Hij.
    destruct (toggle_flag_cell g x y i j Hwf Hxy Hij) as (_ & _ & _ & -> & -> & _).
    by apply Ha.
Qed.

Lemma clear_qmark_once (mf : list cell) (i k : nat) :
  exploded (alter (set_qmark false) i mf !!! k) = exploded (mf !!! k) ∧
  mistake (alter (set_qmark false) i mf !!! k) = mistake (mf !!! k) ∧
  ((i = k ∧ (k < length mf)%nat) ∨ qmark (mf !!! k) = false →
   qmark (alter (set_qmark false) i mf !!! k) = false).
Proof.
  rewrite list_lookup_total_alter.
  case_decide as Hd.
  - destruct Hd as [-> _]. by repeat split.
  - split; [done|]. split; [done|]. intros [[-> ?]|?]; [by destruct Hd|done].
Qed.

Lemma clear_qmarks_cell (l : list nat) (mf : list cell) (k : nat) :
  exploded (foldl (λ mf i, alter (set_qmark false) i mf) mf l !!! k) = exploded (mf !!! k) ∧
  mistake (foldl (λ mf i, alter (set_qmark false) i mf) mf l !!! k) = mistake (mf !!! k) ∧
  (k ∈ l → (k < length mf)%nat →
   qmark (foldl (λ mf i, alter (set_qmark false) i mf) mf l !!! k) = false) ∧
  (qmark (mf !!! k) = false →
   qmark (foldl (λ mf i, alter (set_qmark false) i mf) mf l !!! k) = false).
Proof.
  revert mf. induction l as [|i l IH]; intros mf.
  - simpl. split; [done|]. split; [done|]. split; [|done].
    intros H. by apply elem_of_nil in H.
  - simpl. destruct (IH (alter (set_qmark false) i mf)) as (He & Hm & Hin & Hkeep).
    destruct (clear_qmark_once mf i k) as (He1 & Hm1 & Hq1).
    split; [congruence|]. split; [congruence|]. split.
    + intros Hel Hlt. apply elem_of_cons in Hel as [Heq|Hel].
      * apply Hkeep, Hq1. left. by split.
      * apply Hin; [done|]. by rewrite length_alter.
    + intros Hq. apply Hkeep, Hq1. by right.
Qed.

Lemma tidy_click_qmark_toggle g : wf g → tidy g → tidy (click_qmark_toggle g).
Proof.
  intros Hwf (Hc & Hq & Ha).
  apply (tidy_same_board g); [apply click_qmark_toggle_same_board| | | |done].
  - unfold click_qmark_toggle. by destruct (negb _).
  - unfold click_qmark_toggle. simpl. destruct (config_qmarks g) eqn:Eon; simpl; [|done].
    intros _ x y Hxy. unfold cell_at. simpl.
    change (idx (with_minefield _ _) x y) with (idx g x y).
    destruct (clear_qmarks_cell (seq 0 (Z.to_nat (grid_width g * grid_height g)))
                (minefield g) (idx g x y)) as (_ & _ & Hin & _).
    apply Hin.
    + apply elem_of_seq. pose proof (idx_lt g x y Hwf Hxy) as Hlt.
      destruct Hwf as (_ & _ & Hlen). lia.
    + by apply idx_lt.
  - unfold click_qmark_toggle, is_active. simpl.
    destruct (config_qmarks g) eqn:Eon; simpl; [|apply Ha].
    intros Hact x y Hxy. unfold cell_at. simpl.
    change (idx (with_minefield _ _) x y) with (idx g x y).
    destruct (clear_qmarks_cell (seq 0 (Z.to_nat (grid_width g * grid_height g)))
                (minefield g) (idx g x y)) as (-> & -> & _).
    by apply Ha.
Qed.

Lemma tidy_end_game g won : wf g → tidy g → tidy (end_game g won).
Proof.
  intros Hwf (Hc & Hq & _).
  apply (tidy_same_board g); [by apply end_game_same_board|done| | |done].
  - intros Hoff x y Hxy. rewrite cell_at_end_game by done.
    unfold mark_mistake. destruct (_ && _); simpl; by apply Hq.
  - unfold is_active. rewrite end_game_status. by destruct won.
Qed.

Lemma tidy_click_face g trial : wf g → tidy g → tidy (click_face g trial).
Proof.
  intros Hwf Ht. unfold click_face.
  destruct (is_active g && _); [by apply tidy_end_game|].
  destruct (is_active g); [by apply tidy_end_game|].
  destruct Hwf as (? & ? & _). by apply tidy_new_game.
Qed.

Lemma tidy_click_luck g : tidy g → tidy (click_luck g).
Proof. intros (Hc & Hq & Ha). by split. Qed.

Lemma tidy_left_up sv rnd fuel g x y g' :
  sound_solver sv → playable g → inb g x y → tidy g →
  left_up sv rnd fuel g x y = Ret g' → tidy g'.
Proof.
  intros Hsv Hp Hxy Ht Hrun. pose proof Hp as (Hwf & _).
  apply left_up_cases in Hrun
    as [->|[(g1 & H1 & ->)|(g1 & g2 & log & H1 & Hr & ->)]]; [done| |].
  - apply tidy_with_first_move. destruct H1 as [->|Ha]; [by apply tidy_explode|].
    destruct (alter_minefield_playable _ _ _ _ _ _ _ Hsv Hp Hxy Ha) as ((Hwf1 & _) & _ & Hsd & _).
    apply tidy_explode; [done|by eapply same_dims_inb|by eapply tidy_alter_minefield].
  - apply tidy_with_first_move, tidy_check_won. destruct H1 as [[-> _]|Ha].
    + by eapply tidy_reveal.
    + destruct (alter_minefield_playable _ _ _ _ _ _ _ Hsv Hp Hxy Ha)
        as ((Hwf1 & _) & _ & Hsd & _).
      eapply tidy_reveal; [exact Hwf1|by eapply same_dims_inb| |exact Hr].
      by eapply tidy_alter_minefield.
Qed.

Lemma tidy_chord_step fuel g d g1 :
  wf g → inb g d.1 d.2 → tidy g → chord_step fuel g d = Ret g1 → tidy g1.
Proof.
  intros Hwf Hd Ht. unfold chord_step.
  destruct (negb _ && negb _ && negb _); [|by intros [= <-]].
  destruct (mine (cell_at g d.1 d.2)).
  - intros [= <-]. by apply tidy_explode.
  - destruct (bucket_reveal fuel g d.1 d.2) as [[g2 log]|] eqn:Er; [|done].
    simpl. intros [= <-]. by eapply tidy_reveal.
Qed.

Lemma chord_step_same_dims fuel g d g1 :
  wf g → inb g d.1 d.2 → chord_step fuel g d = Ret g1 → same_dims g g1.
Proof.
  intros Hwf Hd. unfold chord_step.
  destruct (negb _ && negb _ && negb _); [|intros [= <-]; apply same_dims_refl].
  destruct (mine (cell_at g d.1 d.2)).
  - intros [= <-]. by apply explode_same_board.
  - destruct (bucket_reveal fuel g d.1 d.2) as [[g2 log]|] eqn:Er; [|done].
    simpl. intros [= <-]. by eapply bucket_reveal_same_dims.
Qed.

Lemma tidy_chord_loop fuel l :
  ∀ g g', wf g → Forall (λ d, inb g d.1 d.2) l → tidy g →
          rfold (chord_step fuel) l g = Ret g' → tidy g'.
Proof.
  induction l as [|d l IH]; intros g g' Hwf Hl Ht; [by intros [= <-]|].
  apply Forall_cons in Hl as [Hd Hl]. simpl.
  destruct (chord_step fuel g d) as [g1|] eqn:Es; [|done]. simpl.
  pose proof (chord_step_same_dims fuel g d g1 Hwf Hd Es) as Hsd.
  apply IH; [by eapply same_dims_wf| |by eapply tidy_chord_step].
  eapply Forall_impl; [exact Hl|]. intros c Hc. by eapply same_dims_inb.
Qed.

Lemma tidy_middle_up fuel g x y g' :
  wf g → tidy g → middle_up fuel g x y = Ret g' → tidy g'.
Proof.
  intros Hwf Ht. unfold middle_up.
  destruct (visible (cell_at g x y)).
  - destruct (chord_reveal fuel g x y) as [g1|] eqn:Ec; [|done]. simpl.
    intros [= <-]. apply tidy_check_won. unfold chord_reveal in Ec.
    destruct (chord_flag_count g x y) as [flag_count|]; [|by injection Ec as <-].
    destruct (_ =? _); [|by injection Ec as <-].
    eapply tidy_chord_loop; [exact Hwf|apply around_Forall_inb|exact Ht|exact Ec].
  - simpl. intros [= <-]. by apply tidy_check_won.
Qed.

(** Every state of the event loop keeps its bookkeeping. *)
Lemma game_reachable_tidy sv g :
  sound_solver sv → game_reachable sv g → tidy g.
Proof.
  intros Hsv Hreach.
  induction Hreach as [g0 k trial Hk|g k trial Hr _ Hk|g trial Hr IH|g trial Hr IH
                       |g Hr IH|g Hr IH|g x y Hr IH _ Hxy
                       |g x y rnd fuel g' Hr IH _ Hxy Hrun
                       |g x y fuel g' Hr IH _ Hxy Hrun].
  - destruct (recompute_dimensions_nonneg g0 k Hk). by apply tidy_new_game.
  - destruct (recompute_dimensions_nonneg g k Hk). by apply tidy_new_game.
  - destruct (game_reachable_playable sv g Hsv Hr) as ((? & ? & _) & _).
    by apply tidy_new_game.
  - apply tidy_click_face; [|done]. apply (game_reachable_playable sv g Hsv Hr).
  - by apply tidy_click_luck.
  - apply tidy_click_qmark_toggle; [|done]. apply (game_reachable_playable sv g Hsv Hr).
  - apply tidy_toggle_flag; [|done..]. apply (game_reachable_playable sv g Hsv Hr).
  - eapply tidy_left_up; [exact Hsv| |exact Hxy|exact IH|exact Hrun].
    by apply (game_reachable_playable sv g Hsv Hr).
  - eapply tidy_middle_up; [|exact IH|exact Hrun].
    apply (game_reachable_playable sv g Hsv Hr).
Qed.

(** ** The handlers run to completion *)

Lemma hidden_count_ext g g' :
  same_dims g g' →
  (∀ i j, inb g i j → visible (cell_at g' i j) = visible (cell_at g i j)) →
  hidden_count g' = hidden_count g.
Proof.
  intros Hsd Hv. unfold hidden_count. rewrite (same_dims_scan g g') by done.
  apply countZ_ext. intros [i j] Hin. apply elem_of_scan in Hin. simpl. by rewrite Hv.
Qed.

Lemma left_up_returns sv rnd fuel g x y :
  sound_solver sv → playable g → inb g x y →
  hidden_count g + 2 <= Z.of_nat fuel →
  ∃ g', left_up sv rnd fuel g x y = Ret g'.
Proof.
  intros Hsv Hp Hxy Hfuel. pose proof Hp as (Hwf & _). unfold left_up.
  destruct (negb _ && negb _); [|by eexists].
  cbv zeta.
  assert (Hreveal : ∀ g1, wf g1 → inb g1 x y → hidden_count g1 = hidden_count g →
            ∃ g', (g2 ←r (r ←r bucket_reveal fuel g1 x y; Ret (check_won r.1));
                   Ret (with_first_move g2 false)) = Ret g').
  { intros g1 Hwf1 Hin1 Hh.
    destruct (bucket_reveal_terminates fuel g1 x y Hwf1 Hin1) as [r ->].
    - destruct (visible (cell_at g1 x y)); lia.
    - cbn [rbind]. by eexists. }
  destruct (mine (cell_at g x y)) eqn:Em.
  - match goal with |- context [if ?b then alter_minefield _ _ _ _ _ _ else _] =>
      destruct b end.
    + destruct (alter_minefield_returns sv rnd g x y false Hsv Hp Hxy) as [[ok g1] Ha].
      rewrite Ha. destruct ok; cbn [rbind fst snd]; [|by eexists].
      destruct (alter_minefield_playable _ _ _ _ _ _ _ Hsv Hp Hxy Ha)
        as ((Hwf1 & _) & _ & Hsd & Hv).
      apply Hreveal; [done|by eapply same_dims_inb|by apply hidden_count_ext].
    + cbn [rbind fst snd]. by eexists.
  - match goal with |- context [if ?b then alter_minefield _ _ _ _ _ _ else _] =>
      destruct b end.
    + destruct (alter_minefield_returns sv rnd g x y true Hsv Hp Hxy) as [[ok g1] Ha].
      rewrite Ha. destruct ok; cbn [rbind fst snd]; [by eexists|].
      apply alter_minefield_fails_unchanged in Ha as ->. by apply Hreveal.
    + cbn [rbind fst snd]. by apply Hreveal.
Qed.

Lemma middle_up_returns fuel g x y :
  wf g → inb g x y → hidden_count g + 2 <= Z.of_nat fuel →
  ∃ g', middle_up fuel g x y = Ret g'.
Proof.
  intros Hwf Hxy Hfuel. unfold middle_up.
  destruct (visible (cell_at g x y)); [|by eexists].
  unfold chord_reveal.
  destruct (chord_flag_count g x y) as [flag_count|]; [|by eexists].
  destruct (_ =? _); [|by eexists].
  destruct (chord_loop fuel (around g x y) g Hwf (around_Forall_inb g x y) Hfuel)
    as (g' & -> & _).
  by eexists.
Qed.

(** X3. In every state the event loop reaches with a sound solver, a
    left or middle button release on a cell of the grid is handled to the
    end: no assertion fires on the way, and the recursion of
    [bucket_reveal] never goes deeper than the number of hidden cells
    (plus two). *)
Theorem grid_events_never_abort sv rnd fuel g x y :
  sound_solver sv → game_reachable sv g → inb g x y →
  hidden_count g + 2 <= Z.of_nat fuel →
  (∃ g', left_up sv rnd fuel g x y = Ret g') ∧ (∃ g', middle_up fuel g x y = Ret g').
Proof.
  intros Hsv Hreach Hxy Hfuel.
  pose proof (game_reachable_playable sv g Hsv Hreach) as Hp.
  split; [by apply left_up_returns|]. apply middle_up_returns; [apply Hp|done..].
Qed.

Lemma grid_events_never_abort_witness :
  (∃ g', left_up enumerating (λ j, j) 9 diagonal_opened 1 1 = Ret g') ∧
  (∃ g', middle_up 9 diagonal_opened 1 1 = Ret g').
Proof.
  apply (grid_events_never_abort enumerating (λ j, j) 9 diagonal_opened 1 1).
  - exact enumerating_sound.
  - exact diagonal_opened_reachable.
  - vm_compute. repeat split; discriminate.
  - vm_compute. discriminate.
Defined.

(** ** What holds in every state of a game *)

(** X4. In every state the event loop reaches with a sound solver the
    board is consistent: every cell's count is the number of mines among
    its neighbours, between 0 and 8; no revealed cell holds a mine; and
    every revealed cell that shows no number has all its neighbours
    revealed. *)
Theorem game_reachable_consistent sv g :
  sound_solver sv → game_reachable sv g →
  wf g ∧
  (∀ x y, inb g x y →
     adj (cell_at g x y) = count_adjacent_mines g x y ∧ 0 <= adj (cell_at g x y) <= 8) ∧
  (∀ x y, inb g x y → visible (cell_at g x y) = true → mine (cell_at g x y) = false) ∧
  (∀ x y, inb g x y → visible (cell_at g x y) = true → adj (cell_at g x y) = 0 →
     ∀ d, d ∈ around g x y → visible (cell_at g d.1 d.2) = true).
Proof.
  intros Hsv Hreach.
  destruct (game_reachable_playable sv g Hsv Hreach) as (Hwf & Hadj & Hvis & Hzero).
  split; [done|]. split; [|split; [exact Hvis|exact Hzero]].
  intros x y Hxy. split; [by apply Hadj|]. rewrite (Hadj x y Hxy).
  rewrite count_adjacent_mines_count.
  pose proof (countZ_le_length (λ d, mine (cell_at g d.1 d.2)) (around g x y)).
  pose proof (countZ_nonneg (λ d, mine (cell_at g d.1 d.2)) (around g x y)).
  pose proof (length_around_8 g x y). lia.
Qed.

Lemma game_reachable_consistent_witness :
  adj (cell_at diagonal_opened 2 1) = count_adjacent_mines diagonal_opened 2 1 ∧
  0 <= adj (cell_at diagonal_opened 2 1) <= 8.
Proof.
  refine (proj1 (proj2 (game_reachable_consistent enumerating diagonal_opened
                          enumerating_sound diagonal_opened_reachable)) 2 1 _).
  vm_compute. repeat split; discriminate.
Defined.

Lemma countZ_mono_eq {A} (P Q : A → bool) l :
  (∀ a, a ∈ l → P a = true → Q a = true) → countZ P l = countZ Q l →
  ∀ a, a ∈ l → Q a = true → P a = true.
Proof.
  induction l as [|b l IH]; intros Hsub Heq a Ha HQ; [by apply elem_of_nil in Ha|].
  rewrite !countZ_cons in Heq.
  assert (Hle : countZ P l <= countZ Q l).
  { apply countZ_mono. intros c Hc. apply Hsub. by right. }
  pose proof (Hsub b ltac:(by left)) as Hb.
  apply elem_of_cons in Ha as [->|Ha].
  - destruct (P b); [done|]. rewrite HQ in Heq. lia.
  - apply IH; [intros c Hc; apply Hsub; by right| |done|done].
    destruct (P b), (Q b); try lia; by specialize (Hb eq_refl).
Qed.

Lemma win_test_cleared g :
  wf g → vis_safe g → count_ok g →
  (visible_cell_count g + mines_total g =? grid_width g * grid_height g) = true
  ↔ cleared g.
Proof.
  intros Hwf Hvis Hc. pose proof Hwf as (Hw & Hh & _).
  rewrite Z.eqb_eq, Hc, mines_total_scan, <- length_scan, <- countZ_all by done.
  rewrite (countZ_split (λ _, true) (λ c : Z * Z, visible (cell_at g c.1 c.2))).
  assert (E : countZ (λ a : Z * Z, visible (cell_at g a.1 a.2) && true) (scan g)
              = countZ (λ c, visible (cell_at g c.1 c.2)) (scan g)).
  { apply countZ_ext. intros c _. apply andb_true_r. }
  rewrite E. clear E.
  assert (Hsub : ∀ c, c ∈ scan g → has_mine g c = true →
                      negb (visible (cell_at g c.1 c.2)) && true = true).
  { intros [i j] Hin Hm. apply elem_of_scan in Hin. unfold has_mine in Hm. simpl in *.
    destruct (visible (cell_at g i j)) eqn:Ev; [|done].
    rewrite (Hvis i j Hin Ev) in Hm. done. }
  split.
  - intros Heq x y Hxy Hm.
    assert (Heq' : countZ (has_mine g) (scan g)
                   = countZ (λ a : Z * Z, negb (visible (cell_at g a.1 a.2)) && true)
                            (scan g)) by lia.
    destruct (visible (cell_at g x y)) eqn:Ev; [done|].
    pose proof (countZ_mono_eq _ _ _ Hsub Heq' (x, y) ltac:(by apply elem_of_scan)) as H.
    simpl in H. rewrite Ev in H. specialize (H eq_refl). unfold has_mine in H.
    simpl in H. congruence.
  - intros Hcl. f_equal. apply countZ_ext. intros [i j] Hin. apply elem_of_scan in Hin.
    unfold has_mine. simpl. destruct (mine (cell_at g i j)) eqn:Em.
    + destruct (visible (cell_at g i j)) eqn:Ev; [|done].
      rewrite (Hvis i j Hin Ev) in Em. done.
    + by rewrite (Hcl i j Hin Em).
Qed.

(** X5. In every state the event loop reaches with a sound solver,
    [visible_cell_count] is the number of revealed cells, and the test
    made after a reveal, [visible_cell_count + mines_total() ==
    grid_width * grid_height], holds exactly when every cell without a
    mine is revealed. *)
Theorem win_test_exact sv g :
  sound_solver sv → game_reachable sv g →
  visible_cell_count g = countZ (λ c, visible (cell_at g c.1 c.2)) (scan g) ∧
  ((visible_cell_count g + mines_total g =? grid_width g * grid_height g) = true
   ↔ ∀ x y, inb g x y → mine (cell_at g x y) = false → visible (cell_at g x y) = true).
Proof.
  intros Hsv Hreach.
  destruct (game_reachable_playable sv g Hsv Hreach) as (Hwf & _ & Hvis & _).
  destruct (game_reachable_tidy sv g Hsv Hreach) as (Hc & _).
  split; [exact Hc|]. by apply win_test_cleared.
Qed.

Lemma win_test_exact_witness :
  visible_cell_count diagonal_opened = 8 ∧
  visible_cell_count diagonal_opened
  = countZ (λ c, visible (cell_at diagonal_opened c.1 c.2)) (scan diagonal_opened).
Proof.
  split; [reflexivity|].
  exact (proj1 (win_test_exact enumerating diagonal_opened
                  enumerating_sound diagonal_opened_reachable)).
Defined.

(** X6. In every state the event loop reaches with a sound solver: when
    question marks are switched off no cell carries one; and while the
    game is active no cell is marked exploded or as a mistaken flag. *)
Theorem marks_follow_settings sv g :
  sound_solver sv → game_reachable sv g →
  (config_qmarks g = false → ∀ x y, inb g x y → qmark (cell_at g x y) = false) ∧
  (status g = game_active →
   ∀ x y, inb g x y → exploded (cell_at g x y) = false ∧ mistake (cell_at g x y) = false).
Proof.
  intros Hsv Hreach. destruct (game_reachable_tidy sv g Hsv Hreach) as (_ & Hq & Ha).
  split; [exact Hq|]. intros Hst. apply Ha. unfold is_active. by rewrite Hst.
Qed.

Lemma marks_follow_settings_witness :
  config_qmarks diagonal_opened = false ∧ qmark (cell_at diagonal_opened 1 1) = false.
Proof.
  split; [reflexivity|].
  refine (proj1 (marks_follow_settings enumerating diagonal_opened
                   enumerating_sound diagonal_opened_reachable) _ 1 1 _).
  - reflexivity.
  - vm_compute. repeat split; discriminate.
Defined.

(** ** The mines during a game *)

Lemma sound_solver_binary sv : sound_solver sv → binary_solver sv.
Proof. intros H lp code x Hs Hf. by destruct (H lp code x Hs Hf). Qed.

Lemma check_won_mines_total g : mines_total (check_won g) = mines_total g.
Proof. unfold check_won. by destruct (_ =? _). Qed.

Lemma left_up_mines_total sv rnd fuel g x y g' :
  sound_solver sv → valid_draws rnd → playable g → inb g x y →
  left_up sv rnd fuel g x y = Ret g' → mines_total g' = mines_total g.
Proof.
  intros Hsv Hv Hp Hxy Hrun. pose proof Hp as (Hwf & _).
  pose proof (sound_solver_binary sv Hsv) as Hbin.
  apply left_up_cases in Hrun
    as [->|[(g1 & H1 & ->)|(g1 & g2 & log & H1 & Hr & ->)]]; [done| |].
  - change (mines_total (with_first_move ?a _)) with (mines_total a).
    assert (Hg1 : wf g1 ∧ inb g1 x y ∧ mines_total g1 = mines_total g).
    { destruct H1 as [->|Ha]; [done|].
      destruct (alter_minefield_playable _ _ _ _ _ _ _ Hsv Hp Hxy Ha) as ((? & _) & _ & Hsd & _).
      split; [done|]. split; [by eapply same_dims_inb|].
      by eapply alter_minefield_conserves_mines. }
    destruct Hg1 as (Hwf1 & Hin1 & <-).
    apply mines_kept_total; [done|]. apply same_board_mines_kept. by apply explode_same_board.
  - change (mines_total (with_first_move ?a _)) with (mines_total a).
    rewrite check_won_mines_total.
    assert (Hg1 : wf g1 ∧ inb g1 x y ∧ mines_total g1 = mines_total g).
    { destruct H1 as [[-> _]|Ha]; [done|].
      destruct (alter_minefield_playable _ _ _ _ _ _ _ Hsv Hp Hxy Ha) as ((? & _) & _ & Hsd & _).
      split; [done|]. split; [by eapply same_dims_inb|].
      by eapply alter_minefield_conserves_mines. }
    destruct Hg1 as (Hwf1 & Hin1 & <-).
    apply mines_kept_total; [done|]. by eapply bucket_reveal_mines_kept.
Qed.

Lemma chord_step_mines_kept fuel g d g1 :
  wf g → inb g d.1 d.2 → chord_step fuel g d = Ret g1 → mines_kept g g1.
Proof.
  intros Hwf Hd. unfold chord_step.
  destruct (negb _ && negb _ && negb _); [|intros [= <-]; apply mines_kept_refl].
  destruct (mine (cell_at g d.1 d.2)).
  - intros [= <-]. apply same_board_mines_kept. by apply explode_same_board.
  - destruct (bucket_reveal fuel g d.1 d.2) as [[g2 log]|] eqn:Er; [|done].
    simpl. intros [= <-]. by eapply bucket_reveal_mines_kept.
Qed.

Lemma chord_loop_mines_kept fuel l :
  ∀ g g', wf g → Forall (λ d, inb g d.1 d.2) l →
          rfold (chord_step fuel) l g = Ret g' → mines_kept g g'.
Proof.
  induction l as [|d l IH]; intros g g' Hwf Hl; [intros [= <-]; apply mines_kept_refl|].
  apply Forall_cons in Hl as [Hd Hl]. simpl.
  destruct (chord_step fuel g d) as [g1|] eqn:Es; [|done]. simpl. intros Hrun.
  pose proof (chord_step_mines_kept fuel g d g1 Hwf Hd Es) as Hk.
  eapply mines_kept_trans; [exact Hk|]. apply IH; [|  |done].
  - eapply same_dims_wf; [apply Hk|done].
  - eapply Forall_impl; [exact Hl|]. intros c Hc. eapply same_dims_inb; [apply Hk|done].
Qed.

Lemma middle_up_mines_total fuel g x y g' :
  wf g → middle_up fuel g x y = Ret g' → mines_total g' = mines_total g.
Proof.
  intros Hwf. unfold middle_up.
  destruct (visible (cell_at g x y)).
  - destruct (chord_reveal fuel g x y) as [g1|] eqn:Ec; [|done]. simpl.
    intros [= <-]. rewrite check_won_mines_total. unfold chord_reveal in Ec.
    destruct (chord_flag_count g x y) as [flag_count|]; [|by injection Ec as <-].
    destruct (_ =? _); [|by injection Ec as <-].
    apply mines_kept_total; [done|].
    eapply chord_loop_mines_kept; [exact Hwf|apply around_Forall_inb|exact Ec].
  - simpl. intros [= <-]. apply check_won_mines_total.
Qed.

(** X7. During a game the number of mines never changes: on a consistent
    board, with a sound solver and draws within their bounds, a left
    release (whatever [alter_minefield] did for luck), a middle release
    and a flag toggle all leave [mines_total] as it was. *)
Theorem grid_events_keep_mines_total sv rnd fuel g x y :
  sound_solver sv → valid_draws rnd → playable g → inb g x y →
  (∀ g', left_up sv rnd fuel g x y = Ret g' → mines_total g' = mines_total g) ∧
  (∀ g', middle_up fuel g x y = Ret g' → mines_total g' = mines_total g) ∧
  mines_total (toggle_flag g x y) = mines_total g.
Proof.
  intros Hsv Hv Hp Hxy. pose proof Hp as (Hwf & _).
  split; [intros g'; by apply left_up_mines_total|].
  split; [intros g'; by apply middle_up_mines_total|].
  apply mines_kept_total; [done|]. apply same_board_mines_kept.
  by apply toggle_flag_same_board.
Qed.

Lemma grid_events_keep_mines_total_witness :
  ∃ g', left_up enumerating (λ j, j) 9 (click_luck diagonal_opened) 1 1 = Ret g' ∧
        mine (cell_at g' 1 1) = false ∧ visible (cell_at g' 1 1) = true ∧
        mines_total g' = mines_total (click_luck diagonal_opened).
Proof.
  eexists. split; [vm_compute; reflexivity|]. split; [reflexivity|]. split; [reflexivity|].
  refine (proj1 (grid_events_keep_mines_total enumerating (λ j, j) 9
                   (click_luck diagonal_opened) 1 1 enumerating_sound _ _ _) _ _).
  - intros j Hj. lia.
  - apply (game_reachable_playable enumerating); [exact enumerating_sound|].
    apply play_luck. exact diagonal_opened_reachable.
  - vm_compute. repeat split; discriminate.
  - vm_compute. reflexivity.
Defined.

(** ** The first click *)

(** With no revealed number the solver is not consulted. *)
Lemma alter_minefield_no_source sv sv' rnd g gridx gridy mine_present :
  p_m (partition_pass g) = 0 →
  alter_minefield sv rnd g gridx gridy mine_present
  = alter_minefield sv' rnd g gridx gridy mine_present.
Proof. intros Hm. unfold alter_minefield. rewrite Hm. reflexivity. Qed.

Lemma alter_minefield_no_source_succeeds sv rnd g gridx gridy mine_present b g' :
  p_m (partition_pass g) = 0 →
  visible (cell_at g gridx gridy) = false →
  mines_total g ≠ 0 →
  ((mines_total g =? grid_width g * grid_height g) && negb mine_present) = false →
  alter_minefield sv rnd g gridx gridy mine_present = Ret (b, g') → b = true.
Proof.
  intros Hm Hhid HT Hfull. unfold alter_minefield. rewrite Hm, Hhid, Hfull.
  destruct (eqb mine_present _); [by intros [= <- _]|].
  destruct (Z.eqb_spec (mines_total g) 0); [done|]. cbv zeta.
  destruct (eqb _ _); [|done].
  destruct (mines_total g =? _ + _); [|done]. simpl.
  destruct (commit _ _ _ _ _ _ _ _ _ _ _); [|done]. simpl. by intros [= <- _].
Qed.

Lemma no_number_when_hidden g :
  (∀ x y, inb g x y → visible (cell_at g x y) = false) → p_m (partition_pass g) = 0.
Proof.
  intros Hh. destruct (partition_pass_counts g) as (-> & _). apply countZ_zero.
  intros [i j] Hin. apply elem_of_scan in Hin. unfold is_number. simpl. by rewrite Hh.
Qed.

Lemma hidden_count_le_area g :
  0 <= grid_width g → 0 <= grid_height g → hidden_count g <= grid_width g * grid_height g.
Proof.
  intros Hw Hh. rewrite <- length_scan by done. apply countZ_le_length.
Qed.

Lemma reveal_shows_start fuel g x y g' log :
  wf g → inb g x y → mine (cell_at g x y) = false →
  bucket_reveal fuel g x y = Ret (g', log) →
  visible (cell_at g' x y) = true ∧ mine (cell_at g' x y) = false ∧ status g' = status g.
Proof.
  intros Hwf Hxy Hm Hrun.
  pose proof (bucket_reveal_spec fuel g x y g' log Hwf Hxy Hrun) as Hspec.
  pose proof (reveal_spec_inb g x y g' log Hxy Hspec) as Hlog.
  destruct Hspec as (-> & (tl & -> & _) & _).
  split; [|split].
  - apply visible_reveal_all; [done..|]. left. by left.
  - by rewrite reveal_all_mine.
  - apply reveal_all_status.
Qed.

(** X8. The first click of a game is safe.  On a freshly started board
    that is not all mines, with any luck setting but "bad", with any
    solver (it is not consulted) and any draws, releasing the left button
    on any cell reveals that cell, it holds no mine afterwards, and the
    game is not lost. *)
Theorem first_click_is_safe sv rnd fuel g0 trial x y :
  0 <= grid_width g0 → 0 <= grid_height g0 → config_luck g0 ≠ bad →
  inb g0 x y →
  mines_total (new_game g0 trial) < grid_width g0 * grid_height g0 →
  grid_width g0 * grid_height g0 + 2 <= Z.of_nat fuel →
  ∃ g', left_up sv rnd fuel (new_game g0 trial) x y = Ret g' ∧
        visible (cell_at g' x y) = true ∧ mine (cell_at g' x y) = false ∧
        status g' ≠ game_lost.
Proof.
  intros Hw Hh Hluck Hxy0 Hnotfull Hfuel.
  set (g := new_game g0 trial) in *.
  pose proof (new_game_playable g0 trial Hw Hh) as Hp. fold g in Hp.
  pose proof Hp as (Hwf & _).
  destruct (new_game_dims g0 trial) as [Ew Eh]. fold g in Ew, Eh.
  assert (Hxy : inb g x y) by (by apply new_game_inb).
  destruct (new_game_settings g0 trial) as (_ & Hst & Hfm & Hcl & _).
  fold g in Hst, Hfm, Hcl.
  assert (Hcells : ∀ i j, inb g i j → same_marks virgin (cell_at g i j)).
  { intros i j Hij. pose proof (proj1 (new_game_inb g0 trial i j) Hij) as Hin.
    by destruct (new_game_cell g0 trial i j Hw Hh Hin) as [_ ?]. }
  destruct (Hcells x y Hxy) as (_ & Hflag & Hqm & Hvis & _). simpl in Hflag, Hqm, Hvis.
  assert (Hm0 : p_m (partition_pass g) = 0).
  { apply no_number_when_hidden. intros i j Hij.
    by destruct (Hcells i j Hij) as (_ & _ & _ & ? & _). }
  assert (Hhc : hidden_count g + 2 <= Z.of_nat fuel).
  { destruct Hwf as (? & ? & _). pose proof (hidden_count_le_area g). rewrite Ew, Eh in *.
    lia. }
  assert (Hreveal : ∀ g1, wf g1 → inb g1 x y → hidden_count g1 = hidden_count g →
            mine (cell_at g1 x y) = false → status g1 = game_active →
            ∃ g', (g2 ←r (r ←r bucket_reveal fuel g1 x y; Ret (check_won r.1));
                   Ret (with_first_move g2 false)) = Ret g' ∧
                  visible (cell_at g' x y) = true ∧ mine (cell_at g' x y) = false ∧
                  status g' ≠ game_lost).
  { intros g1 Hwf1 Hin1 Hh1 Hm1 Hst1.
    destruct (bucket_reveal_terminates fuel g1 x y Hwf1 Hin1) as [[g2 log] Hr].
    { destruct (visible (cell_at g1 x y)); lia. }
    rewrite Hr. cbn [rbind fst]. eexists. split; [reflexivity|].
    destruct (reveal_shows_start fuel g1 x y g2 log Hwf1 Hin1 Hm1 Hr) as (Hv2 & Hm2 & Hs2).
    unfold check_won. destruct (_ =? _); simpl; split_and!; try done.
    rewrite Hs2, Hst1. done. }
  unfold left_up. rewrite Hflag, Hqm, Hfm. cbv zeta.
  assert (Hnb : is_bad (config_luck g) = false).
  { rewrite Hcl. by destruct (config_luck g0). }
  rewrite Hnb. simpl negb. simpl andb. cbn [is_bad is_great orb].
  destruct (mine (cell_at g x y)) eqn:Em.
  - destruct (alter_minefield_returns (refusing INFEASIBLE) rnd g x y false
                (refusing_sound INFEASIBLE eq_refl) Hp Hxy) as [[b g1] Ha].
    rewrite (alter_minefield_no_source sv (refusing INFEASIBLE)) by done.
    rewrite Ha.
    assert (Hb : b = true).
    { eapply alter_minefield_no_source_succeeds; [exact Hm0|exact Hvis| | |exact Ha].
      - rewrite mines_total_scan by done.
        pose proof (countZ_pos (has_mine g) (scan g) (x, y)
                      ltac:(by apply elem_of_scan) Em). lia.
      - rewrite andb_true_r. apply Z.eqb_neq. rewrite Ew, Eh. lia. }
    subst b. cbn [rbind fst snd].
    destruct (alter_minefield_playable _ _ _ _ _ _ _
                (refusing_sound INFEASIBLE eq_refl) Hp Hxy Ha)
      as ((Hwf1 & _) & Hm1 & Hsd & Hv1).
    destruct (alter_minefield_cells _ _ _ _ _ _ _ Hp Hxy Ha) as ((_ & Hst1 & _) & _).
    apply Hreveal; [done|by eapply same_dims_inb|by apply hidden_count_ext|done|congruence].
  - cbn [rbind fst snd]. by apply Hreveal.
Qed.

Lemma first_click_is_safe_witness :
  ∃ g', left_up (refusing USERABORT) (λ j, j) 17 diagonal_start 1 1 = Ret g' ∧
        visible (cell_at g' 1 1) = true ∧ mine (cell_at g' 1 1) = false ∧
        status g' ≠ game_lost.
Proof.
  apply (first_click_is_safe (refusing USERABORT) (λ j, j) 17
           (recompute_dimensions (blank 0 0) 0) (λ x y, x =? y) 1 1).
  - vm_compute. discriminate.
  - vm_compute. discriminate.
  - discriminate.
  - vm_compute. repeat split; discriminate.
  - vm_compute. reflexivity.
  - vm_compute. discriminate.
Defined.

(** X9. On a board where every cell holds a mine no luck helps:
    releasing the left button on a hidden, unmarked cell marks it
    exploded and loses the game, whatever the luck setting, the solver and
    the draws; [alter_minefield] refuses to remove a mine from a full
    board. *)
Theorem full_board_click_loses sv rnd fuel g x y :
  wf g → inb g x y →
  (∀ i j, inb g i j → mine (cell_at g i j) = true) →
  visible (cell_at g x y) = false → flag (cell_at g x y) = false →
  qmark (cell_at g x y) = false →
  ∃ g', left_up sv rnd fuel g x y = Ret g' ∧
        status g' = game_lost ∧ exploded (cell_at g' x y) = true ∧
        visible (cell_at g' x y) = false.
Proof.
  intros Hwf Hxy Hall Hvis Hflag Hqm. pose proof Hwf as (Hw & Hh & _).
  assert (HT : mines_total g = grid_width g * grid_height g).
  { rewrite mines_total_scan, <- length_scan, <- countZ_all by done.
    apply countZ_ext. intros [i j] Hin. apply elem_of_scan in Hin. by apply Hall. }
  assert (Harea : 0 < grid_width g * grid_height g) by (unfold inb in Hxy; nia).
  assert (Hfail : alter_minefield sv rnd g x y false = Ret (false, g)).
  { unfold alter_minefield. rewrite (Hall x y Hxy), Hvis. simpl.
    destruct (Z.eqb_spec (mines_total g) 0); [lia|].
    by rewrite HT, Z.eqb_refl. }
  exists (with_first_move (explode g x y) false). split.
  - unfold left_up. rewrite Hflag, Hqm, (Hall x y Hxy). cbv zeta. simpl negb. simpl andb.
    match goal with |- context [if ?b then alter_minefield _ _ _ _ _ _ else _] =>
      destruct b end; [rewrite Hfail|]; reflexivity.
  - change (status (with_first_move ?a _)) with (status a).
    change (cell_at (with_first_move ?a _) x y) with (cell_at a x y).
    unfold explode. rewrite end_game_status.
    rewrite cell_at_end_game;
      [|eapply same_dims_wf; [apply set_cell_same_dims|done]
       |eapply same_dims_inb; [apply set_cell_same_dims|done]].
    rewrite cell_at_set_cell_eq by done. unfold mark_mistake. simpl.
    rewrite Hflag. simpl. done.
Qed.

Lemma full_board_click_loses_witness :
  ∃ g', left_up agreeing (λ j, j) 3
          (new_game (recompute_dimensions (blank 0 0) 0) (λ _ _, true)) 2 1 = Ret g' ∧
        status g' = game_lost ∧ exploded (cell_at g' 2 1) = true ∧
        visible (cell_at g' 2 1) = false.
Proof.
  apply (full_board_click_loses agreeing (λ j, j) 3
           (new_game (recompute_dimensions (blank 0 0) 0) (λ _ _, true)) 2 1).
  - apply new_game_inv; vm_compute; discriminate.
  - vm_compute. repeat split; discriminate.
  - intros i j Hij.
    apply (proj1 (new_game_cell (recompute_dimensions (blank 0 0) 0) (λ _ _, true) i j
                    ltac:(vm_compute; discriminate) ltac:(vm_compute; discriminate)
                    (proj1 (new_game_inb _ _ i j) Hij))).
  - reflexivity.
  - reflexivity.
  - reflexivity.
Defined.

(** ** The grid model: placing and removing mines *)

Lemma game_eq (g g' : game) :
  same_dims g g' → same_settings g g' → minefield g' = minefield g → g' = g.
Proof.
  destruct g, g'. intros (Hw & Hh & _) (Hv & Hs & Hf & Hl & Hq) Hm. simpl in *.
  by subst.
Qed.

(** Two grids of the same shape with the same cells are the same array. *)
Lemma minefield_ext g g' :
  wf g → same_dims g g' →
  (∀ i j, inb g i j → cell_at g' i j = cell_at g i j) → minefield g' = minefield g.
Proof.
  intros Hwf Hsd Hcell. pose proof Hwf as (Hw & Hh & Hlen).
  pose proof Hsd as (Ew & Eh & El).
  apply (list_eq_same_length _ _ (length (minefield g))); [done|done|].
  intros k c c' Hk Hc' Hc.
  assert (Hin : k ∈ (λ d : Z * Z, idx g d.1 d.2) <$> scan g).
  { rewrite idx_scan by done. apply elem_of_seq. lia. }
  apply list_elem_of_fmap in Hin as ([i j] & -> & Hin). apply elem_of_scan in Hin.
  specialize (Hcell i j Hin). unfold cell_at in Hcell.
  rewrite (same_dims_idx g g') in Hcell by done. simpl in *.
  rewrite (list_lookup_total_correct _ _ _ Hc), (list_lookup_total_correct _ _ _ Hc') in Hcell.
  done.
Qed.

Lemma spawn_mine_same_settings g x y : same_settings g (spawn_mine g x y).2.
Proof.
  unfold spawn_mine. destruct (mine (cell_at g x y)); [apply same_settings_refl|]. simpl.
  eapply same_settings_trans; [apply (set_cell_same_settings g x y)|].
  apply (foldl_set_cell_same_settings (λ _ _, incr_adj)).
Qed.

(** X10. [spawn_mine] on a cell of the grid: when the cell already holds
    a mine it returns [false] and changes nothing; otherwise it returns
    [true], the cell holds a mine, the count of each of its neighbours
    has gone up by one (modulo 256, the field being a [Uint8]), every other
    cell is as before, and [mines_total] has gone up by one. *)
Theorem spawn_mine_effect g x y :
  wf g → inb g x y →
  (mine (cell_at g x y) = true → spawn_mine g x y = (false, g)) ∧
  (mine (cell_at g x y) = false →
   (spawn_mine g x y).1 = true ∧
   mines_total (spawn_mine g x y).2 = mines_total g + 1 ∧
   ∀ i j, inb g i j →
     cell_at (spawn_mine g x y).2 i j =
     if decide ((i, j) = (x, y)) then set_mine true (cell_at g x y)
     else if decide ((i, j) ∈ around g x y) then set_adj (adj (cell_at g i j) + 1) (cell_at g i j)
     else cell_at g i j).
Proof.
  intros Hwf Hxy. split.
  - intros Hm. unfold spawn_mine. by rewrite Hm.
  - intros Hm. split; [unfold spawn_mine; by rewrite Hm|]. split.
    + pose proof (spawn_mine_same_dims g x y) as Hsd.
      rewrite !mines_total_scan by (done || by eapply same_dims_wf).
      rewrite (same_dims_scan g _ Hsd).
      rewrite (countZ_add_one (has_mine g) (has_mine (spawn_mine g x y).2) (scan g) (x, y)).
      * rewrite decide_True by (by apply elem_of_scan). done.
      * apply NoDup_scan.
      * done.
      * unfold has_mine. simpl. rewrite cell_at_spawn_mine by done.
        by rewrite decide_True.
      * intros [i j] Hin Hne. apply elem_of_scan in Hin. unfold has_mine. simpl.
        rewrite cell_at_spawn_mine by done. rewrite decide_False by done.
        by destruct (decide ((i, j) ∈ around g x y)).
    + intros i j Hij. by rewrite cell_at_spawn_mine.
Qed.

Lemma spawn_mine_effect_witness :
  spawn_mine (blank 3 3) 1 1 ≠ (false, blank 3 3) ∧
  mines_total (spawn_mine (blank 3 3) 1 1).2 = mines_total (blank 3 3) + 1.
Proof.
  split; [vm_compute; discriminate|].
  refine (proj1 (proj2 (proj2 (spawn_mine_effect (blank 3 3) 1 1 _ _) _))).
  - repeat split; vm_compute; congruence.
  - vm_compute. repeat split; discriminate.
  - reflexivity.
Defined.

Lemma hidden_neighbours_untouched fuel l g :
  Forall (λ d, visible (cell_at g d.1 d.2) = false) l →
  rfold (λ g' (ij : Z * Z),
           if visible (cell_at g' ij.1 ij.2)
           then r ←r bucket_reveal fuel g' ij.1 ij.2; Ret r.1
           else Ret g') l g = Ret g.
Proof.
  induction l as [|d l IH]; intros Hl; [done|].
  apply Forall_cons in Hl as [Hd Hl]. simpl. rewrite Hd. simpl. by apply IH.
Qed.

(** X11. [remove_mine] undoes [spawn_mine].  On a cell of the grid that
    holds no mine and has no revealed neighbour, with the neighbours'
    counts in the range of a [Uint8], placing a mine and removing it again
    gives back the very same grid (also when a count wraps around at
    255). *)
Theorem remove_mine_undoes_spawn_mine fuel g x y :
  wf g → inb g x y → mine (cell_at g x y) = false →
  (∀ d, d ∈ around g x y →
        visible (cell_at g d.1 d.2) = false ∧ 0 <= adj (cell_at g d.1 d.2) < 256) →
  remove_mine fuel (spawn_mine g x y).2 x y = Ret (true, g).
Proof.
  intros Hwf Hxy Hm Hnb.
  set (g1 := (spawn_mine g x y).2).
  pose proof (spawn_mine_same_dims g x y) as Hsd1. fold g1 in Hsd1.
  assert (Hwf1 : wf g1) by (by eapply same_dims_wf).
  assert (Hxy1 : inb g1 x y) by (by eapply same_dims_inb).
  assert (Hm1 : mine (cell_at g1 x y) = true).
  { unfold g1. rewrite cell_at_spawn_mine by done. by rewrite decide_True. }
  unfold remove_mine. rewrite Hm1. simpl negb. cbv iota.
  set (g2 := foldl _ (set_cell g1 x y (set_mine false)) _).
  assert (Hsd2 : same_dims g1 g2).
  { unfold g2. eapply same_dims_trans; [apply (set_cell_same_dims g1 x y)|].
    apply (foldl_set_cell_same_dims (λ _ _, decr_adj)). }
  assert (Hset2 : same_settings g1 g2).
  { unfold g2. eapply same_settings_trans; [apply (set_cell_same_settings g1 x y)|].
    apply (foldl_set_cell_same_settings (λ _ _, decr_adj)). }
  assert (Hback : g2 = g).
  { apply game_eq.
    - by eapply same_dims_trans.
    - eapply same_settings_trans; [apply spawn_mine_same_settings|exact Hset2].
    - apply minefield_ext; [done|by eapply same_dims_trans|].
      intros i j Hij. unfold g2.
      rewrite cell_at_decr_around; [|done|done|by eapply same_dims_inb].
      rewrite (same_dims_around g g1) by done. unfold g1.
      rewrite !cell_at_spawn_mine by done.
      destruct (decide ((i, j) = (x, y))) as [[= -> ->]|Hne].
      + rewrite decide_True by done.
        destruct (cell_at g x y) as [m e f q v mi a]. simpl in Hm. by subst m.
      + destruct (decide ((i, j) ∈ around g x y)) as [Hin|_]; [|done].
        destruct (Hnb (i, j) Hin) as [_ Ha]. simpl in Ha.
        destruct (cell_at g i j) as [m e f q v mi a]. unfold decr_adj, incr_adj, set_adj.
        simpl in *. f_equal. unfold uint8.
        destruct (Z.eq_dec a 255) as [->|]; [done|].
        rewrite (Z.mod_small (a + 1)) by lia. replace (a + 1 - 1) with a by lia.
        apply Z.mod_small. lia. }
  rewrite Hback. rewrite hidden_neighbours_untouched; [done|].
  apply Forall_forall. intros d Hd. by destruct (Hnb d Hd).
Qed.

Lemma remove_mine_undoes_spawn_mine_witness :
  remove_mine 0 (spawn_mine row5 0 0).2 0 0 = Ret (true, row5).
Proof.
  apply (remove_mine_undoes_spawn_mine 0 row5 0 0).
  - repeat split; vm_compute; congruence.
  - vm_compute. repeat split; discriminate.
  - reflexivity.
  - intros d Hd. apply list_elem_of_In in Hd. vm_compute in Hd.
    destruct Hd as [<-|[]]. vm_compute. repeat split; discriminate.
Defined.

(** ** The grid model: counts and counters *)

(** X12. [recompute_minefield_adj] repairs any grid: afterwards every
    cell's count is the number of mines among its neighbours, and nothing
    else has changed: each cell is the old one with the new count, the
    mines and their number are the same. *)
Theorem recompute_minefield_adj_repairs g :
  wf g →
  adj_ok (recompute_minefield_adj g) ∧
  mines_total (recompute_minefield_adj g) = mines_total g ∧
  same_settings g (recompute_minefield_adj g) ∧
  ∀ i j, inb g i j →
    cell_at (recompute_minefield_adj g) i j
    = set_adj (count_adjacent_mines g i j) (cell_at g i j).
Proof.
  intros Hwf. split; [by apply recompute_adj_ok|]. split; [|split].
  - apply mines_kept_total; [done|]. split; [apply recompute_same_dims|].
    intros i j Hij. by rewrite cell_at_recompute.
  - apply recompute_same_settings.
  - intros i j Hij. by apply cell_at_recompute.
Qed.

Lemma recompute_minefield_adj_repairs_witness :
  adj (cell_at (set_cell row4 0 0 (set_adj 7)) 0 0) = 7 ∧
  adj_ok (recompute_minefield_adj (set_cell row4 0 0 (set_adj 7))).
Proof.
  split; [reflexivity|].
  refine (proj1 (recompute_minefield_adj_repairs (set_cell row4 0 0 (set_adj 7)) _)).
  repeat split; vm_compute; congruence.
Defined.

(** X13. [new_game] on any dimensions: the board has a mine exactly on
    the cells whose Bernoulli trial came out true, so [mines_total] is
    the number of successful trials; every cell is hidden and carries no
    flag, question mark, explosion or mistake mark; the counter of
    revealed cells is 0, the game is active and the next click is the
    first move. *)
Theorem new_game_fresh g trial :
  0 <= grid_width g → 0 <= grid_height g →
  (∀ x y, inb g x y →
     mine (cell_at (new_game g trial) x y) = trial x y ∧
     same_marks virgin (cell_at (new_game g trial) x y)) ∧
  mines_total (new_game g trial) = countZ (λ c, trial c.1 c.2) (scan g) ∧
  visible_cell_count (new_game g trial) = 0 ∧
  status (new_game g trial) = game_active ∧ first_move (new_game g trial) = true.
Proof.
  intros Hw Hh. split; [intros x y Hxy; by apply new_game_cell|].
  destruct (new_game_settings g trial) as (Hv & Hst & Hfm & _).
  split; [|done].
  destruct (new_game_inv g trial Hw Hh) as [Hwf _].
  rewrite mines_total_scan by done.
  assert (Hscan : scan (new_game g trial) = scan g).
  { destruct (new_game_dims g trial) as [Ew Eh]. unfold scan. by rewrite Ew, Eh. }
  rewrite Hscan. apply countZ_ext. intros [x y] Hin. apply elem_of_scan in Hin.
  unfold has_mine. simpl. by destruct (new_game_cell g trial x y Hw Hh Hin).
Qed.

Lemma new_game_fresh_witness :
  mines_total diagonal_start = 3.
Proof.
  refine (eq_trans (proj1 (proj2 (new_game_fresh (recompute_dimensions (blank 0 0) 0)
                                    (λ x y, x =? y) _ _))) _).
  - vm_compute. discriminate.
  - vm_compute. discriminate.
  - reflexivity.
Defined.

Lemma foldl_remaining (mf : list cell) (l : list nat) (s : Z) :
  foldl (λ count i,
           let count1 := if mine (mf !!! i) then count + 1 else count in
           if flag (mf !!! i) && negb (mistake (mf !!! i)) then count1 - 1 else count1)
        s l
  = s + countZ (λ i, mine (mf !!! i)) l
      - countZ (λ i, flag (mf !!! i) && negb (mistake (mf !!! i))) l.
Proof.
  revert s. induction l as [|i l IH]; intros s; [rewrite !countZ_nil; cbn [foldl]; lia|].
  cbn [foldl]. rewrite IH, !countZ_cons. cbv zeta.
  destruct (mine (mf !!! i)), (flag (mf !!! i) && negb (mistake (mf !!! i))); lia.
Qed.

Lemma count_by_index g (P : cell → bool) :
  0 <= grid_width g → 0 <= grid_height g →
  countZ (λ i, P (minefield g !!! i)) (seq 0 (Z.to_nat (grid_width g * grid_height g)))
  = countZ (λ c, P (cell_at g c.1 c.2)) (scan g).
Proof. intros Hw Hh. by rewrite <- idx_scan, countZ_fmap. Qed.

Lemma mines_remaining_count g :
  0 <= grid_width g → 0 <= grid_height g →
  mines_remaining g
  = mines_total g
    - countZ (λ c, flag (cell_at g c.1 c.2) && negb (mistake (cell_at g c.1 c.2))) (scan g).
Proof.
  intros Hw Hh.
  unfold mines_remaining, mines_total. rewrite foldl_remaining, foldl_count, !Z.add_0_l.
  by rewrite (count_by_index g (λ c, flag c && negb (mistake c))).
Qed.

(** X14. The mine counter.  [mines_remaining] is the number of mines
    minus the number of flags that are not marked as mistakes; so it goes
    negative when more flags than mines are placed.  [mines_displayed]
    shows it while the game is active and the plain number of mines
    afterwards. *)
Theorem mines_remaining_formula g :
  0 <= grid_width g → 0 <= grid_height g →
  mines_remaining g
  = mines_total g
    - countZ (λ c, flag (cell_at g c.1 c.2) && negb (mistake (cell_at g c.1 c.2))) (scan g) ∧
  (status g = game_active → mines_displayed g = mines_remaining g) ∧
  (status g ≠ game_active → mines_displayed g = mines_total g).
Proof.
  intros Hw Hh. split; [|split].
  - by apply mines_remaining_count.
  - intros Hst. unfold mines_displayed, is_active. by rewrite Hst.
  - intros Hst. unfold mines_displayed, is_active. by destruct (status g).
Qed.

Lemma mines_remaining_formula_witness :
  mines_remaining (set_cell (set_cell row4 2 0 (set_flag true)) 3 0 (set_flag true)) = -1.
Proof.
  refine (eq_trans (proj1 (mines_remaining_formula
                             (set_cell (set_cell row4 2 0 (set_flag true)) 3 0
                                       (set_flag true)) _ _)) _).
  - vm_compute. discriminate.
  - vm_compute. discriminate.
  - reflexivity.
Defined.

(** X15. [cells_are_adjacent] agrees with the neighbourhood loops: for
    two cells of the grid it answers [true] exactly when the second is
    visited by the loop nest around the first; it is symmetric and a cell
    is not adjacent to itself. *)
Theorem cells_are_adjacent_around g x y i j :
  inb g x y → inb g i j →
  (cells_are_adjacent x y i j = true ↔ (i, j) ∈ around g x y) ∧
  cells_are_adjacent x y i j = cells_are_adjacent i j x y ∧
  cells_are_adjacent x y x y = false.
Proof.
  intros Hxy Hij. unfold cells_are_adjacent, inb in *. split; [|split].
  - rewrite Z.eqb_eq, elem_of_around. lia.
  - f_equal. lia.
  - apply Z.eqb_neq. lia.
Qed.

Lemma cells_are_adjacent_around_witness :
  cells_are_adjacent 0 0 1 1 = true ↔ (1, 1) ∈ around (blank 3 3) 0 0.
Proof.
  refine (proj1 (cells_are_adjacent_around (blank 3 3) 0 0 1 1 _ _));
    vm_compute; repeat split; discriminate.
Defined.

(** ** Buttons *)

Lemma flags_on_mines_index g :
  0 <= grid_width g → 0 <= grid_height g →
  forallb (λ i, eqb (flag (minefield g !!! i)) (mine (minefield g !!! i)))
          (seq 0 (Z.to_nat (grid_width g * grid_height g))) = true
  ↔ ∀ x y, inb g x y → flag (cell_at g x y) = mine (cell_at g x y).
Proof.
  intros Hw Hh. rewrite forallb_forall, <- idx_scan by done. split.
  - intros H x y Hxy. apply eqb_prop. apply (H (idx g x y)).
    apply list_elem_of_In. apply list_elem_of_fmap. exists (x, y).
    split; [done|by apply elem_of_scan].
  - intros H k Hk. apply list_elem_of_In in Hk.
    apply list_elem_of_fmap in Hk as ([x y] & -> & Hin).
    apply elem_of_scan in Hin. simpl. fold (cell_at g x y). rewrite (H x y Hin).
    apply eqb_reflx.
Qed.

(** X16. The face button.  During an active game (no cell is marked as
    a mistake then) it always ends the game, and declares it won exactly
    when the flags are exactly on the mines: as many flags as mines is
    not enough.  When no game is active it starts a new one. *)
Theorem click_face_verdict g trial :
  wf g →
  (status g = game_active →
   (∀ x y, inb g x y → mistake (cell_at g x y) = false) →
   (status (click_face g trial) = game_won
    ↔ ∀ x y, inb g x y → flag (cell_at g x y) = mine (cell_at g x y)) ∧
   (status (click_face g trial) = game_won ∨ status (click_face g trial) = game_lost)) ∧
  (status g ≠ game_active → click_face g trial = new_game g trial).
Proof.
  intros Hwf. pose proof Hwf as (Hw & Hh & _). split.
  - intros Hst Hnomis. unfold click_face, is_active. rewrite Hst. simpl andb.
    pose proof (mines_remaining_count g Hw Hh) as Hrem.
    pose proof (flags_on_mines_index g Hw Hh) as Hidx.
    destruct (Z.eqb_spec (mines_remaining g) 0) as [H0|H0].
    + rewrite end_game_status.
      destruct (forallb _ _) eqn:Eall.
      * split; [|by left]. split; [intros _; by apply Hidx|done].
      * split; [|by right]. split; [done|]. intros Hall. apply Hidx in Hall. congruence.
    + rewrite end_game_status. split; [|by right]. split; [done|].
      intros Hall. exfalso. apply H0. rewrite Hrem, mines_total_scan by done.
      enough (countZ (has_mine g) (scan g)
              = countZ (λ c, flag (cell_at g c.1 c.2) && negb (mistake (cell_at g c.1 c.2)))
                       (scan g)) by lia.
      apply countZ_ext. intros [x y] Hin. apply elem_of_scan in Hin.
      unfold has_mine. simpl. rewrite (Hall x y Hin), (Hnomis x y Hin).
      by rewrite andb_true_r.
  - intros Hst. unfold click_face, is_active. by destruct (status g).
Qed.

Lemma click_face_verdict_witness :
  status (click_face (set_cell row4 2 0 (set_flag true)) (λ _ _, false)) = game_lost ∧
  status (click_face (set_cell row4 1 0 (set_flag true)) (λ _ _, false)) = game_won ∧
  (status (click_face (set_cell row4 1 0 (set_flag true)) (λ _ _, false)) = game_won
   ↔ ∀ x y, inb (set_cell row4 1 0 (set_flag true)) x y →
            flag (cell_at (set_cell row4 1 0 (set_flag true)) x y)
            = mine (cell_at (set_cell row4 1 0 (set_flag true)) x y)).
Proof.
  split; [reflexivity|]. split; [reflexivity|].
  refine (proj1 (proj1 (click_face_verdict (set_cell row4 1 0 (set_flag true))
                          (λ _ _, false) _) _ _)).
  - repeat split; vm_compute; congruence.
  - reflexivity.
  - intros x y [Hx Hy]. simpl in Hx, Hy.
    assert (y = 0) as -> by lia.
    assert (x = 0 ∨ x = 1 ∨ x = 2 ∨ x = 3) as [-> | [-> | [-> | ->]]] by lia;
      reflexivity.
Defined.

(** X17. The right button cycles a hidden cell's mark.  On a hidden,
    unmarked cell of the grid: with question marks enabled three presses
    go flag, question mark, nothing and leave every cell as it was; with
    question marks disabled two presses do.  A revealed cell is never
    marked. *)
Theorem toggle_flag_cycle g x y :
  wf g → inb g x y →
  (visible (cell_at g x y) = true → toggle_flag g x y = g) ∧
  (visible (cell_at g x y) = false → flag (cell_at g x y) = false →
   qmark (cell_at g x y) = false →
   flag (cell_at (toggle_flag g x y) x y) = true ∧
   qmark (cell_at (toggle_flag g x y) x y) = false ∧
   (config_qmarks g = true →
    flag (cell_at (toggle_flag (toggle_flag g x y) x y) x y) = false ∧
    qmark (cell_at (toggle_flag (toggle_flag g x y) x y) x y) = true ∧
    toggle_flag (toggle_flag (toggle_flag g x y) x y) x y = g) ∧
   (config_qmarks g = false → toggle_flag (toggle_flag g x y) x y = g)).
Proof.
  intros Hwf Hxy. split.
  { intros Hv. unfold toggle_flag. by rewrite Hv. }
  intros Hv Hf Hq.
  assert (Hcell : ∀ g1 f, wf g1 → inb g1 x y →
            cell_at (set_cell g1 x y f) x y = f (cell_at g1 x y)).
  { intros g1 f ? ?. by apply cell_at_set_cell_eq. }
  assert (Hwf' : ∀ g1 f, wf g1 → wf (set_cell g1 x y f)).
  { intros g1 f ?. eapply same_dims_wf; [apply set_cell_same_dims|done]. }
  assert (Hin' : ∀ g1 f, inb g1 x y → inb (set_cell g1 x y f) x y).
  { intros g1 f ?. eapply same_dims_inb; [apply set_cell_same_dims|done]. }
  assert (Hback : ∀ g1, same_dims g g1 → same_settings g g1 →
            (∀ i j, inb g i j → (i, j) ≠ (x, y) → cell_at g1 i j = cell_at g i j) →
            cell_at g1 x y = cell_at g x y → g1 = g).
  { intros g1 Hsd Hset Hother Hhere. apply game_eq; [done|done|].
    apply minefield_ext; [done|done|]. intros i j Hij.
    destruct (decide ((i, j) = (x, y))) as [[= -> ->]|Hne]; [done|by apply Hother]. }
  set (t1 := set_cell g x y (set_flag true)).
  assert (E1 : toggle_flag g x y = t1).
  { unfold toggle_flag. by rewrite Hv, Hf, Hq. }
  assert (Hc1 : cell_at t1 x y = set_flag true (cell_at g x y)) by (by apply Hcell).
  rewrite E1, Hc1. split; [done|]. split; [done|].
  assert (Hwf1 : wf t1) by (by apply Hwf').
  assert (Hin1 : inb t1 x y) by (by apply Hin').
  split.
  - intros Hon.
    set (t2 := set_cell (set_cell t1 x y (set_flag false)) x y (set_qmark true)).
    assert (E2 : toggle_flag t1 x y = t2).
    { unfold toggle_flag. rewrite Hc1. simpl. rewrite Hv. simpl.
      change (config_qmarks t1) with (config_qmarks g). by rewrite Hon. }
    assert (Hc2 : cell_at t2 x y = set_qmark true (set_flag false (set_flag true (cell_at g x y)))).
    { unfold t2. rewrite Hcell by auto. rewrite Hcell by auto. by rewrite Hc1. }
    rewrite E2, Hc2. split; [done|]. split; [done|].
    unfold toggle_flag. rewrite Hc2. simpl. rewrite Hv. simpl.
    apply Hback.
    + unfold t2, t1. repeat (eapply same_dims_trans; [|apply set_cell_same_dims]).
      apply same_dims_refl.
    + by repeat split.
    + intros i j Hij Hne. unfold t2, t1.
      rewrite !cell_at_set_cell_ne; auto; try congruence;
        repeat (eapply same_dims_inb; [apply set_cell_same_dims|]); done.
    + rewrite Hcell; [|by repeat apply Hwf'|by repeat apply Hin'].
      rewrite Hc2. destruct (cell_at g x y) as [m e f q v mi a]. simpl in *. by subst.
  - intros Hoff. unfold toggle_flag. rewrite Hc1. simpl. rewrite Hv. simpl.
    change (config_qmarks t1) with (config_qmarks g). rewrite Hoff.
    apply Hback.
    + unfold t1. repeat (eapply same_dims_trans; [|apply set_cell_same_dims]).
      apply same_dims_refl.
    + by repeat split.
    + intros i j Hij Hne. unfold t1.
      rewrite !cell_at_set_cell_ne; auto; try congruence;
        repeat (eapply same_dims_inb; [apply set_cell_same_dims|]); done.
    + rewrite Hcell by done. rewrite Hc1.
      destruct (cell_at g x y) as [m e f q v mi a]. simpl in *. by subst.
Qed.

Lemma toggle_flag_cycle_witness :
  toggle_flag (toggle_flag row4 2 0) 2 0 = row4.
Proof.
  refine (proj2 (proj2 (proj2 (proj2 (toggle_flag_cycle row4 2 0 row4_wf _) _ _ _))) _).
  - vm_compute. repeat split; discriminate.
  - reflexivity.
  - reflexivity.
  - reflexivity.
  - reflexivity.
Defined.

(** ** The window *)

Lemma quot_cell (cd t k : Z) :
  0 < cd → cd * k <= t < cd * k + cd → 0 <= k → t ÷ cd = k.
Proof.
  intros Hcd Ht Hk. rewrite Z.quot_div_nonneg by nia.
  symmetry. apply (Z.div_unique t cd k (t - cd * k)); lia.
Qed.

Lemma quot_in_cell (cd t : Z) :
  0 < cd → 0 <= t → 0 <= t ÷ cd ∧ cd * (t ÷ cd) <= t < cd * (t ÷ cd) + cd.
Proof.
  intros Hcd Ht. rewrite Z.quot_div_nonneg by lia.
  pose proof (Z.div_pos t cd Ht Hcd). pose proof (Z.mul_div_le t cd Hcd).
  pose proof (Z.mod_pos_bound t cd Hcd). pose proof (Z.div_mod t cd ltac:(lia)). lia.
Qed.

(** X18. [coords_window_to_grid] and the rectangle a cell is drawn into
    fit together: every pixel of the rectangle of a cell of the grid is
    mapped back to that cell; and whatever the window coordinates, on a
    grid with at least one cell the result is a cell of the grid. *)
Theorem coords_window_to_grid_round_trip ly g wx wy :
  1 <= grid_width g → 1 <= grid_height g →
  inb g (coords_window_to_grid ly g wx wy).1 (coords_window_to_grid ly g wx wy).2 ∧
  ∀ x y, 0 < cell_dim ly → inb g x y →
         window_coords_in_rect wx wy (cell_rect ly x y) = true →
         coords_window_to_grid ly g wx wy = (x, y).
Proof.
  intros Hw Hh. split; [unfold coords_window_to_grid, inb; simpl; lia|].
  intros x y Hcd [Hx Hy] Hin. unfold window_coords_in_rect, cell_rect in Hin. simpl in Hin.
  apply andb_true_iff in Hin as [Hin H4]. apply andb_true_iff in Hin as [Hin H3].
  apply andb_true_iff in Hin as [H1 H2].
  apply Z.leb_le in H1, H3. apply Z.ltb_lt in H2, H4.
  unfold coords_window_to_grid.
  rewrite (quot_cell (cell_dim ly) _ x), (quot_cell (cell_dim ly) _ y) by lia.
  f_equal; lia.
Qed.

Lemma coords_window_to_grid_round_trip_witness :
  coords_window_to_grid (recompute_layout 3 0) (blank 5 3) 280 110 = (1, 2).
Proof.
  refine (proj2 (coords_window_to_grid_round_trip (recompute_layout 3 0) (blank 5 3)
                   280 110 _ _) 1 2 _ _ _).
  - vm_compute. discriminate.
  - vm_compute. discriminate.
  - reflexivity.
  - vm_compute. repeat split; discriminate.
  - reflexivity.
Defined.

Lemma layout_facts (z s : nat) :
  (z < 10)%nat → (s < 10)%nat →
  let ly := recompute_layout z s in
  0 < cell_dim ly ∧ 0 <= grid_side_padding ly ∧
  1 <= GRID_WIDTH !!! s ∧ 1 <= GRID_HEIGHT !!! s ∧
  GRID_WIDTH !!! s * cell_dim ly + grid_side_padding ly + 2 * BORDER_WIDTH
    <= window_width ly ∧
  window_height ly = GRID_HEIGHT !!! s * cell_dim ly + TOOLBAR_HEIGHT + 3 * BORDER_WIDTH.
Proof.
  intros Hz Hs.
  do 10 (destruct z as [|z]; [do 10 (destruct s as [|s]; [vm_compute; intuition discriminate|]); lia|]).
  lia.
Qed.

(** X19. The window laid out by [recompute_dimensions], for every zoom
    and grid size setting: every pixel of every cell's rectangle lies
    inside the grid area tested by [window_coords_in_grid]; and a pixel
    inside the grid area is always mapped to a cell of the grid whose
    rectangle contains it vertically, so the row is never clamped (the
    column is, in the side padding of a narrow grid). *)
Theorem layout_covers_grid (z s : nat) g0 wx wy :
  (z < 10)%nat → (s < 10)%nat →
  let ly := recompute_layout z s in
  let g := recompute_dimensions g0 s in
  (∀ x y, inb g x y → window_coords_in_rect wx wy (cell_rect ly x y) = true →
          window_coords_in_grid ly wx wy = true) ∧
  (window_coords_in_grid ly wx wy = true →
   let xy := coords_window_to_grid ly g wx wy in
   inb g xy.1 xy.2 ∧
   rect_y (cell_rect ly xy.1 xy.2) <= wy
   < rect_y (cell_rect ly xy.1 xy.2) + rect_h (cell_rect ly xy.1 xy.2)).
Proof.
  intros Hz Hs ly g.
  destruct (layout_facts z s Hz Hs) as (Hcd & Hpad & Hw & Hh & Hwidth & Hheight).
  fold ly in Hcd, Hpad, Hwidth, Hheight.
  assert (Egw : grid_width g = GRID_WIDTH !!! s) by reflexivity.
  assert (Egh : grid_height g = GRID_HEIGHT !!! s) by reflexivity.
  rewrite <- Egw in Hw, Hwidth. rewrite <- Egh in Hh, Hheight.
  clearbody g ly. unfold BORDER_WIDTH, TOOLBAR_HEIGHT in *.
  split.
  - intros x y [Hx Hy] Hin. unfold window_coords_in_rect, cell_rect in Hin.
    cbn [rect_x rect_y rect_w rect_h] in Hin.
    apply andb_true_iff in Hin as [Hin H4]. apply andb_true_iff in Hin as [Hin H3].
    apply andb_true_iff in Hin as [H1 H2].
    apply Z.leb_le in H1, H3. apply Z.ltb_lt in H2, H4.
    unfold window_coords_in_grid, BORDER_WIDTH, TOOLBAR_HEIGHT in *.
    rewrite Hheight.
    assert (0 <= cell_dim ly * x) by nia.
    assert (cell_dim ly * x + cell_dim ly <= grid_width g * cell_dim ly) by nia.
    assert (0 <= cell_dim ly * y) by nia.
    assert (cell_dim ly * y + cell_dim ly <= grid_height g * cell_dim ly) by nia.
    repeat (apply andb_true_iff; split); (apply Z.leb_le || apply Z.ltb_lt); lia.
  - intros Hin. unfold window_coords_in_grid, BORDER_WIDTH, TOOLBAR_HEIGHT in Hin.
    apply andb_true_iff in Hin as [Hin H4]. apply andb_true_iff in Hin as [Hin H3].
    apply andb_true_iff in Hin as [H1 H2].
    apply Z.leb_le in H1, H3. apply Z.ltb_lt in H2, H4. rewrite Hheight in H4.
    cbv zeta. split; [unfold coords_window_to_grid, inb; simpl; lia|].
    unfold coords_window_to_grid, cell_rect, BORDER_WIDTH, TOOLBAR_HEIGHT.
    cbn [fst snd rect_x rect_y rect_w rect_h].
    destruct (quot_in_cell (cell_dim ly) (wy - 5 * 2 - 40) Hcd ltac:(lia)) as [Hq0 Hq].
    assert (Hlt : (wy - 5 * 2 - 40) ÷ cell_dim ly < grid_height g) by nia.
    rewrite Z.max_r, Z.min_l by lia. lia.
Qed.

Lemma layout_covers_grid_witness :
  window_coords_in_grid (recompute_layout 3 4) 100 560 = true.
Proof.
  refine (proj1 (layout_covers_grid 3 4 (blank 0 0) 100 560 _ _) 3 20 _ _).
  - lia.
  - lia.
  - vm_compute. repeat split; discriminate.
  - reflexivity.
Defined.

(** ** The displays *)

Lemma display3_table :
  forallb (λ v, bool_decide (spelled (display3 v) = Some v)) (seqZ (-99) 1099) = true.
Proof. vm_compute. reflexivity. Qed.

Lemma glyph_eq_dec : EqDecision glyph.
Proof. solve_decision. Defined.

(** X20. The three-digit display spells its value: for every value from
    -99 to 999 the glyphs [render_widget_display3] picks read back as
    that value (so every index into [seg] is between 0 and 9), with
    blanks instead of leading zeros; for every other value it shows
    "Err".  The one-digit display shows the digit for 0 to 9 and "E"
    otherwise. *)
Theorem displays_spell_value v :
  (-99 <= v <= 999 → spelled (display3 v) = Some v) ∧
  (¬ -99 <= v <= 999 → display3 v = (seg_E, seg_r, seg_r)) ∧
  (0 <= v <= 99 → (display3 v).1.1 = seg_off) ∧
  (0 <= v <= 9 → (display3 v).1.2 = seg_off ∧ display1 v = seg v) ∧
  (¬ 0 <= v <= 9 → display1 v = seg_E).
Proof.
  split; [|split; [|split; [|split]]].
  - intros Hv. pose proof display3_table as Htab. rewrite forallb_forall in Htab.
    specialize (Htab v). rewrite bool_decide_eq_true in Htab. apply Htab.
    apply list_elem_of_In, elem_of_seqZ. lia.
  - intros Hv. unfold display3.
    destruct (Z.leb_spec 0 v), (Z.leb_spec v 999); simpl; try lia;
      destruct (Z.leb_spec (-9) v), (Z.leb_spec v (-1)); simpl; try lia;
      destruct (Z.leb_spec (-99) v), (Z.leb_spec v (-10)); simpl; try lia; done.
  - intros Hv. unfold display3.
    destruct (Z.leb_spec 0 v), (Z.leb_spec v 999); simpl; try lia.
    destruct (Z.leb_spec v 99); [done|lia].
  - intros Hv. unfold display3, display1.
    destruct (Z.leb_spec 0 v), (Z.leb_spec v 999), (Z.leb_spec v 9); simpl; try lia.
    done.
  - intros Hv. unfold display1.
    destruct (Z.leb_spec 0 v), (Z.leb_spec v 9); simpl; try lia; done.
Qed.

Lemma displays_spell_value_witness :
  display3 (-42) = (seg_minus, seg 4, seg 2) ∧ spelled (display3 (-42)) = Some (-42).
Proof.
  split; [reflexivity|].
  apply (proj1 (displays_spell_value (-42))). lia.
Defined.

(** ** The settings *)

Lemma fits_table :
  forallb (λ z, forallb (λ s,
      implb (negb (too_large (recompute_layout z s)))
            (negb (too_large (recompute_layout (pred z) s))
             && negb (too_large (recompute_layout z (pred s)))))
    (seq 0 10)) (seq 0 10) = true.
Proof. vm_compute. reflexivity. Qed.

Lemma fits_smaller (z s : nat) :
  (z < 10)%nat → (s < 10)%nat → too_large (recompute_layout z s) = false →
  too_large (recompute_layout (pred z) s) = false ∧
  too_large (recompute_layout z (pred s)) = false.
Proof.
  intros Hz Hs Hfit. pose proof fits_table as Htab. rewrite forallb_forall in Htab.
  specialize (Htab z ltac:(apply list_elem_of_In, elem_of_seq; lia)).
  rewrite forallb_forall in Htab.
  specialize (Htab s ltac:(apply list_elem_of_In, elem_of_seq; lia)).
  rewrite Hfit in Htab. simpl in Htab. apply andb_true_iff in Htab as [H1 H2].
  by apply negb_true_iff in H1, H2.
Qed.

(** X21. The settings stay usable whatever buttons are pressed: starting
    from the initial settings, density, grid size and zoom always stay
    between 0 and 9, so every table lookup is inside its table, and the
    window stays below 4000 by 3000 pixels: the size and zoom buttons
    roll back a step that would reach that size. *)
Theorem config_reachable_ok c :
  config_reachable c →
  0 <= config_density c <= 9 ∧ 0 <= config_gridsize c <= 9 ∧ 0 <= config_zoom c <= 9 ∧
  window_width (layout_of c) < MAX_WINDOW_WIDTH ∧
  window_height (layout_of c) < MAX_WINDOW_HEIGHT.
Proof.
  intros Hreach.
  assert (Hok : config_ok c).
  { induction Hreach as [|c _ IH|c _ IH|c _ IH|c _ IH|c _ IH|c _ IH].
    - repeat split; vm_compute; congruence.
    - destruct IH as (Hd & Hs & Hz & Hfit). unfold decrement_density.
      destruct (Z.eqb_spec (config_density c) 0); [done|]. repeat split; simpl; (lia || done).
    - destruct IH as (Hd & Hs & Hz & Hfit). unfold increment_density.
      destruct (Z.eqb_spec (config_density c) 9); [done|]. repeat split; simpl; (lia || done).
    - destruct IH as (Hd & Hs & Hz & Hfit). unfold decrement_gridsize.
      destruct (Z.eqb_spec (config_gridsize c) 0); [done|].
      split; [simpl; lia|]. split; [simpl; lia|]. split; [simpl; lia|].
      unfold layout_of in *. simpl.
      replace (Z.to_nat (config_gridsize c - 1)) with (pred (Z.to_nat (config_gridsize c)))
        by lia.
      apply fits_smaller; [lia|lia|done].
    - destruct IH as (Hd & Hs & Hz & Hfit). unfold increment_gridsize.
      destruct (Z.eqb_spec (config_gridsize c) 9); [done|]. cbv zeta.
      match goal with |- context [too_large ?l] => destruct (too_large l) eqn:Ebig end;
        [exact (conj Hd (conj Hs (conj Hz Hfit)))|].
      split; [simpl; lia|]. split; [simpl; lia|]. split; [simpl; lia|]. exact Ebig.
    - destruct IH as (Hd & Hs & Hz & Hfit). unfold decrement_zoom.
      destruct (Z.eqb_spec (config_zoom c) 0); [done|].
      split; [simpl; lia|]. split; [simpl; lia|]. split; [simpl; lia|].
      unfold layout_of in *. simpl.
      replace (Z.to_nat (config_zoom c - 1)) with (pred (Z.to_nat (config_zoom c))) by lia.
      apply fits_smaller; [lia|lia|done].
    - destruct IH as (Hd & Hs & Hz & Hfit). unfold increment_zoom.
      destruct (Z.eqb_spec (config_zoom c) 9); [done|]. cbv zeta.
      match goal with |- context [too_large ?l] => destruct (too_large l) eqn:Ebig end;
        [exact (conj Hd (conj Hs (conj Hz Hfit)))|].
      split; [simpl; lia|]. split; [simpl; lia|]. split; [simpl; lia|]. exact Ebig. }
  destruct Hok as (Hd & Hs & Hz & Hfit). split; [done|]. split; [done|]. split; [done|].
  unfold too_large in Hfit. apply orb_false_iff in Hfit as [H1 H2].
  apply Z.leb_gt in H1, H2. done.
Qed.

Lemma config_reachable_ok_witness :
  config_reachable (increment_zoom (increment_gridsize initial_config)) ∧
  window_height (layout_of (increment_zoom (increment_gridsize initial_config)))
  < MAX_WINDOW_HEIGHT.
Proof.
  assert (Hr : config_reachable (increment_zoom (increment_gridsize initial_config))).
  { apply config_zoom_more, config_gridsize_more, config_start. }
  split; [exact Hr|].
  exact (proj2 (proj2 (proj2 (proj2 (config_reachable_ok _ Hr))))).
Defined.


(** ** Drawing the grid *)

(** X22. In every state the event loop reaches with a sound solver,
    drawing a cell of the grid passes the assertion on the count, and
    while the game is active the textures drawn show no mine, no
    explosion and no mistaken flag; with question marks switched off
    they show no question mark. *)
Theorem render_grid_cell_hides_mines sv g x y :
  sound_solver sv → game_reachable sv g → inb g x y →
  ∃ l, render_grid_cell g x y = Some l ∧
    (is_active g = true → (tex_mine ∉ l) ∧ (tex_boom ∉ l) ∧ (tex_mistake ∉ l)) ∧
    (config_qmarks g = false → tex_qmark ∉ l).
Proof.
  intros Hsv Hreach Hxy.
  destruct (game_reachable_playable sv g Hsv Hreach) as (Hwf & Hadj & Hvis & _).
  destruct (game_reachable_tidy sv g Hsv Hreach) as (_ & Hq & Hact).
  specialize (Hvis x y Hxy). specialize (Hadj x y Hxy).
  assert (Hrange : 0 <= adj (cell_at g x y) <= 8).
  { rewrite Hadj, count_adjacent_mines_count.
    pose proof (countZ_le_length (λ d, mine (cell_at g d.1 d.2)) (around g x y)).
    pose proof (countZ_nonneg (λ d, mine (cell_at g d.1 d.2)) (around g x y)).
    pose proof (length_around_8 g x y). lia. }
  assert (Hq' : config_qmarks g = false → qmark (cell_at g x y) = false)
    by (intros E; by apply Hq).
  assert (Hact' : is_active g = true →
                  exploded (cell_at g x y) = false ∧ mistake (cell_at g x y) = false)
    by (intros E; by apply Hact).
  clear Hq Hact Hadj Hreach Hwf.
  unfold render_grid_cell. cbv zeta.
  destruct (visible (cell_at g x y)) eqn:Ev.
  - rewrite (Hvis eq_refl).
    replace ((0 <=? adj (cell_at g x y)) && (adj (cell_at g x y) <=? 8)) with true
      by (symmetry; apply andb_true_iff; split; apply Z.leb_le; lia).
    eexists. split; [reflexivity|]. split.
    + intros Ea. destruct (Hact' Ea) as [-> ->]. rewrite Ea. simpl.
      destruct (flag (cell_at g x y)), (qmark (cell_at g x y)); simpl;
        repeat split; intros H;
        repeat (apply elem_of_cons in H as [H|H]; [discriminate|]);
        by apply elem_of_nil in H.
    + intros Eq. rewrite (Hq' Eq), andb_false_r. simpl.
      destruct (exploded (cell_at g x y)), (is_active g), (flag (cell_at g x y)),
        (mistake (cell_at g x y)); simpl; intros H;
        repeat (apply elem_of_cons in H as [H|H]; [discriminate|]);
        by apply elem_of_nil in H.
  - eexists. split; [reflexivity|]. split.
    + intros Ea. destruct (Hact' Ea) as [-> ->]. rewrite Ea. simpl.
      destruct (flag (cell_at g x y)), (qmark (cell_at g x y)); simpl;
        repeat split; intros H;
        repeat (apply elem_of_cons in H as [H|H]; [discriminate|]);
        by apply elem_of_nil in H.
    + intros Eq. rewrite (Hq' Eq), andb_false_r. simpl.
      destruct (exploded (cell_at g x y)), (is_active g), (mine (cell_at g x y)),
        (flag (cell_at g x y)), (mistake (cell_at g x y)); simpl; intros H;
        repeat (apply elem_of_cons in H as [H|H]; [discriminate|]);
        by apply elem_of_nil in H.
Qed.

Lemma render_grid_cell_hides_mines_witness :
  ∃ l, render_grid_cell diagonal_opened 2 1 = Some l ∧
    (is_active diagonal_opened = true → (tex_mine ∉ l) ∧ (tex_boom ∉ l) ∧ (tex_mistake ∉ l)) ∧
    (config_qmarks diagonal_opened = false → tex_qmark ∉ l).
Proof.
  apply (render_grid_cell_hides_mines enumerating diagonal_opened 2 1
           enumerating_sound diagonal_opened_reachable).
  vm_compute. repeat split; discriminate.
Defined.

(** ** The end of a game *)

(** X23. [end_game] sets the status as asked and marks the wrong flags:
    on a well-formed grid a cell is marked as a mistake afterwards
    exactly when it was already or carries a flag without holding a
    mine; no other field of any cell and no dimension changes. *)
Theorem end_game_marks_wrong_flags g won x y :
  wf g → inb g x y →
  status (end_game g won) = (if won then game_won else game_lost) ∧
  same_dims g (end_game g won) ∧
  mistake (cell_at (end_game g won) x y)
  = mistake (cell_at g x y) || (flag (cell_at g x y) && negb (mine (cell_at g x y))) ∧
  mine (cell_at (end_game g won) x y) = mine (cell_at g x y) ∧
  adj (cell_at (end_game g won) x y) = adj (cell_at g x y) ∧
  visible (cell_at (end_game g won) x y) = visible (cell_at g x y) ∧
  flag (cell_at (end_game g won) x y) = flag (cell_at g x y) ∧
  qmark (cell_at (end_game g won) x y) = qmark (cell_at g x y) ∧
  exploded (cell_at (end_game g won) x y) = exploded (cell_at g x y).
Proof.
  intros Hwf Hxy. split; [apply end_game_status|]. split; [by apply end_game_same_dims|].
  rewrite cell_at_end_game by done. unfold mark_mistake.
  destruct (cell_at g x y) as [m e f q v mi a]. simpl.
  destruct f, m, mi; simpl; by repeat split.
Qed.

Lemma end_game_marks_wrong_flags_witness :
  mistake (cell_at (end_game (set_cell row4 2 0 (set_flag true)) false) 2 0)
  = mistake (cell_at (set_cell row4 2 0 (set_flag true)) 2 0)
    || (flag (cell_at (set_cell row4 2 0 (set_flag true)) 2 0)
        && negb (mine (cell_at (set_cell row4 2 0 (set_flag true)) 2 0))).
Proof.
  refine (proj1 (proj2 (proj2 (end_game_marks_wrong_flags
                                 (set_cell row4 2 0 (set_flag true)) false 2 0 _ _)))).
  - vm_compute. repeat split; discriminate.
  - vm_compute. repeat split; discriminate.
Defined.

(** X24. Only the luck settings move mines.  With neutral luck and
    after the first move a left click leaves every mine where it was,
    whatever the solver and the draws; released on an unmarked mine it
    loses the game, marks that cell exploded and reveals nothing.  A
    middle click never moves a mine either. *)
Theorem neutral_luck_plays_as_laid sv rnd fuel g x y :
  wf g → inb g x y →
  (first_move g = false → config_luck g = neutral →
   ∀ g', left_up sv rnd fuel g x y = Ret g' →
     mines_kept g g' ∧
     (flag (cell_at g x y) = false → qmark (cell_at g x y) = false →
      mine (cell_at g x y) = true →
      status g' = game_lost ∧ exploded (cell_at g' x y) = true ∧
      ∀ i j, inb g i j → visible (cell_at g' i j) = visible (cell_at g i j))) ∧
  (∀ g', middle_up fuel g x y = Ret g' → mines_kept g g').
Proof.
  intros Hwf Hxy. split.
  - intros Hfm Hluck g'. unfold left_up. rewrite Hfm, Hluck. cbn [andb is_bad is_great is_good orb].
    cbv zeta.
    change (end_game (set_cell ?a x y (set_exploded true)) false) with (explode a x y).
    destruct (flag (cell_at g x y)) eqn:Ef;
      [simpl; intros [= <-]; split; [apply mines_kept_refl|done]|].
    destruct (qmark (cell_at g x y)) eqn:Eq;
      [simpl; intros [= <-]; split; [apply mines_kept_refl|done]|].
    destruct (mine (cell_at g x y)) eqn:Em.
    + cbn [negb andb rbind fst snd]. intros [= <-].
      pose proof (explode_same_board g x y Hwf Hxy) as Hsb.
      split; [by apply same_board_mines_kept|]. intros _ _ _.
      split; [done|]. split.
      * change (cell_at (with_first_move ?a _) x y) with (cell_at a x y).
        unfold explode. rewrite cell_at_end_game.
        -- rewrite cell_at_set_cell_eq by done. unfold mark_mistake.
           by destruct (flag _ && negb _).
        -- eapply same_dims_wf; [apply set_cell_same_dims|done].
        -- eapply same_dims_inb; [apply set_cell_same_dims|done].
      * intros i j Hij. destruct Hsb as [_ Hsb]. by destruct (Hsb i j Hij) as (_ & _ & ?).
    + cbn [negb andb rbind fst snd].
      destruct (bucket_reveal fuel g x y) as [[g2 log]|] eqn:Er; [|done].
      cbn [rbind fst snd]. intros [= <-]. split; [|done].
      pose proof (bucket_reveal_mines_kept fuel g x y g2 log Hwf Hxy Er) as [Hd Hk].
      split; [|intros i j Hij; unfold check_won; destruct (_ =? _); by apply Hk].
      unfold check_won. by destruct (_ =? _).
  - intros g'. unfold middle_up.
    destruct (visible (cell_at g x y)).
    + destruct (chord_reveal fuel g x y) as [g1|] eqn:Ec; [|done].
      cbn [rbind]. intros [= <-].
      assert (Hk : mines_kept g g1).
      { revert Ec. unfold chord_reveal. destruct (chord_flag_count g x y);
          [|intros [= <-]; apply mines_kept_refl].
        destruct (_ =? _); [|intros [= <-]; apply mines_kept_refl].
        intros Ec. eapply chord_loop_mines_kept; [done| |exact Ec].
        apply around_Forall_inb. }
      destruct Hk as [Hd Hk]. unfold check_won.
      split; [by destruct (_ =? _)|]. intros i j Hij. destruct (_ =? _); by apply Hk.
    + cbn [rbind]. intros [= <-]. unfold check_won.
      split; [by destruct (_ =? _)|]. intros i j Hij. by destruct (_ =? _).
Qed.

Lemma neutral_luck_plays_as_laid_witness :
  ∃ g', left_up enumerating (λ j, j) 16 diagonal_opened 0 0 = Ret g' ∧
        status g' = game_lost ∧ exploded (cell_at g' 0 0) = true.
Proof.
  assert (Hwf : wf diagonal_opened)
    by (split; [|split]; [vm_compute; discriminate..|vm_compute; reflexivity]).
  assert (Hxy : inb diagonal_opened 0 0) by (vm_compute; repeat split; discriminate).
  assert (Hfm : first_move diagonal_opened = false) by (vm_compute; reflexivity).
  assert (Hl : config_luck diagonal_opened = neutral) by (vm_compute; reflexivity).
  assert (Hf : flag (cell_at diagonal_opened 0 0) = false) by (vm_compute; reflexivity).
  assert (Hq : qmark (cell_at diagonal_opened 0 0) = false) by (vm_compute; reflexivity).
  assert (Hm : mine (cell_at diagonal_opened 0 0) = true) by (vm_compute; reflexivity).
  destruct (left_up enumerating (λ j, j) 16 diagonal_opened 0 0) as [g'|f] eqn:Hrun;
    [|exfalso; revert Hrun; vm_compute; discriminate].
  exists g'. split; [reflexivity|].
  destruct (proj1 (neutral_luck_plays_as_laid enumerating (λ j, j) 16 diagonal_opened 0 0
                     Hwf Hxy) Hfm Hl g' Hrun) as [_ H].
  destruct (H Hf Hq Hm) as (Hs & He & _). split; [exact Hs|exact He].
Defined.
